(** * parsegen: finite automata, lexer assembly and LALR(1) table construction

    A shallow embedding of the construction pipeline of parsegen-cpp
    (parsegen_finite_automaton.cpp, parsegen_language.cpp,
    parsegen_build_parser.cpp, parsegen_regex.cpp) together with the
    properties its specification states about it.

    Conventions.  A C++ [int] is a [Z]; a [std::vector] is a [list] read with
    [at_] (an index outside the vector is undefined behaviour in the source;
    the model reads the default value there and theorems about automata assume
    well-formed tables, in which every index is in range); a [std::set<int>]
    is a [gset Z]; loops [for (int i = 0; i < n; ++i)] are folds over
    [seqZ 0 n]; worklist loops take fuel and return [None] when it runs
    out. *)

From stdpp Require Import gmap strings list fin_maps sets pretty sorting.

Local Open Scope Z_scope.

(** ** Vectors and dense tables *)

Definition at_ {A} (d : A) (l : list A) (i : Z) : A := nth (Z.to_nat i) l d.

Definition isize {A} (l : list A) : Z := Z.of_nat (length l).

(** Modelled from the spec: [Table<int>] of parsegen_table.hpp, which is not
    among the sources: "a dense table of shape nstates x (nsymbols +
    eps_width)" whose cells hold a next-state index or -1. *)
Record Table := mkTable { ncols : Z; rows : list (list Z) }.

Definition get_nrows (t : Table) : Z := isize (rows t).
Definition get_ncols (t : Table) : Z := ncols t.
Definition at2 (t : Table) (i j : Z) : Z := at_ (-1) (at_ [] (rows t) i) j.
Definition set_at2 (t : Table) (i j v : Z) : Table :=
  mkTable (ncols t) (alter (λ row, <[Z.to_nat j := v]> row) (Z.to_nat i) (rows t)).
(** [resize(table, nrows + 1, ncols)] followed by filling the new row. *)
Definition push_row (t : Table) (row : list Z) : Table :=
  mkTable (ncols t) (rows t ++ [row]).

(** ** The automaton *)

Record finite_automaton := mkFA {
  table : Table;
  accepted_tokens : list Z;
  is_deterministic : bool
}.

Definition new_automaton (nsymbols_init : Z) (is_deterministic_init : bool) : finite_automaton :=
  mkFA (mkTable (nsymbols_init + (if is_deterministic_init then 0 else 2)) [])
       [] is_deterministic_init.

Definition get_nstates (fa : finite_automaton) : Z := get_nrows (table fa).

Definition get_nsymbols (fa : finite_automaton) : Z :=
  get_ncols (table fa) - (if is_deterministic fa then 0 else 2).

Definition get_determinism (fa : finite_automaton) : bool := is_deterministic fa.

Definition get_epsilon0 (fa : finite_automaton) : Z := get_ncols (table fa) - 2.
Definition get_epsilon1 (fa : finite_automaton) : Z := get_ncols (table fa) - 1.

(** [add_state] returns the index of the new state, which is the state count
    before the call; callers read it with [get_nstates] first. *)
Definition add_state (fa : finite_automaton) : finite_automaton :=
  mkFA (push_row (table fa) (replicate (Z.to_nat (get_ncols (table fa))) (-1)))
       (accepted_tokens fa ++ [-1])
       (is_deterministic fa).

Definition add_transition (fa : finite_automaton) (from_state at_symbol to_state : Z)
  : finite_automaton :=
  mkFA (set_at2 (table fa) from_state at_symbol to_state)
       (accepted_tokens fa) (is_deterministic fa).

Definition add_accept (fa : finite_automaton) (state token : Z) : finite_automaton :=
  mkFA (table fa) (<[Z.to_nat state := token]> (accepted_tokens fa)) (is_deterministic fa).

Definition remove_accept (fa : finite_automaton) (state : Z) : finite_automaton :=
  mkFA (table fa) (<[Z.to_nat state := -1]> (accepted_tokens fa)) (is_deterministic fa).

Definition step (fa : finite_automaton) (state symbol : Z) : Z :=
  at2 (table fa) state symbol.

Definition accepts (fa : finite_automaton) (state : Z) : Z :=
  at_ (-1) (accepted_tokens fa) state.

Definition get_nsymbols_eps (fa : finite_automaton) : Z := get_ncols (table fa).

Definition append_states (fa other : finite_automaton) : finite_automaton :=
  let offset := get_nstates fa in
  let fa :=
    foldl (λ fa other_state,
             let my_state := get_nstates fa in
             let fa := add_state fa in
             let token := accepts other other_state in
             if decide (0 ≤ token) then add_accept fa my_state token else fa)
          fa (seqZ 0 (get_nstates other)) in
  foldl (λ fa other_state,
           let my_state := other_state + offset in
           foldl (λ fa symbol,
                    let other_next := step other other_state symbol in
                    if decide (other_next < 0) then fa
                    else add_transition fa my_state symbol (other_next + offset))
                 fa (seqZ 0 (get_nsymbols_eps other)))
        fa (seqZ 0 (get_nstates other)).

(** ** Subset construction helpers *)

(** [step(StateSet const&, int, finite_automaton const&)]. *)
Definition step_set (ss : gset Z) (symbol : Z) (fa : finite_automaton) : gset Z :=
  foldl (λ next_ss state,
           let next_state := step fa state symbol in
           if decide (next_state ≠ -1) then {[next_state]} ∪ next_ss else next_ss)
        ∅ (elements ss).

(** The body of the [for (epsilon = epsilon0; epsilon <= epsilon1; ++epsilon)]
    loop of [get_epsilon_closure], on the pair (set, queue). *)
Definition closure_visit (fa : finite_automaton) (state : Z)
    (acc : gset Z * list Z) (epsilon : Z) : gset Z * list Z :=
  let '(ss, q) := acc in
  let next_state := step fa state epsilon in
  if decide (next_state = -1) then (ss, q)
  else if decide (next_state ∈ ss) then (ss, q)
  else ({[next_state]} ∪ ss, q ++ [next_state]).

Fixpoint closure_loop (fuel : nat) (fa : finite_automaton) (ss : gset Z) (q : list Z)
  : option (gset Z) :=
  match q with
  | [] => Some ss
  | state :: q =>
      match fuel with
      | O => None
      | S fuel =>
          let epsilon0 := get_epsilon0 fa in
          let epsilon1 := get_epsilon1 fa in
          let '(ss, q) :=
            foldl (closure_visit fa state) (ss, q)
                  (seqZ epsilon0 (epsilon1 - epsilon0 + 1)) in
          closure_loop fuel fa ss q
      end
  end.

(** Every iteration pops one state and pushes only states that were not yet
    in the set, so the queue is popped at most [|ss| + 2 * nstates] times. *)
Definition closure_fuel (fa : finite_automaton) (ss : gset Z) : nat :=
  (length (elements ss) + 2 * Z.to_nat (get_nstates fa) + 1)%nat.

Definition get_epsilon_closure (ss : gset Z) (fa : finite_automaton) : option (gset Z) :=
  closure_loop (closure_fuel fa ss) fa ss (elements ss).

(** [state_row_compare]: the strict order on states by accept token, then by
    transition row, that keys the map of [simplify_once]. *)
Fixpoint row_less (ra rb : list Z) : bool :=
  match ra, rb with
  | ea :: ra, eb :: rb => if decide (ea ≠ eb) then bool_decide (ea < eb) else row_less ra rb
  | _, _ => false
  end.

Definition state_row_compare (tbl : Table) (accepted : list Z) (a b : Z) : bool :=
  let aa := at_ (-1) accepted a in
  let ab := at_ (-1) accepted b in
  if decide (aa ≠ ab) then bool_decide (aa < ab)
  else row_less (map (at2 tbl a) (seqZ 0 (get_ncols tbl)))
                (map (at2 tbl b) (seqZ 0 (get_ncols tbl))).

(** [std::map<int, int, state_row_compare>] as the list of its (key, value)
    pairs; two keys are the same key when neither is less than the other. *)
Definition sr2ss_find (fa : finite_automaton) (sr2ss : list (Z * Z)) (state : Z)
  : option Z :=
  snd <$> List.find (λ kv, negb (state_row_compare (table fa) (accepted_tokens fa) (fst kv) state)
                            && negb (state_row_compare (table fa) (accepted_tokens fa) state (fst kv)))
                    sr2ss.

(** A fold whose body can fail (run out of fuel in a nested loop). *)
Fixpoint foldl_opt {A B} (f : A → B → option A) (a : A) (l : list B) : option A :=
  match l with
  | [] => Some a
  | x :: l => a' ← f a x; foldl_opt f a' l
  end.

(** The state of the subset construction: the interning map [ssp2s], the
    vector of interned sets [ssupv] and the automaton under construction. *)
Record determinize_state := mkDS {
  ssp2s : gmap (gset Z) Z;
  ssupv : list (gset Z);
  out_fa : finite_automaton
}.

(** One pass of the [for (symbol ...)] loop of [make_deterministic]. *)
Definition determinize_symbol (nfa : finite_automaton) (state : Z) (ss : gset Z)
    (st : determinize_state) (symbol : Z) : option determinize_state :=
  let next_ss := step_set ss symbol nfa in
  if decide (next_ss = ∅) then Some st
  else
    next_ss ← get_epsilon_closure next_ss nfa;
    let '(next_state, st) :=
      match ssp2s st !! next_ss with
      | None =>
          let next_state := get_nstates (out_fa st) in
          (next_state,
           mkDS (<[next_ss := next_state]> (ssp2s st))
                (ssupv st ++ [next_ss])
                (add_state (out_fa st)))
      | Some next_state => (next_state, st)
      end in
    Some (mkDS (ssp2s st) (ssupv st)
               (add_transition (out_fa st) state symbol next_state)).

Definition min_accepted_of (nfa : finite_automaton) (ss : gset Z) : Z :=
  foldl (λ min_accepted nfa_state,
           let nfa_token := accepts nfa nfa_state in
           if decide (nfa_token = -1) then min_accepted
           else if decide (min_accepted = -1 ∨ nfa_token < min_accepted) then nfa_token
           else min_accepted)
        (-1) (elements ss).

Fixpoint determinize_loop (fuel : nat) (nfa : finite_automaton)
    (st : determinize_state) (front : Z) : option determinize_state :=
  if decide (front < isize (ssupv st)) then
    match fuel with
    | O => None
    | S fuel =>
        let state := front in
        let ss := at_ ∅ (ssupv st) front in
        let front := front + 1 in
        st ← foldl_opt (determinize_symbol nfa state ss) st (seqZ 0 (get_nsymbols nfa));
        let min_accepted := min_accepted_of nfa ss in
        let st :=
          if decide (min_accepted ≠ -1)
          then mkDS (ssp2s st) (ssupv st) (add_accept (out_fa st) state min_accepted)
          else st in
        determinize_loop fuel nfa st front
    end
  else Some st.

(** The subset construction proper: the interned sets together with the
    automaton built from them.  It interns at most [2 ^ nstates] sets. *)
Definition determinize (nfa : finite_automaton) : option determinize_state :=
  let out := new_automaton (get_nsymbols nfa) true in
  let start_ss : gset Z := {[0]} in
  start_ss ← get_epsilon_closure start_ss nfa;
  let start_state := get_nstates out in
  let out := add_state out in
  determinize_loop (2 ^ Z.to_nat (get_nstates nfa) + 1)%nat nfa
                   (mkDS {[start_ss := start_state]} [start_ss] out) 0.

(** One pass of the first loop of [simplify_once]: [sr2ss.insert] keeps the
    map unchanged when an equivalent key is present. *)
Definition simplify_insert (fa : finite_automaton) (acc : list (Z * Z) * Z) (state : Z)
  : list (Z * Z) * Z :=
  let '(sr2ss, nsimple) := acc in
  match sr2ss_find fa sr2ss state with
  | Some _ => (sr2ss, nsimple)
  | None => (sr2ss ++ [(state, nsimple)], nsimple + 1)
  end.

(** One pass of the second loop of [simplify_once]; [sr2ss[state]] of a state
    that has no key would insert 0, which the source asserts never happens. *)
Definition simplify_emit (fa : finite_automaton) (sr2ss : list (Z * Z))
    (acc : finite_automaton * list bool) (state : Z) : finite_automaton * list bool :=
  let '(out, did_simple) := acc in
  let simple := default 0 (sr2ss_find fa sr2ss state) in
  if at_ false did_simple simple then (out, did_simple)
  else
    let out :=
      foldl (λ out symbol,
               let next_state := step fa state symbol in
               if decide (next_state = -1) then out
               else
                 let next_simple := default 0 (sr2ss_find fa sr2ss next_state) in
                 add_transition out simple symbol next_simple)
            out (seqZ 0 (get_nsymbols_eps fa)) in
    let token := accepts fa state in
    let out := if decide (token ≠ -1) then add_accept out simple token else out in
    (out, <[Z.to_nat simple := true]> did_simple).

(** The static member functions of [finite_automaton]. *)
Module finite_automaton.

Definition make_set_nfa (nsymbols : Z) (accepted : gset Z) (token : Z) : finite_automaton :=
  let out := new_automaton nsymbols true in
  let start_state := get_nstates out in
  let out := add_state out in
  let accept_state := get_nstates out in
  let out := add_state out in
  let out := foldl (λ out i, add_transition out start_state i accept_state)
                   out (elements accepted) in
  add_accept out accept_state token.

Definition make_range_nfa (nsymbols range_start range_end token : Z) : finite_automaton :=
  let out := new_automaton nsymbols true in
  let start_state := get_nstates out in
  let out := add_state out in
  let accept_state := get_nstates out in
  let out := add_state out in
  let out := foldl (λ out i, add_transition out start_state i accept_state)
                   out (seqZ range_start (range_end - range_start + 1)) in
  add_accept out accept_state token.

Definition make_single_nfa (nsymbols symbol token : Z) : finite_automaton :=
  make_range_nfa nsymbols symbol symbol token.

Definition unite (a b : finite_automaton) : finite_automaton :=
  let nsymbols := get_nsymbols a in
  let out := new_automaton nsymbols false in
  let start_state := get_nstates out in
  let out := add_state out in
  let a_offset := get_nstates out in
  let out := append_states out a in
  let b_offset := get_nstates out in
  let out := append_states out b in
  let epsilon0 := get_epsilon0 out in
  let epsilon1 := get_epsilon1 out in
  let out := add_transition out start_state epsilon0 a_offset in
  add_transition out start_state epsilon1 b_offset.

Definition concat (a b : finite_automaton) (token : Z) : finite_automaton :=
  let nsymbols := get_nsymbols a in
  let out := new_automaton nsymbols false in
  let out := append_states out a in
  let b_offset := get_nstates out in
  let out := append_states out b in
  let epsilon0 := get_epsilon0 out in
  let out :=
    foldl (λ out i,
             if decide (accepts a i ≠ -1)
             then remove_accept (add_transition out i epsilon0 b_offset) i
             else out)
          out (seqZ 0 (get_nstates a)) in
  foldl (λ out i,
           if decide (accepts b i ≠ -1) then add_accept out (i + b_offset) token else out)
        out (seqZ 0 (get_nstates b)).

Definition plus (a : finite_automaton) (token : Z) : finite_automaton :=
  let out := new_automaton (get_nsymbols a) false in
  let out := append_states out a in
  let new_accept_state := get_nstates out in
  let out := add_state out in
  let out := add_accept out new_accept_state token in
  let epsilon0 := get_epsilon0 out in
  let epsilon1 := get_epsilon1 out in
  foldl (λ out i,
           if decide (accepts a i ≠ -1)
           then
             let out := add_transition out i epsilon0 new_accept_state in
             let out := add_transition out i epsilon1 0 in
             remove_accept out i
           else out)
        out (seqZ 0 (get_nstates a)).

Definition maybe (a : finite_automaton) (token : Z) : finite_automaton :=
  let out := new_automaton (get_nsymbols a) false in
  let new_start_state := get_nstates out in
  let out := add_state out in
  let offset := get_nstates out in
  let out := append_states out a in
  let new_accept_state := get_nstates out in
  let out := add_state out in
  let epsilon0 := get_epsilon0 out in
  let epsilon1 := get_epsilon1 out in
  let out := add_transition out new_start_state epsilon1 offset in
  let last := new_start_state in
  let '(out, last) :=
    foldl (λ '(out, last) i,
             if decide (accepts a i ≠ -1)
             then
               let out := add_transition out last epsilon0 (i + offset) in
               let out := remove_accept out (i + offset) in
               (out, i + offset)
             else (out, last))
          (out, last) (seqZ 0 (get_nstates a)) in
  let out := add_transition out last epsilon0 new_accept_state in
  add_accept out new_accept_state token.

Definition star (a : finite_automaton) (token : Z) : finite_automaton :=
  maybe (plus a token) token.

Definition make_deterministic (nfa : finite_automaton) : option finite_automaton :=
  if get_determinism nfa then Some nfa
  else out_fa <$> determinize nfa.

Definition simplify_once (fa : finite_automaton) : finite_automaton :=
  let '(sr2ss, nsimple) :=
    foldl (simplify_insert fa) ([], 0) (seqZ 0 (get_nstates fa)) in
  let out := new_automaton (get_nsymbols fa) (get_determinism fa) in
  let out := foldl (λ out _, add_state out) out (seqZ 0 nsimple) in
  let did_simple := replicate (Z.to_nat nsimple) false in
  fst (foldl (simplify_emit fa sr2ss) (out, did_simple) (seqZ 0 (get_nstates fa))).

(** The [do ... while (nstates_new < nstates)] loop.  The state count drops
    on every repeated pass, so [nstates + 1] passes always suffice. *)
Fixpoint simplify_loop (fuel : nat) (out : finite_automaton) (nstates_new : Z)
  : option finite_automaton :=
  match fuel with
  | O => None
  | S fuel =>
      let nstates := nstates_new in
      let out := simplify_once out in
      let nstates_new := get_nstates out in
      if decide (nstates_new < nstates) then simplify_loop fuel out nstates_new
      else Some out
  end.

Definition simplify (fa : finite_automaton) : option finite_automaton :=
  simplify_loop (Z.to_nat (get_nstates fa) + 1) fa (get_nstates fa).

End finite_automaton.

(** ** Outcomes of the build functions *)

(** The exceptions the builders throw, with their [what()] text. *)
Inductive exception :=
  | invalid_argument (what : string)
  | runtime_error (what : string)
  | parse_error (what : string).

(** A call returns, throws, or ends the process with [abort()] after writing
    to [std::cerr]; [OutOfFuel] is the model's own: a worklist loop was given
    too little fuel. *)
Inductive outcome (A : Type) :=
  | Returned (a : A)
  | Thrown (e : exception)
  | Aborted (stderr : string)
  | OutOfFuel.
Arguments Returned {A} a.
Arguments Thrown {A} e.
Arguments Aborted {A} stderr.
Arguments OutOfFuel {A}.

Definition outcome_bind {A B} (m : outcome A) (k : A → outcome B) : outcome B :=
  match m with
  | Returned a => k a
  | Thrown e => Thrown e
  | Aborted msg => Aborted msg
  | OutOfFuel => OutOfFuel
  end.

Notation "x ←! m ; k" := (outcome_bind m (λ x, k))
  (at level 20, m at level 100, k at level 200, only parsing, right associativity).

Definition of_option {A} (m : option A) : outcome A :=
  match m with Some a => Returned a | None => OutOfFuel end.

Definition newline : string := String (Ascii.ascii_of_nat 10) "".
Definition dquote : string := String (Ascii.ascii_of_nat 34) "".

(** ** Languages and grammars *)

Module language.
Record token := mkToken { name : string; regex : string }.
Record production := mkProduction { lhs : string; rhs : list string }.
Record t := mk {
  tokens : list token;
  productions : list production;
  ignored_tokens : list string
}.
End language.

Module grammar.
Record production := mkProduction { lhs : Z; rhs : list Z }.
Record t := mk {
  nsymbols : Z;
  nterminals : Z;
  productions : list production;
  symbol_names : list string;
  ignored_terminals : list Z
}.
End grammar.

(** ** Lexer assembly (parsegen_language.cpp) *)

Section build_lexer.
(** [regex::build_dfa] runs the regex parser, whose driver is not among the
    sources; [default_automaton] is the default-constructed automaton. *)
Context (build_dfa : string → string → Z → outcome finite_automaton)
        (default_automaton : finite_automaton).

(** One pass of the loop over the token declarations. *)
Definition build_lexer_token (lexer : finite_automaton) (i : Z) (token : language.token)
  : outcome finite_automaton :=
  let name := language.name token in
  let regex := language.regex token in
  if decide (name = "") then
    Aborted ("ERROR: token " +:+ pretty i +:+ " has empty name" +:+ newline)
  else if decide (regex = "") then
    Aborted ("ERROR: token " +:+ pretty i +:+ " has empty regex" +:+ newline)
  else if decide (i = 0) then build_dfa name regex i
  else
    dfa ←! build_dfa name regex i;
    Returned (finite_automaton.unite lexer dfa).

Fixpoint build_lexer_loop (lexer : finite_automaton) (i : Z) (tokens : list language.token)
  : outcome finite_automaton :=
  match tokens with
  | [] => Returned lexer
  | token :: tokens =>
      lexer ←! build_lexer_token lexer i token;
      build_lexer_loop lexer (i + 1) tokens
  end.

Definition build_lexer (language : language.t) : outcome finite_automaton :=
  lexer ←! build_lexer_loop default_automaton 0 (language.tokens language);
  of_option (finite_automaton.make_deterministic lexer ≫= finite_automaton.simplify).

End build_lexer.

(** ** Indentation detection (parsegen_language.cpp) *)

Record indentation := mkIndentation {
  is_sensitive : bool;
  indent_token : Z;
  dedent_token : Z;
  newline_token : Z
}.

(** One pass of the loop over the token declarations. *)
Definition build_indent_token (out : indentation) (tok_i : Z) (token : language.token)
  : outcome indentation :=
  if decide (language.name token = "INDENT") then
    if decide (indent_token out ≠ -1) then
      Thrown (invalid_argument ("The language has two or more INDENT tokens" +:+ newline))
    else
      Returned (mkIndentation true tok_i (dedent_token out) (newline_token out))
  else if decide (language.name token = "DEDENT") then
    if decide (dedent_token out ≠ -1) then
      Thrown (invalid_argument ("The language has two or more DEDENT tokens" +:+ newline))
    else
      Returned (mkIndentation (is_sensitive out) (indent_token out) tok_i (newline_token out))
  else if decide (language.name token = "NEWLINE") then
    if decide (newline_token out ≠ -1) then
      Thrown (invalid_argument ("The language has two or more NEWLINE tokens" +:+ newline))
    else
      Returned (mkIndentation (is_sensitive out) (indent_token out) (dedent_token out) tok_i)
  else Returned out.

Fixpoint build_indent_loop (out : indentation) (tok_i : Z) (tokens : list language.token)
  : outcome indentation :=
  match tokens with
  | [] => Returned out
  | token :: tokens =>
      out ←! build_indent_token out tok_i token;
      build_indent_loop out (tok_i + 1) tokens
  end.

Definition build_indent_info (language : language.t) : outcome indentation :=
  let out := mkIndentation false (-1) (-1) (-1) in
  out ←! build_indent_loop out 0 (language.tokens language);
  if is_sensitive out && bool_decide (indent_token out = -1) then
    Thrown (invalid_argument
      ("This indentation-sensitive language has no INDENT token" +:+ newline))
  else if is_sensitive out && bool_decide (dedent_token out = -1) then
    Thrown (invalid_argument
      ("This indentation-sensitive language has no DEDENT token" +:+ newline))
  else if is_sensitive out && bool_decide (newline_token out = -1) then
    Thrown (invalid_argument
      ("This indentation-sensitive language has no NEWLINE token" +:+ newline))
  else if bool_decide (indent_token out < newline_token out)
          || bool_decide (dedent_token out < newline_token out) then
    Thrown (invalid_argument
      ("NEWLINE needs to come before all other indent tokens" +:+ newline))
  else Returned out.

(** ** Running an automaton *)

(** The deterministic run: follow the table from [state]; a missing
    transition rejects, otherwise the verdict is the accept token of the
    state reached (-1 when it does not accept). *)
Fixpoint run_from (fa : finite_automaton) (state : Z) (s : list Z) : Z :=
  match s with
  | [] => accepts fa state
  | symbol :: s =>
      let next_state := step fa state symbol in
      if decide (next_state = -1) then -1 else run_from fa next_state s
  end.

Definition run_dfa (fa : finite_automaton) (s : list Z) : Z := run_from fa 0 s.

(** ** Specification vocabulary for automata *)

(** The table has one row per state, each [ncols] wide, and one accept
    token per state. *)
Record shaped (fa : finite_automaton) : Prop := mkShaped {
  shaped_ncols : 0 ≤ get_nsymbols fa;
  shaped_tokens : length (accepted_tokens fa) = length (rows (table fa));
  shaped_rows : Forall (λ row, isize row = get_ncols (table fa)) (rows (table fa))
}.

(** What a copied state accepts: [append_states] copies only tokens [>= 0]. *)
Definition copied_token (other : finite_automaton) (i : Z) : Z :=
  if decide (0 ≤ accepts other i) then accepts other i else -1.

(** What a copied cell holds: transitions are shifted by [offset]. *)
Definition copied_cell (fa other : finite_automaton) (offset i c : Z) : Z :=
  if decide (c < get_ncols (table other) ∧ c < get_ncols (table fa) ∧ 0 ≤ step other i c)
  then step other i c + offset else -1.

Record appended (fa other out : finite_automaton) : Prop := mkAppended {
  app_shaped : shaped out;
  app_nstates : get_nstates out = get_nstates fa + get_nstates other;
  app_ncols : get_ncols (table out) = get_ncols (table fa);
  app_det : is_deterministic out = is_deterministic fa;
  app_step : ∀ s c, 0 ≤ s → 0 ≤ c →
    step out s c =
      if decide (s < get_nstates fa) then step fa s c
      else if decide (s < get_nstates fa + get_nstates other)
           then copied_cell fa other (get_nstates fa) (s - get_nstates fa) c
           else -1;
  app_accepts : ∀ s, 0 ≤ s →
    accepts out s =
      if decide (s < get_nstates fa) then accepts fa s
      else if decide (s < get_nstates fa + get_nstates other)
           then copied_token other (s - get_nstates fa)
           else -1
}.

(** "Accepting states should not have outgoing epsilon transitions": the
    epsilon columns are those from [get_nsymbols] up to the table width (none
    for a deterministic automaton). *)
Definition accepting_without_epsilon (fa : finite_automaton) : Prop :=
  ∀ state epsilon,
    0 ≤ state < get_nstates fa → accepts fa state ≠ -1 →
    get_nsymbols fa ≤ epsilon < get_nsymbols_eps fa →
    step fa state epsilon = -1.

(** Well-formed automata: at least the start state, every cell is -1 or a
    state index, and every accept token is -1 or a token id. *)
Record well_formed (fa : finite_automaton) : Prop := mkWF {
  wf_shaped : shaped fa;
  wf_start : 0 < get_nstates fa;
  wf_cells : ∀ state symbol,
    0 ≤ state < get_nstates fa → 0 ≤ symbol < get_nsymbols_eps fa →
    -1 ≤ step fa state symbol < get_nstates fa;
  wf_tokens : ∀ state, 0 ≤ state < get_nstates fa → -1 ≤ accepts fa state
}.

(** Boolean checkers, for closed automata. *)
Definition shapedb (fa : finite_automaton) : bool :=
  bool_decide (0 ≤ get_nsymbols fa)
  && bool_decide (length (accepted_tokens fa) = length (rows (table fa)))
  && forallb (λ row, bool_decide (isize row = get_ncols (table fa))) (rows (table fa)).

Definition well_formedb (fa : finite_automaton) : bool :=
  shapedb fa
  && bool_decide (0 < get_nstates fa)
  && forallb (λ state,
       forallb (λ symbol, bool_decide (-1 ≤ step fa state symbol < get_nstates fa))
               (seqZ 0 (get_nsymbols_eps fa))
       && bool_decide (-1 ≤ accepts fa state))
     (seqZ 0 (get_nstates fa)).

Definition accepting_without_epsilonb (fa : finite_automaton) : bool :=
  forallb (λ state,
       bool_decide (accepts fa state = -1)
       || forallb (λ epsilon, bool_decide (step fa state epsilon = -1))
                  (seqZ (get_nsymbols fa) (get_nsymbols_eps fa - get_nsymbols fa)))
     (seqZ 0 (get_nstates fa)).

(** ** What an automaton accepts *)

(** An epsilon move; only a non-deterministic automaton has the two epsilon
    columns. *)
Definition epsilon_move (fa : finite_automaton) (p q : Z) : Prop :=
  is_deterministic fa = false ∧ q ≠ -1
  ∧ (step fa p (get_epsilon0 fa) = q ∨ step fa p (get_epsilon1 fa) = q).

Definition epsilon_reach (fa : finite_automaton) : Z → Z → Prop := rtc (epsilon_move fa).

(** [reaches fa p s r]: from state [p] the automaton can consume [s], with
    epsilon moves in between, and be in state [r]. *)
Inductive reaches (fa : finite_automaton) : Z → list Z → Z → Prop :=
  | reaches_nil p r :
      epsilon_reach fa p r → reaches fa p [] r
  | reaches_cons p p' symbol q s r :
      epsilon_reach fa p p' → step fa p' symbol = q → q ≠ -1 →
      reaches fa q s r → reaches fa p (symbol :: s) r.

(** The verdict on a set of states: -1 when none accepts, otherwise the
    smallest accept token among them. *)
Definition min_token_of (fa : finite_automaton) (R : Z → Prop) (token : Z) : Prop :=
  (token = -1 ∧ ∀ r, R r → accepts fa r = -1)
  ∨ (token ≠ -1 ∧ (∃ r, R r ∧ accepts fa r = token)
     ∧ ∀ r, R r → accepts fa r ≠ -1 → token ≤ accepts fa r).

(** The accept decision and token of the automaton, read as an NFA, on [s]. *)
Definition nfa_accepts (fa : finite_automaton) (s : list Z) (token : Z) : Prop :=
  min_token_of fa (reaches fa 0 s) token.

(** An input is a sequence of symbols of the alphabet. *)
Definition is_input (fa : finite_automaton) (s : list Z) : Prop :=
  Forall (λ symbol, 0 ≤ symbol < get_nsymbols fa) s.

(** ** Invariants of the construction loops *)

(** A set of states of [fa]. *)
Definition states_of (fa : finite_automaton) (ss : gset Z) : Prop :=
  ∀ x, x ∈ ss → 0 ≤ x < get_nstates fa.

(** The invariant of the worklist loop of [get_epsilon_closure]. *)
Record closure_inv (fa : finite_automaton) (ss0 ss : gset Z) (q : list Z) : Prop := mkCI {
  ci_start : ss0 ⊆ ss;
  ci_range : states_of fa ss;
  ci_sound : ∀ x, x ∈ ss → ∃ p, p ∈ ss0 ∧ epsilon_reach fa p x;
  ci_queue : ∀ x, x ∈ q → x ∈ ss;
  ci_done : ∀ p r, p ∈ ss → p ∉ q → epsilon_move fa p r → r ∈ ss
}.

(** What the cell for [symbol] in the row of the interned set [S] must hold
    once it is filled: nothing when no member of [S] moves on [symbol],
    otherwise the index of the interned closure of the moved set. *)
Definition cell_ok (nfa : finite_automaton) (st : determinize_state)
    (S : gset Z) (k symbol : Z) : Prop :=
  if decide (step_set S symbol nfa = ∅) then step (out_fa st) k symbol = -1
  else ∃ T j, get_epsilon_closure (step_set S symbol nfa) nfa = Some T
              ∧ step (out_fa st) k symbol = j ∧ 0 ≤ j
              ∧ ssupv st !! Z.to_nat j = Some T.

(** The invariant of [make_deterministic]: rows below [front] are finished,
    row [front] is filled up to column [j], later rows are blank. *)
Record det_inv (nfa : finite_automaton) (st : determinize_state) (front j : Z) : Prop :=
  mkDI {
  di_shaped : shaped (out_fa st);
  di_det : is_deterministic (out_fa st) = true;
  di_ncols : get_ncols (table (out_fa st)) = get_nsymbols nfa;
  di_nstates : get_nstates (out_fa st) = isize (ssupv st);
  di_front : 0 ≤ front;
  di_map : ∀ S k, ssp2s st !! S = Some k ↔ 0 ≤ k ∧ ssupv st !! Z.to_nat k = Some S;
  di_sets : ∀ k S, ssupv st !! k = Some S →
    states_of nfa S ∧ ∀ p q, p ∈ S → epsilon_move nfa p q → q ∈ S;
  di_start : ∃ S0, ssupv st !! 0%nat = Some S0 ∧ ∀ x, x ∈ S0 ↔ epsilon_reach nfa 0 x;
  di_cells : ∀ k symbol S,
    0 ≤ k → ssupv st !! Z.to_nat k = Some S → 0 ≤ symbol < get_nsymbols nfa →
    k < front ∨ (k = front ∧ symbol < j) → cell_ok nfa st S k symbol;
  di_blank : ∀ k symbol,
    0 ≤ k → 0 ≤ symbol → front < k ∨ (k = front ∧ j ≤ symbol) →
    step (out_fa st) k symbol = -1;
  di_accept : ∀ k S,
    0 ≤ k < front → ssupv st !! Z.to_nat k = Some S →
    accepts (out_fa st) k = min_accepted_of nfa S;
  di_accept_blank : ∀ k, front ≤ k → accepts (out_fa st) k = -1
}.

(** All subsets of [{0, ..., n-1}]. *)
Fixpoint subsets (n : nat) : list (gset Z) :=
  match n with
  | O => [∅]
  | S n => subsets n ++ map (λ X, {[Z.of_nat n]} ∪ X) (subsets n)
  end.

(** Two states are the same key of [simplify_once] when they have the same
    accept token and the same transition row. *)
Definition same_row (fa : finite_automaton) (a b : Z) : Prop :=
  accepts fa a = accepts fa b
  ∧ ∀ symbol, 0 ≤ symbol < get_nsymbols_eps fa → step fa a symbol = step fa b symbol.

(** The state of the simplified automaton that stands for [state]. *)
Definition simple_of (fa : finite_automaton) (sr2ss : list (Z * Z)) (state : Z) : Z :=
  default 0 (sr2ss_find fa sr2ss state).

(** The image of a table cell (a state or -1). *)
Definition simple_cell (fa : finite_automaton) (sr2ss : list (Z * Z)) (cell : Z) : Z :=
  if decide (cell = -1) then -1 else simple_of fa sr2ss cell.

(** The invariant of the first loop of [simplify_once], after the states
    below [i]: the keys are pairwise different rows, numbered in order, and
    every state below [i] has its key. *)
Record keys_inv (fa : finite_automaton) (i : Z) (sr2ss : list (Z * Z)) (nsimple : Z) : Prop :=
  mkKI {
  ki_count : nsimple = isize sr2ss;
  ki_bound : nsimple ≤ i;
  ki_entries : ∀ idx r v, sr2ss !! idx = Some (r, v) → v = Z.of_nat idx ∧ 0 ≤ r < i;
  ki_distinct : ∀ idx1 idx2 r1 r2 v1 v2,
    sr2ss !! idx1 = Some (r1, v1) → sr2ss !! idx2 = Some (r2, v2) →
    same_row fa r1 r2 → idx1 = idx2;
  ki_covered : ∀ q, 0 ≤ q < i → ∃ idx r v, sr2ss !! idx = Some (r, v) ∧ same_row fa r q;
  ki_first : 0 < i → sr2ss !! 0%nat = Some (0, 0)
}.

(** The invariant of the second loop of [simplify_once], after the states
    below [i]: a row that was emitted is the image of the row of its key. *)
Record emit_inv (fa : finite_automaton) (sr2ss : list (Z * Z)) (i : Z)
    (out : finite_automaton) (did_simple : list bool) : Prop := mkEI {
  ei_shaped : shaped out;
  ei_nstates : get_nstates out = isize sr2ss;
  ei_ncols : get_ncols (table out) = get_ncols (table fa);
  ei_det : is_deterministic out = is_deterministic fa;
  ei_did : isize did_simple = isize sr2ss;
  ei_rows : ∀ idx r v, sr2ss !! idx = Some (r, v) →
    if at_ false did_simple (Z.of_nat idx)
    then accepts out (Z.of_nat idx) = accepts fa r
         ∧ ∀ symbol, 0 ≤ symbol →
             step out (Z.of_nat idx) symbol = simple_cell fa sr2ss (step fa r symbol)
    else accepts out (Z.of_nat idx) = -1
         ∧ ∀ symbol, 0 ≤ symbol → step out (Z.of_nat idx) symbol = -1;
  ei_done : ∀ q, 0 ≤ q < i → at_ false did_simple (simple_of fa sr2ss q) = true
}.

(** What one pass of [simplify_once] guarantees: [h] maps the states of [fa]
    onto those of [out], keeps the start state, the accept tokens and the
    transitions. *)
Record simplified (fa out : finite_automaton) (h : Z → Z) : Prop := mkSimplified {
  si_wf : well_formed out;
  si_det : is_deterministic out = is_deterministic fa;
  si_ncols : get_ncols (table out) = get_ncols (table fa);
  si_nstates : get_nstates out ≤ get_nstates fa;
  si_start : h 0 = 0;
  si_range : ∀ q, 0 ≤ q < get_nstates fa → 0 ≤ h q < get_nstates out;
  si_accepts : ∀ q, 0 ≤ q < get_nstates fa → accepts out (h q) = accepts fa q;
  si_step : ∀ q symbol, 0 ≤ q < get_nstates fa → 0 ≤ symbol →
    step out (h q) symbol =
      if decide (step fa q symbol = -1) then -1 else h (step fa q symbol)
}.

(** [out] holds a copy of [x] in the rows from [o] on. *)
Record embeds (out x : finite_automaton) (o : Z) : Prop := mkEmbeds {
  em_offset : 0 ≤ o;
  em_nfa : is_deterministic out = false;
  em_nsymbols : get_nsymbols out = get_nsymbols x;
  em_step : ∀ i c, 0 ≤ i < get_nstates x → 0 ≤ c < get_nsymbols_eps out →
    step out (o + i) c = copied_cell out x o i c;
  em_accepts : ∀ i, 0 ≤ i < get_nstates x → accepts out (o + i) = accepts x i
}.

(** What [unite a b] looks like: a fresh start state in front of a copy of
    [a] and a copy of [b], with one epsilon move into each. *)
Record united (a b u : finite_automaton) : Prop := mkUnited {
  un_wf : well_formed u;
  un_nsymbols : get_nsymbols u = get_nsymbols a;
  un_left : embeds u a 1;
  un_right : embeds u b (1 + get_nstates a);
  un_start_accepts : accepts u 0 = -1;
  un_start_symbol : ∀ c, 0 ≤ c < get_nsymbols a → step u 0 c = -1;
  un_start_eps0 : step u 0 (get_epsilon0 u) = 1;
  un_start_eps1 : step u 0 (get_epsilon1 u) = 1 + get_nstates a
}.

(** The smaller of two verdicts, where -1 means "no token". *)
Definition first_token (ta tb : Z) : Z :=
  if decide (ta = -1) then tb
  else if decide (tb = -1) then ta
  else Z.min ta tb.

(** The verdict of a list of token automata on [s]: the index of the first
    one that accepts [s], or -1. *)
Definition first_match (dfas : list finite_automaton) (s : list Z) (token : Z) : Prop :=
  (token = -1 ∧ ∀ i dfa, dfas !! i = Some dfa → nfa_accepts dfa s (-1))
  ∨ (∃ i dfa, token = Z.of_nat i ∧ dfas !! i = Some dfa ∧ nfa_accepts dfa s token
       ∧ ∀ j dfa', (j < i)%nat → dfas !! j = Some dfa' → nfa_accepts dfa' s (-1)).

(** What [build_lexer] needs from [regex::build_dfa] for the token declared
    at index [i]: a well-formed automaton over [nchars] symbols whose
    accepting states all carry the token id [i]. *)
Definition token_dfa (build_dfa : string → string → Z → outcome finite_automaton)
    (nchars : Z) (i : nat) (token : language.token) (dfa : finite_automaton) : Prop :=
  language.name token ≠ "" ∧ language.regex token ≠ ""
  ∧ build_dfa (language.name token) (language.regex token) (Z.of_nat i) = Returned dfa
  ∧ well_formed dfa ∧ get_nsymbols dfa = nchars
  ∧ ∀ state, 0 ≤ state < get_nstates dfa →
      accepts dfa state = -1 ∨ accepts dfa state = Z.of_nat i.

(** ** Specification vocabulary for languages *)

(** How often a token name is declared, and the index of its first
    declaration (-1 when it is not declared). *)
Definition count_name (name : string) (tokens : list language.token) : nat :=
  length (filter (λ token, language.name token = name) tokens).

Fixpoint index_from (name : string) (i : Z) (tokens : list language.token) : Z :=
  match tokens with
  | [] => -1
  | token :: tokens =>
      if decide (language.name token = name) then i else index_from name (i + 1) tokens
  end.

Definition index_of (name : string) (tokens : list language.token) : Z :=
  index_from name 0 tokens.

Definition fails {A} (m : outcome A) : Prop := (∃ e, m = Thrown e) ∨ (∃ msg, m = Aborted msg).

(** ** The regex front-end language (parsegen_regex.cpp) *)

Module regex.

(** The enumerators [PROD_*] and [TOK_*] and the counts [NPRODS] and [NTOKS]
    are declared in parsegen_regex.hpp, which is not among the sources;
    [build_language] takes them as a parameter. *)
Record enumerators := mkEnumerators {
  PROD_REGEX : Z; PROD_UNION_DECAY : Z; PROD_UNION : Z; PROD_CONCAT_DECAY : Z;
  PROD_CONCAT : Z; PROD_QUAL_DECAY : Z; PROD_STAR : Z; PROD_PLUS : Z; PROD_MAYBE : Z;
  PROD_SINGLE_CHAR : Z; PROD_ANY : Z; PROD_SINGLE_SET : Z; PROD_PARENS_UNION : Z;
  PROD_SET_POSITIVE : Z; PROD_SET_NEGATIVE : Z; PROD_POSITIVE_SET : Z;
  PROD_NEGATIVE_SET : Z; PROD_SET_ITEMS_DECAY : Z; PROD_SET_ITEMS_ADD : Z;
  PROD_SET_ITEM_CHAR : Z; PROD_SET_ITEM_RANGE : Z; PROD_RANGE : Z;
  NPRODS : Z;
  TOK_CHAR : Z; TOK_DOT : Z; TOK_LRANGE : Z; TOK_RRANGE : Z; TOK_LPAREN : Z;
  TOK_RPAREN : Z; TOK_UNION : Z; TOK_RANGE : Z; TOK_NEGATE : Z; TOK_STAR : Z;
  TOK_PLUS : Z; TOK_MAYBE : Z;
  NTOKS : Z
}.


(** [v.resize(n)] on an empty vector, then [v[i] = x]. *)
Definition resize {A} (d : A) (n : Z) : list A := replicate (Z.to_nat n) d.
Definition assign {A} (v : list A) (i : Z) (x : A) : list A := <[Z.to_nat i := x]> v.

Definition build_language (e : enumerators) : language.t :=
  let prods := resize (language.mkProduction "" []) (NPRODS e) in
  let prods := assign prods (PROD_REGEX e) (language.mkProduction "regex" ["union"]) in
  let prods := assign prods (PROD_UNION_DECAY e) (language.mkProduction "union" ["concat"]) in
  let prods := assign prods (PROD_UNION e)
                 (language.mkProduction "union" ["union"; "|"; "concat"]) in
  let prods := assign prods (PROD_CONCAT_DECAY e)
                 (language.mkProduction "concat" ["qualified"]) in
  let prods := assign prods (PROD_CONCAT e)
                 (language.mkProduction "concat" ["concat"; "qualified"]) in
  let prods := assign prods (PROD_QUAL_DECAY e)
                 (language.mkProduction "qualified" ["single"]) in
  let prods := assign prods (PROD_STAR e)
                 (language.mkProduction "qualified" ["qualified"; "*"]) in
  let prods := assign prods (PROD_PLUS e)
                 (language.mkProduction "qualified" ["qualified"; "+"]) in
  let prods := assign prods (PROD_MAYBE e)
                 (language.mkProduction "qualified" ["qualified"; "?"]) in
  let prods := assign prods (PROD_SINGLE_CHAR e) (language.mkProduction "single" ["char"]) in
  let prods := assign prods (PROD_ANY e) (language.mkProduction "single" ["."]) in
  let prods := assign prods (PROD_SINGLE_SET e) (language.mkProduction "single" ["set"]) in
  let prods := assign prods (PROD_PARENS_UNION e)
                 (language.mkProduction "single" ["("; "union"; ")"]) in
  let prods := assign prods (PROD_SET_POSITIVE e)
                 (language.mkProduction "set" ["positive-set"]) in
  let prods := assign prods (PROD_SET_NEGATIVE e)
                 (language.mkProduction "set" ["negative-set"]) in
  let prods := assign prods (PROD_POSITIVE_SET e)
                 (language.mkProduction "positive-set" ["["; "set-items"; "]"]) in
  let prods := assign prods (PROD_NEGATIVE_SET e)
                 (language.mkProduction "negative-set" ["["; "^"; "set-items"; "]"]) in
  let prods := assign prods (PROD_SET_ITEMS_DECAY e)
                 (language.mkProduction "set-items" ["set-item"]) in
  let prods := assign prods (PROD_SET_ITEMS_ADD e)
                 (language.mkProduction "set-items" ["set-items"; "set-item"]) in
  let prods := assign prods (PROD_SET_ITEM_CHAR e)
                 (language.mkProduction "set-item" ["char"]) in
  let prods := assign prods (PROD_SET_ITEM_RANGE e)
                 (language.mkProduction "set-item" ["range"]) in
  let prods := assign prods (PROD_RANGE e)
                 (language.mkProduction "range" ["char"; "-"; "char"]) in
  let tokens := resize (language.mkToken "" "") (NTOKS e) in
  let tokens := assign tokens (TOK_CHAR e)
                  (language.mkToken "char" "[^\\\.\[\]\(\)\|\-\^\*\+\?]|\\.") in
  let tokens := assign tokens (TOK_DOT e) (language.mkToken "." "\.") in
  let tokens := assign tokens (TOK_LRANGE e) (language.mkToken "[" "\]") in
  let tokens := assign tokens (TOK_RRANGE e) (language.mkToken "]" "\]") in
  let tokens := assign tokens (TOK_LPAREN e) (language.mkToken "(" "\(") in
  let tokens := assign tokens (TOK_RPAREN e) (language.mkToken ")" "\)") in
  let tokens := assign tokens (TOK_UNION e) (language.mkToken "|" "\|") in
  let tokens := assign tokens (TOK_RANGE e) (language.mkToken "-" "\-") in
  let tokens := assign tokens (TOK_NEGATE e) (language.mkToken "^" "\^") in
  let tokens := assign tokens (TOK_STAR e) (language.mkToken "*" "\*") in
  let tokens := assign tokens (TOK_PLUS e) (language.mkToken "+" "\+") in
  let tokens := assign tokens (TOK_MAYBE e) (language.mkToken "?" "\?") in
  language.mk tokens prods [].

(** The production enumerators, which are the case labels of one switch. *)
Definition production_enumerators (e : enumerators) : list Z :=
  [PROD_REGEX e; PROD_UNION_DECAY e; PROD_UNION e; PROD_CONCAT_DECAY e; PROD_CONCAT e;
   PROD_QUAL_DECAY e; PROD_STAR e; PROD_PLUS e; PROD_MAYBE e; PROD_SINGLE_CHAR e;
   PROD_ANY e; PROD_SINGLE_SET e; PROD_PARENS_UNION e; PROD_SET_POSITIVE e;
   PROD_SET_NEGATIVE e; PROD_POSITIVE_SET e; PROD_NEGATIVE_SET e;
   PROD_SET_ITEMS_DECAY e; PROD_SET_ITEMS_ADD e; PROD_SET_ITEM_CHAR e;
   PROD_SET_ITEM_RANGE e; PROD_RANGE e].

End regex.

(** ** Grammars (parsegen_language.cpp, parsegen_grammar.hpp) *)

(** A [std::set<int>] is walked in increasing order.  Where that order can be
    observed (the order of queue pushes and of table writes) the walk goes
    over [ordered]. *)
Definition ordered (s : gset Z) : list Z := merge_sort Z.le (elements s).

(** Modelled from the spec: symbols [[0, nterminals)] are terminals and
    [[nterminals, nsymbols)] are nonterminals; the header that defines the
    two tests is not among the sources. *)
Definition is_terminal (g : grammar.t) (symbol : Z) : bool :=
  bool_decide (0 ≤ symbol < grammar.nterminals g).

(** Modelled from the spec: see [is_terminal]. *)
Definition is_nonterminal (g : grammar.t) (symbol : Z) : bool :=
  bool_decide (grammar.nterminals g ≤ symbol < grammar.nsymbols g).

(** Modelled from the spec: the goto table is indexed by the nonterminals
    alone, counted from the first one. *)
Definition as_nonterminal (g : grammar.t) (symbol : Z) : Z :=
  symbol - grammar.nterminals g.

(** Modelled from the spec: the synthetic end terminal is the last terminal. *)
Definition get_end_terminal (g : grammar.t) : Z := grammar.nterminals g - 1.

(** Modelled from the spec: the last production is the accept production. *)
Definition get_accept_production (g : grammar.t) : Z :=
  isize (grammar.productions g) - 1.

(** Modelled from the spec: the accept nonterminal is appended last. *)
Definition get_accept_nonterminal (g : grammar.t) : Z := grammar.nsymbols g - 1.

Definition shift_nonterminal (g : grammar.t) (symbol : Z) : Z :=
  if is_nonterminal g symbol then symbol + 1 else symbol.

(** Modelled from the spec: an end terminal is appended after the declared
    terminals, which moves every nonterminal up by one. *)
Definition add_end_terminal (g : grammar.t) : grammar.t :=
  grammar.mk (grammar.nsymbols g + 1) (grammar.nterminals g + 1)
    ((λ p, grammar.mkProduction (shift_nonterminal g (grammar.lhs p))
             (shift_nonterminal g <$> grammar.rhs p)) <$> grammar.productions g)
    (take (Z.to_nat (grammar.nterminals g)) (grammar.symbol_names g) ++ ["end"%string]
       ++ drop (Z.to_nat (grammar.nterminals g)) (grammar.symbol_names g))
    (grammar.ignored_terminals g).

(** Modelled from the spec: the production [accept ::= start end] is appended
    last, [start] being the left-hand side of the first production. *)
Definition add_accept_production (g : grammar.t) : grammar.t :=
  let start := grammar.lhs (at_ (grammar.mkProduction 0 []) (grammar.productions g) 0) in
  grammar.mk (grammar.nsymbols g + 1) (grammar.nterminals g)
    (grammar.productions g
       ++ [grammar.mkProduction (grammar.nsymbols g) [start; get_end_terminal g]])
    (grammar.symbol_names g ++ ["accept"%string])
    (grammar.ignored_terminals g).

(** First loop of [build_grammar]: one terminal per token, in order. *)
Definition number_tokens (tokens : list language.token) : gmap string Z * Z :=
  foldl (λ '(symbol_map, nterminals) token,
           (<[language.name token := nterminals]> symbol_map, nterminals + 1))
        (∅, 0) tokens.

(** Second loop: a nonterminal for every left-hand side not seen before; an
    empty left-hand side ends the process. *)
Fixpoint number_nonterminals (productions : list language.production) (index : Z)
    (symbol_map : gmap string Z) (nsymbols : Z) : outcome (gmap string Z * Z) :=
  match productions with
  | [] => Returned (symbol_map, nsymbols)
  | production :: rest =>
      if decide (language.lhs production = ""%string) then
        Aborted ("ERROR: production " +:+ pretty index
                   +:+ " has empty left hand side" +:+ newline)
      else if decide (is_Some (symbol_map !! language.lhs production)) then
        number_nonterminals rest (index + 1) symbol_map nsymbols
      else
        number_nonterminals rest (index + 1)
          (<[language.lhs production := nsymbols]> symbol_map) (nsymbols + 1)
  end.

Fixpoint resolve_rhs (symbol_map : gmap string Z) (rhs : list string) (out : list Z)
    : outcome (list Z) :=
  match rhs with
  | [] => Returned out
  | lang_symb :: rest =>
      match symbol_map !! lang_symb with
      | None =>
          Thrown (invalid_argument
            ("RHS entry " +:+ dquote +:+ lang_symb +:+ dquote
               +:+ " is neither a nonterminal (LHS of a production) nor a token!"
               +:+ newline))
      | Some symbol => resolve_rhs symbol_map rest (out ++ [symbol])
      end
  end.

(** Third loop: the productions over symbol numbers.  [symbol_map[lhs]] is
    read with [operator[]], which gives 0 for a missing key. *)
Fixpoint resolve_productions (symbol_map : gmap string Z)
    (productions : list language.production) (out : list grammar.production)
    : outcome (list grammar.production) :=
  match productions with
  | [] => Returned out
  | lang_prod :: rest =>
      rhs ←! resolve_rhs symbol_map (language.rhs lang_prod) [];
      resolve_productions symbol_map rest
        (out ++ [grammar.mkProduction
                   (default 0 (symbol_map !! language.lhs lang_prod)) rhs])
  end.

Definition name_symbols (symbol_map : gmap string Z) (nsymbols : Z) : list string :=
  foldl (λ names pair, <[Z.to_nat pair.2 := pair.1]> names)
        (replicate (Z.to_nat nsymbols) ""%string) (map_to_list symbol_map).

Fixpoint resolve_ignored (symbol_map : gmap string Z) (names : list string)
    (out : list Z) : outcome (list Z) :=
  match names with
  | [] => Returned out
  | name :: rest =>
      match symbol_map !! name with
      | None => Thrown (runtime_error ("ignored token " +:+ name +:+ " does not exist"))
      | Some symbol => resolve_ignored symbol_map rest (out ++ [symbol])
      end
  end.

Definition build_grammar (language : language.t) : outcome grammar.t :=
  let '(symbol_map, nterminals) := number_tokens (language.tokens language) in
  numbered ←!
    number_nonterminals (language.productions language) 0 symbol_map nterminals;
  let '(symbol_map, nsymbols) := numbered in
  productions ←! resolve_productions symbol_map (language.productions language) [];
  let out := grammar.mk nsymbols nterminals productions
               (name_symbols symbol_map nsymbols) [] in
  let out := add_accept_production (add_end_terminal out) in
  ignored ←! resolve_ignored symbol_map (language.ignored_tokens language) [];
  Returned (grammar.mk (grammar.nsymbols out) (grammar.nterminals out)
              (grammar.productions out) (grammar.symbol_names out) ignored).

(** ** Parser construction (parsegen_build_parser.cpp) *)

(** Modelled from the spec: a [parser_graph] stores adjacency lists indexed by
    node; the header is not among the sources. *)
Definition make_graph_with_nnodes (n : Z) : list (list Z) := replicate (Z.to_nat n) [].

(** Modelled from the spec: see [make_graph_with_nnodes]. *)
Definition add_edge (g : list (list Z)) (i j : Z) : list (list Z) :=
  alter (λ edges, edges ++ [j]) (Z.to_nat i) g.

(** Modelled from the spec: see [make_graph_with_nnodes]. *)
Definition get_edges (g : list (list Z)) (i : Z) : list Z := at_ [] g i.

(** Modelled from the spec: the transpose has an edge [(j, i)] for every edge
    [(i, j)], visited node by node. *)
Definition make_transpose (g : list (list Z)) : list (list Z) :=
  foldl (λ out i, foldl (λ out j, add_edge out j i) out (get_edges g i))
        (make_graph_with_nnodes (isize g)) (seqZ 0 (isize g)).

Record config := mkConfig { production : Z; dot : Z }.

Definition prod_at (g : grammar.t) (prod_i : Z) : grammar.production :=
  at_ (grammar.mkProduction 0 []) (grammar.productions g) prod_i.

Definition config_at (cs : list config) (config_i : Z) : config :=
  at_ (mkConfig 0 0) cs config_i.

Definition make_configs (g : grammar.t) : list config :=
  foldl (λ configs i,
           foldl (λ configs j, configs ++ [mkConfig i j]) configs
                 (seqZ 0 (isize (grammar.rhs (prod_at g i)) + 1)))
        [] (seqZ 0 (isize (grammar.productions g))).

Definition get_left_hand_sides_to_start_configs (cs : list config) (g : grammar.t)
    : list (list Z) :=
  foldl (λ lhs2sc c_i,
           let c := config_at cs c_i in
           if decide (dot c > 0) then lhs2sc
           else add_edge lhs2sc (grammar.lhs (prod_at g (production c))) c_i)
        (make_graph_with_nnodes (grammar.nsymbols g)) (seqZ 0 (isize cs)).

Module action.
(** [struct action]: a kind and, for a shift, the next state or, for a
    reduction, the production. *)
Inductive t :=
  | none
  | shift (next_state : Z)
  | reduce (production : Z)
  | skip.
#[global] Instance eq_dec : EqDecision t.
Proof. solve_decision. Defined.
End action.

Record action_in_progress := mkActionInProgress {
  action_of : action.t;
  context : gset Z
}.

Record state_in_progress := mkStateInProgress {
  configs : list Z;
  actions : list action_in_progress
}.

Definition state_at (states : list state_in_progress) (state_i : Z) : state_in_progress :=
  at_ (mkStateInProgress [] []) states state_i.

(** The symbol after the dot of a configuration, if the dot is not at the
    end of its production. *)
Definition symbol_after_dot (cs : list config) (g : grammar.t) (config_i : Z) : option Z :=
  let config := config_at cs config_i in
  let prod := prod_at g (production config) in
  if decide (dot config = isize (grammar.rhs prod)) then None
  else Some (at_ 0 (grammar.rhs prod) (dot config)).

(** The [while] loop of [close]: [None] when the fuel runs out. *)
Fixpoint close_loop (fuel : nat) (cs : list config) (g : grammar.t) (lhs2sc : list (list Z))
    (config_set : gset Z) (config_q : list Z) : option (gset Z) :=
  match config_q with
  | [] => Some config_set
  | config_i :: config_q =>
      match fuel with
      | O => None
      | S fuel =>
          match symbol_after_dot cs g config_i with
          | None => close_loop fuel cs g lhs2sc config_set config_q
          | Some symbol =>
              if is_terminal g symbol then close_loop fuel cs g lhs2sc config_set config_q
              else
                let '(config_set, config_q) :=
                  foldl (λ '(config_set, config_q) sc,
                           if decide (sc ∈ config_set) then (config_set, config_q)
                           else ({[sc]} ∪ config_set, config_q ++ [sc]))
                        (config_set, config_q) (get_edges lhs2sc symbol) in
                close_loop fuel cs g lhs2sc config_set config_q
          end
      end
  end.

(** Every configuration enters the queue at most once. *)
Definition close (state : state_in_progress) (cs : list config) (g : grammar.t)
    (lhs2sc : list (list Z)) : option state_in_progress :=
  config_set ← close_loop (length (configs state) + length cs + 1) cs g lhs2sc
    (list_to_set (configs state)) (configs state);
  Some (mkStateInProgress (ordered config_set) (actions state)).

Definition add_reduction_actions (states : list state_in_progress) (cs : list config)
    (g : grammar.t) : list state_in_progress :=
  (λ state,
     foldl (λ state config_i,
              match symbol_after_dot cs g config_i with
              | Some _ => state
              | None =>
                  mkStateInProgress (configs state)
                    (actions state
                       ++ [mkActionInProgress
                             (action.reduce (production (config_at cs config_i))) ∅])
              end)
           state (configs state)) <$> states.

Definition set_lr0_contexts (states : list state_in_progress) (g : grammar.t)
    : list state_in_progress :=
  (λ state,
     mkStateInProgress (configs state)
       ((λ a,
           match action_of a with
           | action.reduce prod_i =>
               if decide (prod_i = get_accept_production g) then
                 mkActionInProgress (action_of a) ({[get_end_terminal g]} ∪ context a)
               else
                 mkActionInProgress (action_of a)
                   (foldl (λ ctx terminal, {[terminal]} ∪ ctx) (context a)
                          (seqZ 0 (grammar.nterminals g)))
           | _ => a
           end) <$> actions state)) <$> states.

(** The state of the loop of [build_lr0_parser]: the states built so far, the
    map from a state's configurations to its index, and the queue. *)
Record lr0_state := mkLr0 {
  lr0_states : list state_in_progress;
  state_ptrs2idxs : gmap (list Z) Z;
  state_q : list Z
}.

Definition transition_symbols (cs : list config) (g : grammar.t) (state : state_in_progress)
    : gset Z :=
  foldl (λ symbols config_i,
           match symbol_after_dot cs g config_i with
           | None => symbols
           | Some symbol => {[symbol]} ∪ symbols
           end)
        ∅ (configs state).

Definition successor_kernel (cs : list config) (g : grammar.t) (state : state_in_progress)
    (transition_symbol : Z) : list Z :=
  foldl (λ next_configs config_i,
           match symbol_after_dot cs g config_i with
           | None => next_configs
           | Some symbol =>
               if decide (symbol ≠ transition_symbol) then next_configs
               else next_configs ++ [config_i + 1]
           end)
        [] (configs state).

(** One pass of the inner [for] loop: the successor of [state_i] under
    [transition_symbol] is found or added, and the shift is recorded. *)
Definition lr0_transition (cs : list config) (g : grammar.t) (lhs2sc : list (list Z))
    (state_i : Z) (st : option lr0_state) (transition_symbol : Z) : option lr0_state :=
  st ← st;
  let state := state_at (lr0_states st) state_i in
  next_state ← close (mkStateInProgress (successor_kernel cs g state transition_symbol) [])
                  cs g lhs2sc;
  let '(st, next_state_i) :=
    match state_ptrs2idxs st !! configs next_state with
    | None =>
        let next_state_i := isize (lr0_states st) in
        (mkLr0 (lr0_states st ++ [next_state])
               (<[configs next_state := next_state_i]> (state_ptrs2idxs st))
               (state_q st ++ [next_state_i]),
         next_state_i)
    | Some next_state_i => (st, next_state_i)
    end in
  let transition :=
    mkActionInProgress (action.shift next_state_i) {[transition_symbol]} in
  Some (mkLr0 (alter (λ state, mkStateInProgress (configs state)
                                 (actions state ++ [transition]))
                     (Z.to_nat state_i) (lr0_states st))
              (state_ptrs2idxs st) (state_q st)).

Fixpoint lr0_loop (fuel : nat) (cs : list config) (g : grammar.t) (lhs2sc : list (list Z))
    (st : lr0_state) : option (list state_in_progress) :=
  match state_q st with
  | [] => Some (lr0_states st)
  | state_i :: rest =>
      match fuel with
      | O => None
      | S fuel =>
          let st := mkLr0 (lr0_states st) (state_ptrs2idxs st) rest in
          st ← foldl (lr0_transition cs g lhs2sc state_i) (Some st)
                 (ordered (transition_symbols cs g (state_at (lr0_states st) state_i)));
          lr0_loop fuel cs g lhs2sc st
      end
  end.

(** A state is a set of configurations, so at most [2 ^ |cs|] states enter
    the queue. *)
Definition build_lr0_parser (cs : list config) (g : grammar.t) (lhs2sc : list (list Z))
    : option (list state_in_progress) :=
  let accept_nt := get_accept_nonterminal g in
  let start_accept_config := hd 0 (get_edges lhs2sc accept_nt) in
  start_state ← close (mkStateInProgress [start_accept_config] []) cs g lhs2sc;
  states ← lr0_loop (2 ^ length cs + 1) cs g lhs2sc
             (mkLr0 [start_state] {[configs start_state := 0]} [0]);
  Some (set_lr0_contexts (add_reduction_actions states cs g) g).

Record state_config := mkStateConfig { state : Z; config_in_state : Z }.

Definition form_state_configs (states : list state_in_progress) : list state_config :=
  foldl (λ out i,
           foldl (λ out j, out ++ [mkStateConfig i j]) out
                 (seqZ 0 (isize (configs (state_at states i)))))
        [] (seqZ 0 (isize states)).

Definition form_states_to_state_configs (scs : list state_config)
    (states : list state_in_progress) : list (list Z) :=
  foldl (λ out i, add_edge out (state (at_ (mkStateConfig 0 0) scs i)) i)
        (make_graph_with_nnodes (isize states)) (seqZ 0 (isize scs)).

(** *** FIRST sets *)

Definition FIRST_NULL : Z := -425.

Definition first_set_at (first_sets : list (gset Z)) (symbol : Z) : gset Z :=
  at_ ∅ first_sets symbol.

(** The walk stops at the first symbol whose FIRST set has no [FIRST_NULL];
    when it reaches the end of the string, [FIRST_NULL] is added. *)
Fixpoint first_set_walk (string : list Z) (first_sets : list (gset Z)) (out : gset Z)
    : gset Z :=
  match string with
  | [] => {[FIRST_NULL]} ∪ out
  | symbol :: rest =>
      let '(has_null, out) :=
        foldl (λ '(has_null, out) first_symbol,
                 if decide (first_symbol = FIRST_NULL) then (true, out)
                 else (has_null, {[first_symbol]} ∪ out))
              (false, out) (ordered (first_set_at first_sets symbol)) in
      if has_null then first_set_walk rest first_sets out else out
  end.

Definition get_first_set_of_string (string : list Z) (first_sets : list (gset Z)) : gset Z :=
  first_set_walk string first_sets ∅.

Definition get_productions_by_lhs (g : grammar.t) : list (list Z) :=
  foldl (λ lhs2prods prod_i, add_edge lhs2prods (grammar.lhs (prod_at g prod_i)) prod_i)
        (make_graph_with_nnodes (grammar.nsymbols g))
        (seqZ 0 (isize (grammar.productions g))).

(** The symbols on the right-hand sides of the productions of [lhs]. *)
Definition dependees_of (g : grammar.t) (lhs2prods : list (list Z)) (lhs : Z) : gset Z :=
  foldl (λ dependees prod_i,
           foldl (λ dependees rhs_symb, {[rhs_symb]} ∪ dependees) dependees
                 (grammar.rhs (prod_at g prod_i)))
        ∅ (get_edges lhs2prods lhs).

Definition get_symbol_graph (g : grammar.t) (lhs2prods : list (list Z)) : list (list Z) :=
  foldl (λ out lhs, <[Z.to_nat lhs := ordered (dependees_of g lhs2prods lhs)]> out)
        (make_graph_with_nnodes (grammar.nsymbols g)) (seqZ 0 (grammar.nsymbols g)).

(** The events a symbol seeds the queue with: a terminal itself, a
    nonterminal [FIRST_NULL] when one of its productions is empty. *)
Definition first_seed (g : grammar.t) (lhs2prods : list (list Z)) (symbol : Z)
    : list (Z * Z) :=
  if is_terminal g symbol then [(symbol, symbol)]
  else if existsb (λ prod_i, bool_decide (grammar.rhs (prod_at g prod_i) = []))
                  (get_edges lhs2prods symbol)
  then [(FIRST_NULL, symbol)]
  else [].

(** The productions of [depender] are scanned again; what their FIRST sets
    have and [depender] lacks is queued. *)
Definition first_rescan (g : grammar.t) (lhs2prods : list (list Z))
    (first_sets : list (gset Z)) (event_q : list (Z * Z)) (depender : Z) : list (Z * Z) :=
  foldl (λ event_q prod_i,
           let rhs_first_set :=
             get_first_set_of_string (grammar.rhs (prod_at g prod_i)) first_sets in
           foldl (λ event_q rhs_first_symb,
                    if decide (rhs_first_symb ∈ first_set_at first_sets depender)
                    then event_q
                    else event_q ++ [(rhs_first_symb, depender)])
                 event_q (ordered rhs_first_set))
        event_q (get_edges lhs2prods depender).

Fixpoint first_loop (fuel : nat) (g : grammar.t) (lhs2prods dependees2dependers : list (list Z))
    (first_sets : list (gset Z)) (event_q : list (Z * Z)) : option (list (gset Z)) :=
  match event_q with
  | [] => Some first_sets
  | (added_symb, dependee) :: event_q =>
      match fuel with
      | O => None
      | S fuel =>
          if decide (added_symb ∈ first_set_at first_sets dependee) then
            first_loop fuel g lhs2prods dependees2dependers first_sets event_q
          else
            let first_sets :=
              alter (λ firsts, {[added_symb]} ∪ firsts) (Z.to_nat dependee) first_sets in
            let event_q :=
              foldl (first_rescan g lhs2prods first_sets) event_q
                    (get_edges dependees2dependers dependee) in
            first_loop fuel g lhs2prods dependees2dependers first_sets event_q
      end
  end.

Definition longest (g : list (list Z)) : nat := max_list (length <$> g).

(** Every FIRST set is among the terminals and [FIRST_NULL], so there are at
    most [nsymbols * (nterminals + 1)] insertions; an insertion queues at most
    [pushes] events. *)
Definition first_fuel (g : grammar.t) (lhs2prods dependees2dependers : list (list Z))
    (event_q : list (Z * Z)) : nat :=
  let width := Z.to_nat (grammar.nterminals g + 1) in
  let pushes := (longest dependees2dependers * (longest lhs2prods * width))%nat in
  (length event_q + (pushes + 1) * (Z.to_nat (grammar.nsymbols g) * width) + 1)%nat.

Definition compute_first_sets (g : grammar.t) : option (list (gset Z)) :=
  let nsymbols := grammar.nsymbols g in
  let first_sets := replicate (Z.to_nat nsymbols) (∅ : gset Z) in
  let lhs2prods := get_productions_by_lhs g in
  let event_q :=
    foldl (λ event_q symbol, event_q ++ first_seed g lhs2prods symbol)
          [] (seqZ 0 nsymbols) in
  let dependers2dependees := get_symbol_graph g lhs2prods in
  let dependees2dependers := make_transpose dependers2dependees in
  first_loop (first_fuel g lhs2prods dependees2dependers event_q)
    g lhs2prods dependees2dependers first_sets event_q.

(** *** Adequacy *)

(** [*(context.begin())]: the least member. *)
Definition context_begin (ctx : gset Z) : Z := hd 0 (ordered ctx).

(** A shift whose symbol is a nonterminal: it becomes a goto entry and takes
    no part in the adequacy test. *)
Definition is_goto (g : grammar.t) (a : action_in_progress) : bool :=
  match action_of a with
  | action.shift _ => is_nonterminal g (context_begin (context a))
  | _ => false
  end.

Definition intersects (a b : gset Z) : bool := bool_decide (a ∩ b ≠ ∅).

Definition action_at (actions : list action_in_progress) (a_i : Z) : action_in_progress :=
  at_ (mkActionInProgress action.none ∅) actions a_i.

(** The inner loop over [a_j], left at the first intersecting pair. *)
Fixpoint adequate_against (g : grammar.t) (action : action_in_progress)
    (later : list action_in_progress) : bool :=
  match later with
  | [] => true
  | action2 :: later =>
      if is_goto g action2 then adequate_against g action later
      else if intersects (context action2) (context action) then false
      else adequate_against g action later
  end.

(** The outer loop over [a_i], left as soon as the state is inadequate. *)
Fixpoint state_is_adequate (g : grammar.t) (actions : list action_in_progress) : bool :=
  match actions with
  | [] => true
  | action :: later =>
      if is_goto g action then state_is_adequate g later
      else if adequate_against g action later then state_is_adequate g later
      else false
  end.

Definition determine_adequate_states (states : list state_in_progress) (g : grammar.t)
    : list bool :=
  (λ state, state_is_adequate g (actions state)) <$> states.

(** [*(std::min_element(...))] of a vector of [bool]: [false] sorts first. *)
Definition min_element (adequate : list bool) : bool := forallb id adequate.

(** *** The LALR(1) builder *)

Module parser_in_progress.
Record t := mk {
  states : list state_in_progress;
  configs : list config;
  grammar : grammar.t;
  state_configs : list state_config;
  states2state_configs : list (list Z)
}.
End parser_in_progress.

(** [at(states2scs, s_i, cis_i)]. *)
Definition state_config_of (states2scs : list (list Z)) (s_i cis_i : Z) : Z :=
  at_ 0 (get_edges states2scs s_i) cis_i.

(** The accepting state-configurations start complete, with the end terminal
    as their context. *)
Definition init_contexts (out : parser_in_progress.t) : list (gset Z) * list bool :=
  let scs := parser_in_progress.state_configs out in
  let g := parser_in_progress.grammar out in
  foldl (λ '(contexts, complete) sc_i,
           let sc := at_ (mkStateConfig 0 0) scs sc_i in
           let state := state_at (parser_in_progress.states out) (state sc) in
           let config_i := at_ 0 (configs state) (config_in_state sc) in
           let config := config_at (parser_in_progress.configs out) config_i in
           if decide (production config = get_accept_production g) then
             (alter (λ ctx, {[get_end_terminal g]} ∪ ctx) (Z.to_nat sc_i) contexts,
              <[Z.to_nat sc_i := true]> complete)
           else (contexts, complete))
        (replicate (Z.to_nat (isize scs)) ∅, replicate (Z.to_nat (isize scs)) false)
        (seqZ 0 (isize scs)).

(** A reduction of a completed state-configuration takes its context. *)
Definition update_contexts (out : parser_in_progress.t) (contexts : list (gset Z))
    (complete : list bool) : list state_in_progress :=
  let cs := parser_in_progress.configs out in
  let g := parser_in_progress.grammar out in
  let states2scs := parser_in_progress.states2state_configs out in
  foldl (λ states s_i,
           foldl (λ states cis_i,
                    let sc_i := state_config_of states2scs s_i cis_i in
                    if negb (at_ false complete sc_i) then states
                    else
                      let config_i := at_ 0 (configs (state_at states s_i)) cis_i in
                      match symbol_after_dot cs g config_i with
                      | Some _ => states
                      | None =>
                          alter (λ state,
                                   mkStateInProgress (configs state)
                                     ((λ a,
                                         if decide (action_of a
                                                    = action.reduce
                                                        (production (config_at cs config_i)))
                                         then mkActionInProgress (action_of a)
                                                (at_ ∅ contexts sc_i)
                                         else a) <$> actions state))
                                (Z.to_nat s_i) states
                      end)
                 states (seqZ 0 (isize (configs (state_at states s_i)))))
        (parser_in_progress.states out) (seqZ 0 (isize (parser_in_progress.states out))).

Section lane_tracing.
(** [compute_context_set] traces the lanes of one state-configuration through
    the originator graph; it updates the contexts and the completion marks, or
    ends the process when the grammar is ambiguous.  The adequacy test that
    guards the returns of the builder does not depend on how it does so. *)
Context (compute_context_set :
           parser_in_progress.t → list (gset Z) → Z →
           list (gset Z) * list bool → outcome (list (gset Z) * list bool)).

(** A reduction of an inadequate state has its context set computed. *)
Definition trace_config (out : parser_in_progress.t) (first_sets : list (gset Z)) (s_i : Z)
    (acc : outcome (list (gset Z) * list bool)) (cis_i : Z)
    : outcome (list (gset Z) * list bool) :=
  let state := state_at (parser_in_progress.states out) s_i in
  let config_i := at_ 0 (configs state) cis_i in
  match symbol_after_dot (parser_in_progress.configs out)
          (parser_in_progress.grammar out) config_i with
  | Some _ => acc
  | None =>
      traced ←! acc;
      compute_context_set out first_sets
        (state_config_of (parser_in_progress.states2state_configs out) s_i cis_i)
        traced
  end.

Definition trace_state (out : parser_in_progress.t) (adequate : list bool)
    (first_sets : list (gset Z)) (acc : outcome (list (gset Z) * list bool)) (s_i : Z)
    : outcome (list (gset Z) * list bool) :=
  if at_ false adequate s_i then acc
  else
    foldl (trace_config out first_sets s_i) acc
          (seqZ 0 (isize (configs (state_at (parser_in_progress.states out) s_i)))).

(** Context sets are computed for the reductions of the inadequate states. *)
Definition trace_lanes (out : parser_in_progress.t) (adequate : list bool)
    (first_sets : list (gset Z)) (start : list (gset Z) * list bool)
    : outcome (list (gset Z) * list bool) :=
  foldl (trace_state out adequate first_sets) (Returned start)
        (seqZ 0 (isize (parser_in_progress.states out))).

Definition build_lalr1_parser (g : grammar.t) : outcome parser_in_progress.t :=
  let cs := make_configs g in
  let lhs2cs := get_left_hand_sides_to_start_configs cs g in
  states ←! of_option (build_lr0_parser cs g lhs2cs);
  let scs := form_state_configs states in
  let states2scs := form_states_to_state_configs scs states in
  let out := parser_in_progress.mk states cs g scs states2scs in
  let adequate := determine_adequate_states states g in
  if min_element adequate then Returned out
  else
    first_sets ←! of_option (compute_first_sets g);
    traced ←! trace_lanes out adequate first_sets (init_contexts out);
    let states := update_contexts out traced.1 traced.2 in
    let out := parser_in_progress.mk states cs g scs states2scs in
    let adequate := determine_adequate_states states g in
    if negb (min_element adequate) then
      Aborted ("ERROR: The grammar is not LALR(1)." +:+ newline)
    else Returned out.

End lane_tracing.

(** *** Table emission *)

(** [shift_reduce_tables] and the functions that fill it are declared in a
    header that is not among the sources; the model records the calls
    [accept_parser] makes on the tables, in order. *)
Module shift_reduce_tables.
Inductive call :=
  | add_state
  | add_terminal_action (s_i terminal : Z) (a : action.t)
  | add_nonterminal_action (s_i nonterminal next_state : Z).
#[global] Instance call_eq_dec : EqDecision call.
Proof. solve_decision. Defined.
End shift_reduce_tables.

(** The calls made for one action of state [s_i]: the action itself, then a
    skip for every ignored terminal. *)
Definition accept_action (g : grammar.t) (s_i : Z) (a : action_in_progress)
    : list shift_reduce_tables.call :=
  (match action_of a with
   | action.shift next_state =>
       if is_nonterminal g (context_begin (context a)) then
         [shift_reduce_tables.add_nonterminal_action s_i
            (as_nonterminal g (context_begin (context a))) next_state]
       else (λ terminal, shift_reduce_tables.add_terminal_action s_i terminal (action_of a))
              <$> ordered (context a)
   | _ => (λ terminal, shift_reduce_tables.add_terminal_action s_i terminal (action_of a))
            <$> ordered (context a)
   end)
  ++ ((λ terminal, shift_reduce_tables.add_terminal_action s_i terminal action.skip)
        <$> grammar.ignored_terminals g).

Definition accept_parser (pip : parser_in_progress.t) : list shift_reduce_tables.call :=
  let sips := parser_in_progress.states pip in
  let g := parser_in_progress.grammar pip in
  ((λ _, shift_reduce_tables.add_state) <$> seqZ 0 (isize sips))
  ++ foldl (λ out s_i,
              foldl (λ out a, out ++ accept_action g s_i a) out
                    (actions (state_at sips s_i)))
           [] (seqZ 0 (isize sips)).

(** ** Front end (parsegen_regex.cpp, parsegen_language.cpp) *)

(** The calls [regex::build_dfa] makes on the regex parser and on the
    debugging parser. *)
Inductive parse_call :=
  | parser_parse_string (token : Z) (regex name : string)
  | debug_parser_parse_string (regex name : string).

Section build_parser_tables.
(** The parser driver is declared in a header that is not among the sources.
    [parse_string token regex name] stands for
    [regex::parser(token).parse_string(regex, name)], and
    [debug_parse_string regex name] for the same call on the debugging parser,
    which also gives the trace it wrote to its stream. *)
Context (parse_string : Z → string → string → outcome finite_automaton)
        (debug_parse_string : string → string → string * outcome finite_automaton)
        (default_automaton : finite_automaton)
        (compute_context_set :
           parser_in_progress.t → list (gset Z) → Z →
           list (gset Z) * list bool → outcome (list (gset Z) * list bool)).

(** [regex::build_dfa], with the parser calls it made.  When the parser throws
    a [parse_error] the regex is parsed again by the debugging parser, and a
    [parse_error] with the collected text is thrown if that call returns. *)
Definition build_dfa (name regex : string) (token : Z)
    : list parse_call * outcome finite_automaton :=
  match parse_string token regex name with
  | Thrown (parse_error what) =>
      let ss :=
        what +:+ newline +:+ "error: couldn't build DFA for token " +:+ dquote +:+ name
          +:+ dquote +:+ " regex " +:+ dquote +:+ regex +:+ dquote +:+ newline
          +:+ "repeating with debug_parser:" +:+ newline in
      let '(trace, repeated) := debug_parse_string regex name in
      ([parser_parse_string token regex name; debug_parser_parse_string regex name],
       _ ←! repeated; Thrown (parse_error (ss +:+ trace)))
  | result => ([parser_parse_string token regex name], result)
  end.




End build_parser_tables.

(** ** Vocabulary of the table emission *)

(** The actions written to the terminal-action cell of state [s_i] and
    terminal [terminal], in the order of the calls. *)
Definition cell_writes (s_i terminal : Z) (calls : list shift_reduce_tables.call)
    : list action.t :=
  omap (λ call,
          match call with
          | shift_reduce_tables.add_terminal_action s t a =>
              if decide (s = s_i ∧ t = terminal) then Some a else None
          | _ => None
          end) calls.

(** The number of skip actions written to a cell. *)
Definition skip_writes (s_i terminal : Z) (calls : list shift_reduce_tables.call) : nat :=
  length (filter (λ a, a = action.skip) (cell_writes s_i terminal calls)).


(** A name a right-hand side or an ignored-token entry may use: a token or
    the left-hand side of a production. *)
Definition known_symbol (language : language.t) (name : string) : Prop :=
  name ∈ (language.name <$> language.tokens language)
  ∨ name ∈ (language.lhs <$> language.productions language).




Definition unknown_rhs_what (name : string) : string :=
  "RHS entry " +:+ dquote +:+ name +:+ dquote
    +:+ " is neither a nonterminal (LHS of a production) nor a token!" +:+ newline.




(** ** A worked example *)

(** The language of the first worked example of the specification: tokens
    [INT], [WS] and [+], [WS] ignored, and [S ::= INT | S + INT]. *)
Definition sum_language : language.t :=
  language.mk
    [language.mkToken "INT" "[0-9]+"; language.mkToken "WS" "[ \t]+";
     language.mkToken "+" "\+"]
    [language.mkProduction "S" ["INT"]; language.mkProduction "S" ["S"; "+"; "INT"]]
    ["WS"].

(** Its grammar: terminals 0 to 3 ([INT], [WS], [+], [end]), [S] is 4 and
    [accept] is 5. *)
Definition sum_grammar : grammar.t :=
  grammar.mk 6 4
    [grammar.mkProduction 4 [0]; grammar.mkProduction 4 [4; 2; 0];
     grammar.mkProduction 5 [4; 3]]
    ["INT"; "WS"; "+"; "end"; "S"; "accept"] [1].

(** The states the builder makes for it.  State 0 holds two shifts; states 1
    and 5 hold a reduction whose context is every terminal. *)
Definition sum_states : list state_in_progress :=
  [mkStateInProgress [0; 2; 6]
     [mkActionInProgress (action.shift 1) {[0]}; mkActionInProgress (action.shift 2) {[4]}];
   mkStateInProgress [1] [mkActionInProgress (action.reduce 0) (list_to_set [0; 1; 2; 3])];
   mkStateInProgress [3; 7]
     [mkActionInProgress (action.shift 3) {[2]}; mkActionInProgress (action.shift 4) {[3]}];
   mkStateInProgress [4] [mkActionInProgress (action.shift 5) {[0]}];
   mkStateInProgress [8] [mkActionInProgress (action.reduce 2) {[3]}];
   mkStateInProgress [5] [mkActionInProgress (action.reduce 1) (list_to_set [0; 1; 2; 3])]].

Definition sum_parser : parser_in_progress.t :=
  parser_in_progress.mk sum_states (make_configs sum_grammar) sum_grammar
    (form_state_configs sum_states)
    (form_states_to_state_configs (form_state_configs sum_states) sum_states).



(** ** Vocabulary of the FIRST sets *)

(** The invariant of a grammar: terminals before nonterminals, left-hand
    sides among the nonterminals, right-hand sides among the symbols. *)
Record grammar_ok (g : grammar.t) : Prop := mkGrammarOk {
  ok_terminals : 0 ≤ grammar.nterminals g ≤ grammar.nsymbols g;
  ok_lhs : ∀ p, p ∈ grammar.productions g →
             grammar.nterminals g ≤ grammar.lhs p < grammar.nsymbols g;
  ok_rhs : ∀ p x, p ∈ grammar.productions g → x ∈ grammar.rhs p →
             0 ≤ x < grammar.nsymbols g
}.

(** Derivation: a string of symbols is rewritten by replacing a left-hand
    side by the right-hand side of one of its productions, any number of
    times. *)
Inductive derives (g : grammar.t) : list Z → list Z → Prop :=
  | derives_refl α : derives g α α
  | derives_step α A β γ δ :
      grammar.mkProduction A γ ∈ grammar.productions g →
      derives g (α ++ γ ++ β) δ →
      derives g (α ++ A :: β) δ.

(** What FIRST is to hold of a string: [FIRST_NULL] when the string derives
    the empty string, a terminal when the string derives a string that starts
    with it. *)
Definition first_of (g : grammar.t) (string : list Z) (s : Z) : Prop :=
  (s = FIRST_NULL ∧ derives g string [])
  ∨ (0 ≤ s < grammar.nterminals g ∧ ∃ γ, derives g string (s :: γ)).

(** The FIRST set of a string as [get_first_set_of_string] reads it off the
    FIRST sets of the symbols. *)
Fixpoint string_first (first_sets : list (gset Z)) (string : list Z) (x : Z) : Prop :=
  match string with
  | [] => x = FIRST_NULL
  | symbol :: rest =>
      (x ≠ FIRST_NULL ∧ x ∈ first_set_at first_sets symbol)
      ∨ (FIRST_NULL ∈ first_set_at first_sets symbol ∧ string_first first_sets rest x)
  end.

(** What a FIRST set may hold: the terminals and [FIRST_NULL]. *)
Definition first_members (g : grammar.t) : gset Z :=
  {[FIRST_NULL]} ∪ list_to_set (seqZ 0 (grammar.nterminals g)).

(** The invariant of the event loop of [compute_first_sets]. *)
Record first_inv (g : grammar.t) (first_sets : list (gset Z)) (event_q : list (Z * Z))
    : Prop := mkFirstInv {
  fi_length : isize first_sets = grammar.nsymbols g;
  fi_members : ∀ firsts, firsts ∈ first_sets → firsts ⊆ first_members g;
  fi_sound : ∀ A s, 0 ≤ A < grammar.nsymbols g →
               s ∈ first_set_at first_sets A → first_of g [A] s;
  fi_queue : ∀ s A, (s, A) ∈ event_q →
               0 ≤ A < grammar.nsymbols g ∧ s ∈ first_members g ∧ first_of g [A] s;
  fi_terminal : ∀ t, 0 ≤ t < grammar.nterminals g →
                  t ∈ first_set_at first_sets t ∨ (t, t) ∈ event_q;
  fi_closed : ∀ p x, p ∈ grammar.productions g →
                string_first first_sets (grammar.rhs p) x →
                x ∈ first_set_at first_sets (grammar.lhs p) ∨ (x, grammar.lhs p) ∈ event_q
}.

(** The number of members of all FIRST sets. *)
Definition first_total (first_sets : list (gset Z)) : nat :=
  sum_list (size <$> first_sets).

(** A grammar with empty productions: terminals [a], [b] and [end] (0 to 2),
    [S ::= A B], [A ::= | a], [B ::= b |] and [accept ::= S end], with [S],
    [A], [B] and [accept] numbered 3 to 6. *)
Definition nullable_grammar : grammar.t :=
  grammar.mk 7 3
    [grammar.mkProduction 3 [4; 5]; grammar.mkProduction 4 [];
     grammar.mkProduction 4 [0]; grammar.mkProduction 5 [1];
     grammar.mkProduction 5 []; grammar.mkProduction 6 [3; 2]]
    ["a"; "b"; "end"; "S"; "A"; "B"; "accept"] [].

(** [grammar_ok] as a test. *)
Definition grammar_okb (g : grammar.t) : bool :=
  bool_decide (0 ≤ grammar.nterminals g ≤ grammar.nsymbols g)
  && forallb (λ p,
       bool_decide (grammar.nterminals g ≤ grammar.lhs p < grammar.nsymbols g)
       && forallb (λ x, bool_decide (0 ≤ x < grammar.nsymbols g)) (grammar.rhs p))
     (grammar.productions g).

(** ** Worked automata *)

(** Over a two-symbol alphabet: the automaton that accepts the symbol 0 as
    token 0, the one that accepts the symbol 1 as token 1, and their union. *)
Definition zero_nfa : finite_automaton := finite_automaton.make_single_nfa 2 0 0.
Definition one_nfa : finite_automaton := finite_automaton.make_single_nfa 2 1 1.
Definition zero_or_one_nfa : finite_automaton := finite_automaton.unite zero_nfa one_nfa.

(** Two tokens with the same language: both accept the symbol 0. *)
Definition twin_language : language.t :=
  language.mk [language.mkToken "first" "a"; language.mkToken "second" "a"] [] [].

Definition twin_build_dfa (name regex : string) (token : Z) : outcome finite_automaton :=
  Returned (finite_automaton.make_single_nfa 2 0 token).

Definition twin_dfas : list finite_automaton :=
  [finite_automaton.make_single_nfa 2 0 0; finite_automaton.make_single_nfa 2 0 1].

(** ** More vocabulary for automata *)

(** [fa] recognizes [s]: some run over [s] from the start state ends in an
    accepting state. *)
Definition recognizes (fa : finite_automaton) (s : list Z) : Prop :=
  ∃ r, reaches fa 0 s r ∧ accepts fa r ≠ -1.

(** Every accepting state carries [token]. *)
Definition accepts_only (fa : finite_automaton) (token : Z) : Prop :=
  ∀ state, 0 ≤ state < get_nstates fa → accepts fa state = -1 ∨ accepts fa state = token.

(** Accepting states without any outgoing transition, on a symbol or on
    epsilon. *)
Definition accepting_dead_end (fa : finite_automaton) : Prop :=
  ∀ state c,
    0 ≤ state < get_nstates fa → accepts fa state ≠ -1 →
    0 ≤ c < get_nsymbols_eps fa → step fa state c = -1.

Definition accepting_dead_endb (fa : finite_automaton) : bool :=
  forallb (λ state,
       bool_decide (accepts fa state = -1)
       || forallb (λ c, bool_decide (step fa state c = -1)) (seqZ 0 (get_nsymbols_eps fa)))
     (seqZ 0 (get_nstates fa)).

(** The cells and tokens of a two-state automaton whose transitions from the
    start state are those on the symbols in [A]. *)
Record two_state (out : finite_automaton) (nsymbols : Z) (A : Z → Prop) (token : Z) : Prop :=
  mkTwoState {
    ts_shaped : shaped out;
    ts_nstates : get_nstates out = 2;
    ts_ncols : get_ncols (table out) = nsymbols;
    ts_det : is_deterministic out = true;
    ts_step : ∀ st c, 0 ≤ st → 0 ≤ c →
      (st = 0 ∧ A c ∧ c < nsymbols → step out st c = 1)
      ∧ (¬ (st = 0 ∧ A c ∧ c < nsymbols) → step out st c = -1);
    ts_start : accepts out 0 = -1;
    ts_accept : accepts out 1 = token
  }.

(** ** Paths through an automaton *)

(** A path of [n] moves, on symbols and on epsilon, that leads from [p] to
    [r] and consumes [s]. *)
Inductive path (fa : finite_automaton) : nat → Z → list Z → Z → Prop :=
  | path_nil p : path fa 0 p [] p
  | path_epsilon n p q s r :
      epsilon_move fa p q → path fa n q s r → path fa (S n) p s r
  | path_symbol n p symbol s r :
      step fa p symbol ≠ -1 → path fa n (step fa p symbol) s r →
      path fa (S n) p (symbol :: s) r.

(** [out] hosts [x] from row [o] on: the rows of [x] are there with their
    transitions shifted by [o], except that the epsilon cells of the rows in
    [exit], which are empty in [x], are free to hold new transitions. *)
Record hosts (out x : finite_automaton) (o : Z) (exit : Z → Prop) : Prop := mkHosts {
  ho_offset : 0 ≤ o;
  ho_nfa : is_deterministic out = false;
  ho_nsymbols : get_nsymbols out = get_nsymbols x;
  ho_cells : ∀ i c, 0 ≤ i < get_nstates x → 0 ≤ c < get_nsymbols_eps out →
    c < get_nsymbols x ∨ ¬ exit i →
    step out (o + i) c = copied_cell out x o i c;
  ho_exit : ∀ i e, 0 ≤ i < get_nstates x → exit i →
    get_nsymbols x ≤ e < get_nsymbols_eps x → step x i e = -1
}.

(** The accepting states of [x], as a set of exits. *)
Definition accepting (x : finite_automaton) (i : Z) : Prop := accepts x i ≠ -1.

#[global] Instance accepting_dec (x : finite_automaton) (i : Z) : Decision (accepting x i).
Proof. unfold accepting. apply _. Defined.

(** The states that [maybe] links into a chain of epsilon moves: its new
    start state 0 and the copies, at offset 1, of the accepting states of [a]
    below [i]. *)
Definition chain_state (a : finite_automaton) (i s : Z) : Prop :=
  s = 0 ∨ (1 ≤ s < 1 + i ∧ accepts a (s - 1) ≠ -1).

(** ** Vocabulary of the LR(0) construction *)

(** [sc] is a configuration that [close] adds because of [config_i]: the
    symbol after the dot of [config_i] is not a terminal, and [sc] is listed
    under it in [lhs2sc]. *)
Definition expands (cs : list config) (g : grammar.t) (lhs2sc : list (list Z))
    (config_i sc : Z) : Prop :=
  ∃ symbol, symbol_after_dot cs g config_i = Some symbol
            ∧ is_terminal g symbol = false
            ∧ sc ∈ get_edges lhs2sc symbol.

(** The same, read off the grammar: [sc] is the configuration, with the dot
    in front, of a production of the symbol after the dot of [config_i]. *)
Definition lr0_expands (g : grammar.t) (config_i sc : Z) : Prop :=
  let cs := make_configs g in
  ∃ symbol, symbol_after_dot cs g config_i = Some symbol
            ∧ is_terminal g symbol = false
            ∧ 0 ≤ sc < isize cs
            ∧ dot (config_at cs sc) = 0
            ∧ grammar.lhs (prod_at g (production (config_at cs sc))) = symbol.

(** The kernel of the start state of the sum grammar: [accept ::= . S end]. *)
Definition sum_start_kernel : state_in_progress := mkStateInProgress [6] [].

(** ** Helpers of the lane tracing (parsegen_build_parser.cpp) *)

(** [get_follow_string]: the symbols of the production of the configuration
    at [sc_addr] that come after the symbol after its dot. *)
Definition get_follow_string (sc_addr : Z) (scs : list state_config)
    (states : list state_in_progress) (cs : list config) (g : grammar.t) : list Z :=
  let sc := at_ (mkStateConfig 0 0) scs sc_addr in
  let state := state_at states (state sc) in
  let config_i := at_ 0 (configs state) (config_in_state sc) in
  let config := config_at cs config_i in
  let prod := prod_at g (production config) in
  let out_size := isize (grammar.rhs prod) - (dot config + 1) in
  if decide (out_size < 1) then []
  else foldl (λ out i, out ++ [at_ 0 (grammar.rhs prod) i]) []
             (seqZ (dot config + 1) (isize (grammar.rhs prod) - (dot config + 1))).

Definition has_non_null_terminal_descendant (first_set : gset Z) : bool :=
  if decide (first_set = ∅) then false
  else if decide (1 < size first_set)%nat then true
  else bool_decide (context_begin first_set ≠ FIRST_NULL).

Definition get_contexts (first_set : gset Z) : gset Z :=
  if decide (FIRST_NULL ∈ first_set) then first_set ∖ {[FIRST_NULL]} else first_set.

Definition MARKER : Z := -433.
Definition ZERO : Z := -100.

(** Modelled from the spec: [subtract_from] and [unite_with] come from a
    header that is not among the sources; they are the set difference and
    the set union that the trace of [context_adding_routine] prints
    ("CONTEXTS_GENERATED <- CONTEXTS_GENERATED - CONTEXTS_tau_r" and
    "CONTEXTS_tau_r <- CONTEXTS_tau_r U CONTEXTS_GENERATED"). *)
Definition subtract_from (a b : gset Z) : gset Z := a ∖ b.
Definition unite_with (a b : gset Z) : gset Z := a ∪ b.

(** One pass of the loop of [context_adding_routine], at lane position [r].
    The loop ends as soon as [contexts_generated] is empty; from then on a
    pass changes nothing. *)
Definition context_adding_step (lane : list Z)
    (acc : gset Z * list (gset Z)) (r : Z) : gset Z * list (gset Z) :=
  let '(contexts_generated, contexts) := acc in
  if decide (contexts_generated = ∅) then acc
  else
    let v_r := at_ 0 lane r in
    if decide (v_r < 0) then acc
    else
      let tau_r_addr := v_r in
      let contexts_generated :=
        subtract_from contexts_generated (at_ ∅ contexts tau_r_addr) in
      (contexts_generated,
       <[Z.to_nat tau_r_addr := unite_with (at_ ∅ contexts tau_r_addr) contexts_generated]>
         contexts).

(** [context_adding_routine]: the lane is walked from [zeta_pointer] down to
    0.  The result is the pair of [contexts_generated] and [contexts], both
    of which the routine changes in place. *)
Definition context_adding_routine (lane : list Z) (zeta_pointer : Z)
    (contexts_generated : gset Z) (contexts : list (gset Z)) : gset Z * list (gset Z) :=
  foldl (context_adding_step lane) (contexts_generated, contexts)
        (reverse (seqZ 0 (zeta_pointer + 1))).

(** [std::find_if]: the index of the first entry equal to [x], the length of
    the list when there is none. *)
Fixpoint find_index (x : Z) (l : list Z) : Z :=
  match l with
  | [] => 0
  | y :: l => if decide (y = x) then 0 else 1 + find_index x l
  end.

(** [move_markers]: the markers between the place of [zeta_prime_addr] and
    [zeta_pointer] become zeros and as many markers are pushed on the lane,
    under its top entry when [tests_failed] is set. *)
Definition move_markers (lane : list Z) (zeta_prime_addr zeta_pointer : Z)
    (tests_failed : bool) : list Z :=
  let loc_of_zeta_prime := find_index zeta_prime_addr lane in
  let '(lane, r) :=
    foldl (λ '(lane, r) i,
             if decide (at_ 0 lane i = MARKER) then (<[Z.to_nat i := ZERO]> lane, r + 1)
             else (lane, r))
          (lane, 0)
          (seqZ (loc_of_zeta_prime + 1) (zeta_pointer - (loc_of_zeta_prime + 1))) in
  let top_addr := if tests_failed then List.last lane (-1) else -1 in
  let lane := if tests_failed then removelast lane else lane in
  let lane := foldl (λ lane _, lane ++ [MARKER]) lane (seqZ 0 r) in
  if tests_failed then lane ++ [top_addr] else lane.

(** The number of markers on a lane, and its configurations in order. *)
Definition count_markers (lane : list Z) : nat := length (filter (λ x, x = MARKER) lane).
Definition lane_configs (lane : list Z) : list Z := filter (λ x, 0 ≤ x) lane.

(** A lane with two markers. *)
Definition sample_lane : list Z := [4; MARKER; 7; MARKER; 9].

(** ** Vocabulary of [build_grammar] *)

(** [i] is the index of the last token that is declared under [name]. *)
Definition last_declared (tokens : list language.token) (name : string) (i : Z) : Prop :=
  0 ≤ i
  ∧ (∃ token, tokens !! Z.to_nat i = Some token ∧ language.name token = name)
  ∧ ∀ (j : nat) token, tokens !! j = Some token → (Z.to_nat i < j)%nat →
      language.name token ≠ name.

(** A language that declares the token name [a] twice and ignores a token
    and a nonterminal. *)
Definition echo_language : language.t :=
  language.mk
    [language.mkToken "a" "x"; language.mkToken "b" "y"; language.mkToken "a" "z"]
    [language.mkProduction "s" ["a"; "t"]; language.mkProduction "t" ["b"];
     language.mkProduction "t" []]
    ["a"; "t"].

(** What [build_grammar] makes of it: the first token has lost its name to
    the third. *)
Definition echo_grammar : grammar.t :=
  grammar.mk 7 4
    [grammar.mkProduction 4 [2; 5]; grammar.mkProduction 5 [1]; grammar.mkProduction 5 [];
     grammar.mkProduction 6 [4; 3]]
    [EmptyString; "b"; "a"; "end"; "s"; "t"; "accept"]
    [2; 4].

(** ** Vocabulary of the LR(0) automaton *)

(** The LR(0) closure of a list of configurations. *)
Definition lr0_closure (g : grammar.t) (kernel : list Z) (x : Z) : Prop :=
  ∃ c0, c0 ∈ kernel ∧ rtc (lr0_expands g) c0 x.

(** [a] is the shift on [symbol] to the state of [states] whose
    configurations are the closure of [kernel]. *)
Definition lr0_shift (g : grammar.t) (states : list state_in_progress) (kernel : list Z)
    (symbol : Z) (a : action_in_progress) : Prop :=
  ∃ j, a = mkActionInProgress (action.shift j) {[symbol]}
       ∧ 0 ≤ j < isize states
       ∧ ∀ x, x ∈ configs (state_at states j) ↔ lr0_closure g kernel x.

(** The reduction by the production of a configuration, with its LR(0)
    context: the end terminal for the accept production, every terminal for
    the others. *)
Definition lr0_reduction (g : grammar.t) (config_i : Z) : action_in_progress :=
  let prod_i := production (config_at (make_configs g) config_i) in
  mkActionInProgress (action.reduce prod_i)
    (if decide (prod_i = get_accept_production g) then {[get_end_terminal g]}
     else list_to_set (seqZ 0 (grammar.nterminals g))).

(** The invariant of the loop of [build_lr0_parser]: the states below [done]
    have their shifts, the state [done] has those on the symbols [shifted],
    the states above it have no action yet; the map knows every state by its
    configurations. *)
Record lr0_inv (g : grammar.t) (start : list Z) (st : lr0_state) (done : Z)
    (shifted : list Z) : Prop := mkLr0Inv {
  li_done : 0 ≤ done ≤ isize (lr0_states st);
  li_nonempty : 0 < isize (lr0_states st);
  li_start : configs (state_at (lr0_states st) 0) = start;
  li_map : ∀ k i,
    state_ptrs2idxs st !! k = Some i ↔
    0 ≤ i < isize (lr0_states st) ∧ configs (state_at (lr0_states st) i) = k;
  li_canonical : ∀ i, 0 ≤ i < isize (lr0_states st) →
    ∃ S : gset Z, configs (state_at (lr0_states st) i) = ordered S
                  ∧ ∀ x, x ∈ S → 0 ≤ x < isize (make_configs g);
  li_shifted : ∀ i, 0 ≤ i < done →
    Forall2 (λ symbol a,
               lr0_shift g (lr0_states st)
                 (successor_kernel (make_configs g) g (state_at (lr0_states st) i) symbol)
                 symbol a)
            (ordered (transition_symbols (make_configs g) g (state_at (lr0_states st) i)))
            (actions (state_at (lr0_states st) i));
  li_current :
    Forall2 (λ symbol a,
               lr0_shift g (lr0_states st)
                 (successor_kernel (make_configs g) g (state_at (lr0_states st) done) symbol)
                 symbol a)
            shifted (actions (state_at (lr0_states st) done));
  li_fresh : ∀ i, done < i < isize (lr0_states st) →
    actions (state_at (lr0_states st) i) = []
}.

(** ** The originator graph (parsegen_build_parser.cpp) *)

(** The configuration of a state-configuration. *)
Definition config_of (states : list state_in_progress) (sc : state_config) : Z :=
  at_ 0 (configs (state_at states (state sc))) (config_in_state sc).

Definition state_config_at (scs : list state_config) (sc_i : Z) : state_config :=
  at_ (mkStateConfig 0 0) scs sc_i.

(** [make_immediate_predecessor_graph]: within a state, an edge from every
    configuration of a production of [s] to every configuration whose dot
    stands in front of the nonterminal [s]. *)
Definition make_immediate_predecessor_graph (scs : list state_config)
    (states : list state_in_progress) (states2scs : list (list Z)) (cs : list config)
    (g : grammar.t) : list (list Z) :=
  foldl (λ out s_i,
           let state := state_at states s_i in
           foldl (λ out cis_i,
                    let config_i := at_ 0 (configs state) cis_i in
                    match symbol_after_dot cs g config_i with
                    | None => out
                    | Some s =>
                        if is_terminal g s then out
                        else
                          foldl (λ out cis_j,
                                   let config_j := at_ 0 (configs state) cis_j in
                                   let config2 := config_at cs config_j in
                                   let prod2 := prod_at g (production config2) in
                                   if decide (grammar.lhs prod2 = s) then
                                     let sc_i := state_config_of states2scs s_i cis_i in
                                     let sc_j := state_config_of states2scs s_i cis_j in
                                     add_edge out sc_j sc_i
                                   else out)
                                out (seqZ 0 (isize (configs state)))
                    end)
                 out (seqZ 0 (isize (configs state))))
        (make_graph_with_nnodes (isize scs)) (seqZ 0 (isize states)).

(** [find_transition_predecessors]: for every shift, an edge from a
    configuration of the next state to the configuration of the state that
    it comes from by moving the dot over the symbol of the shift. *)
Definition find_transition_predecessors (scs : list state_config)
    (states : list state_in_progress) (states2scs : list (list Z)) (cs : list config)
    (g : grammar.t) : list (list Z) :=
  foldl (λ out state_i,
           let state := state_at states state_i in
           foldl (λ out action,
                    match action_of action with
                    | action.shift state_j =>
                        let symbol := context_begin (context action) in
                        let state2 := state_at states state_j in
                        foldl (λ out cis_i,
                                 let config_i := at_ 0 (configs state) cis_i in
                                 let config := config_at cs config_i in
                                 foldl (λ out cis_j,
                                          let config_j := at_ 0 (configs state2) cis_j in
                                          let config2 := config_at cs config_j in
                                          if decide (production config = production config2
                                                     ∧ dot config + 1 = dot config2) then
                                            let prod := prod_at g (production config) in
                                            let rhs_symbol :=
                                              at_ 0 (grammar.rhs prod) (dot config) in
                                            if decide (rhs_symbol = symbol) then
                                              let sc_i :=
                                                state_config_of states2scs state_i cis_i in
                                              let sc_j :=
                                                state_config_of states2scs state_j cis_j in
                                              add_edge out sc_j sc_i
                                            else out
                                          else out)
                                       out (seqZ 0 (isize (configs state2))))
                              out (seqZ 0 (isize (configs state)))
                    | _ => out
                    end)
                 out (actions state))
        (make_graph_with_nnodes (isize scs)) (seqZ 0 (isize states)).

(** The breadth-first search of [make_originator_graph] from one
    state-configuration: [None] when the fuel runs out. *)
Fixpoint originator_loop (fuel : nat) (ipg tpg : list (list Z)) (tpq : list Z)
    (tps originators : gset Z) : option (gset Z) :=
  match tpq with
  | [] => Some originators
  | tpp :: tpq =>
      match fuel with
      | O => None
      | S fuel =>
          let '(tps, tpq) :=
            foldl (λ '(tps, tpq) tpc,
                     if decide (tpc ∈ tps) then (tps, tpq)
                     else ({[tpc]} ∪ tps, tpq ++ [tpc]))
                  (tps, tpq) (get_edges tpg tpp) in
          let originators :=
            foldl (λ originators ip_i, {[ip_i]} ∪ originators) originators
                  (get_edges ipg tpp) in
          originator_loop fuel ipg tpg tpq tps originators
      end
  end.

(** [make_originator_graph]: every state-configuration enters the queue of a
    search at most once. *)
Definition make_originator_graph (scs : list state_config)
    (states : list state_in_progress) (states2scs : list (list Z)) (cs : list config)
    (g : grammar.t) : option (list (list Z)) :=
  let out := make_graph_with_nnodes (isize scs) in
  let ipg := make_immediate_predecessor_graph scs states states2scs cs g in
  let tpg := find_transition_predecessors scs states states2scs cs g in
  foldl_opt (λ out sc_i,
               originators ← originator_loop (length scs + 1) ipg tpg [sc_i] {[sc_i]} ∅;
               Some (<[Z.to_nat sc_i := ordered originators]> out))
            out (seqZ 0 (isize scs)).

(** The states of a parser in progress are well-formed when every shift
    leads to a state and carries one symbol. *)
Definition shifts_ok (states : list state_in_progress) : Prop :=
  ∀ s a state_j,
    0 ≤ s < isize states → a ∈ actions (state_at states s) →
    action_of a = action.shift state_j →
    0 ≤ state_j < isize states ∧ size (context a) = 1%nat.

Definition shifts_okb (states : list state_in_progress) : bool :=
  forallb (λ state,
             forallb (λ a,
                        match action_of a with
                        | action.shift state_j =>
                            bool_decide (0 ≤ state_j < isize states)
                            && bool_decide (size (context a) = 1%nat)
                        | _ => true
                        end) (actions state)) states.

(** An edge of a graph. *)
Definition edge (G : list (list Z)) (i j : Z) : Prop := j ∈ get_edges G i.

(** A list of edges added to a graph, in order. *)
Definition add_edges (items : list (Z * Z)) (G : list (list Z)) : list (list Z) :=
  foldl (λ G p, add_edge G p.1 p.2) G items.

(** The edges that [make_immediate_predecessor_graph] adds, in order. *)
Definition ipg_items (states : list state_in_progress) (states2scs : list (list Z))
    (cs : list config) (g : grammar.t) : list (Z * Z) :=
  seqZ 0 (isize states) ≫= λ s_i,
    seqZ 0 (isize (configs (state_at states s_i))) ≫= λ cis_i,
      match symbol_after_dot cs g (at_ 0 (configs (state_at states s_i)) cis_i) with
      | None => []
      | Some s =>
          if is_terminal g s then []
          else
            seqZ 0 (isize (configs (state_at states s_i))) ≫= λ cis_j,
              if decide (grammar.lhs
                           (prod_at g
                              (production
                                 (config_at cs
                                    (at_ 0 (configs (state_at states s_i)) cis_j)))) = s)
              then [(state_config_of states2scs s_i cis_j,
                     state_config_of states2scs s_i cis_i)]
              else []
      end.

(** The edges that [find_transition_predecessors] adds, in order. *)
Definition tpg_items (states : list state_in_progress) (states2scs : list (list Z))
    (cs : list config) (g : grammar.t) : list (Z * Z) :=
  seqZ 0 (isize states) ≫= λ state_i,
    actions (state_at states state_i) ≫= λ action,
      match action_of action with
      | action.shift state_j =>
          seqZ 0 (isize (configs (state_at states state_i))) ≫= λ cis_i,
            seqZ 0 (isize (configs (state_at states state_j))) ≫= λ cis_j,
              let config := config_at cs (at_ 0 (configs (state_at states state_i)) cis_i) in
              let config2 := config_at cs (at_ 0 (configs (state_at states state_j)) cis_j) in
              if decide (production config = production config2
                         ∧ dot config + 1 = dot config2) then
                if decide (at_ 0 (grammar.rhs (prod_at g (production config))) (dot config)
                           = context_begin (context action))
                then [(state_config_of states2scs state_j cis_j,
                       state_config_of states2scs state_i cis_i)]
                else []
              else []
      | _ => []
      end.

(** The tables of the worked example. *)
Definition sum_state_configs : list state_config := form_state_configs sum_states.
Definition sum_states2scs : list (list Z) :=
  form_states_to_state_configs sum_state_configs sum_states.

(** ** The contexts of the reductions (parsegen_build_parser.cpp) *)

(** One pass of the innermost loop of the update of the contexts, on one
    action: the state-configuration [cis_i] of state [s_i], if it is marked
    complete and its dot is at the end, gives its context to the reductions
    by its production. *)
Definition update_action (out : parser_in_progress.t) (contexts : list (gset Z))
    (complete : list bool) (state_configs : list Z) (s_i : Z)
    (a : action_in_progress) (cis_i : Z) : action_in_progress :=
  let cs := parser_in_progress.configs out in
  let g := parser_in_progress.grammar out in
  let sc_i := state_config_of (parser_in_progress.states2state_configs out) s_i cis_i in
  if negb (at_ false complete sc_i) then a
  else
    let config_i := at_ 0 state_configs cis_i in
    match symbol_after_dot cs g config_i with
    | Some _ => a
    | None =>
        if decide (action_of a = action.reduce (production (config_at cs config_i)))
        then mkActionInProgress (action_of a) (at_ ∅ contexts sc_i)
        else a
    end.

(** The positions in state [s_i] of the completed configurations of
    production [prod_i] whose state-configuration is marked complete. *)
Definition reduction_hits (out : parser_in_progress.t) (complete : list bool)
    (s_i prod_i : Z) : list Z :=
  let cs := parser_in_progress.configs out in
  let g := parser_in_progress.grammar out in
  let state := state_at (parser_in_progress.states out) s_i in
  filter (λ cis_i,
            at_ false complete
              (state_config_of (parser_in_progress.states2state_configs out) s_i cis_i)
            = true
            ∧ symbol_after_dot cs g (at_ 0 (configs state) cis_i) = None
            ∧ production (config_at cs (at_ 0 (configs state) cis_i)) = prod_i)
         (seqZ 0 (isize (configs state))).

(** [heuristic_propagation_of_context_sets]: the result is the pair of
    [contexts] and [complete], both of which the routine changes in place. *)
Definition heuristic_propagation_of_context_sets (tau_addr : Z) (contexts : list (gset Z))
    (complete : list bool) (scs : list state_config) (states : list state_in_progress)
    (states2scs : list (list Z)) (cs : list config) (g : grammar.t)
    : list (gset Z) * list bool :=
  let tau := at_ (mkStateConfig 0 0) scs tau_addr in
  let tau_state := state_at states (state tau) in
  let config_i := at_ 0 (configs tau_state) (config_in_state tau) in
  let config := config_at cs config_i in
  if decide (dot config ≠ 0) then (contexts, complete)
  else
    let prod := prod_at g (production config) in
    foldl (λ '(contexts, complete) cis_j,
             let config_j := at_ 0 (configs tau_state) cis_j in
             if decide (config_j = config_i) then (contexts, complete)
             else
               let config2 := config_at cs config_j in
               if decide (dot config2 ≠ 0) then (contexts, complete)
               else
                 let prod2 := prod_at g (production config2) in
                 if decide (grammar.lhs prod ≠ grammar.lhs prod2) then (contexts, complete)
                 else
                   let tau_prime_addr := state_config_of states2scs (state tau) cis_j in
                   (<[Z.to_nat tau_prime_addr := at_ ∅ contexts tau_addr]> contexts,
                    <[Z.to_nat tau_prime_addr := true]> complete))
          (contexts, complete) (seqZ 0 (isize (configs tau_state))).

(** The state-configurations that take the context of [tau]: those of the
    same state, with another configuration, whose dot is in front as that of
    [tau] is, and whose production has the same left-hand side. *)
Definition sibling (scs : list state_config) (states : list state_in_progress)
    (cs : list config) (g : grammar.t) (tau_addr sc_i : Z) : Prop :=
  let tau := state_config_at scs tau_addr in
  let sc := state_config_at scs sc_i in
  dot (config_at cs (config_of states tau)) = 0
  ∧ state sc = state tau
  ∧ config_of states sc ≠ config_of states tau
  ∧ dot (config_at cs (config_of states sc)) = 0
  ∧ grammar.lhs (prod_at g (production (config_at cs (config_of states sc))))
    = grammar.lhs (prod_at g (production (config_at cs (config_of states tau)))).

(** The accumulated record describes the declarations seen so far. *)
Definition indent_seen (seen : list language.token) (out : indentation) : Prop :=
  is_sensitive out = bool_decide (index_of "INDENT" seen ≠ -1)
  ∧ indent_token out = index_of "INDENT" seen
  ∧ dedent_token out = index_of "DEDENT" seen
  ∧ newline_token out = index_of "NEWLINE" seen.

Definition declared_once (tokens : list language.token) : Prop :=
  (count_name "INDENT" tokens ≤ 1)%nat
  ∧ (count_name "DEDENT" tokens ≤ 1)%nat
  ∧ (count_name "NEWLINE" tokens ≤ 1)%nat.

(** * Properties *)

(** ** Reading and writing vectors and tables *)

Section vectors.
Context {A : Type}.
Implicit Types (l : list A) (d : A).

Lemma at_default d l i : at_ d l i = default d (l !! Z.to_nat i).
Proof. apply nth_lookup. Qed.

Lemma at_ge d l i : isize l ≤ i → at_ d l i = d.
Proof.
  intros Hi. rewrite at_default, lookup_ge_None_2; [done|]. unfold isize in Hi. lia.
Qed.

Lemma at_app_l d l k i : 0 ≤ i < isize l → at_ d (l ++ k) i = at_ d l i.
Proof.
  intros Hi. rewrite !at_default, lookup_app_l; [done|]. unfold isize in Hi. lia.
Qed.

Lemma at_app_r d l k i : isize l ≤ i → at_ d (l ++ k) i = at_ d k (i - isize l).
Proof.
  intros Hi. unfold isize in *. rewrite !at_default, lookup_app_r by lia.
  do 2 f_equal. lia.
Qed.

Lemma at_insert_eq d l i x : 0 ≤ i < isize l → at_ d (<[Z.to_nat i := x]> l) i = x.
Proof.
  intros Hi. unfold isize in *. rewrite at_default, list_lookup_insert_eq; [done|lia].
Qed.

Lemma at_insert_ne d l i j x :
  0 ≤ i → 0 ≤ j → i ≠ j → at_ d (<[Z.to_nat i := x]> l) j = at_ d l j.
Proof.
  intros Hi Hj Hne. rewrite !at_default, list_lookup_insert_ne; [done|lia].
Qed.

Lemma at_replicate d n i : at_ d (replicate n d) i = d.
Proof.
  rewrite at_default. destruct (replicate n d !! Z.to_nat i) eqn:E; [|done].
  apply lookup_replicate in E as [-> _]. done.
Qed.

Lemma at_map_seqZ d (f : Z → A) n i : 0 ≤ i < n → at_ d (map f (seqZ 0 n)) i = f i.
Proof.
  intros Hi. rewrite at_default.
  change (map f (seqZ 0 n)) with (f <$> seqZ 0 n).
  rewrite list_lookup_fmap, lookup_seqZ_lt by lia. simpl. f_equal. lia.
Qed.

End vectors.

Lemma isize_nonneg {A} (l : list A) : 0 ≤ isize l.
Proof. unfold isize. lia. Qed.

Lemma isize_app {A} (l k : list A) : isize (l ++ k) = isize l + isize k.
Proof. unfold isize. rewrite length_app. lia. Qed.

(** Loop invariants for counted loops. *)
Lemma foldl_seqZ_inv {A} (P : Z → A → Prop) (f : A → Z → A) (a : A) (m n : Z) :
  0 ≤ n →
  P m a →
  (∀ i x, m ≤ i < m + n → P i x → P (i + 1) (f x i)) →
  P (m + n) (foldl f a (seqZ m n)).
Proof.
  intros Hn H0 Hstep.
  assert (Hk : ∀ k : nat, Z.of_nat k ≤ n →
            P (m + Z.of_nat k) (foldl f a (seqZ m (Z.of_nat k)))).
  { induction k as [|k IH]; intros Hk.
    - rewrite Z.add_0_r. exact H0.
    - rewrite seqZ_S, foldl_snoc.
      replace (m + Z.of_nat (S k)) with (m + Z.of_nat k + 1) by lia.
      apply Hstep; [lia|]. apply IH. lia. }
  specialize (Hk (Z.to_nat n)). rewrite Z2Nat.id in Hk by done. apply Hk. lia.
Qed.

Lemma foldl_seqZ_inv' {A} (P : A → Prop) (f : A → Z → A) (a : A) (m n : Z) :
  P a →
  (∀ i x, m ≤ i < m + n → P x → P (f x i)) →
  P (foldl f a (seqZ m n)).
Proof.
  intros H0 Hstep. destruct (decide (0 ≤ n)).
  - by apply (foldl_seqZ_inv (λ _, P)).
  - by rewrite seqZ_nil by lia.
Qed.

Lemma foldl_elements_inv {A} (P : gset Z → A → Prop) (f : A → Z → A) (a : A) (X : gset Z) :
  P ∅ a →
  (∀ Y x b, x ∈ X → x ∉ Y → Y ⊆ X → P Y b → P ({[x]} ∪ Y) (f b x)) →
  P X (foldl f a (elements X)).
Proof.
  intros H0 Hstep.
  assert (Hnd := NoDup_elements X).
  assert (Hin : ∀ x, x ∈ elements X → x ∈ X) by (intros; by apply elem_of_elements).
  assert (Heq : X = list_to_set (elements X)) by (by rewrite list_to_set_elements_L).
  rewrite Heq at 1. clear Heq.
  revert Hnd Hin. generalize (elements X) as l.
  induction l as [|x l IH] using rev_ind; intros Hnd Hin; [done|].
  rewrite foldl_snoc, list_to_set_app_L. simpl.
  apply NoDup_app in Hnd as (Hnd1 & Hnd2 & _).
  replace (list_to_set l ∪ ({[x]} ∪ ∅)) with ({[x]} ∪ (list_to_set l : gset Z))
    by (apply set_eq; intros y; rewrite !elem_of_union, elem_of_empty; tauto).
  apply Hstep.
  - apply Hin. set_solver.
  - rewrite elem_of_list_to_set. intros Hx. apply (Hnd2 x Hx). set_solver.
  - intros y Hy. apply elem_of_list_to_set in Hy. apply Hin. set_solver.
  - apply IH; [done|]. intros y Hy. apply Hin. set_solver.
Qed.

(** ** Well-shaped automata *)

Lemma get_ncols_nonneg fa : shaped fa → 0 ≤ get_ncols (table fa).
Proof.
  intros [H _ _]. unfold get_nsymbols in H. destruct (is_deterministic fa); lia.
Qed.

Lemma get_nstates_nonneg fa : 0 ≤ get_nstates fa.
Proof. apply isize_nonneg. Qed.

Lemma shaped_new nsymbols det : 0 ≤ nsymbols → shaped (new_automaton nsymbols det).
Proof.
  intros H. split; simpl; [|done|constructor].
  unfold get_nsymbols. simpl. destruct det; lia.
Qed.

Lemma get_nstates_new nsymbols det : get_nstates (new_automaton nsymbols det) = 0.
Proof. done. Qed.

Lemma get_nsymbols_new nsymbols det : get_nsymbols (new_automaton nsymbols det) = nsymbols.
Proof. unfold get_nsymbols. simpl. destruct det; lia. Qed.

Lemma get_nstates_add_state fa : get_nstates (add_state fa) = get_nstates fa + 1.
Proof. unfold get_nstates, get_nrows. simpl. rewrite isize_app. done. Qed.

Lemma shaped_add_state fa : shaped fa → shaped (add_state fa).
Proof.
  intros Hs. pose proof (get_ncols_nonneg _ Hs). destruct Hs as [H1 H2 H3].
  split; simpl.
  - done.
  - rewrite !length_app. simpl. rewrite H2. done.
  - apply Forall_app. split; [done|]. constructor; [|done].
    unfold isize, get_ncols in *. rewrite length_replicate. simpl. lia.
Qed.

Lemma shaped_add_transition fa f c t : shaped fa → shaped (add_transition fa f c t).
Proof.
  intros [H1 H2 H3]. split; simpl.
  - done.
  - by rewrite length_alter.
  - simpl in *. apply Forall_lookup. intros i row Hrow.
    rewrite list_lookup_alter in Hrow. case_decide.
    + subst i. destruct (rows (table fa) !! Z.to_nat f) as [r|] eqn:E; simplify_eq/=.
      unfold isize. rewrite length_insert.
      by apply (Forall_lookup_1 _ _ _ _ H3 E).
    + by apply (Forall_lookup_1 _ _ _ _ H3 Hrow).
Qed.

Lemma get_nstates_add_transition fa f c t :
  get_nstates (add_transition fa f c t) = get_nstates fa.
Proof. unfold get_nstates, get_nrows, isize. simpl. by rewrite length_alter. Qed.

Lemma shaped_add_accept fa s t : shaped fa → shaped (add_accept fa s t).
Proof. intros [H1 H2 H3]. split; simpl; [done| |done]. by rewrite length_insert. Qed.

Lemma shaped_remove_accept fa s : shaped fa → shaped (remove_accept fa s).
Proof. apply shaped_add_accept. Qed.

Lemma shaped_isize_tokens fa : shaped fa → isize (accepted_tokens fa) = get_nstates fa.
Proof. intros [_ H _]. unfold get_nstates, get_nrows, isize. by rewrite H. Qed.

(** Reads after each primitive update. *)

Lemma step_add_state fa s c :
  0 ≤ s → step (add_state fa) s c = if decide (s < get_nstates fa) then step fa s c else -1.
Proof.
  intros Hs. unfold step, at2. simpl. case_decide.
  - rewrite at_app_l; [done|]. unfold get_nstates, get_nrows in *. lia.
  - rewrite at_app_r by (unfold get_nstates, get_nrows in *; lia).
    rewrite (at_default _ [_]).
    destruct ([_] !! _) as [r|] eqn:E; simpl.
    + apply list_lookup_singleton_Some in E as [_ <-]. apply at_replicate.
    + unfold at_. by destruct (Z.to_nat c).
Qed.

Lemma accepts_add_state fa s :
  0 ≤ s → shaped fa →
  accepts (add_state fa) s = if decide (s < get_nstates fa) then accepts fa s else -1.
Proof.
  intros Hs Hsh. unfold accepts. simpl. rewrite <- (shaped_isize_tokens _ Hsh).
  case_decide.
  - rewrite at_app_l; [done|lia].
  - rewrite at_app_r by lia. rewrite at_default.
    destruct ([_] !! _) as [r|] eqn:E; simpl; [|done].
    by apply list_lookup_singleton_Some in E as [_ <-].
Qed.

Lemma step_add_transition_ne fa f sym t s c :
  0 ≤ f → 0 ≤ sym → 0 ≤ s → 0 ≤ c → (s ≠ f ∨ c ≠ sym) →
  step (add_transition fa f sym t) s c = step fa s c.
Proof.
  intros Hf Hsym Hs Hc Hne. unfold step, at2. simpl.
  rewrite (at_default _ (alter _ _ _)), (at_default _ (rows _)), list_lookup_alter.
  case_decide as Hd; [|done]. rewrite Hd.
  destruct (rows (table fa) !! Z.to_nat s) as [r|] eqn:E; simpl; [|done].
  apply at_insert_ne; lia.
Qed.

Lemma step_add_transition_eq fa f sym t :
  shaped fa → 0 ≤ f < get_nstates fa → 0 ≤ sym < get_ncols (table fa) →
  step (add_transition fa f sym t) f sym = t.
Proof.
  intros [_ _ Hrows] Hf Hsym. unfold step, at2. simpl.
  rewrite (at_default _ (alter _ _ _)), list_lookup_alter_eq.
  destruct (rows (table fa) !! Z.to_nat f) as [r|] eqn:E; simpl.
  - apply at_insert_eq. rewrite (Forall_lookup_1 _ _ _ _ Hrows E). done.
  - apply lookup_ge_None in E. unfold get_nstates, get_nrows, isize in Hf. lia.
Qed.

Lemma accepts_add_accept_eq fa s t :
  shaped fa → 0 ≤ s < get_nstates fa → accepts (add_accept fa s t) s = t.
Proof.
  intros Hsh Hs. unfold accepts. simpl. apply at_insert_eq.
  by rewrite shaped_isize_tokens.
Qed.

Lemma accepts_add_accept_ne fa s t s' :
  0 ≤ s → 0 ≤ s' → s ≠ s' → accepts (add_accept fa s t) s' = accepts fa s'.
Proof. intros. unfold accepts. simpl. by apply at_insert_ne. Qed.

Lemma step_add_accept fa st t s c : step (add_accept fa st t) s c = step fa s c.
Proof. done. Qed.

Lemma step_remove_accept fa st s c : step (remove_accept fa st) s c = step fa s c.
Proof. done. Qed.

Lemma accepts_add_transition fa f c t s :
  accepts (add_transition fa f c t) s = accepts fa s.
Proof. done. Qed.

Lemma get_nstates_add_accept fa s t : get_nstates (add_accept fa s t) = get_nstates fa.
Proof. done. Qed.

Lemma get_nstates_remove_accept fa s : get_nstates (remove_accept fa s) = get_nstates fa.
Proof. done. Qed.

Lemma accepts_remove_accept_ne fa s s' :
  0 ≤ s → 0 ≤ s' → s ≠ s' → accepts (remove_accept fa s) s' = accepts fa s'.
Proof. apply accepts_add_accept_ne. Qed.

Lemma step_out_of_range fa s c :
  shaped fa → 0 ≤ s → 0 ≤ c → (get_nstates fa ≤ s ∨ get_ncols (table fa) ≤ c) →
  step fa s c = -1.
Proof.
  intros [_ _ Hrows] Hs Hc Hor. unfold step, at2.
  rewrite (at_default _ (rows _)).
  destruct (rows (table fa) !! Z.to_nat s) as [r|] eqn:E; simpl.
  - destruct Hor as [Hor|Hor].
    + apply lookup_lt_Some in E. unfold get_nstates, get_nrows, isize in Hor. lia.
    + apply at_ge. rewrite (Forall_lookup_1 _ _ _ _ Hrows E). done.
  - unfold at_. by destruct (Z.to_nat c).
Qed.

Lemma accepts_out_of_range fa s :
  shaped fa → get_nstates fa ≤ s → accepts fa s = -1.
Proof.
  intros Hsh Hs. unfold accepts. apply at_ge. by rewrite shaped_isize_tokens.
Qed.

Lemma step_add_transition fa f sym t s c :
  shaped fa → 0 ≤ f → 0 ≤ sym → 0 ≤ s → 0 ≤ c →
  step (add_transition fa f sym t) s c =
    if decide (s = f ∧ c = sym ∧ f < get_nstates fa ∧ sym < get_ncols (table fa))
    then t else step fa s c.
Proof.
  intros Hsh Hf Hsym Hs Hc. case_decide as Hd.
  - destruct Hd as (-> & -> & ? & ?). by apply step_add_transition_eq.
  - destruct (decide (s = f ∧ c = sym)) as [[-> ->]|Hne].
    + rewrite (step_out_of_range (add_transition _ _ _ _));
        [|by apply shaped_add_transition|done|done|].
      * symmetry. apply step_out_of_range; [done..|lia].
      * unfold get_nstates, get_nrows, get_ncols, isize in *. simpl.
        rewrite length_alter. lia.
    + apply step_add_transition_ne; [done..|lia].
Qed.

Lemma accepts_add_accept fa st t s :
  shaped fa → 0 ≤ st → 0 ≤ s →
  accepts (add_accept fa st t) s =
    if decide (s = st ∧ st < get_nstates fa) then t else accepts fa s.
Proof.
  intros Hsh Hst Hs. case_decide as Hd.
  - destruct Hd as [-> ?]. by apply accepts_add_accept_eq.
  - destruct (decide (s = st)) as [->|Hne].
    + rewrite (accepts_out_of_range (add_accept _ _ _)).
      * symmetry. apply accepts_out_of_range; [done|lia].
      * by apply shaped_add_accept.
      * unfold get_nstates in *. simpl. lia.
    + apply accepts_add_accept_ne; [done..|]. congruence.
Qed.

(** ** [append_states] *)

(** Case analysis on every [decide] in sight, then arithmetic. *)
Ltac ifs :=
  repeat (case_decide; destruct_and?);
  try done; try lia; try (exfalso; lia); try (subst; f_equal; lia).

(** The inner loop of [append_states]: copying row [i] of [other]. *)
Lemma copy_row_spec fa other offset i x y :
  let body3 := λ fa0 symbol,
    let other_next := step other i symbol in
    if decide (other_next < 0) then fa0
    else add_transition fa0 (i + offset) symbol (other_next + offset) in
  y = foldl body3 x (seqZ 0 (get_nsymbols_eps other)) →
  shaped x → 0 ≤ offset → 0 ≤ i → i + offset < get_nstates x →
  get_ncols (table x) = get_ncols (table fa) →
  (∀ c, 0 ≤ c → step x (i + offset) c = -1) →
  shaped y ∧ get_nstates y = get_nstates x
  ∧ get_ncols (table y) = get_ncols (table x)
  ∧ is_deterministic y = is_deterministic x
  ∧ accepted_tokens y = accepted_tokens x
  ∧ (∀ s c, 0 ≤ s → 0 ≤ c →
       step y s c = if decide (s = i + offset) then copied_cell fa other offset i c
                    else step x s c).
Proof.
  intros body3 -> Hx Hoff Hi Hlt Hcols Hblank.
  set (m := get_nsymbols_eps other).
  destruct (decide (0 ≤ m)) as [Hm|Hm]; cycle 1.
  { rewrite seqZ_nil by lia. simpl. split_and!; [done..|].
    intros s c Hs Hc. case_decide as Hd; [|done]. subst s.
    rewrite Hblank by done. unfold copied_cell. rewrite decide_False; [done|].
    unfold m, get_nsymbols_eps in Hm. lia. }
  assert (H3 : (λ j y, shaped y ∧ get_nstates y = get_nstates x
                 ∧ get_ncols (table y) = get_ncols (table x)
                 ∧ is_deterministic y = is_deterministic x
                 ∧ accepted_tokens y = accepted_tokens x
                 ∧ (∀ s c, 0 ≤ s → 0 ≤ c →
                      step y s c =
                        if decide (s = i + offset ∧ c < j)
                        then copied_cell fa other offset i c
                        else step x s c))
               (0 + m) (foldl body3 x (seqZ 0 m))).
  { apply foldl_seqZ_inv; [done| |].
    - split_and!; [done..|]. intros s c Hs Hc. rewrite decide_False; [done|lia].
    - intros j y Hj (Hy & Hny & Hcy & Hdy & Hay & Hsy). unfold body3.
      assert (Hcell : copied_cell fa other offset i j =
                if decide (step other i j < 0) then -1
                else if decide (j < get_ncols (table fa)) then step other i j + offset
                     else -1).
      { unfold copied_cell. unfold m, get_nsymbols_eps in Hj.
        repeat case_decide; try done; lia. }
      case_decide as Hnext.
      + split_and!; [done..|]. intros s c Hs Hc. rewrite Hsy by done.
        destruct (decide (s = i + offset ∧ c < j)) as [Hd|Hd].
        * rewrite decide_True; [done|lia].
        * destruct (decide (s = i + offset ∧ c = j)) as [[-> ->]|Hd'].
          -- rewrite decide_True by lia. rewrite Hcell, Hblank; done.
          -- rewrite decide_False; [done|lia].
      + split_and!; [by apply shaped_add_transition
                    |by rewrite get_nstates_add_transition|done..|].
        intros s c Hs Hc. rewrite step_add_transition by (done || lia).
        rewrite Hsy by done. rewrite Hny, Hcy, Hcols.
        destruct (decide (s = i + offset ∧ c < j)) as [Hd|Hd].
        * rewrite decide_False by lia. rewrite decide_True; [done|lia].
        * destruct (decide (s = i + offset ∧ c = j)) as [[-> ->]|Hd'].
          -- rewrite (decide_True (P := _ ∧ _ < j + 1)) by lia. rewrite Hcell.
             destruct (decide (j < get_ncols (table fa))).
             ++ rewrite decide_True; [done|lia].
             ++ rewrite decide_False by lia. by apply Hblank.
          -- rewrite decide_False by lia. rewrite decide_False; [done|lia]. }
  simpl in H3. replace (0 + m) with m in H3 by lia.
  destruct H3 as (Hy & Hny & Hcy & Hdy & Hay & Hsy).
  split_and!; [done..|].
  intros s c Hs Hc. rewrite Hsy by done.
  destruct (decide (s = i + offset)) as [->|Hne].
  - destruct (decide (c < m)).
    + rewrite decide_True; [done|lia].
    + rewrite decide_False by lia. rewrite Hblank by done.
      unfold copied_cell. rewrite decide_False; [done|].
      unfold m, get_nsymbols_eps in *. lia.
  - rewrite decide_False; [done|]. tauto.
Qed.

Lemma append_states_spec fa other : shaped fa → appended fa other (append_states fa other).
Proof.
  intros Hsh. unfold append_states.
  set (offset := get_nstates fa). set (n := get_nstates other).
  assert (Hn : 0 ≤ n) by apply get_nstates_nonneg.
  assert (Hoff : 0 ≤ offset) by apply get_nstates_nonneg.
  match goal with |- appended _ _ (foldl ?g (foldl ?f _ _) _) =>
    set (body1 := f); set (body2 := g) end.
  (* the loop that adds the states *)
  assert (H1 : (λ i x, shaped x ∧ get_nstates x = offset + i
                 ∧ get_ncols (table x) = get_ncols (table fa)
                 ∧ is_deterministic x = is_deterministic fa
                 ∧ (∀ s c, 0 ≤ s → 0 ≤ c →
                      step x s c = if decide (s < offset) then step fa s c else -1)
                 ∧ (∀ s, 0 ≤ s →
                      accepts x s = if decide (s < offset) then accepts fa s
                                    else if decide (s < offset + i)
                                         then copied_token other (s - offset) else -1))
               (0 + n) (foldl body1 fa (seqZ 0 n))).
  { apply foldl_seqZ_inv; [done| |].
    - split_and!; [done|lia|done|done| |].
      + intros s c Hs Hc. case_decide; [done|].
        apply step_out_of_range; [done..|]. left. fold offset. lia.
      + intros s Hs. case_decide; [done|]. rewrite decide_False by lia.
        apply accepts_out_of_range; [done|]. fold offset. lia.
    - intros i x Hi (Hx & Hnx & Hcx & Hdx & Hstep & Hacc).
      assert (Hsa := shaped_add_state _ Hx).
      assert (Hna := get_nstates_add_state x).
      set (y := body1 x i).
      assert (Hy : shaped y ∧ table y = table (add_state x)
                   ∧ is_deterministic y = is_deterministic x
                   ∧ ∀ s, 0 ≤ s → accepts y s =
                       if decide (s = offset + i) then copied_token other i
                       else accepts (add_state x) s).
      { unfold y, body1. case_decide as Htok.
        - split_and!; [by apply shaped_add_accept|done|done|].
          intros s Hs. rewrite accepts_add_accept by (done || lia).
          rewrite Hna, Hnx. unfold copied_token. rewrite (decide_True _ _ Htok).
          destruct (decide (s = offset + i)) as [->|Hne].
          + rewrite decide_True; [done|lia].
          + rewrite decide_False; [done|]. tauto.
        - split_and!; [done..|].
          intros s Hs. case_decide as Hd; [|done]. subst s.
          rewrite accepts_add_state by done. rewrite decide_False by lia.
          unfold copied_token. by rewrite decide_False. }
      clearbody y. destruct Hy as (Hy & Hty & Hdy & Hay).
      split_and!.
      + done.
      + unfold get_nstates in *. rewrite Hty. lia.
      + rewrite Hty. done.
      + congruence.
      + intros s c Hs Hc. unfold step. rewrite Hty. fold (step (add_state x) s c).
        rewrite step_add_state by done. rewrite Hstep by done. ifs.
      + intros s Hs. rewrite Hay by done. rewrite accepts_add_state by done.
        rewrite Hacc by done. rewrite Hnx. ifs. }
  simpl in H1. replace (0 + n) with n in H1 by lia.
  generalize dependent (foldl body1 fa (seqZ 0 n)).
  intros fa1 (Hx1 & Hn1 & Hc1 & Hd1 & Hs1 & Ha1).
  (* the loop that copies the transitions *)
  assert (H2 : (λ i x, shaped x ∧ get_nstates x = offset + n
                 ∧ get_ncols (table x) = get_ncols (table fa)
                 ∧ is_deterministic x = is_deterministic fa
                 ∧ accepted_tokens x = accepted_tokens fa1
                 ∧ (∀ s c, 0 ≤ s → 0 ≤ c →
                      step x s c =
                        if decide (s < offset) then step fa s c
                        else if decide (s < offset + i)
                             then copied_cell fa other offset (s - offset) c else -1))
               (0 + n) (foldl body2 fa1 (seqZ 0 n))).
  { apply foldl_seqZ_inv; [done| |].
    - split_and!; [done..|].
      intros s c Hs Hc. rewrite Hs1 by done. case_decide; [done|].
      rewrite decide_False; [done|lia].
    - intros i x Hi (Hx & Hnx & Hcx & Hdx & Hax & Hstep).
      destruct (copy_row_spec fa other offset i x (body2 x i))
        as (Hy & Hny & Hcy & Hdy & Hay & Hsy); [done|done|done|lia|lia|done| |].
      { intros c Hc. rewrite Hstep by lia. rewrite decide_False by lia.
        rewrite decide_False; [done|lia]. }
      split_and!; [done|congruence|congruence|congruence|congruence|].
      intros s c Hs Hc. rewrite Hsy by done. rewrite Hstep by done. ifs. }
  simpl in H2. replace (0 + n) with n in H2 by lia.
  destruct H2 as (Hx2 & Hn2 & Hc2 & Hd2 & Ha2 & Hs2).
  split; [done..| |].
  - intros s c Hs Hc. by rewrite Hs2.
  - intros s Hs. unfold accepts at 1. rewrite Ha2. fold (accepts fa1 s). by rewrite Ha1.
Qed.

(** ** The combinators keep accepting states free of epsilon transitions *)

Section no_epsilon.
Implicit Types fa out a b : finite_automaton.

Lemma no_eps_new nsymbols det : accepting_without_epsilon (new_automaton nsymbols det).
Proof.
  intros s e Hs. unfold get_nstates, get_nrows, isize in Hs. simpl in Hs. lia.
Qed.

Lemma get_nsymbols_add_state fa : get_nsymbols (add_state fa) = get_nsymbols fa.
Proof. done. Qed.

Lemma no_eps_add_state fa :
  shaped fa → accepting_without_epsilon fa → accepting_without_epsilon (add_state fa).
Proof.
  intros Hsh HP s e Hs Hacc He.
  rewrite accepts_add_state in Hacc by (done || lia).
  rewrite step_add_state by lia.
  case_decide; [|done]. apply HP; [lia|done|done].
Qed.

(** Rewriting one row and clearing its accept token keeps the property. *)
Lemma no_eps_update_row fa y i :
  0 ≤ get_nsymbols fa →
  accepting_without_epsilon fa →
  get_nstates y = get_nstates fa → get_nsymbols y = get_nsymbols fa →
  get_nsymbols_eps y = get_nsymbols_eps fa →
  (∀ s c, 0 ≤ s → 0 ≤ c → s ≠ i → step y s c = step fa s c) →
  (∀ s, 0 ≤ s → s ≠ i → accepts y s = accepts fa s) →
  accepts y i = -1 →
  accepting_without_epsilon y.
Proof.
  intros Hpos HP Hn Hsym Heps Hstep Hacc Hi s e Hs Ha He.
  destruct (decide (s = i)) as [->|Hne]; [done|].
  assert (0 ≤ e) by lia.
  rewrite Hstep by lia. rewrite Hacc in Ha by lia.
  apply HP; [lia|done|lia].
Qed.

Lemma accepts_remove_accept_eq fa s : accepts (remove_accept fa s) s = -1.
Proof.
  unfold accepts, remove_accept. simpl. rewrite at_default.
  destruct (decide (Z.to_nat s < length (accepted_tokens fa))%nat).
  - by rewrite list_lookup_insert_eq.
  - rewrite lookup_ge_None_2; [done|]. rewrite length_insert. lia.
Qed.

Lemma no_eps_remove_accept fa s :
  shaped fa → 0 ≤ s →
  accepting_without_epsilon fa → accepting_without_epsilon (remove_accept fa s).
Proof.
  intros Hsh Hs HP. apply (no_eps_update_row fa _ s); try done.
  - by destruct Hsh.
  - intros s' Hs' Hne. apply accepts_remove_accept_ne; [done..|]. congruence.
  - apply accepts_remove_accept_eq.
Qed.

(** A transition out of a state that does not accept never hurts. *)
Lemma no_eps_add_transition fa f c t :
  shaped fa → 0 ≤ f → 0 ≤ c → accepts fa f = -1 →
  accepting_without_epsilon fa → accepting_without_epsilon (add_transition fa f c t).
Proof.
  intros Hsh Hf Hc Hacc HP s e Hs Ha He.
  rewrite get_nstates_add_transition in Hs.
  change (accepts fa s ≠ -1) in Ha.
  change (get_nsymbols fa ≤ e < get_nsymbols_eps fa) in He.
  pose proof (shaped_ncols _ Hsh).
  rewrite step_add_transition by (done || lia).
  rewrite decide_False; [by apply HP|]. intros (-> & _). done.
Qed.

(** A state whose epsilon cells are empty may start to accept. *)
Lemma no_eps_add_accept fa s t :
  shaped fa → 0 ≤ s →
  (∀ e, get_nsymbols fa ≤ e < get_nsymbols_eps fa → step fa s e = -1) →
  accepting_without_epsilon fa → accepting_without_epsilon (add_accept fa s t).
Proof.
  intros Hsh Hs Hrow HP s' e Hs' Ha He.
  change (step fa s' e = -1). change (0 ≤ s' < get_nstates fa) in Hs'.
  rewrite accepts_add_accept in Ha by (done || lia).
  case_decide as Hd.
  - destruct Hd as [-> _]. by apply Hrow.
  - by apply HP.
Qed.

Lemma no_eps_appended fa other out :
  shaped fa → is_deterministic fa = false →
  get_nsymbols other = get_nsymbols fa →
  accepting_without_epsilon fa → accepting_without_epsilon other →
  appended fa other out → accepting_without_epsilon out.
Proof.
  intros Hsh Hdet Hsym HPfa HPo [Ho Hn Hc Hd Hstep Hacc] s e Hs Ha He.
  assert (Hsym' : get_nsymbols out = get_nsymbols fa).
  { unfold get_nsymbols. by rewrite Hc, Hd. }
  unfold get_nsymbols_eps in He. rewrite Hsym', Hc in He.
  pose proof (shaped_ncols _ Hsh).
  rewrite Hstep by lia. rewrite Hacc in Ha by lia.
  case_decide.
  - apply HPfa; [lia|done|done].
  - case_decide; [|done].
    unfold copied_token in Ha. unfold copied_cell.
    case_decide as Htok; [|done].
    case_decide as Hcell; [|done]. exfalso.
    destruct Hcell as (Hc1 & Hc2 & Hc3).
    rewrite HPo in Hc3; [lia|lia|lia|].
    unfold get_nsymbols_eps. lia.
Qed.

Lemma no_eps_append_states fa other :
  shaped fa → is_deterministic fa = false →
  get_nsymbols other = get_nsymbols fa →
  accepting_without_epsilon fa → accepting_without_epsilon other →
  accepting_without_epsilon (append_states fa other).
Proof.
  intros. eapply no_eps_appended; eauto using append_states_spec.
Qed.

End no_epsilon.

Section combinators.
Implicit Types a b : finite_automaton.

Lemma get_ncols_new_nfa nsymbols : get_ncols (table (new_automaton nsymbols false)) = nsymbols + 2.
Proof. done. Qed.

Lemma no_eps_unite a b :
  shaped a → get_nsymbols b = get_nsymbols a →
  accepting_without_epsilon a → accepting_without_epsilon b →
  accepting_without_epsilon (finite_automaton.unite a b).
Proof.
  intros Ha Hsym HPa HPb. unfold finite_automaton.unite.
  pose proof (shaped_ncols _ Ha) as Hpos.
  set (out0 := new_automaton (get_nsymbols a) false).
  assert (H0 : shaped out0) by by apply shaped_new.
  set (x1 := add_state out0).
  assert (H1 : shaped x1) by by apply shaped_add_state.
  assert (HP1 : accepting_without_epsilon x1) by (apply no_eps_add_state; [done|apply no_eps_new]).
  assert (Hn1 : get_nstates x1 = 1) by done.
  assert (Hsym1 : get_nsymbols x1 = get_nsymbols a) by apply get_nsymbols_new.
  set (x2 := append_states x1 a).
  destruct (append_states_spec x1 a H1) as [H2 Hn2 Hc2 Hd2 Hs2 Ha2]. fold x2 in H2, Hn2, Hc2, Hd2, Hs2, Ha2.
  assert (HP2 : accepting_without_epsilon x2) by by apply no_eps_append_states.
  set (x3 := append_states x2 b).
  destruct (append_states_spec x2 b H2) as [H3 Hn3 Hc3 Hd3 Hs3 Ha3]. fold x3 in H3, Hn3, Hc3, Hd3, Hs3, Ha3.
  assert (HP3 : accepting_without_epsilon x3).
  { apply no_eps_append_states; try done.
    unfold get_nsymbols at 2. rewrite Hc2, Hd2. by rewrite Hsym, <- Hsym1. }
  assert (Hacc0 : accepts x3 0 = -1).
  { rewrite Ha3 by done. pose proof (get_nstates_nonneg a).
    rewrite decide_True by lia.
    rewrite Ha2 by done. rewrite decide_True by lia. done. }
  assert (He0 : get_epsilon0 x3 = get_nsymbols a).
  { unfold get_epsilon0. rewrite Hc3, Hc2. simpl. lia. }
  assert (He1 : get_epsilon1 x3 = get_nsymbols a + 1).
  { unfold get_epsilon1. rewrite Hc3, Hc2. simpl. lia. }
  rewrite He0, He1. change (get_nstates out0) with 0.
  apply no_eps_add_transition; [by apply shaped_add_transition|done|lia|done|].
  apply no_eps_add_transition; [done|done|lia|done|done].
Qed.

(** The two loops of [concat], [plus] and [maybe] only touch rows whose
    accept token they clear. *)
Lemma no_eps_concat a b token :
  shaped a → get_nsymbols b = get_nsymbols a →
  accepting_without_epsilon a → accepting_without_epsilon b →
  accepting_without_epsilon (finite_automaton.concat a b token).
Proof.
  intros Ha Hsym HPa HPb. unfold finite_automaton.concat.
  pose proof (shaped_ncols _ Ha) as Hpos.
  set (out0 := new_automaton (get_nsymbols a) false).
  assert (H0 : shaped out0) by by apply shaped_new.
  assert (HP0 : accepting_without_epsilon out0) by apply no_eps_new.
  set (x1 := append_states out0 a).
  destruct (append_states_spec out0 a H0) as [H1 Hn1 Hc1 Hd1 Hs1 Ha1].
  fold x1 in H1, Hn1, Hc1, Hd1, Hs1, Ha1.
  assert (Hsym0 : get_nsymbols out0 = get_nsymbols a) by apply get_nsymbols_new.
  assert (HP1 : accepting_without_epsilon x1) by by apply no_eps_append_states.
  set (x2 := append_states x1 b).
  destruct (append_states_spec x1 b H1) as [H2 Hn2 Hc2 Hd2 Hs2 Ha2].
  fold x2 in H2, Hn2, Hc2, Hd2, Hs2, Ha2.
  assert (Hsym1 : get_nsymbols x1 = get_nsymbols a).
  { unfold get_nsymbols at 1. rewrite Hc1, Hd1. apply Hsym0. }
  assert (HP2 : accepting_without_epsilon x2).
  { apply no_eps_append_states; try done. by rewrite Hsym1. }
  assert (Hsym2 : get_nsymbols x2 = get_nsymbols a).
  { unfold get_nsymbols at 1. rewrite Hc2, Hd2. apply Hsym1. }
  change (get_nstates out0) with 0 in Hn1. simpl in Hn1.
  set (boff := get_nstates x1). fold boff in Hn2.
  assert (Hboff : boff = get_nstates a) by (unfold boff; lia).
  pose proof (get_nstates_nonneg a) as Hna. pose proof (get_nstates_nonneg b) as Hnb.
  set (e0 := get_epsilon0 x2).
  assert (He0 : e0 = get_nsymbols a).
  { unfold e0, get_epsilon0. rewrite Hc2, Hc1. simpl. lia. }
  (* first loop *)
  match goal with |- accepting_without_epsilon (foldl ?g (foldl ?f _ _) _) =>
    set (body1 := f); set (body2 := g) end.
  set (Inv1 := λ x, shaped x ∧ accepting_without_epsilon x
                  ∧ get_nstates x = get_nstates x2
                  ∧ get_ncols (table x) = get_ncols (table x2)
                  ∧ is_deterministic x = false
                  ∧ ∀ s c, boff ≤ s → 0 ≤ c → step x s c = step x2 s c).
  assert (L1 : Inv1 (foldl body1 x2 (seqZ 0 (get_nstates a)))).
  { apply foldl_seqZ_inv'; [by unfold Inv1; rewrite Hd2, Hd1|].
    intros i x Hi (Hx & HPx & Hnx & Hcx & Hdx & Hsx). unfold body1, Inv1.
    case_decide; [|done].
    split_and!.
    - by apply shaped_remove_accept, shaped_add_transition.
    - apply (no_eps_update_row x _ i); try done.
      + by destruct Hx.
      + apply get_nstates_add_transition.
      + intros s c Hs Hc Hne. rewrite step_remove_accept.
        apply step_add_transition_ne; [lia..|by left].
      + intros s Hs Hne. rewrite accepts_remove_accept_ne by lia. done.
      + apply accepts_remove_accept_eq.
    - rewrite <- Hnx. apply get_nstates_add_transition.
    - done.
    - done.
    - intros s c Hs Hc. rewrite <- Hsx by done. rewrite step_remove_accept.
      apply step_add_transition_ne; [lia..|left; lia]. }
  generalize dependent (foldl body1 x2 (seqZ 0 (get_nstates a))).
  intros y1 (Hy1 & HPy1 & Hny1 & Hcy1 & Hdy1 & Hsy1).
  (* second loop *)
  set (Inv2 := λ x, shaped x ∧ accepting_without_epsilon x
                  ∧ table x = table y1 ∧ is_deterministic x = false).
  assert (L2 : Inv2 (foldl body2 y1 (seqZ 0 (get_nstates b)))).
  { apply foldl_seqZ_inv'; [done|].
    intros i x Hi (Hx & HPx & Htx & Hdx). unfold body2, Inv2.
    case_decide as Hacc; [|done].
    split_and!; [by apply shaped_add_accept| |done|done].
    apply no_eps_add_accept; [done|lia| |done].
    intros e He.
    assert (Hstepx : step x (i + boff) e = step y1 (i + boff) e)
      by (unfold step; by rewrite Htx).
    assert (He' : get_nsymbols a ≤ e < get_nsymbols a + 2).
    { unfold get_nsymbols, get_nsymbols_eps in He.
      rewrite Htx, Hdx, Hcy1, Hc2, Hc1 in He.
      change (get_ncols (table out0)) with (get_nsymbols a + 2) in He. lia. }
    rewrite Hstepx, Hsy1 by lia. rewrite Hs2 by lia.
    rewrite decide_False by lia. rewrite decide_True by lia.
    unfold copied_cell. case_decide as Hcell; [|done]. exfalso.
    destruct Hcell as (Hcl1 & Hcl2 & Hcl3).
    replace (i + boff - get_nstates x1) with i in Hcl3 by (unfold boff; lia).
    rewrite HPb in Hcl3; [lia|lia|done|].
    unfold get_nsymbols_eps. rewrite Hsym. lia. }
  apply L2.
Qed.

Lemma no_eps_plus a token :
  shaped a → accepting_without_epsilon a →
  shaped (finite_automaton.plus a token)
  ∧ accepting_without_epsilon (finite_automaton.plus a token).
Proof.
  intros Ha HPa. unfold finite_automaton.plus.
  pose proof (shaped_ncols _ Ha) as Hpos.
  set (out0 := new_automaton (get_nsymbols a) false).
  assert (H0 : shaped out0) by by apply shaped_new.
  assert (HP0 : accepting_without_epsilon out0) by apply no_eps_new.
  set (x1 := append_states out0 a).
  destruct (append_states_spec out0 a H0) as [H1 Hn1 Hc1 Hd1 Hs1 Ha1].
  fold x1 in H1, Hn1, Hc1, Hd1, Hs1, Ha1.
  assert (Hsym0 : get_nsymbols out0 = get_nsymbols a) by apply get_nsymbols_new.
  assert (HP1 : accepting_without_epsilon x1) by by apply no_eps_append_states.
  change (get_nstates out0) with 0 in Hn1. simpl in Hn1.
  pose proof (get_nstates_nonneg a) as Hna.
  set (x2 := add_state x1).
  assert (H2 : shaped x2) by by apply shaped_add_state.
  assert (HP2 : accepting_without_epsilon x2) by by apply no_eps_add_state.
  set (x3 := add_accept x2 (get_nstates x1) token).
  assert (H3 : shaped x3) by by apply shaped_add_accept.
  assert (HP3 : accepting_without_epsilon x3).
  { apply no_eps_add_accept; [done|lia| |done].
    intros e He. unfold x2. rewrite step_add_state by lia. by rewrite decide_False by lia. }
  assert (Hc3 : get_ncols (table x3) = get_nsymbols a + 2)
    by (change (get_ncols (table x3)) with (get_ncols (table x1)); by rewrite Hc1).
  assert (He0 : get_epsilon0 x3 = get_nsymbols a) by (unfold get_epsilon0; lia).
  assert (He1 : get_epsilon1 x3 = get_nsymbols a + 1) by (unfold get_epsilon1; lia).
  rewrite He0, He1.
  match goal with |- context [foldl ?f _ _] => set (body := f) end.
  set (Inv := λ x, shaped x ∧ accepting_without_epsilon x).
  assert (L : Inv (foldl body x3 (seqZ 0 (get_nstates a)))).
  { apply foldl_seqZ_inv'; [done|].
    intros i x Hi (Hx & HPx). unfold body, Inv.
    case_decide; [|done].
    split.
    - by apply shaped_remove_accept, shaped_add_transition, shaped_add_transition.
    - apply (no_eps_update_row x _ i); try done.
      + by destruct Hx.
      + change (get_nstates (add_transition (add_transition x i (get_nsymbols a) (get_nstates x1))
                        i (get_nsymbols a + 1) 0) = get_nstates x).
        by rewrite !get_nstates_add_transition.
      + intros s c Hs Hc Hne. rewrite step_remove_accept.
        rewrite !step_add_transition_ne; [done|lia..|by left|lia|lia|lia|lia|by left].
      + intros s Hs Hne. rewrite accepts_remove_accept_ne by lia. done.
      + apply accepts_remove_accept_eq. }
  apply L.
Qed.

Lemma no_eps_maybe a token :
  shaped a → accepting_without_epsilon a →
  accepting_without_epsilon (finite_automaton.maybe a token).
Proof.
  intros Ha HPa. unfold finite_automaton.maybe.
  pose proof (shaped_ncols _ Ha) as Hpos.
  set (out0 := new_automaton (get_nsymbols a) false).
  assert (H0 : shaped out0) by by apply shaped_new.
  set (x1 := add_state out0).
  assert (H1 : shaped x1) by by apply shaped_add_state.
  assert (HP1 : accepting_without_epsilon x1) by (apply no_eps_add_state; [done|apply no_eps_new]).
  assert (Hn1 : get_nstates x1 = 1) by done.
  assert (Hsym1 : get_nsymbols x1 = get_nsymbols a) by apply get_nsymbols_new.
  set (x2 := append_states x1 a).
  destruct (append_states_spec x1 a H1) as [H2 Hn2 Hc2 Hd2 Hs2 Ha2].
  fold x2 in H2, Hn2, Hc2, Hd2, Hs2, Ha2.
  assert (HP2 : accepting_without_epsilon x2) by by apply no_eps_append_states.
  pose proof (get_nstates_nonneg a) as Hna.
  set (x3 := add_state x2).
  assert (H3 : shaped x3) by by apply shaped_add_state.
  assert (HP3 : accepting_without_epsilon x3) by by apply no_eps_add_state.
  assert (Hn3 : get_nstates x3 = get_nstates x2 + 1) by apply get_nstates_add_state.
  assert (Hc3 : get_ncols (table x3) = get_nsymbols a + 2)
    by (change (get_ncols (table x3)) with (get_ncols (table x2)); by rewrite Hc2).
  assert (He0 : get_epsilon0 x3 = get_nsymbols a) by (unfold get_epsilon0; lia).
  assert (He1 : get_epsilon1 x3 = get_nsymbols a + 1) by (unfold get_epsilon1; lia).
  rewrite He0, He1. change (get_nstates out0) with 0.
  assert (Hacc0 : accepts x3 0 = -1).
  { unfold x3. rewrite accepts_add_state by done. rewrite decide_True by lia.
    rewrite Ha2 by done. rewrite decide_True by lia. done. }
  set (x4 := add_transition x3 0 (get_nsymbols a + 1) (get_nstates x1)).
  assert (H4 : shaped x4) by by apply shaped_add_transition.
  assert (HP4 : accepting_without_epsilon x4) by (apply no_eps_add_transition; [done|done|lia|done|done]).
  set (nacc := get_nstates x2) in *.
  match goal with |- context [foldl ?f _ _] => set (body := f) end.
  set (Inv := λ p : finite_automaton * Z,
                 shaped p.1 ∧ accepting_without_epsilon p.1
                 ∧ get_nstates p.1 = nacc + 1
                 ∧ get_nsymbols p.1 = get_nsymbols a
                 ∧ get_nsymbols_eps p.1 = get_nsymbols a + 2
                 ∧ 0 ≤ p.2 < nacc ∧ accepts p.1 p.2 = -1
                 ∧ ∀ c, 0 ≤ c → step p.1 nacc c = -1).
  assert (L : Inv (foldl body (x4, 0) (seqZ 0 (get_nstates a)))).
  { apply foldl_seqZ_inv'.
    - unfold Inv. simpl. split_and!; try done.
      + unfold x4. rewrite get_nstates_add_transition. done.
      + change (get_nsymbols x4) with (get_nsymbols x2).
        unfold get_nsymbols. by rewrite Hc2, Hd2.
      + unfold nacc. lia.
      + intros c Hc. unfold x4. rewrite step_add_transition_ne; [|lia..|left; unfold nacc; lia].
        unfold x3. rewrite step_add_state by (unfold nacc; lia).
        by rewrite decide_False by (unfold nacc; lia).
    - intros i [x last] Hi (Hx & HPx & Hnx & Hsx & Hex & Hlast & Hal & Hblank). simpl in *.
      unfold body, Inv. case_decide; [|done]. simpl.
      assert (Hx' : shaped (add_transition x last (get_nsymbols a) (i + get_nstates x1)))
        by by apply shaped_add_transition.
      split_and!.
      + by apply shaped_remove_accept.
      + apply no_eps_remove_accept; [done|lia|].
        apply no_eps_add_transition; [done|lia|lia|done|done].
      + rewrite <- Hnx. apply get_nstates_add_transition.
      + done.
      + done.
      + lia.
      + unfold nacc. lia.
      + apply accepts_remove_accept_eq.
      + intros c Hc. rewrite step_remove_accept.
        rewrite step_add_transition_ne; [by apply Hblank|lia..|left; lia]. }
  destruct (foldl body (x4, 0) (seqZ 0 (get_nstates a))) as [x last].
  destruct L as (Hx & HPx & Hnx & Hsx & Hex & Hlast & Hal & Hblank). simpl in *.
  apply no_eps_add_accept.
  - by apply shaped_add_transition.
  - unfold nacc. lia.
  - intros e He. change (get_nsymbols x ≤ e < get_nsymbols_eps x) in He.
    rewrite step_add_transition_ne; [apply Hblank; lia|lia..|left; lia].
  - apply no_eps_add_transition; [done|lia|lia|done|done].
Qed.

End combinators.

(** C9.  When the accepting states of the operands have no outgoing epsilon
    transitions, the accepting states of [unite], [concat], [plus], [maybe]
    and [star] have none either. *)
Theorem combinators_preserve_accepting_without_epsilon
    (a b : finite_automaton) (token : Z) :
  shaped a → shaped b → get_nsymbols b = get_nsymbols a →
  accepting_without_epsilon a → accepting_without_epsilon b →
  accepting_without_epsilon (finite_automaton.unite a b)
  ∧ accepting_without_epsilon (finite_automaton.concat a b token)
  ∧ accepting_without_epsilon (finite_automaton.plus a token)
  ∧ accepting_without_epsilon (finite_automaton.maybe a token)
  ∧ accepting_without_epsilon (finite_automaton.star a token).
Proof.
  intros Ha Hb Hsym HPa HPb. split_and!.
  - by apply no_eps_unite.
  - by apply no_eps_concat.
  - by apply no_eps_plus.
  - by apply no_eps_maybe.
  - unfold finite_automaton.star. by apply no_eps_maybe; apply no_eps_plus.
Qed.

(** ** Boolean checkers *)

Lemma forallb_seqZ (p : Z → bool) m n :
  forallb p (seqZ m n) = true ↔ ∀ i, m ≤ i < m + n → p i = true.
Proof.
  rewrite forallb_forall. split.
  - intros H i Hi. apply H, list_elem_of_In, elem_of_seqZ. lia.
  - intros H i Hi. apply H. apply list_elem_of_In, elem_of_seqZ in Hi. lia.
Qed.

Lemma shapedb_sound fa : shapedb fa = true → shaped fa.
Proof.
  unfold shapedb. rewrite !andb_true_iff, !bool_decide_eq_true.
  intros [[H1 H2] H3]. split; [done..|].
  apply Forall_forall. intros row Hrow. rewrite forallb_forall in H3.
  specialize (H3 row). rewrite bool_decide_eq_true in H3.
  by apply H3, list_elem_of_In.
Qed.

Lemma well_formedb_sound fa : well_formedb fa = true → well_formed fa.
Proof.
  unfold well_formedb. rewrite !andb_true_iff, bool_decide_eq_true.
  intros [[H1 H2] H3]. rewrite forallb_seqZ in H3.
  split; [by apply shapedb_sound|done| |].
  - intros s c Hs Hc. specialize (H3 s ltac:(lia)).
    apply andb_true_iff in H3 as [H3 _]. rewrite forallb_seqZ in H3.
    specialize (H3 c ltac:(lia)). by apply bool_decide_eq_true in H3.
  - intros s Hs. specialize (H3 s ltac:(lia)).
    apply andb_true_iff in H3 as [_ H3]. by apply bool_decide_eq_true in H3.
Qed.

Lemma accepting_without_epsilonb_sound fa :
  accepting_without_epsilonb fa = true → accepting_without_epsilon fa.
Proof.
  unfold accepting_without_epsilonb. rewrite forallb_seqZ.
  intros H s e Hs Hacc He. specialize (H s ltac:(lia)).
  apply orb_true_iff in H as [H|H].
  - by apply bool_decide_eq_true in H.
  - rewrite forallb_seqZ in H. specialize (H e ltac:(lia)).
    by apply bool_decide_eq_true in H.
Qed.

(** ** Epsilon closure *)

Lemma elem_of_step_set ss c fa x :
  x ∈ step_set ss c fa ↔ ∃ p, p ∈ ss ∧ step fa p c = x ∧ x ≠ -1.
Proof.
  revert x. unfold step_set.
  apply (foldl_elements_inv
           (λ Y (acc : gset Z), ∀ x, x ∈ acc ↔ ∃ p, p ∈ Y ∧ step fa p c = x ∧ x ≠ -1)).
  - intros x. split; [set_solver|]. intros (p & Hp & _). set_solver.
  - intros Y p acc Hp HpY HY IH x. simpl. case_decide as Hd.
    + rewrite elem_of_union, elem_of_singleton, IH. split.
      * intros [->|(p' & Hp' & Hs & Hx)]; [exists p|exists p']; set_solver.
      * intros (p' & Hp' & Hs & Hx). apply elem_of_union in Hp' as [Hp'|Hp'].
        -- apply elem_of_singleton in Hp' as ->. by left.
        -- right. by exists p'.
    + rewrite IH. split.
      * intros (p' & Hp' & Hs & Hx). exists p'. set_solver.
      * intros (p' & Hp' & Hs & Hx). apply elem_of_union in Hp' as [Hp'|Hp'].
        -- apply elem_of_singleton in Hp' as ->.
           assert (step fa p c ≠ -1) by congruence. done.
        -- by exists p'.
Qed.

Lemma states_of_size fa ss : states_of fa ss → (size ss ≤ Z.to_nat (get_nstates fa))%nat.
Proof.
  intros H.
  assert (Hsub : ss ⊆ list_to_set (seqZ 0 (get_nstates fa))).
  { intros x Hx. apply elem_of_list_to_set, elem_of_seqZ. specialize (H x Hx). lia. }
  apply subseteq_size in Hsub.
  rewrite size_list_to_set in Hsub by apply NoDup_seqZ.
  by rewrite length_seqZ in Hsub.
Qed.

Section closure.
Context (fa : finite_automaton) (Hwf : well_formed fa) (Hnfa : is_deterministic fa = false).

Lemma epsilon_columns :
  0 ≤ get_epsilon0 fa < get_nsymbols_eps fa ∧ get_epsilon1 fa = get_epsilon0 fa + 1
  ∧ get_epsilon1 fa < get_nsymbols_eps fa ∧ get_epsilon0 fa = get_nsymbols fa.
Proof.
  pose proof (shaped_ncols _ (wf_shaped _ Hwf)) as H.
  unfold get_nsymbols, get_epsilon0, get_epsilon1, get_nsymbols_eps in *.
  rewrite Hnfa in *. lia.
Qed.

Lemma epsilon_move_range p q :
  0 ≤ p < get_nstates fa → epsilon_move fa p q → 0 ≤ q < get_nstates fa.
Proof.
  intros Hp (_ & Hq & Hor). pose proof epsilon_columns as (He0 & He1 & He2 & _).
  destruct Hor as [<-|<-].
  - pose proof (wf_cells _ Hwf p (get_epsilon0 fa) Hp ltac:(lia)). lia.
  - pose proof (wf_cells _ Hwf p (get_epsilon1 fa) Hp ltac:(lia)). lia.
Qed.

Lemma epsilon_reach_range p q :
  0 ≤ p < get_nstates fa → epsilon_reach fa p q → 0 ≤ q < get_nstates fa.
Proof.
  intros Hp Hr. induction Hr as [|p p' q Hm _ IH]; [done|].
  apply IH. by eapply epsilon_move_range.
Qed.

(** The effect of visiting one epsilon column of [state]. *)
Lemma closure_visit_spec state ss q e :
  ∃ l, closure_visit fa state (ss, q) e = (list_to_set l ∪ ss, q ++ l)
       ∧ (size (list_to_set l ∪ ss) = length l + size ss)%nat
       ∧ (∀ x, x ∈ l → x = step fa state e ∧ x ≠ -1)
       ∧ (step fa state e ≠ -1 → step fa state e ∈ (list_to_set l ∪ ss : gset Z)).
Proof.
  unfold closure_visit. case_decide as H1; [|case_decide as H2].
  - exists []. simpl. rewrite app_nil_r, union_empty_l_L. split_and!; [done..| |done].
    intros x Hx. by apply elem_of_nil in Hx.
  - exists []. simpl. rewrite app_nil_r, union_empty_l_L. split_and!; [done..| |done].
    intros x Hx. by apply elem_of_nil in Hx.
  - exists [step fa state e]. simpl. rewrite union_empty_r_L. split_and!.
    + done.
    + rewrite size_union by set_solver. by rewrite size_singleton.
    + intros x Hx. apply list_elem_of_singleton in Hx as ->. done.
    + set_solver.
Qed.

Lemma closure_body_spec state ss q :
  ∃ l, foldl (closure_visit fa state) (ss, q)
             (seqZ (get_epsilon0 fa) (get_epsilon1 fa - get_epsilon0 fa + 1))
       = (list_to_set l ∪ ss, q ++ l)
       ∧ (size (list_to_set l ∪ ss) = length l + size ss)%nat
       ∧ (∀ x, x ∈ l → epsilon_move fa state x)
       ∧ (∀ x, epsilon_move fa state x → x ∈ (list_to_set l ∪ ss : gset Z)).
Proof.
  pose proof epsilon_columns as (He0 & He1 & He2 & _).
  replace (get_epsilon1 fa - get_epsilon0 fa + 1) with 2 by lia.
  rewrite seqZ_cons by lia. rewrite seqZ_cons by lia. rewrite seqZ_nil by lia.
  replace (Z.succ (get_epsilon0 fa)) with (get_epsilon1 fa) by lia. cbn [foldl].
  destruct (closure_visit_spec state ss q (get_epsilon0 fa)) as (l1 & -> & Hs1 & Hl1 & Hn1).
  destruct (closure_visit_spec state (list_to_set l1 ∪ ss) (q ++ l1) (get_epsilon1 fa))
    as (l2 & -> & Hs2 & Hl2 & Hn2).
  exists (l1 ++ l2).
  assert (Heq : list_to_set (l1 ++ l2) ∪ ss = list_to_set l2 ∪ (list_to_set l1 ∪ ss) :> gset Z).
  { rewrite list_to_set_app_L. apply set_eq. intros x. rewrite !elem_of_union. tauto. }
  rewrite Heq, length_app, app_assoc.
  split_and!.
  - done.
  - lia.
  - intros x Hx. apply elem_of_app in Hx as [Hx|Hx].
    + destruct (Hl1 x Hx) as [-> ?]. split_and!; [done|done|by left].
    + destruct (Hl2 x Hx) as [-> ?]. split_and!; [done|done|by right].
  - intros x (_ & Hx & [Hx'|Hx']); subst x.
    + specialize (Hn1 Hx). set_solver.
    + by apply Hn2.
Qed.

Lemma closure_loop_spec ss0 fuel ss q :
  closure_inv fa ss0 ss q →
  (length q + 2 * (Z.to_nat (get_nstates fa) - size ss) < fuel)%nat →
  ∃ ss', closure_loop fuel fa ss q = Some ss'
         ∧ states_of fa ss'
         ∧ ∀ x, x ∈ ss' ↔ ∃ p, p ∈ ss0 ∧ epsilon_reach fa p x.
Proof.
  revert ss q. induction fuel as [|fuel IH]; intros ss q Hinv Hfuel; [lia|].
  destruct q as [|state q].
  - simpl. exists ss. destruct Hinv as [H1 H2 H3 H4 H5]. split_and!; [done..|].
    intros x. split; [apply H3|].
    intros (p & Hp & Hr). apply H1 in Hp.
    induction Hr as [|p p' x Hm _ IHr]; [done|].
    apply IHr. eapply H5; [done| |done]. apply not_elem_of_nil.
  - simpl.
    destruct (closure_body_spec state ss q) as (l & -> & Hsize & Hl & Hall).
    destruct Hinv as [H1 H2 H3 H4 H5].
    assert (Hstate : state ∈ ss) by (apply H4; left).
    assert (Hrange : states_of fa (list_to_set l ∪ ss)).
    { intros x Hx. apply elem_of_union in Hx as [Hx|Hx]; [|by apply H2].
      apply elem_of_list_to_set in Hx. eapply epsilon_move_range; [|by apply Hl].
      by apply H2. }
    apply IH.
    + split.
      * set_solver.
      * done.
      * intros x Hx. apply elem_of_union in Hx as [Hx|Hx]; [|by apply H3].
        apply elem_of_list_to_set in Hx.
        destruct (H3 state Hstate) as (p & Hp & Hr). exists p. split; [done|].
        eapply rtc_r; [done|]. by apply Hl.
      * intros x Hx. apply elem_of_app in Hx as [Hx|Hx].
        -- apply elem_of_union_r, H4. by right.
        -- apply elem_of_union_l. by apply elem_of_list_to_set.
      * intros p r Hp Hpq Hm.
        destruct (decide (p = state)) as [->|Hne]; [by apply Hall|].
        apply elem_of_union in Hp as [Hp|Hp].
        -- apply elem_of_list_to_set in Hp. exfalso. apply Hpq. set_solver.
        -- apply elem_of_union_r. eapply H5; [done| |done].
           intros Hin. apply Hpq. apply elem_of_cons in Hin as [?|Hin]; [done|]. set_solver.
    + pose proof (states_of_size _ _ Hrange). rewrite length_app. simpl in Hfuel. lia.
Qed.

Lemma get_epsilon_closure_spec ss :
  states_of fa ss →
  ∃ ss', get_epsilon_closure ss fa = Some ss'
         ∧ states_of fa ss'
         ∧ ∀ x, x ∈ ss' ↔ ∃ p, p ∈ ss ∧ epsilon_reach fa p x.
Proof.
  intros Hss. unfold get_epsilon_closure, closure_fuel. apply closure_loop_spec.
  - split; [done|done| | |].
    + intros x Hx. exists x. split; [done|]. apply rtc_refl.
    + intros x Hx. by apply elem_of_elements.
    + intros p r Hp Hq. exfalso. apply Hq. by apply elem_of_elements.
  - lia.
Qed.

End closure.

(** ** The smallest accept token of a set of states *)

Lemma min_accepted_of_spec nfa ss :
  min_token_of nfa (λ r, r ∈ ss) (min_accepted_of nfa ss).
Proof.
  unfold min_accepted_of.
  apply (foldl_elements_inv (λ Y acc, min_token_of nfa (λ r, r ∈ Y) acc)).
  - left. split; [done|]. set_solver.
  - intros Y x acc Hx HxY HY IH. simpl.
    case_decide as H1; [|case_decide as H2].
    + destruct IH as [[-> IH]|(Hne & (r & Hr & Hacc) & Hmin)].
      * left. split; [done|]. intros r Hr. apply elem_of_union in Hr as [Hr|Hr].
        -- apply elem_of_singleton in Hr as ->. done.
        -- by apply IH.
      * right. split_and!; [done|exists r; set_solver|].
        intros r' Hr' Hne'. apply elem_of_union in Hr' as [Hr'|Hr'].
        -- apply elem_of_singleton in Hr' as ->. done.
        -- by apply Hmin.
    + right. split_and!; [done|exists x; set_solver|].
      intros r Hr Hne. apply elem_of_union in Hr as [Hr|Hr].
      * apply elem_of_singleton in Hr as ->. done.
      * destruct IH as [[-> IH]|(Hne' & _ & Hmin)].
        -- by specialize (IH r Hr).
        -- specialize (Hmin r Hr Hne). lia.
    + destruct IH as [[-> IH]|(Hne & (r & Hr & Hacc) & Hmin)]; [lia|].
      right. split_and!; [done|exists r; set_solver|].
      intros r' Hr' Hne'. apply elem_of_union in Hr' as [Hr'|Hr'].
      * apply elem_of_singleton in Hr' as ->. lia.
      * by apply Hmin.
Qed.

Lemma min_token_of_ext fa (R1 R2 : Z → Prop) token :
  (∀ r, R1 r ↔ R2 r) → min_token_of fa R1 token → min_token_of fa R2 token.
Proof.
  intros HR [[-> H]|(Hne & (r & Hr & Hacc) & Hmin)].
  - left. split; [done|]. intros r Hr. by apply H, HR.
  - right. split_and!; [done|exists r; by rewrite <- HR|].
    intros r' Hr'. by apply Hmin, HR.
Qed.

Lemma min_token_of_unique fa (R : Z → Prop) t1 t2 :
  min_token_of fa R t1 → min_token_of fa R t2 → t1 = t2.
Proof.
  intros [[-> H1]|(Hne1 & (r1 & Hr1 & Hacc1) & Hmin1)]
         [[-> H2]|(Hne2 & (r2 & Hr2 & Hacc2) & Hmin2)].
  - done.
  - specialize (H1 r2 Hr2). congruence.
  - specialize (H2 r1 Hr1). congruence.
  - specialize (Hmin1 r2 Hr2). specialize (Hmin2 r1 Hr1).
    rewrite Hacc1 in Hmin2. rewrite Hacc2 in Hmin1. lia.
Qed.

(** ** Subset construction *)

Lemma length_subsets n : length (subsets n) = (2 ^ n)%nat.
Proof.
  induction n as [|n IH]; [done|].
  simpl. rewrite length_app, length_map, IH. lia.
Qed.

Lemma elem_of_subsets n (X : gset Z) :
  (∀ x, x ∈ X → 0 ≤ x < Z.of_nat n) → X ∈ subsets n.
Proof.
  revert X. induction n as [|n IH]; intros X HX.
  - simpl. apply list_elem_of_singleton. apply set_eq. intros x.
    split; [|set_solver]. intros Hx. specialize (HX x Hx). lia.
  - simpl. apply elem_of_app.
    assert (HX' : X ∖ {[Z.of_nat n]} ∈ subsets n).
    { apply IH. intros x Hx. apply elem_of_difference in Hx as [Hx Hne].
      specialize (HX x Hx). rewrite elem_of_singleton in Hne. lia. }
    destruct (decide (Z.of_nat n ∈ X)) as [Hin|Hin].
    + right. apply list_elem_of_In, in_map_iff. exists (X ∖ {[Z.of_nat n]}).
      split; [|by apply list_elem_of_In].
      apply set_eq. intros x. rewrite elem_of_union, elem_of_difference, elem_of_singleton.
      destruct (decide (x = Z.of_nat n)) as [->|]; naive_solver.
    + left. replace X with (X ∖ {[Z.of_nat n]}); [done|].
      apply set_eq. intros x. rewrite elem_of_difference, elem_of_singleton.
      split; [tauto|]. intros Hx. split; [done|]. intros ->. done.
Qed.

Lemma foldl_opt_seqZ_inv {A} (P : Z → A → Prop) (f : A → Z → option A) (a : A) (m n : Z) :
  0 ≤ n →
  P m a →
  (∀ i x, m ≤ i < m + n → P i x → ∃ y, f x i = Some y ∧ P (i + 1) y) →
  ∃ y, foldl_opt f a (seqZ m n) = Some y ∧ P (m + n) y.
Proof.
  intros Hn.
  assert (Hk : ∀ (k : nat) a m, P m a →
            (∀ i x, m ≤ i < m + Z.of_nat k → P i x → ∃ y, f x i = Some y ∧ P (i + 1) y) →
            ∃ y, foldl_opt f a (seqZ m (Z.of_nat k)) = Some y ∧ P (m + Z.of_nat k) y).
  { clear. induction k as [|k IH]; intros a m H0 Hstep.
    - simpl. exists a. split; [done|]. by rewrite Z.add_0_r.
    - rewrite seqZ_cons by lia. simpl.
      destruct (Hstep m a ltac:(lia) H0) as (y & -> & Hy). simpl.
      replace (Z.pred (Z.of_nat (S k))) with (Z.of_nat k) by lia.
      destruct (IH y (Z.succ m)) as (z & Hz & HPz).
      + by replace (Z.succ m) with (m + 1) by lia.
      + intros i x Hi. apply Hstep. lia.
      + exists z. split; [done|].
        by replace (m + Z.of_nat (S k)) with (Z.succ m + Z.of_nat k) by lia. }
  intros H0 Hstep. specialize (Hk (Z.to_nat n) a m H0).
  rewrite Z2Nat.id in Hk by done. by apply Hk.
Qed.

Section determinize.
Context (nfa : finite_automaton) (Hwf : well_formed nfa)
        (Hnfa : is_deterministic nfa = false).

Lemma nsymbols_lt_ncols : get_nsymbols nfa < get_nsymbols_eps nfa.
Proof. unfold get_nsymbols, get_nsymbols_eps. rewrite Hnfa. lia. Qed.

Lemma states_of_step_set S symbol :
  states_of nfa S → 0 ≤ symbol < get_nsymbols nfa → states_of nfa (step_set S symbol nfa).
Proof.
  intros HS Hc x Hx. apply elem_of_step_set in Hx as (p & Hp & Hstep & Hne).
  pose proof nsymbols_lt_ncols.
  pose proof (wf_cells _ Hwf p symbol (HS p Hp) ltac:(lia)). lia.
Qed.

Lemma interned_nodup st front j : det_inv nfa st front j → NoDup (ssupv st).
Proof.
  intros Hinv. apply NoDup_alt. intros i1 i2 S H1 H2.
  assert (Hm1 : ssp2s st !! S = Some (Z.of_nat i1)).
  { apply (di_map _ _ _ _ Hinv). split; [lia|]. by rewrite Nat2Z.id. }
  assert (Hm2 : ssp2s st !! S = Some (Z.of_nat i2)).
  { apply (di_map _ _ _ _ Hinv). split; [lia|]. by rewrite Nat2Z.id. }
  rewrite Hm1 in Hm2. injection Hm2. lia.
Qed.

Lemma interned_bound st front j :
  det_inv nfa st front j → (length (ssupv st) ≤ 2 ^ Z.to_nat (get_nstates nfa))%nat.
Proof.
  intros Hinv. rewrite <- length_subsets.
  apply submseteq_length, NoDup_submseteq; [by eapply interned_nodup|].
  intros S HS. apply list_elem_of_lookup in HS as [k Hk].
  apply elem_of_subsets. intros x Hx.
  destruct (di_sets _ _ _ _ Hinv k S Hk) as [Hrange _].
  specialize (Hrange x Hx). lia.
Qed.

Lemma cell_ok_mono st st' S k symbol :
  cell_ok nfa st S k symbol →
  ssupv st `prefix_of` ssupv st' →
  step (out_fa st') k symbol = step (out_fa st) k symbol →
  cell_ok nfa st' S k symbol.
Proof.
  unfold cell_ok. intros H Hpre Hstep. case_decide; [congruence|].
  destruct H as (T & j & HT & Hj & Hj0 & Hlook).
  exists T, j. split_and!; [done|congruence|done|].
  by eapply prefix_lookup_Some.
Qed.

(** Interning a new set adds a blank row. *)
Lemma det_inv_intern st front j T :
  det_inv nfa st front j → front < isize (ssupv st) →
  ssp2s st !! T = None →
  states_of nfa T → (∀ p q, p ∈ T → epsilon_move nfa p q → q ∈ T) →
  det_inv nfa (mkDS (<[T := get_nstates (out_fa st)]> (ssp2s st))
                    (ssupv st ++ [T]) (add_state (out_fa st))) front j.
Proof.
  intros Hinv Hfront Hnone HT Hclosed.
  destruct Hinv as [Hsh Hdet Hnc Hns Hf Hmap Hsets Hstart Hcells Hblank Hacc Haccb].
  simpl in *.
  assert (Hnew : ∀ k, ssupv st !! k ≠ Some T).
  { intros k Hk. assert (ssp2s st !! T = Some (Z.of_nat k)); [|congruence].
    apply Hmap. split; [lia|]. by rewrite Nat2Z.id. }
  split; simpl.
  - by apply shaped_add_state.
  - done.
  - done.
  - rewrite get_nstates_add_state, isize_app, Hns. done.
  - done.
  - intros S k. rewrite Hns. unfold isize.
    destruct (decide (S = T)) as [->|Hne].
    + rewrite lookup_insert_eq. split.
      * intros [= <-]. split; [lia|].
        rewrite Nat2Z.id, lookup_app_r by lia. by rewrite Nat.sub_diag.
      * intros [Hk Hlook]. f_equal.
        apply lookup_app_Some in Hlook as [Hlook|[Hge Hlook]]; [by apply Hnew in Hlook|].
        apply list_lookup_singleton_Some in Hlook as [Hlook _]. lia.
    + rewrite lookup_insert_ne by done. rewrite Hmap. split.
      * intros [Hk Hlook]. split; [done|]. by apply lookup_app_l_Some.
      * intros [Hk Hlook]. split; [done|].
        apply lookup_app_Some in Hlook as [Hlook|[Hge Hlook]]; [done|].
        apply list_lookup_singleton_Some in Hlook as [_ Hlook]. congruence.
  - intros k S Hlook.
    apply lookup_app_Some in Hlook as [Hlook|[Hge Hlook]]; [by eapply Hsets|].
    apply list_lookup_singleton_Some in Hlook as [_ <-]. done.
  - destruct Hstart as (S0 & H0 & HS0). exists S0. split; [|done].
    by apply lookup_app_l_Some.
  - intros k c S Hk Hlook Hc Hor.
    assert (Hlook' : ssupv st !! Z.to_nat k = Some S).
    { apply lookup_app_Some in Hlook as [Hlook|[Hge Hlook]]; [done|].
      unfold isize in Hfront. lia. }
    apply (cell_ok_mono st); [by apply Hcells|by apply prefix_app_r|].
    simpl. rewrite step_add_state by done.
    apply lookup_lt_Some in Hlook'. rewrite decide_True; [done|].
    rewrite Hns. unfold isize. lia.
  - intros k c Hk Hc Hor. rewrite step_add_state by done.
    case_decide; [by apply Hblank|done].
  - intros k S Hk Hlook.
    assert (Hlook' : ssupv st !! Z.to_nat k = Some S).
    { apply lookup_app_Some in Hlook as [Hlook|[Hge Hlook]]; [done|].
      unfold isize in Hfront. lia. }
    rewrite accepts_add_state by (done || lia).
    rewrite decide_True by lia. by apply Hacc.
  - intros k Hk. rewrite accepts_add_state by (done || lia).
    case_decide; [by apply Haccb|done].
Qed.

(** Filling the cell at ([front], [j]). *)
Lemma det_inv_set_cell st front j S T next_state :
  det_inv nfa st front j → 0 ≤ j < get_nsymbols nfa →
  front < isize (ssupv st) → ssupv st !! Z.to_nat front = Some S →
  step_set S j nfa ≠ ∅ →
  get_epsilon_closure (step_set S j nfa) nfa = Some T →
  0 ≤ next_state → ssupv st !! Z.to_nat next_state = Some T →
  det_inv nfa (mkDS (ssp2s st) (ssupv st)
                    (add_transition (out_fa st) front j next_state)) front (j + 1).
Proof.
  intros Hinv Hj Hfront HS Hne HT Hnext Hlook.
  destruct Hinv as [Hsh Hdet Hnc Hns Hf Hmap Hsets Hstart Hcells Hblank Hacc Haccb].
  split; simpl; try done.
  - by apply shaped_add_transition.
  - by rewrite get_nstates_add_transition.
  - intros k c S' Hk Hlook' Hc Hor.
    destruct (decide (k = front ∧ c = j)) as [[-> ->]|Hd].
    + unfold cell_ok. rewrite decide_False by (rewrite HS in Hlook'; congruence).
      assert (S' = S) as -> by congruence.
      exists T, next_state. split_and!; [done| |done|done].
      simpl. apply step_add_transition_eq; [done|lia|lia].
    + apply (cell_ok_mono st); [apply Hcells; [done..|lia]|done|].
      simpl. apply step_add_transition_ne; [lia..|]. lia.
  - intros k c Hk Hc Hor. rewrite step_add_transition_ne; [|lia..].
    apply Hblank; [done..|lia].
Qed.

(** Leaving the cell at ([front], [j]) empty. *)
Lemma det_inv_skip_cell st front j S :
  det_inv nfa st front j → 0 ≤ j →
  ssupv st !! Z.to_nat front = Some S →
  step_set S j nfa = ∅ →
  det_inv nfa st front (j + 1).
Proof.
  intros Hinv Hj HS Hempty.
  destruct Hinv as [Hsh Hdet Hnc Hns Hf Hmap Hsets Hstart Hcells Hblank Hacc Haccb].
  split; try done.
  - intros k c S' Hk Hlook' Hc Hor.
    destruct (decide (k = front ∧ c = j)) as [[-> ->]|Hd].
    + assert (S' = S) as -> by congruence.
      unfold cell_ok. rewrite decide_True by done. apply Hblank; [done..|]. right. lia.
    + apply Hcells; [done..|lia].
  - intros k c Hk Hc Hor. apply Hblank; [done..|lia].
Qed.

Lemma determinize_symbol_spec st front j S :
  det_inv nfa st front j → 0 ≤ j < get_nsymbols nfa →
  front < isize (ssupv st) → ssupv st !! Z.to_nat front = Some S →
  ∃ st', determinize_symbol nfa front S st j = Some st'
         ∧ det_inv nfa st' front (j + 1)
         ∧ ssupv st `prefix_of` ssupv st'.
Proof.
  intros Hinv Hj Hfront HS. unfold determinize_symbol.
  case_decide as Hempty.
  { exists st. split_and!; [done| |done].
    eapply det_inv_skip_cell; [done|lia|done|done]. }
  destruct (di_sets _ _ _ _ Hinv _ _ HS) as [HSr HSc].
  destruct (get_epsilon_closure_spec nfa Hwf Hnfa (step_set S j nfa))
    as (T & -> & HTr & HT); [by apply states_of_step_set|].
  simpl.
  assert (Hclosed : ∀ p q, p ∈ T → epsilon_move nfa p q → q ∈ T).
  { intros p q Hp Hm. apply HT in Hp as (p0 & Hp0 & Hr). apply HT.
    exists p0. split; [done|]. by eapply rtc_r. }
  assert (HTeq : get_epsilon_closure (step_set S j nfa) nfa = Some T).
  { destruct (get_epsilon_closure_spec nfa Hwf Hnfa (step_set S j nfa))
      as (T' & HT' & _ & HT''); [by apply states_of_step_set|].
    rewrite HT'. f_equal. apply set_eq. intros x. by rewrite HT, HT''. }
  destruct (ssp2s st !! T) as [k|] eqn:Hlook.
  - apply (di_map _ _ _ _ Hinv) in Hlook as [Hk Hlook].
    eexists. split_and!; [done| |done].
    by eapply det_inv_set_cell.
  - eexists. split_and!; [done| |by apply prefix_app_r].
    pose proof (det_inv_intern st front j T Hinv Hfront Hlook HTr Hclosed) as Hinv'.
    apply (det_inv_set_cell _ front j S T (get_nstates (out_fa st))) in Hinv';
      simpl; try done.
    + rewrite isize_app. pose proof (isize_nonneg [T]). lia.
    + by apply lookup_app_l_Some.
    + apply get_nstates_nonneg.
    + rewrite (di_nstates _ _ _ _ Hinv). unfold isize. rewrite Nat2Z.id.
      rewrite lookup_app_r by lia. by rewrite Nat.sub_diag.
Qed.

Lemma determinize_row_spec st front S :
  det_inv nfa st front 0 →
  front < isize (ssupv st) → ssupv st !! Z.to_nat front = Some S →
  ∃ st', foldl_opt (determinize_symbol nfa front S) st (seqZ 0 (get_nsymbols nfa)) = Some st'
         ∧ det_inv nfa st' front (get_nsymbols nfa)
         ∧ ssupv st `prefix_of` ssupv st'.
Proof.
  intros Hinv Hfront HS.
  pose proof (shaped_ncols _ (wf_shaped _ Hwf)) as HK.
  destruct (foldl_opt_seqZ_inv
              (λ j x, det_inv nfa x front j ∧ ssupv st `prefix_of` ssupv x)
              (determinize_symbol nfa front S) st 0 (get_nsymbols nfa) HK)
    as (st' & Hst' & Hinv' & Hpre); [done| |by exists st'].
  intros j x Hj [Hx Hpre].
  destruct (determinize_symbol_spec x front j S Hx) as (y & Hy & Hinvy & Hprey).
  - lia.
  - apply prefix_length in Hpre. unfold isize in *. lia.
  - by eapply prefix_lookup_Some.
  - exists y. split_and!; [done..|]. by etrans.
Qed.

Lemma min_accepted_of_range S :
  states_of nfa S → -1 ≤ min_accepted_of nfa S.
Proof.
  intros HS. destruct (min_accepted_of_spec nfa S) as [[-> _]|(_ & (r & Hr & <-) & _)]; [lia|].
  apply (wf_tokens _ Hwf). by apply HS.
Qed.

(** Setting the accept token of row [front] finishes it. *)
Lemma det_inv_next_row st front S :
  det_inv nfa st front (get_nsymbols nfa) →
  front < isize (ssupv st) → ssupv st !! Z.to_nat front = Some S →
  det_inv nfa
    (if decide (min_accepted_of nfa S ≠ -1)
     then mkDS (ssp2s st) (ssupv st) (add_accept (out_fa st) front (min_accepted_of nfa S))
     else st)
    (front + 1) 0.
Proof.
  intros Hinv Hfront HS.
  destruct Hinv as [Hsh Hdet Hnc Hns Hf Hmap Hsets Hstart Hcells Hblank Hacc Haccb].
  assert (Hrest : ∀ out,
    shaped out → table out = table (out_fa st) →
    is_deterministic out = is_deterministic (out_fa st) →
    accepts out front = min_accepted_of nfa S →
    (∀ k, 0 ≤ k → k ≠ front → accepts out k = accepts (out_fa st) k) →
    det_inv nfa (mkDS (ssp2s st) (ssupv st) out) (front + 1) 0).
  { intros out Ho Ht Hd Ha Ha'.
    assert (Hstep : ∀ k c, step out k c = step (out_fa st) k c)
      by (intros; unfold step; by rewrite Ht).
    split; simpl; try done.
    - congruence.
    - by rewrite Ht.
    - unfold get_nstates. by rewrite Ht.
    - lia.
    - intros k c S' Hk Hlook Hc Hor.
      apply (cell_ok_mono st); [|done|apply Hstep].
      apply Hcells; [done..|]. lia.
    - intros k c Hk Hc Hor. rewrite Hstep. apply Hblank; [done..|]. lia.
    - intros k S' Hk Hlook. destruct (decide (k = front)) as [->|Hne].
      + congruence.
      + rewrite Ha' by lia. apply Hacc; [lia|done].
    - intros k Hk. rewrite Ha' by lia. apply Haccb. lia. }
  case_decide as Hmin.
  - apply Hrest; [by apply shaped_add_accept|done|done| |].
    + apply accepts_add_accept_eq; [done|lia].
    + intros k Hk Hne. apply accepts_add_accept_ne; [lia..|congruence].
  - destruct st as [m v o]. apply Hrest; [done..| |done].
    simpl in *. rewrite Haccb by lia.
    destruct (decide (min_accepted_of nfa S = -1)); [done|contradiction].
Qed.

Lemma determinize_loop_spec fuel st front :
  det_inv nfa st front 0 → front ≤ isize (ssupv st) →
  (2 ^ Z.to_nat (get_nstates nfa) < fuel + Z.to_nat front)%nat →
  ∃ st', determinize_loop fuel nfa st front = Some st'
         ∧ det_inv nfa st' (isize (ssupv st')) 0.
Proof.
  revert st front. induction fuel as [|fuel IH]; intros st front Hinv Hle Hfuel.
  - pose proof (interned_bound _ _ _ Hinv) as Hb.
    pose proof (di_front _ _ _ _ Hinv). unfold isize in Hle.
    simpl. rewrite decide_False by (unfold isize; lia).
    exists st. split; [done|]. by replace (isize (ssupv st)) with front by (unfold isize; lia).
  - simpl. case_decide as Hlt; cycle 1.
    { exists st. split; [done|]. by replace (isize (ssupv st)) with front by lia. }
    pose proof (di_front _ _ _ _ Hinv) as Hf.
    destruct (lookup_lt_is_Some_2 (ssupv st) (Z.to_nat front)) as [S HS].
    { unfold isize in Hlt. lia. }
    rewrite at_default, HS. simpl.
    destruct (determinize_row_spec st front S Hinv Hlt HS) as (st1 & -> & Hinv1 & Hpre).
    simpl.
    assert (Hlt1 : front < isize (ssupv st1)).
    { apply prefix_length in Hpre. unfold isize in *. lia. }
    assert (HS1 : ssupv st1 !! Z.to_nat front = Some S) by by eapply prefix_lookup_Some.
    pose proof (det_inv_next_row st1 front S Hinv1 Hlt1 HS1) as Hinv2.
    apply IH; [done| |lia].
    case_decide; simpl; lia.
Qed.

Lemma det_inv_init (start_ss : gset Z) :
  get_epsilon_closure {[0]} nfa = Some start_ss →
  det_inv nfa (mkDS {[start_ss := 0]} [start_ss]
                    (add_state (new_automaton (get_nsymbols nfa) true))) 0 0.
Proof.
  intros Hstart.
  pose proof (shaped_ncols _ (wf_shaped _ Hwf)) as HK.
  pose proof (wf_start _ Hwf) as Hn.
  assert (H0 : states_of nfa {[0]}).
  { intros x Hx. apply elem_of_singleton in Hx as ->. lia. }
  destruct (get_epsilon_closure_spec nfa Hwf Hnfa {[0]} H0) as (T & HT & HTr & HTs).
  assert (T = start_ss) as -> by congruence.
  assert (Hsh : shaped (new_automaton (get_nsymbols nfa) true)) by by apply shaped_new.
  split; simpl.
  - by apply shaped_add_state.
  - done.
  - unfold get_ncols. simpl. lia.
  - done.
  - done.
  - intros S k. rewrite lookup_singleton_Some. split.
    + intros [<- <-]. done.
    + intros [Hk Hlook]. apply list_lookup_singleton_Some in Hlook as [Hk' <-].
      split; [done|lia].
  - intros k S Hlook. apply list_lookup_singleton_Some in Hlook as [_ <-].
    split; [done|]. intros p q Hp Hm. apply HTs in Hp as (p0 & Hp0 & Hr).
    apply HTs. exists p0. split; [done|]. by eapply rtc_r.
  - exists start_ss. split; [done|]. intros x. rewrite HTs. split.
    + intros (p & Hp & Hr). by apply elem_of_singleton in Hp as ->.
    + intros Hr. exists 0. split; [by apply elem_of_singleton|done].
  - intros k c S Hk Hlook Hc Hor. lia.
  - intros k c Hk Hc Hor. rewrite step_add_state by done.
    rewrite decide_False; [done|]. rewrite get_nstates_new. lia.
  - intros k S Hk. lia.
  - intros k Hk. rewrite accepts_add_state by (done || lia).
    rewrite decide_False; [done|]. rewrite get_nstates_new. lia.
Qed.

Lemma determinize_spec :
  ∃ st, determinize nfa = Some st ∧ det_inv nfa st (isize (ssupv st)) 0.
Proof.
  unfold determinize.
  pose proof (wf_start _ Hwf) as Hn.
  assert (H0 : states_of nfa {[0]}).
  { intros x Hx. apply elem_of_singleton in Hx as ->. lia. }
  destruct (get_epsilon_closure_spec nfa Hwf Hnfa {[0]} H0) as (T & HT & _).
  rewrite HT. simpl. apply determinize_loop_spec.
  - by apply det_inv_init.
  - simpl. unfold isize. simpl. lia.
  - lia.
Qed.

Lemma make_deterministic_spec :
  ∃ st, determinize nfa = Some st
        ∧ finite_automaton.make_deterministic nfa = Some (out_fa st)
        ∧ det_inv nfa st (isize (ssupv st)) 0.
Proof.
  destruct determinize_spec as (st & Hst & Hinv). exists st.
  unfold finite_automaton.make_deterministic, get_determinism.
  by rewrite Hnfa, Hst.
Qed.

End determinize.

(** ** The determinized automaton accepts what the NFA accepts *)

Lemma reaches_prepend fa p p' s r :
  epsilon_reach fa p p' → reaches fa p' s r → reaches fa p s r.
Proof.
  intros Hr Hreach. inversion Hreach; subst.
  - apply reaches_nil. by etrans.
  - eapply reaches_cons; [|done..]. by etrans.
Qed.

Lemma reaches_nil_inv fa p r : reaches fa p [] r → epsilon_reach fa p r.
Proof. by inversion 1. Qed.

Lemma reaches_cons_inv fa p c s r :
  reaches fa p (c :: s) r →
  ∃ p', epsilon_reach fa p p' ∧ step fa p' c ≠ -1 ∧ reaches fa (step fa p' c) s r.
Proof. inversion 1; subst. eauto. Qed.

Lemma closed_epsilon_reach fa (S : gset Z) p q :
  (∀ p q, p ∈ S → epsilon_move fa p q → q ∈ S) →
  p ∈ S → epsilon_reach fa p q → q ∈ S.
Proof.
  intros Hclosed Hp Hr. induction Hr as [|p p' q Hm _ IH]; [done|].
  apply IH. by eapply Hclosed.
Qed.

Section determinized.
Context (nfa : finite_automaton) (Hwf : well_formed nfa)
        (Hnfa : is_deterministic nfa = false).
Context (st : determinize_state) (Hinv : det_inv nfa st (isize (ssupv st)) 0).

Lemma determinized_run s k S :
  is_input nfa s → 0 ≤ k → ssupv st !! Z.to_nat k = Some S →
  min_token_of nfa (λ r, ∃ p, p ∈ S ∧ reaches nfa p s r) (run_from (out_fa st) k s).
Proof.
  intros Hs. revert k S. induction Hs as [|c s Hc Hs IH]; intros k S Hk HS.
  - simpl.
    assert (Hlt : k < isize (ssupv st)).
    { apply lookup_lt_Some in HS. unfold isize. lia. }
    rewrite (di_accept _ _ _ _ Hinv k S) by (done || lia).
    destruct (di_sets _ _ _ _ Hinv _ _ HS) as [HSr HSc].
    eapply min_token_of_ext; [|apply min_accepted_of_spec].
    intros r. split.
    + intros Hr. exists r. split; [done|]. apply reaches_nil, rtc_refl.
    + intros (p & Hp & Hreach). inversion Hreach; subst.
      by eapply closed_epsilon_reach.
  - simpl.
    assert (Hlt : k < isize (ssupv st)).
    { apply lookup_lt_Some in HS. unfold isize. lia. }
    destruct (di_sets _ _ _ _ Hinv _ _ HS) as [HSr HSc].
    pose proof (di_cells _ _ _ _ Hinv k c S Hk HS Hc ltac:(lia)) as Hcell.
    unfold cell_ok in Hcell. case_decide as Hempty.
    + rewrite Hcell. rewrite decide_True by done.
      left. split; [done|]. intros r (p & Hp & Hreach). exfalso.
      inversion Hreach; subst.
      assert (step nfa p' c ∈ step_set S c nfa); [|set_solver].
      apply elem_of_step_set. exists p'. split_and!; [|done..].
      by eapply closed_epsilon_reach.
    + destruct Hcell as (T & j & HT & Hstep & Hj & HTlook).
      rewrite Hstep. rewrite decide_False by lia.
      destruct (get_epsilon_closure_spec nfa Hwf Hnfa (step_set S c nfa))
        as (T' & HT' & _ & HTs); [by apply states_of_step_set|].
      assert (T' = T) as -> by congruence.
      eapply min_token_of_ext; [|by apply IH].
      intros r. split.
      * intros (q & Hq & Hreach). apply HTs in Hq as (q0 & Hq0 & Hr).
        apply elem_of_step_set in Hq0 as (p & Hp & Hpstep & Hne).
        exists p. split; [done|].
        eapply reaches_cons; [apply rtc_refl|done|done|].
        by eapply reaches_prepend.
      * intros (p & Hp & Hreach). inversion Hreach; subst.
        exists (step nfa p' c). split; [|done].
        apply HTs. exists (step nfa p' c). split; [|apply rtc_refl].
        apply elem_of_step_set. exists p'. split_and!; [|done..].
        by eapply closed_epsilon_reach.
Qed.

Lemma determinized_accepts s :
  is_input nfa s → nfa_accepts nfa s (run_dfa (out_fa st) s).
Proof.
  intros Hs. destruct (di_start _ _ _ _ Hinv) as (S0 & H0 & HS0).
  unfold nfa_accepts, run_dfa.
  eapply min_token_of_ext; [|by apply (determinized_run s 0 S0)].
  intros r. split.
  - intros (p & Hp & Hreach). apply HS0 in Hp. by eapply reaches_prepend.
  - intros Hreach. exists 0. split; [|done]. apply HS0, rtc_refl.
Qed.

Lemma determinized_well_formed : well_formed (out_fa st).
Proof.
  destruct (di_start _ _ _ _ Hinv) as (S0 & H0 & HS0).
  assert (Hn : 0 < isize (ssupv st)).
  { apply lookup_lt_Some in H0. unfold isize. lia. }
  split.
  - apply (di_shaped _ _ _ _ Hinv).
  - by rewrite (di_nstates _ _ _ _ Hinv).
  - intros k c Hk Hc. rewrite (di_nstates _ _ _ _ Hinv) in *.
    unfold get_nsymbols_eps in Hc. rewrite (di_ncols _ _ _ _ Hinv) in Hc.
    destruct (lookup_lt_is_Some_2 (ssupv st) (Z.to_nat k)) as [S HS].
    { unfold isize in Hk. lia. }
    pose proof (di_cells _ _ _ _ Hinv k c S ltac:(lia) HS Hc ltac:(lia)) as Hcell.
    unfold cell_ok in Hcell. case_decide.
    + rewrite Hcell. lia.
    + destruct Hcell as (T & j & _ & -> & Hj & Hlook).
      apply lookup_lt_Some in Hlook. unfold isize. lia.
  - intros k Hk. rewrite (di_nstates _ _ _ _ Hinv) in *.
    destruct (lookup_lt_is_Some_2 (ssupv st) (Z.to_nat k)) as [S HS].
    { unfold isize in Hk. lia. }
    rewrite (di_accept _ _ _ _ Hinv k S) by (done || lia).
    apply min_accepted_of_range; [done|].
    by destruct (di_sets _ _ _ _ Hinv _ _ HS).
Qed.

(** C2, first half: the accept token of a state of the determinized
    automaton is the smallest accept token among the members of its set. *)
Lemma determinized_accept_token k S :
  0 ≤ k → ssupv st !! Z.to_nat k = Some S →
  min_token_of nfa (λ r, r ∈ S) (accepts (out_fa st) k).
Proof.
  intros Hk HS.
  assert (Hlt : k < isize (ssupv st)).
  { apply lookup_lt_Some in HS. unfold isize. lia. }
  rewrite (di_accept _ _ _ _ Hinv k S) by (done || lia).
  apply min_accepted_of_spec.
Qed.

End determinized.

(** ** Minimization *)

(** Filling cells of one row in a counted loop. *)
Lemma fill_row_spec (skip : Z → Prop) (Hdec : ∀ c, Decision (skip c)) (val : Z → Z) x r m :
  let body := λ out symbol,
    if Hdec symbol then out else add_transition out r symbol (val symbol) in
  let y := foldl body x (seqZ 0 m) in
  shaped x → 0 ≤ r < get_nstates x →
  shaped y ∧ get_nstates y = get_nstates x
  ∧ get_ncols (table y) = get_ncols (table x)
  ∧ is_deterministic y = is_deterministic x
  ∧ accepted_tokens y = accepted_tokens x
  ∧ (∀ s c, 0 ≤ s → 0 ≤ c →
       step y s c = if decide (s = r ∧ c < m ∧ c < get_ncols (table x) ∧ ¬ skip c)
                    then val c else step x s c).
Proof.
  intros body y Hx Hr. subst y.
  destruct (decide (0 ≤ m)) as [Hm|Hm]; cycle 1.
  { rewrite seqZ_nil by lia. simpl. split_and!; [done..|].
    intros s c Hs Hc. rewrite decide_False; [done|lia]. }
  assert (H : (λ j y, shaped y ∧ get_nstates y = get_nstates x
                 ∧ get_ncols (table y) = get_ncols (table x)
                 ∧ is_deterministic y = is_deterministic x
                 ∧ accepted_tokens y = accepted_tokens x
                 ∧ (∀ s c, 0 ≤ s → 0 ≤ c →
                      step y s c =
                        if decide (s = r ∧ c < j ∧ c < get_ncols (table x) ∧ ¬ skip c)
                        then val c else step x s c))
               (0 + m) (foldl body x (seqZ 0 m))).
  { apply foldl_seqZ_inv; [done| |].
    - split_and!; [done..|]. intros s c Hs Hc. rewrite decide_False; [done|lia].
    - intros j y Hj (Hy & Hny & Hcy & Hdy & Hay & Hsy). unfold body.
      destruct (Hdec j) as [Hskip|Hskip].
      + split_and!; [done..|]. intros s c Hs Hc. rewrite Hsy by done.
        destruct (decide (c = j)) as [->|Hne].
        * rewrite !decide_False; [done|..]; intros (_ & _ & _ & ?); done.
        * destruct (decide (s = r ∧ c < j ∧ c < get_ncols (table x) ∧ ¬ skip c)) as [Hd|Hd].
          -- rewrite decide_True; [done|]. destruct_and!. split_and!; [done|lia|done..].
          -- rewrite decide_False; [done|]. intros (? & ? & ? & ?).
             apply Hd. split_and!; [done|lia|done..].
      + split_and!; [by apply shaped_add_transition
                    |by rewrite get_nstates_add_transition|done..|].
        intros s c Hs Hc. rewrite step_add_transition by (done || lia).
        rewrite Hsy by done. rewrite Hny, Hcy.
        destruct (decide (s = r ∧ c = j)) as [[-> ->]|Hne].
        * destruct (decide (j < get_ncols (table x))).
          -- rewrite decide_True by lia. rewrite decide_True; [done|].
             split_and!; [done|lia|done..].
          -- rewrite decide_False by lia. rewrite !decide_False; [done|lia|lia].
        * rewrite decide_False by lia.
          destruct (decide (s = r ∧ c < j ∧ c < get_ncols (table x) ∧ ¬ skip c)) as [Hd|Hd].
          -- rewrite decide_True; [done|]. destruct_and!. split_and!; [done|lia|done..].
          -- rewrite decide_False; [done|]. intros (? & ? & ? & ?).
             apply Hd. split_and!; [done|lia|done..]. }
  simpl in H. by replace (0 + m) with m in H by lia.
Qed.

(** [state_row_compare] decides [same_row]. *)
Lemma row_less_irrefl ra : row_less ra ra = false.
Proof. induction ra as [|x ra IH]; [done|]. simpl. by rewrite decide_False by tauto. Qed.

Lemma row_less_eq ra rb :
  length ra = length rb → row_less ra rb = false → row_less rb ra = false → ra = rb.
Proof.
  revert rb. induction ra as [|x ra IH]; intros [|y rb] Hlen H1 H2; try done.
  simpl in *. destruct (decide (x = y)) as [->|Hne].
  - rewrite decide_False in H1, H2 by tauto. f_equal. apply IH; [lia|done..].
  - rewrite decide_True in H1 by congruence. rewrite decide_True in H2 by congruence.
    apply bool_decide_eq_false in H1, H2. lia.
Qed.

Lemma same_key_iff fa a b :
  0 ≤ a → 0 ≤ b →
  negb (state_row_compare (table fa) (accepted_tokens fa) a b)
  && negb (state_row_compare (table fa) (accepted_tokens fa) b a) = true
  ↔ same_row fa a b.
Proof.
  intros Ha Hb. unfold state_row_compare, same_row.
  fold (accepts fa a) (accepts fa b). rewrite andb_true_iff, !negb_true_iff.
  set (ra := map (at2 (table fa) a) (seqZ 0 (get_ncols (table fa)))).
  set (rb := map (at2 (table fa) b) (seqZ 0 (get_ncols (table fa)))).
  assert (Hrows : ra = rb ↔
            ∀ c, 0 ≤ c < get_nsymbols_eps fa → step fa a c = step fa b c).
  { unfold ra, rb, step, get_nsymbols_eps. split.
    - intros Heq c Hc.
      rewrite <- (at_map_seqZ (-1) (at2 (table fa) a) (get_ncols (table fa)) c) by done.
      rewrite <- (at_map_seqZ (-1) (at2 (table fa) b) (get_ncols (table fa)) c) by done.
      by rewrite Heq.
    - intros Heq. apply map_ext_in. intros c Hc.
      apply list_elem_of_In, elem_of_seqZ in Hc. apply Heq. lia. }
  split.
  - intros [H1 H2]. destruct (decide (accepts fa a = accepts fa b)) as [Heq|Hne].
    + rewrite decide_False in H1 by tauto.
      rewrite decide_False in H2 by (rewrite Heq; tauto).
      split; [done|]. apply Hrows. apply row_less_eq; [|done..].
      unfold ra, rb. by rewrite !length_map.
    + rewrite decide_True in H1 by congruence. rewrite decide_True in H2 by congruence.
      apply bool_decide_eq_false in H1, H2. lia.
  - intros [Heq Hcells]. apply Hrows in Hcells.
    rewrite !decide_False by (rewrite Heq; tauto).
    rewrite Hcells. by rewrite row_less_irrefl.
Qed.

Lemma same_row_refl fa a : same_row fa a a.
Proof. by split. Qed.

Lemma same_row_sym fa a b : same_row fa a b → same_row fa b a.
Proof. intros [H1 H2]. split; [done|]. intros c Hc. by rewrite H2. Qed.

Lemma same_row_trans fa a b c : same_row fa a b → same_row fa b c → same_row fa a c.
Proof.
  intros [H1 H2] [H3 H4]. split; [congruence|].
  intros x Hx. rewrite H2, H4; done.
Qed.

Section keys.
Context (fa : finite_automaton).

Lemma sr2ss_find_Some sr2ss q v :
  (∀ idx r v, sr2ss !! idx = Some (r, v) → 0 ≤ r) → 0 ≤ q →
  sr2ss_find fa sr2ss q = Some v →
  ∃ idx r, sr2ss !! idx = Some (r, v) ∧ same_row fa r q.
Proof.
  intros Hpos Hq Hfind. unfold sr2ss_find in Hfind.
  destruct (find _ sr2ss) as [[r v']|] eqn:E; simplify_eq/=.
  apply find_some in E as [Hin Hkey]. simpl in Hkey.
  apply list_elem_of_In, list_elem_of_lookup in Hin as [idx Hidx].
  exists idx, r. split; [done|]. apply same_key_iff; [by eapply Hpos|done|done].
Qed.

Lemma sr2ss_find_None sr2ss q idx r v :
  (∀ idx r v, sr2ss !! idx = Some (r, v) → 0 ≤ r) → 0 ≤ q →
  sr2ss_find fa sr2ss q = None →
  sr2ss !! idx = Some (r, v) → ¬ same_row fa r q.
Proof.
  intros Hpos Hq Hfind Hidx Hsame. unfold sr2ss_find in Hfind.
  destruct (find _ sr2ss) as [[r' v']|] eqn:E; simplify_eq/=.
  eapply find_none in E; [|by eapply list_elem_of_In, list_elem_of_lookup_2].
  simpl in E. apply same_key_iff in Hsame; [congruence|by eapply Hpos|done].
Qed.

Lemma keys_nonneg i sr2ss nsimple :
  keys_inv fa i sr2ss nsimple → ∀ idx r v, sr2ss !! idx = Some (r, v) → 0 ≤ r.
Proof. intros Hk idx r v Hidx. by destruct (ki_entries _ _ _ _ Hk _ _ _ Hidx) as [_ [? _]]. Qed.

Lemma sr2ss_find_key i sr2ss nsimple idx r v q :
  keys_inv fa i sr2ss nsimple → 0 ≤ q →
  sr2ss !! idx = Some (r, v) → same_row fa r q →
  sr2ss_find fa sr2ss q = Some (Z.of_nat idx).
Proof.
  intros Hk Hq Hidx Hsame.
  destruct (sr2ss_find fa sr2ss q) as [v'|] eqn:E.
  - apply sr2ss_find_Some in E as (idx' & r' & Hidx' & Hsame'); [|by eapply keys_nonneg|done].
    assert (idx' = idx) as ->.
    { eapply (ki_distinct _ _ _ _ Hk); [done..|].
      eapply same_row_trans; [done|]. by apply same_row_sym. }
    destruct (ki_entries _ _ _ _ Hk _ _ _ Hidx') as [-> _]. done.
  - exfalso. eapply sr2ss_find_None; [by eapply keys_nonneg|done..].
Qed.

Lemma keys_inv_init : keys_inv fa 0 [] 0.
Proof. split; try done. intros q Hq. lia. Qed.

Lemma keys_inv_step i sr2ss nsimple :
  keys_inv fa i sr2ss nsimple → 0 ≤ i →
  keys_inv fa (i + 1) (simplify_insert fa (sr2ss, nsimple) i).1
                      (simplify_insert fa (sr2ss, nsimple) i).2.
Proof.
  intros Hk Hi. pose proof (keys_nonneg _ _ _ Hk) as Hpos.
  destruct Hk as [Hcount Hbound Hent Hdist Hcov Hfirst].
  unfold simplify_insert. destruct (sr2ss_find fa sr2ss i) as [v|] eqn:E; simpl.
  - apply sr2ss_find_Some in E as (idx & r & Hidx & Hsame); [|done..].
    split; try done.
    + lia.
    + intros idx' r' v' H'. destruct (Hent _ _ _ H') as [? ?]. split; [done|lia].
    + intros q Hq. destruct (decide (q = i)) as [->|Hne]; [by eauto|].
      apply Hcov. lia.
    + intros _. apply Hfirst. destruct (Hent _ _ _ Hidx). lia.
  - assert (Hlen : length sr2ss = Z.to_nat nsimple) by (unfold isize in Hcount; lia).
    split.
    + rewrite isize_app. unfold isize at 2. simpl. lia.
    + lia.
    + intros idx r v H'. apply lookup_app_Some in H' as [H'|[Hge H']].
      * destruct (Hent _ _ _ H') as [? ?]. split; [done|lia].
      * apply list_lookup_singleton_Some in H' as [Hidx [= <- <-]].
        unfold isize in Hcount. split; lia.
    + intros idx1 idx2 r1 r2 v1 v2 H1 H2 Hsame.
      apply lookup_app_Some in H1 as [H1|[Hge1 H1]];
        apply lookup_app_Some in H2 as [H2|[Hge2 H2]].
      * by eapply Hdist.
      * apply list_lookup_singleton_Some in H2 as [Hidx [= <- <-]].
        exfalso. by eapply sr2ss_find_None.
      * apply list_lookup_singleton_Some in H1 as [Hidx [= <- <-]].
        exfalso. eapply sr2ss_find_None; [done| |done|done|by apply same_row_sym]. done.
      * apply list_lookup_singleton_Some in H1 as [Hidx1 _].
        apply list_lookup_singleton_Some in H2 as [Hidx2 _]. lia.
    + intros q Hq. destruct (decide (q = i)) as [->|Hne].
      * exists (length sr2ss), i, nsimple. split; [|apply same_row_refl].
        rewrite lookup_app_r by lia. by rewrite Nat.sub_diag.
      * destruct (Hcov q ltac:(lia)) as (idx & r & v & Hidx & Hsame).
        exists idx, r, v. split; [|done]. by apply lookup_app_l_Some.
    + intros _. destruct (decide (i = 0)) as [->|Hne].
      * assert (sr2ss = []) as -> by (apply nil_length_inv; unfold isize in *; lia).
        simpl. by replace nsimple with 0 by (unfold isize in *; simpl in *; lia).
      * apply lookup_app_l_Some, Hfirst. lia.
Qed.

Lemma keys_inv_loop n :
  0 ≤ n →
  let r := foldl (simplify_insert fa) ([], 0) (seqZ 0 n) in
  keys_inv fa n r.1 r.2.
Proof.
  intros Hn r. subst r.
  pose proof (foldl_seqZ_inv (λ i (acc : list (Z * Z) * Z), keys_inv fa i acc.1 acc.2)
                (simplify_insert fa) ([], 0) 0 n Hn) as H.
  simpl in H. apply H; [apply keys_inv_init|].
  intros i [sr2ss ns] Hi Hk. simpl in *. apply keys_inv_step; [done|lia].
Qed.

End keys.

Section emit.
Context (fa : finite_automaton) (Hwf : well_formed fa).
Context (sr2ss : list (Z * Z)) (nsimple : Z)
        (Hkeys : keys_inv fa (get_nstates fa) sr2ss nsimple).

Lemma simple_of_spec q :
  0 ≤ q < get_nstates fa →
  ∃ r, sr2ss !! Z.to_nat (simple_of fa sr2ss q) = Some (r, simple_of fa sr2ss q)
       ∧ same_row fa r q ∧ 0 ≤ simple_of fa sr2ss q < isize sr2ss.
Proof.
  intros Hq. destruct (ki_covered _ _ _ _ Hkeys q Hq) as (idx & r & v & Hidx & Hsame).
  unfold simple_of. erewrite sr2ss_find_key; [|done|lia|done..]. simpl.
  destruct (ki_entries _ _ _ _ Hkeys _ _ _ Hidx) as [-> _].
  exists r. rewrite Nat2Z.id. split_and!; [done..|lia|].
  apply lookup_lt_Some in Hidx. unfold isize. lia.
Qed.

Lemma simple_of_key idx r v :
  sr2ss !! idx = Some (r, v) → simple_of fa sr2ss r = Z.of_nat idx.
Proof.
  intros Hidx. unfold simple_of.
  erewrite sr2ss_find_key; [done|done| |done|apply same_row_refl].
  by eapply keys_nonneg.
Qed.

Lemma simple_of_same q q' :
  0 ≤ q < get_nstates fa → 0 ≤ q' → same_row fa q q' →
  simple_of fa sr2ss q = simple_of fa sr2ss q'.
Proof.
  intros Hq Hq' Hsame. destruct (simple_of_spec q Hq) as (r & Hidx & Hr & _).
  unfold simple_of at 2. erewrite sr2ss_find_key; [|done|done|done|].
  - simpl. destruct (simple_of_spec q Hq) as (_ & _ & _ & ?). lia.
  - by eapply same_row_trans.
Qed.

Lemma simple_of_start : simple_of fa sr2ss 0 = 0.
Proof.
  pose proof (wf_start _ Hwf) as Hn.
  by rewrite (simple_of_key 0 0 0 (ki_first _ _ _ _ Hkeys Hn)).
Qed.

Lemma emit_inv_step i out did_simple :
  emit_inv fa sr2ss i out did_simple → 0 ≤ i < get_nstates fa →
  emit_inv fa sr2ss (i + 1) (simplify_emit fa sr2ss (out, did_simple) i).1
                            (simplify_emit fa sr2ss (out, did_simple) i).2.
Proof.
  intros Hinv Hi.
  destruct (simple_of_spec i Hi) as (r & Hidx & Hsame & Hk).
  destruct Hinv as [Hsh Hns Hnc Hdet Hdid Hrows Hdone].
  unfold simplify_emit. fold (simple_of fa sr2ss i).
  set (k := simple_of fa sr2ss i) in *.
  destruct (at_ false did_simple k) eqn:Hdidk; simpl.
  { split; try done. intros q Hq. destruct (decide (q = i)) as [->|]; [done|].
    apply Hdone. lia. }
  pose proof (Hrows _ _ _ Hidx) as Hrow. rewrite Z2Nat.id, Hdidk in Hrow by lia.
  destruct Hrow as [Hacck Hblank].
  match goal with |- context [foldl ?f out _] => set (body := f) end.
  destruct (fill_row_spec (λ c, step fa i c = -1) (λ c, decide (step fa i c = -1))
              (λ c, simple_of fa sr2ss (step fa i c)) out k (get_nsymbols_eps fa))
    as (Hy & Hny & Hcy & Hdy & Hay & Hsy); [done|lia|].
  change (foldl _ out (seqZ 0 (get_nsymbols_eps fa)))
    with (foldl body out (seqZ 0 (get_nsymbols_eps fa))) in *.
  set (y := foldl body out (seqZ 0 (get_nsymbols_eps fa))) in *.
  set (z := if decide (accepts fa i ≠ -1) then add_accept y k (accepts fa i) else y).
  assert (Hz : shaped z ∧ table z = table y ∧ is_deterministic z = is_deterministic y
               ∧ accepts z k = accepts fa i
               ∧ ∀ s, 0 ≤ s → s ≠ k → accepts z s = accepts out s).
  { unfold z. case_decide as Htok.
    - split_and!; [by apply shaped_add_accept|done|done| |].
      + apply accepts_add_accept_eq; [done|lia].
      + intros s Hs Hne. rewrite accepts_add_accept_ne by lia.
        unfold accepts. by rewrite Hay.
    - split_and!; [done..| |].
      + unfold accepts at 1. rewrite Hay. fold (accepts out k). rewrite Hacck.
        destruct (decide (accepts fa i = -1)); [done|contradiction].
      + intros s Hs Hne. unfold accepts. by rewrite Hay. }
  clearbody z. destruct Hz as (Hzs & Hzt & Hzd & Hzk & Hzo).
  assert (Hzstep : ∀ s c, step z s c = step y s c) by (intros; unfold step; by rewrite Hzt).
  split.
  - done.
  - unfold get_nstates. rewrite Hzt. fold (get_nstates y). lia.
  - rewrite Hzt. lia.
  - congruence.
  - unfold isize in *. rewrite length_insert. done.
  - intros idx' r' v' Hidx'.
    destruct (decide (Z.of_nat idx' = k)) as [Heq|Hne].
    + rewrite Heq. rewrite at_insert_eq by lia.
      assert (r' = r) as -> by (rewrite <- Heq, Nat2Z.id in Hidx; congruence).
      split.
      * rewrite Hzk. symmetry. apply Hsame.
      * intros c Hc. rewrite Hzstep, Hsy by (done || lia).
        unfold simple_cell. destruct (decide (c < get_nsymbols_eps fa)) as [Hlt|Hge].
        -- destruct Hsame as [_ Hcells]. rewrite Hcells by lia.
           destruct (decide (step fa i c = -1)) as [Hm|Hm].
           ++ rewrite decide_False by tauto. apply Hblank. done.
           ++ rewrite decide_True; [done|]. unfold get_nsymbols_eps in *.
              split_and!; [done|lia|lia|done].
        -- rewrite decide_False by lia. rewrite Hblank by done.
           rewrite decide_True; [done|].
           destruct (ki_entries _ _ _ _ Hkeys _ _ _ Hidx') as [_ Hr'].
           apply step_out_of_range; [apply Hwf|lia|done|]. right.
           unfold get_nsymbols_eps in Hge. lia.
    + rewrite at_insert_ne by lia.
      pose proof (Hrows _ _ _ Hidx') as Hrow'.
      assert (Hstep' : ∀ c, 0 ≤ c → step z (Z.of_nat idx') c = step out (Z.of_nat idx') c).
      { intros c Hc. rewrite Hzstep, Hsy by (done || lia). rewrite decide_False; [done|lia]. }
      destruct (at_ false did_simple (Z.of_nat idx')).
      * destruct Hrow' as [Ha Hc]. split; [rewrite Hzo by lia; done|].
        intros c Hc'. rewrite Hstep' by done. by apply Hc.
      * destruct Hrow' as [Ha Hc]. split; [rewrite Hzo by lia; done|].
        intros c Hc'. rewrite Hstep' by done. by apply Hc.
  - intros q Hq. destruct (decide (simple_of fa sr2ss q = k)) as [->|Hne].
    + apply at_insert_eq. lia.
    + destruct (simple_of_spec q ltac:(lia)) as (_ & _ & _ & ?).
      rewrite at_insert_ne by lia. apply Hdone.
      destruct (decide (q = i)) as [->|]; [done|lia].
Qed.

End emit.

Lemma add_states_blank out0 n :
  shaped out0 → get_nstates out0 = 0 → 0 ≤ n →
  let out := foldl (λ out (_ : Z), add_state out) out0 (seqZ 0 n) in
  shaped out ∧ get_nstates out = n
  ∧ get_ncols (table out) = get_ncols (table out0)
  ∧ is_deterministic out = is_deterministic out0
  ∧ (∀ s, 0 ≤ s → accepts out s = -1)
  ∧ (∀ s c, 0 ≤ s → 0 ≤ c → step out s c = -1).
Proof.
  intros Hsh H0 Hn out. subst out.
  pose proof (foldl_seqZ_inv
    (λ i out, shaped out ∧ get_nstates out = i
       ∧ get_ncols (table out) = get_ncols (table out0)
       ∧ is_deterministic out = is_deterministic out0
       ∧ (∀ s, 0 ≤ s → accepts out s = -1)
       ∧ (∀ s c, 0 ≤ s → 0 ≤ c → step out s c = -1))
    (λ out (_ : Z), add_state out) out0 0 n Hn) as H.
  simpl in H. apply H; clear H.
  - split_and!; [done..| |].
    + intros s Hs. apply accepts_out_of_range; [done|lia].
    + intros s c Hs Hc. apply step_out_of_range; [done..|]. left. lia.
  - intros i x Hi (Hx & Hnx & Hcx & Hdx & Hax & Hsx).
    split_and!; [by apply shaped_add_state|by rewrite get_nstates_add_state, Hnx
                |done|done| |].
    + intros s Hs. rewrite accepts_add_state by done. case_decide; [by apply Hax|done].
    + intros s c Hs Hc. rewrite step_add_state by done. case_decide; [by apply Hsx|done].
Qed.

Lemma simplify_once_spec fa :
  well_formed fa →
  ∃ h, simplified fa (finite_automaton.simplify_once fa) h.
Proof.
  intros Hwf. unfold finite_automaton.simplify_once.
  pose proof (get_nstates_nonneg fa) as Hn.
  pose proof (keys_inv_loop fa (get_nstates fa) Hn) as Hkeys. simpl in Hkeys.
  destruct (foldl (simplify_insert fa) ([], 0) (seqZ 0 (get_nstates fa))) as [sr2ss nsimple].
  simpl in Hkeys.
  pose proof (ki_count _ _ _ _ Hkeys) as Hcount.
  assert (Hns : 0 ≤ nsimple) by (rewrite Hcount; apply isize_nonneg).
  set (out0 := new_automaton (get_nsymbols fa) (get_determinism fa)).
  assert (Hsh0 : shaped out0) by (apply shaped_new, Hwf).
  destruct (add_states_blank out0 nsimple Hsh0 eq_refl Hns)
    as (Hsh1 & Hn1 & Hc1 & Hd1 & Ha1 & Hs1).
  set (out1 := foldl (λ out (_ : Z), add_state out) out0 (seqZ 0 nsimple)) in *.
  assert (Hc0 : get_ncols (table out0) = get_ncols (table fa)).
  { unfold out0, get_determinism. simpl. unfold get_nsymbols.
    destruct (is_deterministic fa); lia. }
  pose proof (foldl_seqZ_inv
    (λ i (acc : finite_automaton * list bool), emit_inv fa sr2ss i acc.1 acc.2)
    (simplify_emit fa sr2ss) (out1, replicate (Z.to_nat nsimple) false)
    0 (get_nstates fa) Hn) as Hemit.
  simpl in Hemit.
  destruct (foldl (simplify_emit fa sr2ss) (out1, replicate (Z.to_nat nsimple) false)
              (seqZ 0 (get_nstates fa))) as [out did] eqn:Hfold.
  simpl in *.
  assert (Hinv : emit_inv fa sr2ss (get_nstates fa) out did).
  { apply Hemit.
    - split; simpl; try done.
      + congruence.
      + congruence.
      + unfold isize. rewrite length_replicate. unfold isize in Hcount. lia.
      + intros idx r v Hidx. rewrite at_replicate. split; [apply Ha1; lia|].
        intros c Hc. apply Hs1; lia.
      + intros q Hq. lia.
    - intros i [o d] Hi He. simpl in *. apply (emit_inv_step fa Hwf sr2ss nsimple Hkeys); [done|lia]. }
  clear Hemit Hfold.
  destruct Hinv as [Hsh Hnso Hnc Hdet Hdid Hrows Hdone].
  assert (Hrow : ∀ q, 0 ≤ q < get_nstates fa →
            0 ≤ simple_of fa sr2ss q < isize sr2ss
            ∧ accepts out (simple_of fa sr2ss q) = accepts fa q
            ∧ ∀ c, 0 ≤ c → step out (simple_of fa sr2ss q) c
                           = simple_cell fa sr2ss (step fa q c)).
  { intros q Hq.
    destruct (simple_of_spec fa sr2ss nsimple Hkeys q Hq) as (r & Hidx & Hsame & Hk).
    pose proof (Hrows _ _ _ Hidx) as Hr. rewrite Z2Nat.id in Hr by lia.
    rewrite (Hdone q Hq) in Hr. destruct Hr as [Hacc Hcells].
    split_and!; [lia|lia| |].
    - rewrite Hacc. apply Hsame.
    - intros c Hc. rewrite Hcells by done. f_equal.
      destruct (decide (c < get_nsymbols_eps fa)).
      + apply Hsame. lia.
      + destruct (ki_entries _ _ _ _ Hkeys _ _ _ Hidx) as [_ Hr].
        rewrite !step_out_of_range; [done|apply Hwf|lia|done| |apply Hwf|lia|done|];
          right; unfold get_nsymbols_eps in *; lia. }
  exists (simple_of fa sr2ss). split.
  - split.
    + done.
    + rewrite Hnso. destruct (Hrow 0) as [? _]; [pose proof (wf_start _ Hwf); lia|lia].
    + intros k c Hk Hc. rewrite Hnso in *.
      destruct (lookup_lt_is_Some_2 sr2ss (Z.to_nat k)) as [[r v] Hidx].
      { unfold isize in Hk. lia. }
      pose proof (simple_of_key fa sr2ss nsimple Hkeys _ _ _ Hidx) as Hkey.
      rewrite Z2Nat.id in Hkey by lia.
      destruct (ki_entries _ _ _ _ Hkeys _ _ _ Hidx) as [_ Hr].
      destruct (Hrow r Hr) as (_ & _ & Hcells). rewrite Hkey in Hcells.
      rewrite Hcells by lia. unfold simple_cell. case_decide as Hm; [lia|].
      unfold get_nsymbols_eps in Hc. rewrite Hnc in Hc.
      pose proof (wf_cells _ Hwf r c Hr Hc) as Hcell.
      destruct (Hrow (step fa r c)) as [? _]; lia.
    + intros k Hk. rewrite Hnso in *.
      destruct (lookup_lt_is_Some_2 sr2ss (Z.to_nat k)) as [[r v] Hidx].
      { unfold isize in Hk. lia. }
      pose proof (simple_of_key fa sr2ss nsimple Hkeys _ _ _ Hidx) as Hkey.
      rewrite Z2Nat.id in Hkey by lia.
      destruct (ki_entries _ _ _ _ Hkeys _ _ _ Hidx) as [_ Hr].
      destruct (Hrow r Hr) as (_ & Hacc & _). rewrite Hkey in Hacc.
      rewrite Hacc. by apply (wf_tokens _ Hwf).
  - done.
  - done.
  - rewrite Hnso, <- Hcount. apply (ki_bound _ _ _ _ Hkeys).
  - apply (simple_of_start fa Hwf sr2ss nsimple Hkeys).
  - intros q Hq. rewrite Hnso. by apply Hrow.
  - intros q Hq. by apply Hrow.
  - intros q c Hq Hc. destruct (Hrow q Hq) as (_ & _ & Hcells). by apply Hcells.
Qed.

(** A pass keeps every run. *)
Lemma simplified_run fa out h q s :
  well_formed fa → simplified fa out h →
  0 ≤ q < get_nstates fa → Forall (λ c, 0 ≤ c) s →
  run_from out (h q) s = run_from fa q s.
Proof.
  intros Hwf Hsim Hq Hs. revert q Hq.
  induction Hs as [|c s Hc Hs IH]; intros q Hq; simpl.
  - by apply (si_accepts _ _ _ Hsim).
  - rewrite (si_step _ _ _ Hsim) by done.
    destruct (decide (step fa q c = -1)) as [Hm|Hm].
    + by rewrite decide_True.
    + assert (Hr : 0 ≤ step fa q c < get_nstates fa).
      { destruct (decide (c < get_nsymbols_eps fa)).
        - pose proof (wf_cells _ Hwf q c Hq ltac:(lia)). lia.
        - rewrite step_out_of_range in Hm; [done|apply Hwf|lia|done|].
          right. unfold get_nsymbols_eps in *. lia. }
      pose proof (si_range _ _ _ Hsim _ Hr).
      rewrite decide_False by lia. by apply IH.
Qed.

Lemma simplify_loop_spec fuel fa nstates_new :
  well_formed fa → (Z.to_nat nstates_new < fuel)%nat →
  ∃ out, finite_automaton.simplify_loop fuel fa nstates_new = Some out
         ∧ well_formed out
         ∧ is_deterministic out = is_deterministic fa
         ∧ get_ncols (table out) = get_ncols (table fa)
         ∧ ∀ s, Forall (λ c, 0 ≤ c) s → run_dfa out s = run_dfa fa s.
Proof.
  revert fa nstates_new. induction fuel as [|fuel IH]; intros fa nn Hwf Hfuel; [lia|].
  simpl. destruct (simplify_once_spec fa Hwf) as [h Hsim].
  assert (Hrun : ∀ s, Forall (λ c, 0 ≤ c) s →
            run_dfa (finite_automaton.simplify_once fa) s = run_dfa fa s).
  { intros s Hs. unfold run_dfa. pose proof (wf_start _ Hwf).
    pose proof (simplified_run fa _ h 0 s Hwf Hsim ltac:(lia) Hs) as Hrun.
    by rewrite (si_start _ _ _ Hsim) in Hrun. }
  case_decide as Hlt.
  - destruct (IH (finite_automaton.simplify_once fa)
                 (get_nstates (finite_automaton.simplify_once fa)))
      as (out & Hout & Hwfo & Hdo & Hco & Hro).
    + apply Hsim.
    + pose proof (get_nstates_nonneg (finite_automaton.simplify_once fa)). lia.
    + exists out. split_and!; [done|done| | |].
      * rewrite Hdo. apply Hsim.
      * rewrite Hco. apply Hsim.
      * intros s Hs. rewrite Hro by done. by apply Hrun.
  - eexists. split_and!; [done|apply Hsim|apply Hsim|apply Hsim|done].
Qed.

Lemma simplify_spec fa :
  well_formed fa →
  ∃ out, finite_automaton.simplify fa = Some out
         ∧ well_formed out
         ∧ is_deterministic out = is_deterministic fa
         ∧ get_ncols (table out) = get_ncols (table fa)
         ∧ ∀ s, Forall (λ c, 0 ≤ c) s → run_dfa out s = run_dfa fa s.
Proof.
  intros Hwf. unfold finite_automaton.simplify. apply simplify_loop_spec; [done|lia].
Qed.

(** ** Deterministic automata read as NFAs *)

Lemma epsilon_reach_deterministic fa p q :
  is_deterministic fa = true → epsilon_reach fa p q → p = q.
Proof.
  intros Hdet Hr. induction Hr as [|p p' q [Hnd _] _ _]; [done|congruence].
Qed.

Lemma deterministic_run fa q s :
  is_deterministic fa = true →
  min_token_of fa (reaches fa q s) (run_from fa q s).
Proof.
  intros Hdet. revert q. induction s as [|c s IH]; intros q; simpl.
  - destruct (decide (accepts fa q = -1)) as [Hacc|Hacc].
    + left. split; [done|]. intros r Hr. inversion Hr; subst.
      by rewrite <- (epsilon_reach_deterministic fa q r).
    + right. split_and!; [done| |].
      * exists q. split; [|done]. apply reaches_nil, rtc_refl.
      * intros r Hr _. inversion Hr; subst.
        by rewrite <- (epsilon_reach_deterministic fa q r).
  - case_decide as Hstep.
    + left. split; [done|]. intros r Hr. exfalso. inversion Hr; subst.
      rewrite <- (epsilon_reach_deterministic fa q p') in * by done. done.
    + eapply min_token_of_ext; [|apply IH].
      intros r. split.
      * intros Hr. eapply reaches_cons; [apply rtc_refl|done..].
      * intros Hr. inversion Hr; subst.
        by rewrite <- (epsilon_reach_deterministic fa q p') in * by done.
Qed.

Lemma deterministic_accepts fa s :
  is_deterministic fa = true → nfa_accepts fa s (run_dfa fa s).
Proof. intros. by apply deterministic_run. Qed.

Lemma nfa_accepts_unique fa s t1 t2 :
  nfa_accepts fa s t1 → nfa_accepts fa s t2 → t1 = t2.
Proof. apply min_token_of_unique. Qed.

Lemma is_input_nonneg fa s : is_input fa s → Forall (λ c, 0 ≤ c) s.
Proof. intros H. eapply Forall_impl; [done|]. intros c ?. simpl in *. lia. Qed.

(** ** Determinization followed by minimization *)

Lemma determinize_simplify fa :
  well_formed fa →
  ∃ dfa out,
    finite_automaton.make_deterministic fa = Some dfa
    ∧ finite_automaton.simplify dfa = Some out
    ∧ well_formed out
    ∧ is_deterministic out = true
    ∧ get_nsymbols out = get_nsymbols fa
    ∧ ∀ s, is_input fa s → nfa_accepts fa s (run_dfa out s).
Proof.
  intros Hwf. destruct (is_deterministic fa) eqn:Hdet.
  - destruct (simplify_spec fa Hwf) as (out & Hout & Hwfo & Hdo & Hco & Hro).
    exists fa, out. split_and!; [|done..| | |].
    + unfold finite_automaton.make_deterministic, get_determinism. by rewrite Hdet.
    + congruence.
    + unfold get_nsymbols. by rewrite Hdo, Hco.
    + intros s Hs. rewrite Hro by by eapply is_input_nonneg.
      by apply deterministic_accepts.
  - destruct (make_deterministic_spec fa Hwf Hdet) as (st & _ & Hmd & Hinv).
    pose proof (determinized_well_formed fa Hwf st Hinv) as Hwfd.
    destruct (simplify_spec _ Hwfd) as (out & Hout & Hwfo & Hdo & Hco & Hro).
    exists (out_fa st), out. split_and!; [done..| | |].
    + rewrite Hdo. apply Hinv.
    + unfold get_nsymbols at 1. rewrite Hdo, Hco, (di_det _ _ _ _ Hinv).
      rewrite (di_ncols _ _ _ _ Hinv). lia.
    + intros s Hs. rewrite Hro by by eapply is_input_nonneg.
      by apply determinized_accepts.
Qed.

(** C1.  For every well-formed automaton [nfa], [make_deterministic] followed
    by [simplify] returns a deterministic automaton whose run on any input
    gives the accept decision and the accepted token of [nfa]. *)
Theorem determinize_simplify_same_language (nfa : finite_automaton) :
  well_formed nfa →
  ∃ dfa out,
    finite_automaton.make_deterministic nfa = Some dfa
    ∧ finite_automaton.simplify dfa = Some out
    ∧ is_deterministic out = true
    ∧ ∀ s token, is_input nfa s → (nfa_accepts nfa s token ↔ run_dfa out s = token).
Proof.
  intros Hwf.
  destruct (determinize_simplify nfa Hwf) as (dfa & out & H1 & H2 & _ & H3 & _ & H4).
  exists dfa, out. split_and!; [done..|].
  intros s token Hs. split.
  - intros Hacc. eapply nfa_accepts_unique; [by apply H4|done].
  - intros <-. by apply H4.
Qed.

(** C10.  An automaton whose determinism flag is set is returned unchanged by
    [make_deterministic], so applying it again changes nothing. *)
Theorem make_deterministic_identity (fa : finite_automaton) :
  is_deterministic fa = true →
  finite_automaton.make_deterministic fa = Some fa
  ∧ finite_automaton.make_deterministic fa ≫= finite_automaton.make_deterministic = Some fa.
Proof.
  intros Hdet.
  assert (H : finite_automaton.make_deterministic fa = Some fa).
  { unfold finite_automaton.make_deterministic, get_determinism. by rewrite Hdet. }
  split; [done|]. rewrite H. simpl. done.
Qed.

(** ** A copied automaton behaves like the original *)

Section embedding.
Context (out x : finite_automaton) (o : Z).
Context (Hemb : embeds out x o) (Hwf : well_formed x).

Lemma em_ncols : get_nsymbols_eps out = get_nsymbols x + 2.
Proof.
  pose proof (em_nsymbols _ _ _ Hemb) as H. unfold get_nsymbols at 1 in H.
  rewrite (em_nfa _ _ _ Hemb) in H. unfold get_nsymbols_eps. lia.
Qed.

Lemma em_symbol i c :
  0 ≤ i < get_nstates x → 0 ≤ c < get_nsymbols x →
  step out (o + i) c = if decide (step x i c = -1) then -1 else step x i c + o.
Proof.
  intros Hi Hc. pose proof em_ncols as Hn.
  rewrite (em_step _ _ _ Hemb) by lia. unfold copied_cell.
  assert (Hcx : c < get_nsymbols_eps x).
  { unfold get_nsymbols, get_nsymbols_eps in *. destruct (is_deterministic x); lia. }
  pose proof (wf_cells _ Hwf i c Hi ltac:(lia)) as Hcell.
  unfold get_nsymbols_eps in *. repeat case_decide; try done; lia.
Qed.

Lemma em_epsilon_move i q :
  0 ≤ i < get_nstates x →
  epsilon_move out (o + i) q ↔ ∃ j, q = o + j ∧ 0 ≤ j < get_nstates x ∧ epsilon_move x i j.
Proof.
  intros Hi. pose proof em_ncols as Hn. pose proof (em_offset _ _ _ Hemb) as Ho.
  pose proof (shaped_ncols _ (wf_shaped _ Hwf)) as HK.
  assert (He0 : get_epsilon0 out = get_nsymbols x) by (unfold get_epsilon0, get_nsymbols_eps in *; lia).
  assert (He1 : get_epsilon1 out = get_nsymbols x + 1) by (unfold get_epsilon1, get_nsymbols_eps in *; lia).
  assert (Hcell : ∀ e, get_nsymbols x ≤ e < get_nsymbols x + 2 →
            step out (o + i) e =
              if decide (is_deterministic x = false ∧ step x i e ≠ -1)
              then step x i e + o else -1).
  { intros e He. rewrite (em_step _ _ _ Hemb) by lia. unfold copied_cell.
    destruct (is_deterministic x) eqn:Hdet.
    - rewrite decide_False; [by rewrite decide_False by (intros [? _]; done)|].
      unfold get_nsymbols in He. rewrite Hdet in He. lia.
    - assert (Hex : e < get_nsymbols_eps x).
      { unfold get_nsymbols, get_nsymbols_eps in *. rewrite Hdet in He. lia. }
      pose proof (wf_cells _ Hwf i e Hi ltac:(lia)) as Hc.
      unfold get_nsymbols_eps in *. repeat case_decide; try done; try lia. }
  assert (Hex : is_deterministic x = false →
            get_epsilon0 x = get_nsymbols x ∧ get_epsilon1 x = get_nsymbols x + 1).
  { intros Hdet. unfold get_epsilon0, get_epsilon1, get_nsymbols. rewrite Hdet. lia. }
  split.
  - intros (_ & Hq & Hor). rewrite He0, He1, !Hcell in Hor by lia.
    destruct Hor as [Hor|Hor]; case_decide as Hd; try done;
      destruct Hd as [Hdet Hne]; destruct (Hex Hdet) as [Hx0 Hx1].
    + exists (step x i (get_nsymbols x)). split_and!; [lia| | |].
      * pose proof (wf_cells _ Hwf i (get_nsymbols x) Hi). unfold get_nsymbols_eps, get_epsilon0 in *. lia.
      * pose proof (wf_cells _ Hwf i (get_nsymbols x) Hi). unfold get_nsymbols_eps, get_epsilon0 in *. lia.
      * split_and!; [(done || lia)..|]. left. by rewrite Hx0.
    + exists (step x i (get_nsymbols x + 1)). split_and!; [lia| | |].
      * pose proof (wf_cells _ Hwf i (get_nsymbols x + 1) Hi). unfold get_nsymbols_eps, get_epsilon1 in *. lia.
      * pose proof (wf_cells _ Hwf i (get_nsymbols x + 1) Hi). unfold get_nsymbols_eps, get_epsilon1 in *. lia.
      * split_and!; [(done || lia)..|]. right. by rewrite Hx1.
  - intros (j & -> & Hj & Hdet & Hne & Hor). destruct (Hex Hdet) as [Hx0 Hx1].
    split_and!; [apply Hemb|lia|]. rewrite He0, He1, !Hcell by lia.
    rewrite Hx0, Hx1 in Hor. destruct Hor as [Hor|Hor].
    + left. rewrite decide_True by (split; [done|congruence]). lia.
    + right. rewrite decide_True by (split; [done|congruence]). lia.
Qed.

Lemma em_epsilon_reach i q :
  0 ≤ i < get_nstates x →
  epsilon_reach out (o + i) q ↔ ∃ j, q = o + j ∧ 0 ≤ j < get_nstates x ∧ epsilon_reach x i j.
Proof.
  intros Hi. split.
  - intros Hr. remember (o + i) as p eqn:Hp. revert i Hi Hp.
    induction Hr as [p|p p' q Hm Hr IH]; intros i Hi ->.
    + exists i. split_and!; [(done || lia)..|]. apply rtc_refl.
    + apply em_epsilon_move in Hm as (j & -> & Hj & Hm); [|done].
      destruct (IH j Hj eq_refl) as (k & -> & Hk & Hr').
      exists k. split_and!; [(done || lia)..|]. by eapply rtc_l.
  - intros (j & -> & Hj & Hr). induction Hr as [i|i i' j Hm Hr IH].
    + apply rtc_refl.
    + pose proof Hm as (Hdet & _).
      assert (Hi' : 0 ≤ i' < get_nstates x)
        by apply (epsilon_move_range x Hwf Hdet i i' Hi Hm).
      eapply rtc_l; [|by apply IH].
      apply em_epsilon_move; [done|]. by exists i'.
Qed.

Lemma em_reaches s i r :
  is_input x s → 0 ≤ i < get_nstates x →
  reaches out (o + i) s r ↔ ∃ j, r = o + j ∧ 0 ≤ j < get_nstates x ∧ reaches x i s j.
Proof.
  intros Hs. revert i. induction Hs as [|c s Hc Hs IH]; intros i Hi.
  - split.
    + intros Hr. apply reaches_nil_inv in Hr.
      apply em_epsilon_reach in Hr as (j & -> & Hj & Hr'); [|done].
      exists j. split_and!; [(done || lia)..|]. by apply reaches_nil.
    + intros (j & -> & Hj & Hr). apply reaches_nil_inv in Hr.
      apply reaches_nil, em_epsilon_reach; [done|]. by exists j.
  - assert (Hcx : c < get_nsymbols_eps x).
    { unfold get_nsymbols, get_nsymbols_eps in *. destruct (is_deterministic x); lia. }
    pose proof (em_offset _ _ _ Hemb) as Ho.
    split.
    + intros Hr. apply reaches_cons_inv in Hr as (p' & Hp' & Hstep & Hr).
      apply em_epsilon_reach in Hp' as (j & -> & Hj & Hr'); [|done].
      rewrite em_symbol in Hstep, Hr by done.
      case_decide as Hne; [done|].
      pose proof (wf_cells _ Hwf j c Hj ltac:(lia)) as Hcell.
      replace (step x j c + o) with (o + step x j c) in Hr by lia.
      apply IH in Hr as (k & -> & Hk & Hr''); [|lia].
      exists k. split_and!; [(done || lia)..|]. by eapply reaches_cons.
    + intros (j & -> & Hj & Hr). apply reaches_cons_inv in Hr as (p' & Hp' & Hstep & Hr).
      assert (Hp'r : 0 ≤ p' < get_nstates x).
      { destruct (is_deterministic x) eqn:Hdet.
        - by rewrite <- (epsilon_reach_deterministic x i p').
        - by apply (epsilon_reach_range x Hwf Hdet i p'). }
      pose proof (wf_cells _ Hwf p' c Hp'r ltac:(lia)) as Hcell.
      eapply (reaches_cons _ _ (o + p')).
      * apply em_epsilon_reach; [done|]. by exists p'.
      * done.
      * rewrite em_symbol by done. rewrite decide_False by done. lia.
      * rewrite em_symbol by done. rewrite decide_False by done.
        replace (step x p' c + o) with (o + step x p' c) by lia.
        apply IH; [lia|]. exists j. split_and!; [(done || lia)..|done].
Qed.

End embedding.

(** ** [unite] accepts what either operand accepts *)

Lemma copied_token_wf x i :
  well_formed x → 0 ≤ i < get_nstates x → copied_token x i = accepts x i.
Proof.
  intros Hwf Hi. unfold copied_token. pose proof (wf_tokens _ Hwf i Hi).
  case_decide; lia.
Qed.

Section unite.
Context (a b : finite_automaton) (Hwfa : well_formed a) (Hwfb : well_formed b)
        (Hsym : get_nsymbols b = get_nsymbols a).

Lemma unite_united : united a b (finite_automaton.unite a b).
Proof.
  unfold finite_automaton.unite.
  pose proof (shaped_ncols _ (wf_shaped _ Hwfa)) as Hpos.
  pose proof (wf_start _ Hwfa) as Hna. pose proof (wf_start _ Hwfb) as Hnb.
  set (out0 := new_automaton (get_nsymbols a) false).
  assert (H0 : shaped out0) by by apply shaped_new.
  set (x1 := add_state out0).
  assert (H1 : shaped x1) by by apply shaped_add_state.
  assert (Hn1 : get_nstates x1 = 1) by done.
  assert (Hc1 : get_ncols (table x1) = get_nsymbols a + 2) by done.
  set (x2 := append_states x1 a).
  destruct (append_states_spec x1 a H1) as [H2 Hn2 Hc2 Hd2 Hs2 Ha2].
  fold x2 in H2, Hn2, Hc2, Hd2, Hs2, Ha2.
  set (x3 := append_states x2 b).
  destruct (append_states_spec x2 b H2) as [H3 Hn3 Hc3 Hd3 Hs3 Ha3].
  fold x3 in H3, Hn3, Hc3, Hd3, Hs3, Ha3.
  assert (He0 : get_epsilon0 x3 = get_nsymbols a) by (unfold get_epsilon0; lia).
  assert (He1 : get_epsilon1 x3 = get_nsymbols a + 1) by (unfold get_epsilon1; lia).
  rewrite He0, He1. change (get_nstates out0) with 0. rewrite Hn1, Hn2, Hn1.
  set (x4 := add_transition x3 0 (get_nsymbols a) 1).
  assert (H4 : shaped x4) by by apply shaped_add_transition.
  set (u := add_transition x4 0 (get_nsymbols a + 1) (1 + get_nstates a)).
  assert (Hu : shaped u) by by apply shaped_add_transition.
  assert (Hnu : get_nstates u = 1 + get_nstates a + get_nstates b).
  { unfold u, x4. rewrite !get_nstates_add_transition. lia. }
  assert (Hcu : get_ncols (table u) = get_nsymbols a + 2).
  { change (get_ncols (table u)) with (get_ncols (table x3)). lia. }
  assert (Hdu : is_deterministic u = false).
  { change (is_deterministic u) with (is_deterministic x3). by rewrite Hd3, Hd2. }
  assert (Hsu : get_nsymbols u = get_nsymbols a).
  { unfold get_nsymbols at 1. rewrite Hcu, Hdu. lia. }
  assert (Hau : ∀ s, accepts u s = accepts x3 s) by done.
  assert (Hstep : ∀ s c, 0 ≤ s → 0 ≤ c →
            step u s c =
              if decide (s = 0 ∧ c = get_nsymbols a) then 1
              else if decide (s = 0 ∧ c = get_nsymbols a + 1) then 1 + get_nstates a
              else step x3 s c).
  { intros s c Hs Hc. unfold u, x4.
    rewrite !step_add_transition by (done || lia).
    rewrite !get_nstates_add_transition. simpl.
    unfold get_ncols in *. simpl.
    repeat case_decide; try done; lia. }
  assert (Hblock_a : ∀ i c, 0 ≤ i < get_nstates a → 0 ≤ c →
            step x3 (1 + i) c = copied_cell x1 a 1 i c).
  { intros i c Hi Hc. rewrite Hs3 by lia. rewrite decide_True by lia.
    rewrite Hs2 by lia. rewrite decide_False by lia. rewrite decide_True by lia.
    rewrite Hn1. f_equal. lia. }
  assert (Hblock_b : ∀ i c, 0 ≤ i < get_nstates b → 0 ≤ c →
            step x3 (1 + get_nstates a + i) c = copied_cell x2 b (1 + get_nstates a) i c).
  { intros i c Hi Hc. rewrite Hs3 by lia. rewrite decide_False by lia.
    rewrite decide_True by lia. rewrite Hn2, Hn1. f_equal. lia. }
  assert (Hcc : ∀ y x o i c, get_ncols (table y) = get_ncols (table u) →
            copied_cell y x o i c = copied_cell u x o i c).
  { intros y x o i c Hy. unfold copied_cell. by rewrite Hy. }
  assert (Hemb_a : embeds u a 1).
  { split; [lia|done|done| |].
    - intros i c Hi Hc. rewrite Hstep by lia.
      rewrite !decide_False by lia. rewrite Hblock_a by lia. apply Hcc. lia.
    - intros i Hi. rewrite Hau, Ha3 by lia. rewrite decide_True by lia.
      rewrite Ha2 by lia. rewrite decide_False by lia. rewrite decide_True by lia.
      rewrite Hn1. replace (1 + i - 1) with i by lia. by apply copied_token_wf. }
  assert (Hemb_b : embeds u b (1 + get_nstates a)).
  { split; [lia|done|congruence| |].
    - intros i c Hi Hc. rewrite Hstep by lia.
      rewrite !decide_False by lia. rewrite Hblock_b by lia. apply Hcc. lia.
    - intros i Hi. rewrite Hau, Ha3 by lia. rewrite decide_False by lia.
      rewrite decide_True by lia. rewrite Hn2, Hn1.
      replace (1 + get_nstates a + i - (1 + get_nstates a)) with i by lia.
      by apply copied_token_wf. }
  assert (Hrow0 : ∀ c, 0 ≤ c → step x3 0 c = -1).
  { intros c Hc. rewrite Hs3 by lia. rewrite decide_True by lia.
    rewrite Hs2 by lia. rewrite decide_True by lia.
    unfold x1. rewrite step_add_state by lia. by rewrite decide_False. }
  assert (Hacc0 : accepts u 0 = -1).
  { rewrite Hau, Ha3 by done. rewrite decide_True by lia.
    rewrite Ha2 by done. rewrite decide_True by lia. done. }
  assert (Hue0 : get_epsilon0 u = get_nsymbols a) by (unfold get_epsilon0; lia).
  assert (Hue1 : get_epsilon1 u = get_nsymbols a + 1) by (unfold get_epsilon1; lia).
  split; try done.
  - split; [done|lia| |].
    + intros s c Hs Hc. unfold get_nsymbols_eps in Hc. rewrite Hnu in *.
      destruct (decide (s = 0)) as [->|Hs0].
      * rewrite Hstep by lia. repeat case_decide; try lia. rewrite Hrow0; lia.
      * destruct (decide (s < 1 + get_nstates a)).
        -- replace s with (1 + (s - 1)) by lia.
           rewrite (em_step _ _ _ Hemb_a) by (unfold get_nsymbols_eps; lia).
           unfold copied_cell. case_decide as Hd; [|lia].
           destruct Hd as (Hd1 & _ & _).
           pose proof (wf_cells _ Hwfa (s - 1) c ltac:(lia) ltac:(unfold get_nsymbols_eps; lia)).
           lia.
        -- replace s with (1 + get_nstates a + (s - 1 - get_nstates a)) by lia.
           rewrite (em_step _ _ _ Hemb_b) by (unfold get_nsymbols_eps; lia).
           unfold copied_cell. case_decide as Hd; [|lia].
           destruct Hd as (Hd1 & _ & _).
           pose proof (wf_cells _ Hwfb (s - 1 - get_nstates a) c ltac:(lia)
                         ltac:(unfold get_nsymbols_eps; lia)).
           lia.
    + intros s Hs. rewrite Hnu in Hs.
      destruct (decide (s = 0)) as [->|Hs0]; [lia|].
      destruct (decide (s < 1 + get_nstates a)).
      * replace s with (1 + (s - 1)) by lia.
        rewrite (em_accepts _ _ _ Hemb_a) by lia. apply (wf_tokens _ Hwfa). lia.
      * replace s with (1 + get_nstates a + (s - 1 - get_nstates a)) by lia.
        rewrite (em_accepts _ _ _ Hemb_b) by lia. apply (wf_tokens _ Hwfb). lia.
  - intros c Hc. rewrite Hstep by lia. rewrite !decide_False by lia. apply Hrow0. lia.
  - rewrite Hue0, Hstep by lia. by rewrite decide_True.
  - rewrite Hue1, Hstep by lia. rewrite decide_False by lia. by rewrite decide_True.
Qed.

End unite.

Section united.
Context (a b u : finite_automaton) (Hwfa : well_formed a) (Hwfb : well_formed b)
        (Hsym : get_nsymbols b = get_nsymbols a) (Hu : united a b u).

Lemma united_start_moves q :
  epsilon_move u 0 q ↔ q = 1 ∨ q = 1 + get_nstates a.
Proof.
  pose proof (get_nstates_nonneg a).
  split.
  - intros (Hd & Hne & [Hq|Hq]).
    + left. by rewrite <- Hq, (un_start_eps0 _ _ _ Hu).
    + right. by rewrite <- Hq, (un_start_eps1 _ _ _ Hu).
  - intros [-> | ->]; (split_and!; [apply (un_left _ _ _ Hu)|lia|]).
    + left. apply (un_start_eps0 _ _ _ Hu).
    + right. apply (un_start_eps1 _ _ _ Hu).
Qed.

Lemma united_start_reach q :
  epsilon_reach u 0 q ↔
    q = 0
    ∨ (∃ j, q = 1 + j ∧ 0 ≤ j < get_nstates a ∧ epsilon_reach a 0 j)
    ∨ (∃ j, q = 1 + get_nstates a + j ∧ 0 ≤ j < get_nstates b ∧ epsilon_reach b 0 j).
Proof.
  pose proof (wf_start _ Hwfa) as Hna. pose proof (wf_start _ Hwfb) as Hnb.
  split.
  - intros Hr. apply rtc_inv in Hr as [<-|(p & Hm & Hr)]; [by left|].
    right. apply united_start_moves in Hm as [-> | ->].
    + left. replace 1 with (1 + 0) in Hr by lia.
      by apply (em_epsilon_reach u a 1 (un_left _ _ _ Hu) Hwfa) in Hr; [|lia].
    + right. replace (1 + get_nstates a) with (1 + get_nstates a + 0) in Hr by lia.
      by apply (em_epsilon_reach u b _ (un_right _ _ _ Hu) Hwfb) in Hr; [|lia].
  - intros [->|[(j & -> & Hj & Hr)|(j & -> & Hj & Hr)]].
    + apply rtc_refl.
    + eapply rtc_l; [apply united_start_moves; by left|].
      replace 1 with (1 + 0) at 1 by lia.
      apply (em_epsilon_reach u a 1 (un_left _ _ _ Hu) Hwfa); [lia|]. by exists j.
    + eapply rtc_l; [apply united_start_moves; by right|].
      replace (1 + get_nstates a) with (1 + get_nstates a + 0) at 1 by lia.
      apply (em_epsilon_reach u b _ (un_right _ _ _ Hu) Hwfb); [lia|]. by exists j.
Qed.

Lemma united_reaches s r :
  is_input a s →
  reaches u 0 s r ↔
    (s = [] ∧ r = 0)
    ∨ (∃ j, r = 1 + j ∧ 0 ≤ j < get_nstates a ∧ reaches a 0 s j)
    ∨ (∃ j, r = 1 + get_nstates a + j ∧ 0 ≤ j < get_nstates b ∧ reaches b 0 s j).
Proof.
  intros Hs.
  assert (Hsb : is_input b s) by (unfold is_input in *; by rewrite Hsym).
  pose proof (wf_start _ Hwfa) as Hna. pose proof (wf_start _ Hwfb) as Hnb.
  split.
  - intros Hr. destruct s as [|c s].
    + apply reaches_nil_inv, united_start_reach in Hr
        as [->|[(j & -> & Hj & Hr)|(j & -> & Hj & Hr)]].
      * by left.
      * right; left. exists j. split_and!; [(done || lia)..|]. by apply reaches_nil.
      * right; right. exists j. split_and!; [(done || lia)..|]. by apply reaches_nil.
    + right. apply reaches_cons_inv in Hr as (p & Hp & Hstep & Hr).
      assert (Hc : 0 ≤ c < get_nsymbols a) by by inversion Hs.
      apply united_start_reach in Hp as [->|[(j & -> & Hj & Hp)|(j & -> & Hj & Hp)]].
      * by rewrite (un_start_symbol _ _ _ Hu) in Hstep.
      * left.
        assert (Hr' : reaches u (1 + j) (c :: s) r)
          by (eapply reaches_cons; [apply rtc_refl|done..]).
        apply (em_reaches u a 1 (un_left _ _ _ Hu) Hwfa) in Hr'
          as (k & -> & Hk & Hr'); [|done..].
        exists k. split_and!; [(done || lia)..|]. by eapply reaches_prepend.
      * right.
        assert (Hr' : reaches u (1 + get_nstates a + j) (c :: s) r)
          by (eapply reaches_cons; [apply rtc_refl|done..]).
        apply (em_reaches u b _ (un_right _ _ _ Hu) Hwfb) in Hr'
          as (k & -> & Hk & Hr'); [|done..].
        exists k. split_and!; [(done || lia)..|]. by eapply reaches_prepend.
  - intros [[-> ->]|[(j & -> & Hj & Hr)|(j & -> & Hj & Hr)]].
    + apply reaches_nil, rtc_refl.
    + eapply (reaches_prepend _ _ 1); [apply rtc_once, united_start_moves; by left|].
      replace 1 with (1 + 0) at 1 by lia.
      apply (em_reaches u a 1 (un_left _ _ _ Hu) Hwfa); [done|lia|]. by exists j.
    + eapply (reaches_prepend _ _ (1 + get_nstates a));
        [apply rtc_once, united_start_moves; by right|].
      replace (1 + get_nstates a) with (1 + get_nstates a + 0) at 1 by lia.
      apply (em_reaches u b _ (un_right _ _ _ Hu) Hwfb); [done|lia|]. by exists j.
Qed.

Lemma reaches_range fa p s r :
  well_formed fa → is_input fa s → 0 ≤ p < get_nstates fa →
  reaches fa p s r → 0 ≤ r < get_nstates fa.
Proof.
  intros Hwf Hs. revert p. induction Hs as [|c s Hc Hs IH]; intros p Hp Hr.
  - apply reaches_nil_inv in Hr. destruct (is_deterministic fa) eqn:Hdet.
    + by rewrite <- (epsilon_reach_deterministic fa p r).
    + by apply (epsilon_reach_range fa Hwf Hdet p r).
  - apply reaches_cons_inv in Hr as (p' & Hp' & Hstep & Hr).
    assert (Hp'r : 0 ≤ p' < get_nstates fa).
    { destruct (is_deterministic fa) eqn:Hdet.
      - by rewrite <- (epsilon_reach_deterministic fa p p').
      - by apply (epsilon_reach_range fa Hwf Hdet p p'). }
    apply (IH (step fa p' c)); [|done].
    assert (c < get_nsymbols_eps fa).
    { unfold get_nsymbols, get_nsymbols_eps in *. destruct (is_deterministic fa); lia. }
    pose proof (wf_cells _ Hwf p' c Hp'r ltac:(lia)). lia.
Qed.

Lemma united_accepts s ta tb :
  is_input a s → nfa_accepts a s ta → nfa_accepts b s tb →
  nfa_accepts u s (first_token ta tb).
Proof.
  intros Hs Ha Hb.
  assert (Hsb : is_input b s) by (unfold is_input in *; by rewrite Hsym).
  pose proof (wf_start _ Hwfa) as Hna. pose proof (wf_start _ Hwfb) as Hnb.
  assert (Hacc : ∀ r, reaches u 0 s r →
            r = 0 ∧ accepts u r = -1
            ∨ (∃ j, reaches a 0 s j ∧ accepts u r = accepts a j)
            ∨ (∃ j, reaches b 0 s j ∧ accepts u r = accepts b j)).
  { intros r Hr. apply united_reaches in Hr; [|done].
    destruct Hr as [[_ ->]|[(j & -> & Hj & Hr)|(j & -> & Hj & Hr)]].
    - left. split; [done|]. apply (un_start_accepts _ _ _ Hu).
    - right; left. exists j. split; [done|]. by apply (em_accepts _ _ _ (un_left _ _ _ Hu)).
    - right; right. exists j. split; [done|]. by apply (em_accepts _ _ _ (un_right _ _ _ Hu)). }
  assert (Hina : ∀ j, reaches a 0 s j → ∃ r, reaches u 0 s r ∧ accepts u r = accepts a j).
  { intros j Hj. exists (1 + j).
    assert (0 ≤ j < get_nstates a) by (eapply reaches_range; [done|done| |done]; lia).
    split; [|by apply (em_accepts _ _ _ (un_left _ _ _ Hu))].
    apply united_reaches; [done|]. right; left. by exists j. }
  assert (Hinb : ∀ j, reaches b 0 s j → ∃ r, reaches u 0 s r ∧ accepts u r = accepts b j).
  { intros j Hj. exists (1 + get_nstates a + j).
    assert (0 ≤ j < get_nstates b) by (eapply reaches_range; [done|done| |done]; lia).
    split; [|by apply (em_accepts _ _ _ (un_right _ _ _ Hu))].
    apply united_reaches; [done|]. right; right. by exists j. }
  unfold nfa_accepts, first_token in *.
  destruct Ha as [[-> Ha]|(Hna' & (ra & Hra & Hacca) & Hmina)];
    destruct Hb as [[-> Hb]|(Hnb' & (rb & Hrb & Haccb) & Hminb)].
  - rewrite decide_True by done. left. split; [done|].
    intros r Hr. destruct (Hacc r Hr) as [[_ ?]|[(j & Hj & ->)|(j & Hj & ->)]]; auto.
  - rewrite decide_True by done. right. split_and!; [done| |].
    + destruct (Hinb rb Hrb) as (r & Hr & Hr'). exists r. split; [done|congruence].
    + intros r Hr Hne. destruct (Hacc r Hr) as [[_ ?]|[(j & Hj & Heq)|(j & Hj & Heq)]].
      * done.
      * rewrite Heq in *. by rewrite Ha in Hne.
      * rewrite Heq in *. by apply Hminb.
  - rewrite decide_False by done. rewrite decide_True by done.
    right. split_and!; [done| |].
    + destruct (Hina ra Hra) as (r & Hr & Hr'). exists r. split; [done|congruence].
    + intros r Hr Hne. destruct (Hacc r Hr) as [[_ ?]|[(j & Hj & Heq)|(j & Hj & Heq)]].
      * done.
      * rewrite Heq in *. by apply Hmina.
      * rewrite Heq in *. by rewrite Hb in Hne.
  - rewrite !decide_False by done.
    right. split_and!; [lia| |].
    + destruct (decide (ta ≤ tb)).
      * destruct (Hina ra Hra) as (r & Hr & Hr'). exists r. split; [done|]. lia.
      * destruct (Hinb rb Hrb) as (r & Hr & Hr'). exists r. split; [done|]. lia.
    + intros r Hr Hne. destruct (Hacc r Hr) as [[_ ?]|[(j & Hj & Heq)|(j & Hj & Heq)]].
      * done.
      * rewrite Heq in *. specialize (Hmina j Hj Hne). lia.
      * rewrite Heq in *. specialize (Hminb j Hj Hne). lia.
Qed.

End united.

(** ** The combined lexer gives the first declared token *)

Lemma nfa_accepts_exists fa s :
  well_formed fa → is_input fa s → ∃ token, nfa_accepts fa s token.
Proof.
  intros Hwf Hs. destruct (determinize_simplify fa Hwf) as (_ & out & _ & _ & _ & _ & _ & H).
  eauto.
Qed.

Lemma nfa_accepts_single fa s i token :
  well_formed fa → is_input fa s →
  (∀ state, 0 ≤ state < get_nstates fa → accepts fa state = -1 ∨ accepts fa state = i) →
  nfa_accepts fa s token → token = -1 ∨ token = i.
Proof.
  intros Hwf Hs Hsingle [[-> _]|(Hne & (r & Hr & Hacc) & _)]; [by left|].
  right. pose proof (wf_start _ Hwf).
  destruct (Hsingle r) as [H1|H1]; [|congruence..].
  eapply reaches_range; [done|done| |done]. lia.
Qed.

Lemma first_match_snoc dfas dfa s ta tb :
  first_match dfas s ta → nfa_accepts dfa s tb →
  tb = -1 ∨ tb = Z.of_nat (length dfas) →
  first_match (dfas ++ [dfa]) s (first_token ta tb).
Proof.
  intros Ha Hb Htb. unfold first_token.
  destruct Ha as [[-> Ha]|(i & d & -> & Hi & Hacc & Hmin)].
  - rewrite decide_True by done. destruct Htb as [-> | ->].
    + left. split; [done|]. intros j d Hj.
      apply lookup_app_Some in Hj as [Hj|[_ Hj]]; [by eapply Ha|].
      by apply list_lookup_singleton_Some in Hj as [_ <-].
    + right. exists (length dfas), dfa. split_and!; [done| |done|].
      * rewrite lookup_app_r by lia. by rewrite Nat.sub_diag.
      * intros j d Hj Hd. apply lookup_app_Some in Hd as [Hd|[? _]]; [by eapply Ha|lia].
  - rewrite decide_False by lia.
    assert (Hlt : (i < length dfas)%nat) by by eapply lookup_lt_Some.
    assert (Hres : (if decide (tb = -1) then Z.of_nat i else Z.of_nat i `min` tb) = Z.of_nat i).
    { destruct Htb as [-> | ->]; [done|]. rewrite decide_False by lia. lia. }
    rewrite Hres. right. exists i, d. split_and!; [done| |done|].
    + by apply lookup_app_l_Some.
    + intros j d' Hj Hd'. apply lookup_app_Some in Hd' as [Hd'|[? _]]; [by eapply Hmin|lia].
Qed.

Section lexer.
Context (build_dfa : string → string → Z → outcome finite_automaton)
        (default_automaton : finite_automaton) (nchars : Z).

Lemma build_lexer_loop_spec tokens dfas done lexer :
  length tokens = length dfas →
  (∀ j token dfa, tokens !! j = Some token → dfas !! j = Some dfa →
     token_dfa build_dfa nchars (length done + j) token dfa) →
  (0 < length done)%nat →
  well_formed lexer → get_nsymbols lexer = nchars →
  (∀ s t, is_input lexer s → nfa_accepts lexer s t → first_match done s t) →
  ∃ lexer', build_lexer_loop build_dfa lexer (Z.of_nat (length done)) tokens = Returned lexer'
    ∧ well_formed lexer' ∧ get_nsymbols lexer' = nchars
    ∧ ∀ s t, is_input lexer' s → nfa_accepts lexer' s t → first_match (done ++ dfas) s t.
Proof.
  revert dfas done lexer.
  induction tokens as [|token tokens IH]; intros dfas done lexer Hlen Htok Hdone Hwf Hsym Hsem.
  - destruct dfas; [|done]. simpl. exists lexer. rewrite app_nil_r. done.
  - destruct dfas as [|dfa dfas]; [done|].
    destruct (Htok 0%nat token dfa eq_refl eq_refl)
      as (Hname & Hregex & Hbuild & Hwfd & Hsymd & Hsingle).
    rewrite Nat.add_0_r in Hbuild, Hsingle.
    simpl. unfold build_lexer_token.
    rewrite decide_False by done. rewrite decide_False by done.
    rewrite decide_False by lia. rewrite Hbuild. simpl.
    pose proof (unite_united lexer dfa Hwf Hwfd ltac:(congruence)) as Hu.
    set (u := finite_automaton.unite lexer dfa) in *.
    replace (Z.of_nat (length done) + 1) with (Z.of_nat (length (done ++ [dfa])))
      by (rewrite length_app; simpl; lia).
    replace (done ++ dfa :: dfas) with ((done ++ [dfa]) ++ dfas) by by rewrite <- app_assoc.
    apply IH.
    + simpl in Hlen. lia.
    + intros j t d Ht Hd. rewrite length_app. simpl.
      replace (length done + 1 + j)%nat with (length done + S j)%nat by lia.
      by apply Htok.
    + rewrite length_app. simpl. lia.
    + apply Hu.
    + rewrite (un_nsymbols _ _ _ Hu). done.
    + intros s t Hs Hacc.
      assert (Hs1 : is_input lexer s).
      { unfold is_input in *. by rewrite <- (un_nsymbols _ _ _ Hu). }
      assert (Hs2 : is_input dfa s).
      { unfold is_input in *. rewrite Hsymd, <- Hsym. done. }
      destruct (nfa_accepts_exists lexer s Hwf Hs1) as [ta Hta].
      destruct (nfa_accepts_exists dfa s Hwfd Hs2) as [tb Htb].
      pose proof (united_accepts lexer dfa u Hwf Hwfd ltac:(congruence) Hu s ta tb Hs1 Hta Htb)
        as Hunion.
      rewrite (nfa_accepts_unique _ _ _ _ Hacc Hunion).
      apply first_match_snoc; [by apply Hsem|done|].
      by eapply nfa_accepts_single.
Qed.

Lemma build_lexer_spec (language : language.t) dfas :
  language.tokens language ≠ [] →
  length (language.tokens language) = length dfas →
  (∀ j token dfa, language.tokens language !! j = Some token → dfas !! j = Some dfa →
     token_dfa build_dfa nchars j token dfa) →
  ∃ lexer, build_lexer build_dfa default_automaton language = Returned lexer
    ∧ is_deterministic lexer = true
    ∧ ∀ s, Forall (λ c, 0 ≤ c < nchars) s → first_match dfas s (run_dfa lexer s).
Proof.
  intros Hne Hlen Htok. unfold build_lexer.
  destruct (language.tokens language) as [|token tokens]; [done|].
  destruct dfas as [|dfa dfas]; [done|]. clear Hne.
  destruct (Htok 0%nat token dfa eq_refl eq_refl)
    as (Hname & Hregex & Hbuild & Hwfd & Hsymd & Hsingle).
  simpl. unfold build_lexer_token at 1.
  rewrite decide_False by done. rewrite decide_False by done.
  rewrite decide_True by done. change (Z.of_nat 0) with 0 in Hbuild.
  rewrite Hbuild. simpl.
  destruct (build_lexer_loop_spec tokens dfas [dfa] dfa)
    as (lexer & Hloop & Hwf & Hsym & Hsem).
  - simpl in Hlen. lia.
  - intros j t d Ht Hd. simpl. by apply (Htok (S j)).
  - simpl. lia.
  - done.
  - done.
  - intros s t Hs Hacc.
    destruct (nfa_accepts_single dfa s 0 t Hwfd Hs Hsingle Hacc) as [-> | ->].
    + left. split; [done|]. intros i d Hi.
      by apply list_lookup_singleton_Some in Hi as [_ <-].
    + right. exists 0%nat, dfa. split_and!; [done..|]. intros j d Hj. lia.
  - change (Z.of_nat (length [dfa])) with (0 + 1) in Hloop. rewrite Hloop. simpl.
    destruct (determinize_simplify lexer Hwf) as (d & out & -> & Hout & _ & Hdet & _ & Hrun).
    simpl. rewrite Hout. simpl. exists out. split_and!; [done..|].
    intros s Hs. apply Hsem; [by rewrite <- Hsym in Hs|].
    apply Hrun. by rewrite <- Hsym in Hs.
Qed.

End lexer.

(** C2.  In [make_deterministic] the accept token of every state of the
    result is the smallest accept token among the members of its set of NFA
    states, and none when no member accepts; so the lexer that [build_lexer]
    assembles from the token automata answers, on every input, with the index
    of the first declared token that accepts it. *)
Theorem token_priority_is_declaration_order
    (nfa : finite_automaton)
    (build_dfa : string → string → Z → outcome finite_automaton)
    (default_automaton : finite_automaton) (nchars : Z)
    (language : language.t) (dfas : list finite_automaton) :
  well_formed nfa → is_deterministic nfa = false →
  language.tokens language ≠ [] →
  length (language.tokens language) = length dfas →
  (∀ j token dfa, language.tokens language !! j = Some token → dfas !! j = Some dfa →
     token_dfa build_dfa nchars j token dfa) →
  (∃ st, determinize nfa = Some st
         ∧ finite_automaton.make_deterministic nfa = Some (out_fa st)
         ∧ get_nstates (out_fa st) = isize (ssupv st)
         ∧ ∀ k S, ssupv st !! k = Some S →
             min_token_of nfa (λ r, r ∈ S) (accepts (out_fa st) (Z.of_nat k)))
  ∧ (∃ lexer, build_lexer build_dfa default_automaton language = Returned lexer
       ∧ ∀ s, Forall (λ c, 0 ≤ c < nchars) s → first_match dfas s (run_dfa lexer s)).
Proof.
  intros Hwf Hnfa Hne Hlen Htok. split.
  - destruct (make_deterministic_spec nfa Hwf Hnfa) as (st & Hst & Hmd & Hinv).
    exists st. split_and!; [done|done|apply Hinv|].
    intros k S HS. apply (determinized_accept_token nfa st Hinv); [lia|].
    by rewrite Nat2Z.id.
  - destruct (build_lexer_spec build_dfa default_automaton nchars language dfas Hne Hlen Htok)
      as (lexer & Hlexer & _ & Hrun).
    by exists lexer.
Qed.

(** ** Worked instances for the automata *)

Lemma well_formed_zero_or_one_nfa : well_formed zero_or_one_nfa.
Proof. apply well_formedb_sound. vm_compute. reflexivity. Qed.

Lemma determinize_simplify_same_language_witness :
  ∃ dfa out,
    finite_automaton.make_deterministic zero_or_one_nfa = Some dfa
    ∧ finite_automaton.simplify dfa = Some out
    ∧ is_deterministic out = true
    ∧ ∀ s token, is_input zero_or_one_nfa s →
        (nfa_accepts zero_or_one_nfa s token ↔ run_dfa out s = token).
Proof.
  apply (determinize_simplify_same_language zero_or_one_nfa).
  apply well_formedb_sound. vm_compute. reflexivity.
Defined.

Lemma make_deterministic_identity_witness :
  finite_automaton.make_deterministic zero_nfa = Some zero_nfa
  ∧ finite_automaton.make_deterministic zero_nfa ≫= finite_automaton.make_deterministic
    = Some zero_nfa.
Proof.
  apply (make_deterministic_identity zero_nfa). vm_compute. reflexivity.
Defined.

Lemma combinators_preserve_accepting_without_epsilon_witness :
  accepting_without_epsilon (finite_automaton.unite zero_nfa one_nfa)
  ∧ accepting_without_epsilon (finite_automaton.concat zero_nfa one_nfa 0)
  ∧ accepting_without_epsilon (finite_automaton.plus zero_nfa 0)
  ∧ accepting_without_epsilon (finite_automaton.maybe zero_nfa 0)
  ∧ accepting_without_epsilon (finite_automaton.star zero_nfa 0).
Proof.
  apply (combinators_preserve_accepting_without_epsilon zero_nfa one_nfa 0).
  - apply shapedb_sound. vm_compute. reflexivity.
  - apply shapedb_sound. vm_compute. reflexivity.
  - vm_compute. reflexivity.
  - apply accepting_without_epsilonb_sound. vm_compute. reflexivity.
  - apply accepting_without_epsilonb_sound. vm_compute. reflexivity.
Defined.

Lemma twin_token_dfa (j : nat) token dfa :
  language.tokens twin_language !! j = Some token → twin_dfas !! j = Some dfa →
  token_dfa twin_build_dfa 2 j token dfa.
Proof.
  intros Ht Hd. destruct j as [|[|j]]; simpl in Ht, Hd; [| |done].
  - injection Ht as <-. injection Hd as <-. split_and!; [done|done|done| |done|].
    + apply well_formedb_sound. vm_compute. reflexivity.
    + intros state Hstate. change (0 ≤ state < 2) in Hstate.
      assert (state = 0 ∨ state = 1) as [-> | ->] by lia; vm_compute; auto.
  - injection Ht as <-. injection Hd as <-. split_and!; [done|done|done| |done|].
    + apply well_formedb_sound. vm_compute. reflexivity.
    + intros state Hstate. change (0 ≤ state < 2) in Hstate.
      assert (state = 0 ∨ state = 1) as [-> | ->] by lia; vm_compute; auto.
Qed.

Lemma token_priority_is_declaration_order_witness :
  (∃ st, determinize zero_or_one_nfa = Some st
         ∧ finite_automaton.make_deterministic zero_or_one_nfa = Some (out_fa st)
         ∧ get_nstates (out_fa st) = isize (ssupv st)
         ∧ ∀ k S, ssupv st !! k = Some S →
             min_token_of zero_or_one_nfa (λ r, r ∈ S) (accepts (out_fa st) (Z.of_nat k)))
  ∧ (∃ lexer, build_lexer twin_build_dfa zero_nfa twin_language = Returned lexer
       ∧ ∀ s, Forall (λ c, 0 ≤ c < 2) s → first_match twin_dfas s (run_dfa lexer s)).
Proof.
  apply (token_priority_is_declaration_order zero_or_one_nfa twin_build_dfa zero_nfa 2
           twin_language twin_dfas).
  - apply well_formedb_sound. vm_compute. reflexivity.
  - vm_compute. reflexivity.
  - vm_compute. discriminate.
  - vm_compute. reflexivity.
  - apply twin_token_dfa.
Defined.

(** The lexer of the twin language answers with the first token. *)
Lemma twin_lexer_gives_first_token :
  ∃ lexer, build_lexer twin_build_dfa zero_nfa twin_language = Returned lexer
           ∧ run_dfa lexer [0] = 0 ∧ run_dfa lexer [1] = -1.
Proof. eexists. split; [vm_compute; reflexivity|]. split; vm_compute; reflexivity. Qed.

(** ** Indentation detection *)

Lemma count_name_app name l k :
  count_name name (l ++ k) = (count_name name l + count_name name k)%nat.
Proof. unfold count_name. by rewrite filter_app, length_app. Qed.

Lemma count_name_cons name token l :
  count_name name (token :: l) =
    ((if decide (language.name token = name) then 1 else 0) + count_name name l)%nat.
Proof. unfold count_name. rewrite filter_cons. by case_decide. Qed.

Lemma index_from_absent name i l :
  index_from name i l = -1 → 0 ≤ i → count_name name l = 0%nat.
Proof.
  revert i. induction l as [|token l IH]; intros i Hidx Hi; [done|].
  simpl in Hidx. rewrite count_name_cons. case_decide; [lia|].
  by rewrite (IH (i + 1)) by (done || lia).
Qed.

Lemma index_from_present name i l :
  0 ≤ i → index_from name i l ≠ -1 →
  i ≤ index_from name i l < i + isize l ∧ (0 < count_name name l)%nat.
Proof.
  revert i. induction l as [|token l IH]; intros i Hi Hidx; [done|].
  simpl in *. rewrite count_name_cons. unfold isize in *. simpl.
  case_decide; [lia|]. destruct (IH (i + 1)) as [? ?]; [lia|done|]. lia.
Qed.

Lemma index_from_app name i l k :
  0 ≤ i →
  index_from name i (l ++ k) =
    if decide (index_from name i l ≠ -1) then index_from name i l
    else index_from name (i + isize l) k.
Proof.
  revert i. induction l as [|token l IH]; intros i Hi; simpl.
  - unfold isize. simpl. by rewrite Z.add_0_r.
  - case_decide as Hname.
    + by rewrite decide_True by lia.
    + rewrite IH by lia. unfold isize. simpl.
      by replace (i + 1 + Z.of_nat (length l)) with (i + Z.of_nat (S (length l))) by lia.
Qed.

Lemma index_of_snoc_other name seen token :
  language.name token ≠ name → index_of name (seen ++ [token]) = index_of name seen.
Proof.
  intros Hne. unfold index_of. rewrite index_from_app by done. simpl.
  rewrite (decide_False (P := _ = name)) by done. by case_decide.
Qed.

Lemma index_of_snoc_same name seen token :
  language.name token = name →
  index_of name (seen ++ [token]) =
    if decide (index_of name seen ≠ -1) then index_of name seen else isize seen.
Proof.
  intros Hname. unfold index_of. rewrite index_from_app by done. simpl.
  by rewrite (decide_True (P := _ = name)) by done.
Qed.

Lemma build_indent_loop_spec tokens seen out :
  indent_seen seen out → declared_once seen →
  match build_indent_loop out (isize seen) tokens with
  | Returned out' => indent_seen (seen ++ tokens) out' ∧ declared_once (seen ++ tokens)
  | Thrown _ => ¬ declared_once (seen ++ tokens)
  | _ => False
  end.
Proof.
  revert seen out. induction tokens as [|token tokens IH]; intros seen out Hseen Honce.
  - simpl. by rewrite app_nil_r.
  - simpl. replace (seen ++ token :: tokens) with ((seen ++ [token]) ++ tokens)
      by by rewrite <- app_assoc.
    replace (isize seen + 1) with (isize (seen ++ [token]))
      by (rewrite isize_app; done).
    destruct Hseen as (Hs & Hi & Hd & Hn). destruct Honce as (Hci & Hcd & Hcn).
    assert (Hpresent : ∀ name, index_of name seen ≠ -1 → (0 < count_name name seen)%nat).
    { intros name Hne. by apply (index_from_present name 0 seen). }
    assert (Habsent : ∀ name, index_of name seen = -1 → count_name name seen = 0%nat).
    { intros name He. by apply (index_from_absent name 0 seen). }
    assert (Hdup : ∀ name, language.name token = name → index_of name seen ≠ -1 →
              (1 < count_name name ((seen ++ [token]) ++ tokens))%nat).
    { intros name Hname Hne. rewrite !count_name_app, count_name_cons.
      rewrite decide_True by done. specialize (Hpresent name Hne). lia. }
    assert (Hnew : ∀ name, language.name token = name → index_of name seen = -1 →
              (count_name name (seen ++ [token]) ≤ 1)%nat).
    { intros name Hname He. rewrite count_name_app, count_name_cons.
      rewrite decide_True by done. rewrite (Habsent name He).
      unfold count_name. simpl. lia. }
    assert (Hold : ∀ name, language.name token ≠ name →
              count_name name (seen ++ [token]) = count_name name seen).
    { intros name Hne. rewrite count_name_app, count_name_cons.
      rewrite decide_False by done. unfold count_name. simpl. lia. }
    unfold build_indent_token.
    destruct (decide (language.name token = "INDENT")) as [HI|HI];
      [|destruct (decide (language.name token = "DEDENT")) as [HD|HD];
        [|destruct (decide (language.name token = "NEWLINE")) as [HN|HN]]].
    + destruct (decide (indent_token out ≠ -1)) as [Hdup'|Hdup'].
      * simpl. intros (H1 & _ & _). rewrite Hi in Hdup'.
        specialize (Hdup _ HI Hdup'). lia.
      * simpl. apply IH.
        -- unfold indent_seen. simpl.
           rewrite (index_of_snoc_same "INDENT") by done.
           rewrite !index_of_snoc_other by congruence.
           rewrite <- Hi. rewrite decide_False by done.
           split_and!; [|done..]. symmetry. apply bool_decide_eq_true.
           pose proof (isize_nonneg seen). lia.
        -- split_and!; [apply Hnew; [done|]; rewrite <- Hi; lia
                       |rewrite Hold by congruence; done..].
    + destruct (decide (dedent_token out ≠ -1)) as [Hdup'|Hdup'].
      * simpl. intros (_ & H1 & _). rewrite Hd in Hdup'.
        specialize (Hdup _ HD Hdup'). lia.
      * simpl. apply IH.
        -- unfold indent_seen. simpl.
           rewrite (index_of_snoc_same "DEDENT") by done.
           rewrite !index_of_snoc_other by congruence.
           rewrite <- Hd. rewrite decide_False by done. done.
        -- split_and!; [rewrite Hold by congruence; done
                       |apply Hnew; [done|]; rewrite <- Hd; lia
                       |rewrite Hold by congruence; done].
    + destruct (decide (newline_token out ≠ -1)) as [Hdup'|Hdup'].
      * simpl. intros (_ & _ & H1). rewrite Hn in Hdup'.
        specialize (Hdup _ HN Hdup'). lia.
      * simpl. apply IH.
        -- unfold indent_seen. simpl.
           rewrite (index_of_snoc_same "NEWLINE") by done.
           rewrite !index_of_snoc_other by congruence.
           rewrite <- Hn. rewrite decide_False by done. done.
        -- split_and!; [rewrite Hold by congruence; done..
                       |apply Hnew; [done|]; rewrite <- Hn; lia].
    + simpl. apply IH.
      * unfold indent_seen. by rewrite !index_of_snoc_other by done.
      * unfold declared_once. by rewrite !Hold by done.
Qed.

Lemma build_indent_loop_all (language : language.t) :
  match build_indent_loop (mkIndentation false (-1) (-1) (-1)) 0 (language.tokens language) with
  | Returned out =>
      indent_seen (language.tokens language) out ∧ declared_once (language.tokens language)
  | Thrown _ => ¬ declared_once (language.tokens language)
  | _ => False
  end.
Proof.
  apply (build_indent_loop_spec (language.tokens language) []).
  - done.
  - unfold declared_once, count_name. simpl. lia.
Qed.

Lemma index_of_absent_iff name tokens :
  index_of name tokens = -1 ↔ count_name name tokens = 0%nat.
Proof.
  split; [intros; by eapply index_from_absent|].
  intros Hc. destruct (decide (index_of name tokens = -1)) as [|Hne]; [done|].
  destruct (index_from_present name 0 tokens) as [_ ?]; [done..|lia].
Qed.

Lemma index_of_range name tokens :
  index_of name tokens ≠ -1 → 0 ≤ index_of name tokens.
Proof.
  unfold index_of. intros Hne.
  destruct (index_from_present name 0 tokens); [done..|lia].
Qed.

Lemma index_from_distinct name1 name2 i tokens :
  name1 ≠ name2 → 0 ≤ i → index_from name1 i tokens ≠ -1 →
  index_from name1 i tokens ≠ index_from name2 i tokens.
Proof.
  intros Hne. revert i. induction tokens as [|token tokens IH]; intros i Hi Hidx; [done|].
  simpl in *. destruct (decide (language.name token = name1)) as [H1|H1].
  - rewrite decide_False by congruence.
    destruct (decide (index_from name2 (i + 1) tokens = -1)) as [->|Hp]; [lia|].
    destruct (index_from_present name2 (i + 1) tokens); [lia|done|lia].
  - destruct (decide (language.name token = name2)) as [H2|H2].
    + destruct (index_from_present name1 (i + 1) tokens); [lia|done|lia].
    + apply IH; [lia|done].
Qed.

(** C5, as the code has it by design.  [build_indent_info] fails whenever one
    of the names INDENT, DEDENT, NEWLINE is declared twice.  For a language
    that declares INDENT once, it returns exactly when DEDENT and NEWLINE are
    declared too and NEWLINE comes before both, and then reports
    [is_sensitive] with the three indices.  For a language that declares
    neither INDENT nor NEWLINE, it returns [is_sensitive = false] with -1 for
    the absent tokens. *)
Theorem build_indent_info_by_design (language : language.t) :
  let tokens := language.tokens language in
  let indent := index_of "INDENT" tokens in
  let dedent := index_of "DEDENT" tokens in
  let newline := index_of "NEWLINE" tokens in
  (¬ declared_once tokens → fails (build_indent_info language))
  ∧ (declared_once tokens → indent ≠ -1 →
       if decide (dedent ≠ -1 ∧ newline ≠ -1 ∧ newline < indent ∧ newline < dedent)
       then build_indent_info language = Returned (mkIndentation true indent dedent newline)
       else fails (build_indent_info language))
  ∧ (declared_once tokens → indent = -1 → newline = -1 →
       build_indent_info language = Returned (mkIndentation false (-1) dedent (-1))).
Proof.
  intros tokens indent dedent newline.
  pose proof (build_indent_loop_all language) as Hloop.
  unfold build_indent_info.
  destruct (build_indent_loop _ 0 (language.tokens language)) as [out|e|msg|] eqn:E;
    [|simpl|done|done].
  - destruct Hloop as [(Hs & Hi & Hd & Hn) Honce].
    fold tokens in Hs, Hi, Hd, Hn, Honce.
    fold indent in Hs, Hi. fold dedent in Hd. fold newline in Hn.
    destruct out as [s i d n]. simpl in *. subst s i d n.
    split_and!.
    + intros Hnot. done.
    + intros _ Hindent. rewrite bool_decide_eq_true_2 by done. simpl.
      assert (Hni : newline ≠ -1 → newline ≠ indent)
        by (intros ?; by apply index_from_distinct).
      assert (Hnd : newline ≠ -1 → newline ≠ dedent)
        by (intros ?; by apply index_from_distinct).
      rewrite (bool_decide_eq_false_2 (indent = -1)) by done.
      destruct (decide (dedent ≠ -1 ∧ newline ≠ -1 ∧ newline < indent ∧ newline < dedent))
        as [Hok|Hok].
      * destruct Hok as (Hd & Hn & H1 & H2).
        rewrite (bool_decide_eq_false_2 (dedent = -1)) by done.
        rewrite (bool_decide_eq_false_2 (newline = -1)) by done.
        rewrite (bool_decide_eq_false_2 (indent < newline)) by lia.
        rewrite (bool_decide_eq_false_2 (dedent < newline)) by lia.
        simpl. done.
      * left. destruct (decide (dedent = -1)) as [Hd|Hd].
        { rewrite (bool_decide_eq_true_2 (dedent = -1)) by done. eauto. }
        rewrite (bool_decide_eq_false_2 (dedent = -1)) by done.
        destruct (decide (newline = -1)) as [Hn|Hn].
        { rewrite (bool_decide_eq_true_2 (newline = -1)) by done. eauto. }
        rewrite (bool_decide_eq_false_2 (newline = -1)) by done.
        destruct (decide (indent < newline)) as [H1|H1].
        { rewrite (bool_decide_eq_true_2 (indent < newline)) by done. eauto. }
        rewrite (bool_decide_eq_false_2 (indent < newline)) by done.
        rewrite (bool_decide_eq_true_2 (dedent < newline)) by lia. eauto.
    + intros _ Hindent Hnewline. rewrite Hindent, Hnewline. simpl.
      pose proof (index_of_range "DEDENT" tokens) as Hr. fold dedent in Hr.
      destruct (decide (dedent = -1)) as [->|Hd]; [done|].
      rewrite (bool_decide_eq_false_2 (dedent < -1)) by (specialize (Hr Hd); lia).
      done.
  - fold tokens in Hloop. split_and!.
    + intros _. left. eauto.
    + intros Honce. done.
    + intros Honce. done.
Qed.

(** C5 does not hold as stated: a language that declares DEDENT twice has
    no INDENT token and is rejected all the same. *)
Lemma build_indent_info_rejects_without_indent :
  ¬ (∀ language : language.t,
       index_of "INDENT" (language.tokens language) = -1 →
       ∃ out, build_indent_info language = Returned out ∧ is_sensitive out = false)
  ∧ build_indent_info
      (language.mk [language.mkToken "DEDENT" "a"; language.mkToken "DEDENT" "b"] [] [])
    = Thrown (invalid_argument ("The language has two or more DEDENT tokens" +:+ newline)).
Proof.
  split.
  - intros H.
    destruct (H (language.mk [language.mkToken "DEDENT" "a"; language.mkToken "DEDENT" "b"]
                   [] []) eq_refl) as (out & Hout & _).
    vm_compute in Hout. discriminate.
  - vm_compute. reflexivity.
Qed.

(** The ordering check is not guarded by [is_sensitive], unlike the three
    checks before it: a lone NEWLINE declaration trips it. *)
Lemma build_indent_info_newline_only :
  build_indent_info (language.mk [language.mkToken "NEWLINE" "\n"] [] [])
  = Thrown (invalid_argument
              ("NEWLINE needs to come before all other indent tokens" +:+ newline)).
Proof. reflexivity. Qed.

Lemma build_indent_info_by_design_witness :
  build_indent_info
    (language.mk [language.mkToken "NEWLINE" "\n"; language.mkToken "INDENT" "a";
                  language.mkToken "DEDENT" "b"] [] [])
  = Returned (mkIndentation true 1 2 0).
Proof.
  pose proof (build_indent_info_by_design
    (language.mk [language.mkToken "NEWLINE" "\n"; language.mkToken "INDENT" "a";
                  language.mkToken "DEDENT" "b"] [] [])) as (_ & H & _).
  apply H.
  - unfold declared_once. vm_compute. lia.
  - vm_compute. discriminate.
Defined.

(** ** The regex front-end language *)

Lemma length_assign {A} (v : list A) i x : length (regex.assign v i x) = length v.
Proof. apply length_insert. Qed.

Lemma build_language_sizes e :
  0 ≤ regex.NPRODS e → 0 ≤ regex.NTOKS e →
  isize (language.productions (regex.build_language e)) = regex.NPRODS e
  ∧ isize (language.tokens (regex.build_language e)) = regex.NTOKS e.
Proof.
  intros Hp Ht. unfold regex.build_language, isize. simpl.
  rewrite !length_assign. unfold regex.resize. rewrite !length_replicate. lia.
Qed.

(** Whatever values the header gives the enumerators: 22 distinct indices
    into the production vector need 22 slots. *)
Lemma build_language_needs_22_productions e :
  NoDup (regex.production_enumerators e) →
  Forall (λ i, 0 ≤ i < regex.NPRODS e) (regex.production_enumerators e) →
  22 ≤ isize (language.productions (regex.build_language e)).
Proof.
  intros Hnd Hrange.
  assert (Hpos : 0 ≤ regex.NPRODS e).
  { apply Forall_cons in Hrange as [? _]. lia. }
  assert (Hsub : regex.production_enumerators e ⊆+ seqZ 0 (regex.NPRODS e)).
  { apply NoDup_submseteq; [done|]. intros i Hi. apply elem_of_seqZ.
    rewrite Forall_forall in Hrange. specialize (Hrange i Hi). lia. }
  apply submseteq_length in Hsub. rewrite length_seqZ in Hsub. simpl in Hsub.
  unfold regex.build_language, isize. simpl.
  rewrite !length_assign. unfold regex.resize. rewrite length_replicate. lia.
Qed.



(** ** Table emission *)

Lemma foldl_app_concat {A B} (f : A → list B) (l : list A) (acc : list B) :
  foldl (λ out x, out ++ f x) acc l = acc ++ concat (f <$> l).
Proof.
  revert acc. induction l as [|x l IH]; intros acc; simpl.
  - by rewrite app_nil_r.
  - by rewrite IH, <-app_assoc.
Qed.

Lemma foldl_pointwise {A B} (f g : A → B → A) (l : list B) (acc : A) :
  (∀ a x, f a x = g a x) → foldl f acc l = foldl g acc l.
Proof.
  intros Hfg. revert acc. induction l as [|x l IH]; intros acc; simpl; [done|].
  by rewrite Hfg, IH.
Qed.

(** [accept_parser] as the concatenation of the calls of every action of
    every state. *)
Lemma accept_parser_calls pip :
  accept_parser pip
  = ((λ _, shift_reduce_tables.add_state) <$> seqZ 0 (isize (parser_in_progress.states pip)))
    ++ concat ((λ s_i,
                  concat (accept_action (parser_in_progress.grammar pip) s_i
                            <$> actions (state_at (parser_in_progress.states pip) s_i)))
                 <$> seqZ 0 (isize (parser_in_progress.states pip))).
Proof.
  unfold accept_parser. f_equal.
  rewrite <-(app_nil_l (concat _)).
  rewrite <-(foldl_app_concat (λ s_i, concat (accept_action _ s_i <$> _))).
  apply foldl_pointwise. intros out s_i. by rewrite foldl_app_concat.
Qed.

Lemma cell_writes_app s t l1 l2 :
  cell_writes s t (l1 ++ l2) = cell_writes s t l1 ++ cell_writes s t l2.
Proof. apply omap_app. Qed.

Lemma cell_writes_add_states s t (l : list Z) :
  cell_writes s t ((λ _, shift_reduce_tables.add_state) <$> l) = [].
Proof. by induction l. Qed.

Lemma cell_writes_concat s t (ls : list (list shift_reduce_tables.call)) :
  cell_writes s t (concat ls) = concat (cell_writes s t <$> ls).
Proof.
  induction ls as [|l ls IH]; [done|].
  rewrite fmap_cons, !concat_cons. by rewrite cell_writes_app, IH.
Qed.

(** The calls made for a state write to the cells of that state alone. *)
Lemma cell_writes_other_action g s s' t a :
  s' ≠ s → cell_writes s t (accept_action g s' a) = [].
Proof.
  intros Hne. unfold accept_action. rewrite cell_writes_app.
  assert (Hmap : ∀ (b : action.t) (l : list Z),
             cell_writes s t
               ((λ terminal, shift_reduce_tables.add_terminal_action s' terminal b) <$> l)
             = []).
  { intros b l. induction l as [|x l IH]; [done|]. simpl.
    rewrite decide_False by (intros [? _]; done). apply IH. }
  rewrite Hmap, app_nil_r.
  destruct (action_of a); try apply Hmap.
  destruct (is_nonterminal _ _); [done|apply Hmap].
Qed.

Lemma cell_writes_other_state g s s' t (acts : list action_in_progress) :
  s' ≠ s → cell_writes s t (concat (accept_action g s' <$> acts)) = [].
Proof.
  intros Hne. induction acts as [|a acts IH]; [done|].
  rewrite fmap_cons, concat_cons.
  by rewrite cell_writes_app, cell_writes_other_action, IH.
Qed.

Lemma cell_writes_other_states g s t (f : Z → list action_in_progress) (l : list Z) :
  s ∉ l → cell_writes s t (concat ((λ s', concat (accept_action g s' <$> f s')) <$> l)) = [].
Proof.
  induction l as [|x l IH]; [done|]. intros Hni.
  rewrite fmap_cons, concat_cons.
  rewrite cell_writes_app, cell_writes_other_state, IH; [done| |]; set_solver.
Qed.

(** The skip actions written for the ignored terminals of one action. *)
Lemma cell_writes_skips s t (ignored : list Z) :
  cell_writes s t
    ((λ terminal, shift_reduce_tables.add_terminal_action s terminal action.skip)
       <$> ignored)
  = replicate (length (filter (λ x, x = t) ignored)) action.skip.
Proof.
  induction ignored as [|x l IH]; [done|].
  rewrite fmap_cons. unfold cell_writes in *. cbn [omap list_omap].
  destruct (decide (x = t)) as [->|Hne].
  - rewrite decide_True by done. rewrite filter_cons_True by done.
    cbn [length replicate]. by rewrite <-IH.
  - rewrite decide_False by (intros [_ ?]; done). by rewrite filter_cons_False.
Qed.

(** The cell writes of [accept_parser] for state [s]: those of its actions. *)
Lemma cell_writes_accept_parser pip s t :
  0 ≤ s < isize (parser_in_progress.states pip) →
  cell_writes s t (accept_parser pip)
  = concat ((λ a, cell_writes s t (accept_action (parser_in_progress.grammar pip) s a))
              <$> actions (state_at (parser_in_progress.states pip) s)).
Proof.
  intros Hs. rewrite accept_parser_calls, cell_writes_app, cell_writes_add_states.
  simpl. set (n := isize _) in *.
  replace n with (s + (1 + (n - s - 1))) by lia.
  rewrite seqZ_app by lia. rewrite seqZ_app by lia.
  rewrite !fmap_app, !concat_app, !cell_writes_app.
  rewrite cell_writes_other_states.
  2:{ intros Hin. apply elem_of_seqZ in Hin. lia. }
  rewrite (cell_writes_other_states _ _ _ _ (seqZ _ (n - s - 1))).
  2:{ intros Hin. apply elem_of_seqZ in Hin. lia. }
  rewrite app_nil_r. simpl. rewrite Z.add_0_l, app_nil_r.
  rewrite cell_writes_concat. by rewrite <-list_fmap_compose.
Qed.





(** The actions an action of a state writes for itself are its own. *)
Lemma cell_writes_own_action g s t a :
  ∃ written,
    cell_writes s t (accept_action g s a)
    = written ++ replicate (length (filter (λ x, x = t) (grammar.ignored_terminals g)))
                   action.skip
    ∧ ∀ b, b ∈ written → b = action_of a.
Proof.
  unfold accept_action. rewrite cell_writes_app, cell_writes_skips.
  eexists. split; [done|].
  assert (Hmap : ∀ (l : list Z) b,
            b ∈ cell_writes s t
                  ((λ terminal, shift_reduce_tables.add_terminal_action s terminal
                                  (action_of a)) <$> l) →
            b = action_of a).
  { induction l as [|x l IH]; intros b; [by intros ?%elem_of_nil|].
    rewrite fmap_cons. unfold cell_writes in *. cbn [omap list_omap].
    destruct (decide (s = s ∧ x = t)); [|apply IH].
    intros [->|Hb]%elem_of_cons; [done|by apply IH]. }
  destruct (action_of a) eqn:Ha; try apply Hmap.
  destruct (is_nonterminal _ _); [by intros b ?%elem_of_nil|apply Hmap].
Qed.

(** The loop over the ignored terminals is inside the loop over the actions
    of a state: every action of the state brings one skip per occurrence of
    the terminal among the ignored ones. *)
Lemma accept_parser_skip_writes (pip : parser_in_progress.t) (s t : Z) :
  0 ≤ s < isize (parser_in_progress.states pip) →
  (∀ a, a ∈ actions (state_at (parser_in_progress.states pip) s) →
        action_of a ≠ action.skip) →
  skip_writes s t (accept_parser pip)
  = (length (actions (state_at (parser_in_progress.states pip) s))
     * length (filter (λ x, x = t)
                 (grammar.ignored_terminals (parser_in_progress.grammar pip))))%nat.
Proof.
  intros Hs. unfold skip_writes. rewrite cell_writes_accept_parser by done.
  induction (actions _) as [|a acts IH]; intros Hno; [done|].
  rewrite fmap_cons, concat_cons, filter_app, length_app, IH by set_solver.
  destruct (cell_writes_own_action (parser_in_progress.grammar pip) s t a)
    as (written & -> & Hown).
  rewrite filter_app, length_app.
  assert (filter (λ a, a = action.skip) written = []) as ->.
  { clear IH. induction written as [|b written IHw]; [done|].
    rewrite filter_cons_False; [apply IHw; set_solver|].
    rewrite (Hown b) by set_solver. apply Hno. by left. }
  assert (∀ n, filter (λ a, a = action.skip) (replicate n action.skip)
               = replicate n action.skip) as ->.
  { induction n as [|n IHn]; [done|]. simpl. by rewrite filter_cons_True, IHn. }
  rewrite length_replicate. simpl. lia.
Qed.

Lemma build_grammar_sum_language : build_grammar sum_language = Returned sum_grammar.
Proof. vm_compute. reflexivity. Qed.

(** The builder needs no lane tracing on this grammar: it is LR(0). *)
Lemma build_lalr1_parser_sum_grammar compute_context_set :
  build_lalr1_parser compute_context_set sum_grammar = Returned sum_parser.
Proof. vm_compute. reflexivity. Qed.


(** The loop over the ignored terminals runs once for every action of a
    state: the skip is written twice in state 0, which has two actions, and
    once in state 1. *)
Lemma accept_parser_skips_per_action :
  skip_writes 0 1 (accept_parser sum_parser) = 2%nat
  ∧ cell_writes 0 1 (accept_parser sum_parser) = [action.skip; action.skip]
  ∧ skip_writes 1 1 (accept_parser sum_parser) = 1%nat.
Proof. split_and!; vm_compute; reflexivity. Qed.


(** ** Failures of the build *)

Lemma number_tokens_dom (tokens : list language.token) :
  dom (number_tokens tokens).1 = list_to_set (language.name <$> tokens).
Proof.
  unfold number_tokens.
  assert (H : ∀ (m : gmap string Z) n,
    dom (foldl (λ '(symbol_map, nterminals) token,
                  (<[language.name token := nterminals]> symbol_map, nterminals + 1))
               (m, n) tokens).1
    = dom m ∪ list_to_set (language.name <$> tokens)).
  { induction tokens as [|t tokens IH]; intros m n; simpl.
    - set_solver.
    - rewrite IH, dom_insert_L. set_solver. }
  rewrite H. set_solver.
Qed.

Lemma number_nonterminals_spec productions index (symbol_map : gmap string Z) nsymbols :
  ((∃ p, p ∈ productions ∧ language.lhs p = ""%string)
   ∧ ∃ msg, number_nonterminals productions index symbol_map nsymbols = Aborted msg)
  ∨ ((∀ p, p ∈ productions → language.lhs p ≠ ""%string)
     ∧ ∃ symbol_map' nsymbols',
         number_nonterminals productions index symbol_map nsymbols
         = Returned (symbol_map', nsymbols')
         ∧ dom symbol_map' = dom symbol_map ∪ list_to_set (language.lhs <$> productions)).
Proof.
  revert index symbol_map nsymbols.
  induction productions as [|p productions IH]; intros index symbol_map nsymbols; simpl.
  - right. split; [set_solver|]. eexists _, _. split; [done|]. set_solver.
  - destruct (decide (language.lhs p = ""%string)) as [Hempty|Hne].
    { left. split; [exists p; set_solver|eauto]. }
    destruct (decide (is_Some (symbol_map !! language.lhs p))) as [Hin|Hni].
    + destruct (IH (index + 1) symbol_map nsymbols)
        as [[(q & Hq & Hq') Hab]|[Hall (m' & n' & Hr & Hdom)]].
      * left. split; [exists q; set_solver|done].
      * right. split; [set_solver|]. eexists _, _. split; [done|].
        rewrite Hdom. apply elem_of_dom in Hin. set_solver.
    + destruct (IH (index + 1) (<[language.lhs p := nsymbols]> symbol_map) (nsymbols + 1))
        as [[(q & Hq & Hq') Hab]|[Hall (m' & n' & Hr & Hdom)]].
      * left. split; [exists q; set_solver|done].
      * right. split; [set_solver|]. eexists _, _. split; [done|].
        rewrite Hdom, dom_insert_L. set_solver.
Qed.

Lemma resolve_rhs_spec (symbol_map : gmap string Z) rhs out :
  ((∀ x, x ∈ rhs → x ∈ dom symbol_map)
   ∧ ∃ symbols, resolve_rhs symbol_map rhs out = Returned symbols)
  ∨ (∃ x, x ∈ rhs ∧ (x ∉ dom symbol_map)
          ∧ resolve_rhs symbol_map rhs out = Thrown (invalid_argument (unknown_rhs_what x))).
Proof.
  revert out. induction rhs as [|x rhs IH]; intros out; simpl.
  - left. split; [set_solver|eauto].
  - destruct (symbol_map !! x) as [symbol|] eqn:Hx.
    + destruct (IH (out ++ [symbol])) as [[Hall Hr]|(y & Hy & Hy' & Hr)].
      * left. split; [|done]. intros z Hz. apply elem_of_cons in Hz as [->|Hz]; [|by apply Hall].
        apply elem_of_dom. eauto.
      * right. exists y. split_and!; [set_solver|done..].
    + right. exists x. split_and!; [set_solver| |done].
      by apply not_elem_of_dom.
Qed.

Lemma resolve_productions_spec (symbol_map : gmap string Z) productions out :
  ((∀ p x, p ∈ productions → x ∈ language.rhs p → x ∈ dom symbol_map)
   ∧ ∃ resolved, resolve_productions symbol_map productions out = Returned resolved)
  ∨ (∃ p x, p ∈ productions ∧ x ∈ language.rhs p ∧ (x ∉ dom symbol_map)
            ∧ resolve_productions symbol_map productions out
              = Thrown (invalid_argument (unknown_rhs_what x))).
Proof.
  revert out. induction productions as [|p productions IH]; intros out; simpl.
  - left. split; [set_solver|eauto].
  - destruct (resolve_rhs_spec symbol_map (language.rhs p) []) as [[Hall [symbols Hr]]|(x & Hx & Hx' & Hr)].
    + rewrite Hr. simpl.
      destruct (IH (out ++ [grammar.mkProduction
                              (default 0 (symbol_map !! language.lhs p)) symbols]))
        as [[Hall' Hr']|(q & y & Hq & Hy & Hy' & Hr')].
      * left. split; [|done]. intros q y Hq Hy.
        apply elem_of_cons in Hq as [->|Hq]; [by apply Hall|by eapply Hall'].
      * right. exists q, y. split_and!; [set_solver|done..].
    + rewrite Hr. simpl. right. exists p, x. split_and!; [set_solver|done..].
Qed.



Section failures.
Context (parse_string : Z → string → string → outcome finite_automaton)
        (debug_parse_string : string → string → string * outcome finite_automaton)
        (default_automaton : finite_automaton)
        (compute_context_set :
           parser_in_progress.t → list (gset Z) → Z →
           list (gset Z) * list bool → outcome (list (gset Z) * list bool)).



(** Every other outcome of the regex parser is that of [build_dfa], after
    the one call. *)
Lemma build_dfa_passes_on name regex token :
  (∀ what, parse_string token regex name ≠ Thrown (parse_error what)) →
  build_dfa parse_string debug_parse_string name regex token
  = ([parser_parse_string token regex name], parse_string token regex name).
Proof.
  intros Hp. unfold build_dfa.
  destruct (parse_string token regex name) as [fa|[what|what|what]|msg|]; try done.
  by destruct (Hp what).
Qed.

End failures.

Section lalr_failures.
Context (compute_context_set :
           parser_in_progress.t → list (gset Z) → Z →
           list (gset Z) * list bool → outcome (list (gset Z) * list bool)).



(** A grammar whose states are still inadequate after the lane tracing ends
    the process. *)
Lemma build_lalr1_parser_not_lalr1 g states first_sets traced :
  let cs := make_configs g in
  let scs := form_state_configs states in
  let out := parser_in_progress.mk states cs g scs
               (form_states_to_state_configs scs states) in
  build_lr0_parser cs g (get_left_hand_sides_to_start_configs cs g) = Some states →
  min_element (determine_adequate_states states g) = false →
  compute_first_sets g = Some first_sets →
  trace_lanes compute_context_set out (determine_adequate_states states g) first_sets
    (init_contexts out) = Returned traced →
  min_element (determine_adequate_states (update_contexts out traced.1 traced.2) g)
  = false →
  build_lalr1_parser compute_context_set g
  = Aborted ("ERROR: The grammar is not LALR(1)." +:+ newline).
Proof.
  intros cs scs out Hlr0 Hin Hfirst Htrace Hstill.
  unfold build_lalr1_parser. fold cs. rewrite Hlr0. simpl. fold scs. fold out.
  rewrite Hin, Hfirst. simpl. rewrite Htrace. simpl. by rewrite Hstill.
Qed.

End lalr_failures.






(** ** The adequacy test *)

Lemma ordered_perm (s : gset Z) : ordered s ≡ₚ elements s.
Proof. apply merge_sort_Permutation. Qed.

Lemma elem_of_ordered (s : gset Z) x : x ∈ ordered s ↔ x ∈ s.
Proof. by rewrite ordered_perm, elem_of_elements. Qed.

Lemma NoDup_ordered (s : gset Z) : NoDup (ordered s).
Proof. rewrite ordered_perm. apply NoDup_elements. Qed.





Section adequacy.
Context (compute_context_set :
           parser_in_progress.t → list (gset Z) → Z →
           list (gset Z) * list bool → outcome (list (gset Z) * list bool)).



End adequacy.









(** ** FIRST sets *)

(** *** Derivations *)

Lemma derives_trans g a b c : derives g a b → derives g b c → derives g a c.
Proof.
  induction 1 as [|α A β γ δ Hp Hd IH]; [done|].
  intros Hc. eapply derives_step; [done|]. by apply IH.
Qed.

Lemma derives_context g u v a b : derives g a b → derives g (u ++ a ++ v) (u ++ b ++ v).
Proof.
  induction 1 as [|α A β γ δ Hp Hd IH]; [apply derives_refl|].
  replace (u ++ (α ++ A :: β) ++ v) with ((u ++ α) ++ A :: (β ++ v))
    by (by rewrite <-!app_assoc).
  eapply derives_step; [done|].
  replace ((u ++ α) ++ γ ++ β ++ v) with (u ++ (α ++ γ ++ β) ++ v)
    by (by rewrite <-!app_assoc).
  done.
Qed.

Lemma derives_production g A γ :
  grammar.mkProduction A γ ∈ grammar.productions g → derives g [A] γ.
Proof.
  intros Hp. apply (derives_step g [] A [] γ γ Hp). simpl. rewrite app_nil_r.
  apply derives_refl.
Qed.

(** A string that starts with a symbol that derives the empty string. *)
Lemma derives_drop_head g symbol rest :
  derives g [symbol] [] → derives g (symbol :: rest) rest.
Proof. intros H. apply (derives_context g [] rest) in H. by simpl in H. Qed.

Lemma derives_head g symbol rest δ :
  derives g [symbol] δ → derives g (symbol :: rest) (δ ++ rest).
Proof. intros H. apply (derives_context g [] rest) in H. by simpl in H. Qed.

(** *** The FIRST set of a string *)

Lemma string_first_app F u v x :
  string_first F (u ++ v) x ↔
  (x ≠ FIRST_NULL ∧ string_first F u x)
  ∨ (string_first F u FIRST_NULL ∧ string_first F v x).
Proof.
  induction u as [|symbol u IH]; simpl.
  - split; [by right|]. by intros [[? ?]|[_ ?]].
  - rewrite IH. split.
    + intros [[Hx Hin]|[Hnull [[Hx Hu]|[Hu Hv]]]].
      * left. split; [done|]. by left.
      * left. split; [done|]. by right.
      * right. split; [|done]. by right.
    + intros [[Hx [[_ Hin]|[Hnull Hu]]]|[[[Hx _]|[Hnull Hu]] Hv]]; try done.
      * by left.
      * right. split; [done|]. by left.
      * right. split; [done|]. by right.
Qed.

Lemma string_first_single F A x : string_first F [A] x ↔ x ∈ first_set_at F A.
Proof.
  simpl. split.
  - by intros [[_ ?]|[? ->]].
  - intros Hx. destruct (decide (x = FIRST_NULL)) as [->|Hne]; [by right|by left].
Qed.

(** Replacing a left-hand side by one of its right-hand sides does not
    enlarge the FIRST set of a string, once the FIRST sets are closed. *)
Lemma string_first_replace F α A β γ x :
  (∀ y, string_first F γ y → y ∈ first_set_at F A) →
  string_first F (α ++ γ ++ β) x → string_first F (α ++ A :: β) x.
Proof.
  intros Hclosed. change (A :: β) with ([A] ++ β).
  rewrite !(string_first_app F α), !(string_first_app F _ β), !string_first_single.
  intros [?|[Hα [[Hx Hγ]|[Hγ Hβ]]]]; [by left|right..].
  - split; [done|]. left. split; [done|]. by apply Hclosed.
  - split; [done|]. right. split; [|done]. by apply Hclosed.
Qed.

(** What the string-level FIRST set holds is derivable from the string. *)
Lemma string_first_sound g F string x :
  (∀ A s, A ∈ string → s ∈ first_set_at F A → first_of g [A] s) →
  string_first F string x → first_of g string x.
Proof.
  induction string as [|symbol rest IH]; intros Hsound; simpl.
  - intros ->. left. split; [done|apply derives_refl].
  - intros [[Hx Hin]|[Hnull Hrest]].
    + destruct (Hsound symbol x) as [[-> _]|[Ht [γ Hγ]]]; [by left|done|done|].
      right. split; [done|]. exists (γ ++ rest). by apply (derives_head g symbol rest (x :: γ)).
    + destruct (Hsound symbol FIRST_NULL) as [[_ Hnil]|[Ht _]];
        [by left|done| |unfold FIRST_NULL in Ht; lia].
      destruct (IH ltac:(intros A s HA; apply Hsound; by right) Hrest)
        as [[-> Hd]|[Ht [γ Hγ]]].
      * left. split; [done|]. eapply derives_trans; [by apply derives_drop_head|done].
      * right. split; [done|]. exists γ.
        eapply derives_trans; [by apply derives_drop_head|done].
Qed.

(** What a string derives is in its string-level FIRST set, once the FIRST
    sets are closed under the productions and hold the terminals. *)
Lemma string_first_complete g F string δ :
  (∀ t, 0 ≤ t < grammar.nterminals g → t ∈ first_set_at F t) →
  (∀ p x, p ∈ grammar.productions g → string_first F (grammar.rhs p) x →
          x ∈ first_set_at F (grammar.lhs p)) →
  derives g string δ →
  (δ = [] → string_first F string FIRST_NULL)
  ∧ (∀ t γ, δ = t :: γ → 0 ≤ t < grammar.nterminals g → string_first F string t).
Proof.
  intros Hterm Hclosed. induction 1 as [α|α A β γ δ Hp Hd [IH1 IH2]].
  - split; [by intros ->|]. intros t γ -> Ht. simpl. left.
    split; [unfold FIRST_NULL; lia|by apply Hterm].
  - assert (Hrep : ∀ x, string_first F (α ++ γ ++ β) x → string_first F (α ++ A :: β) x).
    { intros x. apply string_first_replace. intros y Hy.
      by apply (Hclosed (grammar.mkProduction A γ)). }
    split.
    + intros Hnil. by apply Hrep, IH1.
    + intros t γ' Hδ Ht. by eapply Hrep, IH2.
Qed.

Lemma first_symbol_scan (l : list Z) (has_null : bool) (out : gset Z) :
  foldl (λ '(has_null, out) first_symbol,
           if decide (first_symbol = FIRST_NULL) then (true, out)
           else (has_null, {[first_symbol]} ∪ out))
        (has_null, out) l
  = (has_null || bool_decide (FIRST_NULL ∈ l), out ∪ (list_to_set l ∖ {[FIRST_NULL]})).
Proof.
  revert has_null out. induction l as [|y l IH]; intros has_null out; cbn [foldl].
  - f_equal; [|set_solver].
    rewrite bool_decide_eq_false_2 by (apply not_elem_of_nil). by rewrite orb_false_r.
  - destruct (decide (y = FIRST_NULL)) as [->|Hne]; rewrite IH.
    + f_equal; [|set_solver].
      rewrite (bool_decide_eq_true_2 (FIRST_NULL ∈ FIRST_NULL :: l)) by (by left).
      by rewrite orb_true_r.
    + f_equal; [|set_solver]. f_equal. apply bool_decide_ext. set_solver.
Qed.

Lemma elem_of_first_set_walk F string out x :
  x ∈ first_set_walk string F out ↔ x ∈ out ∨ string_first F string x.
Proof.
  revert out. induction string as [|symbol rest IH]; intros out; simpl.
  - set_solver.
  - rewrite first_symbol_scan. simpl.
    destruct (bool_decide (FIRST_NULL ∈ ordered (first_set_at F symbol))) eqn:Hnull.
    + apply bool_decide_eq_true in Hnull. rewrite elem_of_ordered in Hnull.
      rewrite IH, elem_of_union, elem_of_difference, elem_of_list_to_set, elem_of_ordered,
        not_elem_of_singleton.
      naive_solver.
    + apply bool_decide_eq_false in Hnull. rewrite elem_of_ordered in Hnull.
      rewrite elem_of_union, elem_of_difference, elem_of_list_to_set, elem_of_ordered,
        not_elem_of_singleton.
      naive_solver.
Qed.

(** [get_first_set_of_string] computes the string-level FIRST set. *)
Lemma elem_of_get_first_set_of_string F string x :
  x ∈ get_first_set_of_string string F ↔ string_first F string x.
Proof. unfold get_first_set_of_string. rewrite elem_of_first_set_walk. set_solver. Qed.

(** *** Graphs *)

Lemma foldl_list_inv {A B} (P : list B → A → Prop) (f : A → B → A) (a : A) (l : list B) :
  P [] a →
  (∀ done x b, x ∈ l → P done b → P (done ++ [x]) (f b x)) →
  P l (foldl f a l).
Proof.
  intros H0 Hstep.
  assert (H : ∀ k done b, (∀ x, x ∈ k → x ∈ l) → P done b → P (done ++ k) (foldl f b k)).
  { induction k as [|x k IH]; intros done b Hin Hb; simpl.
    - by rewrite app_nil_r.
    - replace (done ++ x :: k) with ((done ++ [x]) ++ k) by (by rewrite <-app_assoc).
      apply IH; [set_solver|]. apply Hstep; [set_solver|done]. }
  by apply (H l [] a).
Qed.

Lemma isize_add_edge G i j : isize (add_edge G i j) = isize G.
Proof. unfold add_edge, isize. by rewrite length_alter. Qed.

Lemma get_edges_add_edge G i j k :
  0 ≤ i → 0 ≤ k →
  get_edges (add_edge G i j) k
  = if decide (i = k ∧ k < isize G) then get_edges G k ++ [j] else get_edges G k.
Proof.
  intros Hi Hk. unfold get_edges, add_edge, isize. rewrite !at_default.
  destruct (decide (i = k ∧ k < Z.of_nat (length G))) as [[-> Hlt]|Hne].
  - rewrite list_lookup_alter_eq.
    destruct (G !! Z.to_nat k) eqn:E; [done|].
    apply lookup_ge_None in E. lia.
  - destruct (decide (i = k)) as [->|Hik].
    + rewrite list_lookup_alter_eq.
      rewrite (lookup_ge_None_2 G) by lia. done.
    + rewrite list_lookup_alter_ne by lia. done.
Qed.

Lemma isize_make_graph n : 0 ≤ n → isize (make_graph_with_nnodes n) = n.
Proof. intros Hn. unfold make_graph_with_nnodes, isize. rewrite length_replicate. lia. Qed.

Lemma get_edges_make_graph n i : get_edges (make_graph_with_nnodes n) i = [].
Proof. apply at_replicate. Qed.

(** A loop that adds one edge per item. *)
Lemma add_edges_spec {B} (src dst : B → Z) (items : list B) (G : list (list Z)) :
  (∀ k, k ∈ items → 0 ≤ src k) →
  let G' := foldl (λ G k, add_edge G (src k) (dst k)) G items in
  isize G' = isize G
  ∧ ∀ i j, 0 ≤ i →
      (j ∈ get_edges G' i ↔
       j ∈ get_edges G i ∨ (i < isize G ∧ ∃ k, k ∈ items ∧ src k = i ∧ dst k = j)).
Proof.
  intros Hsrc G'. subst G'.
  apply (foldl_list_inv (λ done G',
           isize G' = isize G
           ∧ ∀ i j, 0 ≤ i →
               (j ∈ get_edges G' i ↔
                j ∈ get_edges G i ∨ (i < isize G ∧ ∃ k, k ∈ done ∧ src k = i ∧ dst k = j)))).
  - split; [done|]. intros i j Hi. split; [by left|].
    intros [?|(_ & k & Hk & _)]; [done|]. by apply elem_of_nil in Hk.
  - intros done x G' Hx [Hsize Hedges]. split; [by rewrite isize_add_edge|].
    intros i j Hi. rewrite get_edges_add_edge by (by try apply Hsrc).
    rewrite Hsize.
    destruct (decide (src x = i ∧ i < isize G)) as [[Hxi Hlt]|Hne].
    + rewrite elem_of_app, Hedges, list_elem_of_singleton by done.
      split.
      * intros [[?|(_ & k & Hk & Hs & Hd)]| ->]; [by left|right..].
        -- split; [done|]. exists k. by rewrite elem_of_app; auto.
        -- split; [done|]. exists x. rewrite elem_of_app, list_elem_of_singleton. auto.
      * intros [?|(_ & k & Hk & Hs & Hd)]; [by left; left|].
        apply elem_of_app in Hk as [Hk|Hk%list_elem_of_singleton].
        -- left. right. split; [done|]. by exists k.
        -- subst k. by right.
    + rewrite Hedges by done. split.
      * intros [?|(Hlt & k & Hk & Hs & Hd)]; [by left|right].
        split; [done|]. exists k. by rewrite elem_of_app; auto.
      * intros [?|(Hlt & k & Hk & Hs & Hd)]; [by left|].
        apply elem_of_app in Hk as [Hk|Hk%list_elem_of_singleton].
        -- right. split; [done|]. by exists k.
        -- subst k. destruct Hne. done.
Qed.

Lemma foldl_nested {A B C} (f : A → B → C → A) (h : B → list C) (l : list B) (a : A) :
  foldl (λ a i, foldl (λ a j, f a i j) a (h i)) a l
  = foldl (λ a p, f a p.1 p.2) a (l ≫= λ i, (λ j, (i, j)) <$> h i).
Proof.
  revert a. induction l as [|i l IH]; intros a; [done|].
  rewrite bind_cons, foldl_app. cbn [foldl]. rewrite IH. f_equal.
  generalize (h i) as k. clear. intros k. revert a.
  induction k as [|j k IH]; intros a; [done|]. simpl. by rewrite IH.
Qed.

(** The transpose has the edges of the graph, reversed. *)
Lemma make_transpose_spec (G : list (list Z)) i j :
  (∀ i j, j ∈ get_edges G i → 0 ≤ j) →
  0 ≤ j →
  i ∈ get_edges (make_transpose G) j ↔
  j < isize G ∧ 0 ≤ i < isize G ∧ j ∈ get_edges G i.
Proof.
  intros Hpos Hj. unfold make_transpose.
  rewrite (foldl_nested (λ out i j, add_edge out j i)).
  pose proof (add_edges_spec (λ p : Z * Z, p.2) (λ p, p.1)
                (seqZ 0 (isize G) ≫= λ i, (λ j, (i, j)) <$> get_edges G i)
                (make_graph_with_nnodes (isize G))) as [_ Hedges].
  { intros [i' j'] Hin. apply list_elem_of_bind in Hin as (i'' & Hin & _).
    apply list_elem_of_fmap in Hin as (j'' & [= -> ->] & Hin). simpl. by eapply Hpos. }
  rewrite Hedges by lia. rewrite get_edges_make_graph.
  rewrite isize_make_graph by apply isize_nonneg. split.
  - intros [Hin|(Hlt & [i' j'] & Hin & Hs & Hd)]; [by apply elem_of_nil in Hin|].
    simpl in Hs, Hd. subst i' j'.
    apply list_elem_of_bind in Hin as (i'' & Hin & Hi).
    apply list_elem_of_fmap in Hin as (j'' & [= -> ->] & Hin).
    apply elem_of_seqZ in Hi. split_and!; [done|lia..|done].
  - intros (Hlt & Hi & Hedge). right. split; [done|].
    exists (i, j). split; [|done].
    apply list_elem_of_bind. exists i. split.
    + apply list_elem_of_fmap. by exists j.
    + apply elem_of_seqZ. lia.
Qed.

Lemma longest_make_transpose_length (G : list (list Z)) :
  isize (make_transpose G) = isize G.
Proof.
  unfold make_transpose. rewrite (foldl_nested (λ out i j, add_edge out j i)).
  generalize (seqZ 0 (isize G) ≫= λ i, (λ j, (i, j)) <$> get_edges G i) as l.
  intros l. rewrite <-(isize_make_graph (isize G)) at 2 by apply isize_nonneg.
  generalize (make_graph_with_nnodes (isize G)) as G0.
  induction l as [|p l IH]; intros G0; [done|]. simpl. by rewrite IH, isize_add_edge.
Qed.

Section grammar_graphs.
Context (g : grammar.t) (Hok : grammar_ok g).

Lemma prod_at_elem prod_i :
  0 ≤ prod_i < isize (grammar.productions g) → prod_at g prod_i ∈ grammar.productions g.
Proof.
  intros Hi. unfold prod_at, at_, isize in *. apply list_elem_of_In, nth_In. lia.
Qed.

Lemma elem_prod_at p :
  p ∈ grammar.productions g →
  ∃ prod_i, 0 ≤ prod_i < isize (grammar.productions g) ∧ prod_at g prod_i = p.
Proof.
  intros Hp. apply list_elem_of_lookup in Hp as [i Hi].
  exists (Z.of_nat i). split.
  - apply lookup_lt_Some in Hi. unfold isize. lia.
  - unfold prod_at. rewrite at_default, Nat2Z.id, Hi. done.
Qed.

(** The productions of a left-hand side. *)
Lemma get_productions_by_lhs_spec :
  isize (get_productions_by_lhs g) = grammar.nsymbols g
  ∧ ∀ A prod_i, 0 ≤ A →
      (prod_i ∈ get_edges (get_productions_by_lhs g) A ↔
       A < grammar.nsymbols g ∧ 0 ≤ prod_i < isize (grammar.productions g)
       ∧ grammar.lhs (prod_at g prod_i) = A).
Proof.
  unfold get_productions_by_lhs.
  pose proof (add_edges_spec (λ prod_i, grammar.lhs (prod_at g prod_i)) (λ prod_i, prod_i)
                (seqZ 0 (isize (grammar.productions g)))
                (make_graph_with_nnodes (grammar.nsymbols g))) as [Hsize Hedges].
  { intros k Hk. apply elem_of_seqZ in Hk.
    pose proof (ok_lhs g Hok (prod_at g k) (prod_at_elem k ltac:(lia))).
    pose proof (ok_terminals g Hok). lia. }
  pose proof (ok_terminals g Hok) as Hnt.
  rewrite isize_make_graph in Hsize, Hedges by lia.
  split; [done|]. intros A prod_i HA. rewrite Hedges by done.
  rewrite get_edges_make_graph. split.
  - intros [Hin|(Hlt & k & Hk & Hlhs & ->)]; [by apply elem_of_nil in Hin|].
    apply elem_of_seqZ in Hk. split_and!; [done|lia..|done].
  - intros (Hlt & Hi & Hlhs). right. split; [done|]. exists prod_i.
    split_and!; [|done..]. apply elem_of_seqZ. lia.
Qed.

Lemma elem_of_dependees_of lhs2prods A x :
  x ∈ dependees_of g lhs2prods A ↔
  ∃ prod_i, prod_i ∈ get_edges lhs2prods A ∧ x ∈ grammar.rhs (prod_at g prod_i).
Proof.
  unfold dependees_of.
  apply (foldl_list_inv (λ done (dependees : gset Z),
           x ∈ dependees ↔ ∃ prod_i, prod_i ∈ done ∧ x ∈ grammar.rhs (prod_at g prod_i))).
  - split; [set_solver|]. intros (? & Hin & _). by apply elem_of_nil in Hin.
  - intros done prod_i dependees _ IH.
    assert (Hinner : ∀ (l : list Z) (acc : gset Z),
              x ∈ foldl (λ dependees rhs_symb, {[rhs_symb]} ∪ dependees) acc l
              ↔ x ∈ acc ∨ x ∈ l).
    { induction l as [|y l IHl]; intros acc; simpl; [set_solver|].
      rewrite IHl. set_solver. }
    rewrite Hinner, IH. split.
    + intros [(k & Hk & Hx)|Hx].
      * exists k. split; [set_solver|done].
      * exists prod_i. split; [set_solver|done].
    + intros (k & Hk & Hx). apply elem_of_app in Hk as [Hk|Hk%list_elem_of_singleton].
      * left. eauto.
      * subst k. by right.
Qed.

Lemma get_symbol_graph_spec lhs2prods :
  isize (get_symbol_graph g lhs2prods) = grammar.nsymbols g
  ∧ ∀ A, 0 ≤ A < grammar.nsymbols g →
      get_edges (get_symbol_graph g lhs2prods) A = ordered (dependees_of g lhs2prods A).
Proof.
  pose proof (ok_terminals g Hok) as Hnt. unfold get_symbol_graph.
  set (body := λ (out : list (list Z)) (lhs : Z), _).
  pose proof (foldl_seqZ_inv
    (λ i out, isize out = grammar.nsymbols g
              ∧ ∀ A, 0 ≤ A < i → get_edges out A = ordered (dependees_of g lhs2prods A))
    body (make_graph_with_nnodes (grammar.nsymbols g)) 0 (grammar.nsymbols g)) as H.
  rewrite Z.add_0_l in H. apply H; clear H; [lia| |].
  - split; [apply isize_make_graph; lia|]. intros A HA. lia.
  - intros i out Hi [Hsize Hout]. unfold body. split.
    + unfold isize in *. by rewrite length_insert.
    + intros A HA. unfold get_edges in *. destruct (decide (A = i)) as [->|Hne].
      * rewrite at_insert_eq by lia. done.
      * rewrite at_insert_ne by lia. apply Hout. lia.
Qed.

Lemma get_edges_elem (G : list (list Z)) i j :
  j ∈ get_edges G i →
  ∃ k, 0 ≤ k < isize G ∧ get_edges G i = get_edges G k.
Proof.
  unfold get_edges, isize. rewrite at_default. intros Hj.
  destruct (G !! Z.to_nat i) as [edges|] eqn:E.
  - exists (Z.of_nat (Z.to_nat i)). apply lookup_lt_Some in E as Hlt. split; [lia|].
    by rewrite !at_default, Nat2Z.id, E.
  - by apply elem_of_nil in Hj.
Qed.

Lemma symbol_graph_nonneg i j :
  j ∈ get_edges (get_symbol_graph g (get_productions_by_lhs g)) i → 0 ≤ j.
Proof.
  intros Hj.
  pose proof (ok_terminals g Hok) as Hnt.
  destruct (get_symbol_graph_spec (get_productions_by_lhs g)) as [Hsize Hedges].
  destruct get_productions_by_lhs_spec as [_ Hprods].
  destruct (get_edges_elem _ _ _ Hj) as (k & Hk & Heq).
  rewrite Heq, Hedges in Hj by lia.
  apply elem_of_ordered, elem_of_dependees_of in Hj as (q & Hq & Hj).
  apply Hprods in Hq as (_ & Hq & _); [|lia].
  pose proof (ok_rhs g Hok _ j (prod_at_elem q Hq) Hj). lia.
Qed.

(** Whoever has a symbol on a right-hand side is among its dependers. *)
Lemma depender_edge prod_i x :
  0 ≤ prod_i < isize (grammar.productions g) →
  x ∈ grammar.rhs (prod_at g prod_i) →
  grammar.lhs (prod_at g prod_i)
  ∈ get_edges (make_transpose (get_symbol_graph g (get_productions_by_lhs g))) x.
Proof.
  intros Hi Hx.
  pose proof (ok_terminals g Hok) as Hnt.
  pose proof (ok_lhs g Hok _ (prod_at_elem prod_i Hi)) as Hlhs.
  pose proof (ok_rhs g Hok _ x (prod_at_elem prod_i Hi) Hx) as Hrhs.
  destruct (get_symbol_graph_spec (get_productions_by_lhs g)) as [Hsize Hedges].
  destruct get_productions_by_lhs_spec as [_ Hprods].
  apply make_transpose_spec; [apply symbol_graph_nonneg|lia|].
  split_and!; [lia..|].
  rewrite Hedges by lia. apply elem_of_ordered, elem_of_dependees_of.
  exists prod_i. split; [|done]. apply Hprods; [lia|]. split_and!; [lia..|done].
Qed.

(** A depender is a left-hand side, and so a symbol. *)
Lemma depender_range D x :
  0 ≤ x →
  D ∈ get_edges (make_transpose (get_symbol_graph g (get_productions_by_lhs g))) x →
  0 ≤ D < grammar.nsymbols g.
Proof.
  intros Hx HD. apply make_transpose_spec in HD; [|apply symbol_graph_nonneg|done].
  destruct (get_symbol_graph_spec (get_productions_by_lhs g)) as [Hsize _]. lia.
Qed.

End grammar_graphs.

(** *** Sizes *)

Lemma length_get_edges (G : list (list Z)) i : (length (get_edges G i) ≤ longest G)%nat.
Proof.
  unfold get_edges, longest. rewrite at_default.
  destruct (G !! Z.to_nat i) as [edges|] eqn:E; [|simpl; lia].
  apply max_list_elem_of_le. apply list_elem_of_fmap. exists edges. split; [done|].
  by eapply list_elem_of_lookup_2.
Qed.

Lemma size_first_members g :
  0 ≤ grammar.nterminals g → (size (first_members g) ≤ Z.to_nat (grammar.nterminals g + 1))%nat.
Proof.
  intros Hnt. unfold first_members. rewrite size_union_alt, size_singleton.
  assert (size (list_to_set (seqZ 0 (grammar.nterminals g)) ∖ {[FIRST_NULL]} : gset Z)
          ≤ Z.to_nat (grammar.nterminals g))%nat; [|lia].
  etrans; [apply subseteq_size, subseteq_difference_l; reflexivity|].
  rewrite size_list_to_set by apply NoDup_seqZ. by rewrite length_seqZ.
Qed.

Lemma length_ordered (s : gset Z) : length (ordered s) = size s.
Proof. by rewrite ordered_perm. Qed.

Lemma first_total_bound (F : list (gset Z)) (width : nat) :
  (∀ S, S ∈ F → (size S ≤ width)%nat) → (first_total F ≤ length F * width)%nat.
Proof.
  unfold first_total. induction F as [|S F IH]; intros Hall; [simpl; lia|].
  assert (size S ≤ width)%nat by (apply Hall; by left).
  assert (sum_list (size <$> F) ≤ length F * width)%nat by (apply IH; set_solver).
  rewrite fmap_cons.
  change (sum_list (size S :: (size <$> F))) with (size S + sum_list (size <$> F))%nat.
  simpl length. lia.
Qed.

Lemma first_total_alter (F : list (gset Z)) (k : nat) (S : gset Z) (f : gset Z → gset Z) :
  F !! k = Some S →
  (first_total (alter f k F) + size S = first_total F + size (f S))%nat.
Proof.
  unfold first_total. revert k. induction F as [|T F IH]; intros k Hk; [done|].
  destruct k as [|k]; cbn [alter list_alter lookup list_lookup] in *.
  - injection Hk as ->. rewrite !fmap_cons.
    change (sum_list (size (f S) :: (size <$> F)))
      with (size (f S) + sum_list (size <$> F))%nat.
    change (sum_list (size S :: (size <$> F))) with (size S + sum_list (size <$> F))%nat.
    lia.
  - specialize (IH k Hk). rewrite !fmap_cons.
    change (sum_list (size T :: (size <$> alter f k F)))
      with (size T + sum_list (size <$> alter f k F))%nat.
    change (sum_list (size T :: (size <$> F))) with (size T + sum_list (size <$> F))%nat.
    lia.
Qed.

(** *** The event loop *)

Lemma push_missing_spec (firsts : gset Z) (D : Z) (l : list Z) (q : list (Z * Z)) :
  let q' := foldl (λ event_q x, if decide (x ∈ firsts) then event_q
                                else event_q ++ [(x, D)]) q l in
  (length q' ≤ length q + length l)%nat
  ∧ ∀ e, e ∈ q' ↔ e ∈ q ∨ ∃ x, x ∈ l ∧ (x ∉ firsts) ∧ e = (x, D).
Proof.
  revert q. induction l as [|y l IH]; intros q; simpl.
  - split; [lia|]. intros e. split; [by left|]. intros [?|(x & Hx & _)]; [done|].
    by apply elem_of_nil in Hx.
  - destruct (decide (y ∈ firsts)) as [Hy|Hy].
    + destruct (IH q) as [Hlen Hin]. split; [lia|]. intros e. rewrite Hin. split.
      * intros [?|(x & Hx & Hx' & ->)]; [by left|right]. exists x. set_solver.
      * intros [?|(x & Hx & Hx' & ->)]; [by left|right]. exists x.
        apply elem_of_cons in Hx as [->|Hx]; [done|]. done.
    + destruct (IH (q ++ [(y, D)])) as [Hlen Hin]. rewrite length_app in Hlen. simpl in Hlen.
      split; [lia|]. intros e. rewrite Hin, elem_of_app, list_elem_of_singleton. split.
      * intros [[?| ->]|(x & Hx & Hx' & ->)]; [by left|right..].
        -- exists y. set_solver.
        -- exists x. set_solver.
      * intros [?|(x & Hx & Hx' & ->)]; [by left; left|].
        apply elem_of_cons in Hx as [->|Hx]; [by left; right|].
        right. by exists x.
Qed.

Lemma first_rescan_spec g lhs2prods F (q : list (Z * Z)) D width :
  (∀ prod_i, (size (get_first_set_of_string (grammar.rhs (prod_at g prod_i)) F)
              ≤ width)%nat) →
  let q' := first_rescan g lhs2prods F q D in
  (length q' ≤ length q + longest lhs2prods * width)%nat
  ∧ ∀ e, e ∈ q' ↔
         e ∈ q ∨ ∃ prod_i x, prod_i ∈ get_edges lhs2prods D
                   ∧ x ∈ get_first_set_of_string (grammar.rhs (prod_at g prod_i)) F
                   ∧ (x ∉ first_set_at F D) ∧ e = (x, D).
Proof.
  intros Hwidth q'. subst q'. unfold first_rescan.
  pose proof (length_get_edges lhs2prods D) as Hlong.
  revert Hlong. generalize (longest lhs2prods) as n. generalize (get_edges lhs2prods D) as l.
  intros l. revert q. induction l as [|prod_i l IH]; intros q n Hn; simpl.
  - split; [lia|]. intros e. split; [by left|]. intros [?|(? & ? & Hx & _)]; [done|].
    by apply elem_of_nil in Hx.
  - simpl in Hn.
    pose proof (push_missing_spec (first_set_at F D) D
                  (ordered (get_first_set_of_string (grammar.rhs (prod_at g prod_i)) F)) q)
      as [Hlen Hin].
    rewrite length_ordered in Hlen. specialize (Hwidth prod_i).
    destruct (IH (foldl (λ event_q x, if decide (x ∈ first_set_at F D) then event_q
                                      else event_q ++ [(x, D)]) q
                    (ordered (get_first_set_of_string (grammar.rhs (prod_at g prod_i)) F)))
                 (n - 1)%nat ltac:(lia)) as [Hlen' Hin'].
    split; [nia|]. intros e. rewrite Hin', Hin. split.
    + intros [[?|(x & Hx & Hx' & ->)]|(k & x & Hk & Hx & Hx' & ->)]; [by left|right..].
      * exists prod_i, x. apply elem_of_ordered in Hx. split_and!; [by left|done..].
      * exists k, x. split_and!; [by right|done..].
    + intros [?|(k & x & Hk & Hx & Hx' & ->)]; [by left; left|].
      apply elem_of_cons in Hk as [->|Hk].
      * left. right. exists x. by rewrite elem_of_ordered.
      * right. by exists k, x.
Qed.

Lemma string_first_ext F F' string x :
  (∀ A, A ∈ string → first_set_at F' A = first_set_at F A) →
  string_first F' string x ↔ string_first F string x.
Proof.
  induction string as [|symbol rest IH]; intros Hsame; simpl; [done|].
  rewrite (Hsame symbol) by (by left). rewrite IH; [done|].
  intros A HA. apply Hsame. by right.
Qed.

Lemma first_set_at_members g F A :
  (∀ firsts, firsts ∈ F → firsts ⊆ first_members g) →
  first_set_at F A ⊆ first_members g.
Proof.
  intros Hall. unfold first_set_at. rewrite at_default.
  destruct (F !! Z.to_nat A) as [firsts|] eqn:E; simpl; [|set_solver].
  apply Hall. by eapply list_elem_of_lookup_2.
Qed.

Lemma string_first_members g F string x :
  (∀ firsts, firsts ∈ F → firsts ⊆ first_members g) →
  string_first F string x → x ∈ first_members g.
Proof.
  intros Hall. induction string as [|symbol rest IH]; simpl.
  - intros ->. unfold first_members. set_solver.
  - intros [[_ Hin]|[_ Hrest]]; [|by apply IH].
    by apply (first_set_at_members g F symbol Hall).
Qed.

Lemma first_set_at_alter (F : list (gset Z)) D A (f : gset Z → gset Z) :
  0 ≤ D < isize F → 0 ≤ A →
  first_set_at (alter f (Z.to_nat D) F) A
  = if decide (A = D) then f (first_set_at F D) else first_set_at F A.
Proof.
  intros HD HA. unfold first_set_at, isize in *. rewrite !at_default.
  destruct (decide (A = D)) as [->|Hne].
  - rewrite list_lookup_alter_eq.
    destruct (F !! Z.to_nat D) eqn:E; [done|]. apply lookup_ge_None in E. lia.
  - by rewrite list_lookup_alter_ne by lia.
Qed.

Lemma rescans_spec g lhs2prods F (q : list (Z * Z)) (dependers : list Z) width :
  (∀ prod_i, (size (get_first_set_of_string (grammar.rhs (prod_at g prod_i)) F)
              ≤ width)%nat) →
  let q' := foldl (first_rescan g lhs2prods F) q dependers in
  (length q' ≤ length q + length dependers * (longest lhs2prods * width))%nat
  ∧ ∀ e, e ∈ q' ↔
         e ∈ q ∨ ∃ D prod_i x, D ∈ dependers ∧ prod_i ∈ get_edges lhs2prods D
                   ∧ x ∈ get_first_set_of_string (grammar.rhs (prod_at g prod_i)) F
                   ∧ (x ∉ first_set_at F D) ∧ e = (x, D).
Proof.
  intros Hwidth q'. subst q'. revert q.
  induction dependers as [|D dependers IH]; intros q; simpl.
  - split; [lia|]. intros e. split; [by left|]. intros [?|(? & ? & ? & Hx & _)]; [done|].
    by apply elem_of_nil in Hx.
  - destruct (first_rescan_spec g lhs2prods F q D width Hwidth) as [Hlen Hin].
    destruct (IH (first_rescan g lhs2prods F q D)) as [Hlen' Hin'].
    split; [lia|]. intros e. rewrite Hin', Hin. split.
    + intros [[?|(k & x & Hk & Hx & Hx' & ->)]|(D' & k & x & HD & Hk & Hx & Hx' & ->)];
        [by left|right..].
      * exists D, k, x. split_and!; [by left|done..].
      * exists D', k, x. split_and!; [by right|done..].
    + intros [?|(D' & k & x & HD & Hk & Hx & Hx' & ->)]; [by left; left|].
      apply elem_of_cons in HD as [->|HD].
      * left. right. by exists k, x.
      * right. by exists D', k, x.
Qed.

Section first_loop.
Context (g : grammar.t) (Hok : grammar_ok g).

Lemma production_eta (p : grammar.production) :
  grammar.mkProduction (grammar.lhs p) (grammar.rhs p) = p.
Proof. by destruct p. Qed.

(** An event that brings nothing new is dropped. *)
Lemma first_inv_skip F s D q :
  first_inv g F ((s, D) :: q) → s ∈ first_set_at F D → first_inv g F q.
Proof.
  intros [Hlen Hmem Hsound Hq Hterm Hclosed] Hs. split; try done.
  - intros s' A Hin. apply Hq. by right.
  - intros t Ht. destruct (Hterm t Ht) as [?|Hin]; [by left|].
    apply elem_of_cons in Hin as [[= <- <-]|Hin]; [by left|by right].
  - intros p x Hp Hx. destruct (Hclosed p x Hp Hx) as [?|Hin]; [by left|].
    apply elem_of_cons in Hin as [[= <- <-]|Hin]; [by left|by right].
Qed.

(** The FIRST set of a right-hand side is small. *)
Lemma size_rhs_first_set F prod_i :
  (∀ firsts, firsts ∈ F → firsts ⊆ first_members g) →
  (size (get_first_set_of_string (grammar.rhs (prod_at g prod_i)) F)
   ≤ Z.to_nat (grammar.nterminals g + 1))%nat.
Proof.
  intros Hmem. etrans; [|apply size_first_members, (ok_terminals g Hok)].
  apply subseteq_size. intros x Hx.
  apply elem_of_get_first_set_of_string in Hx. by eapply string_first_members.
Qed.

(** An event that brings a new member: the member is added, and the
    productions of the dependers are scanned again. *)
Lemma first_inv_insert F s D q :
  first_inv g F ((s, D) :: q) → s ∉ first_set_at F D →
  let lhs2prods := get_productions_by_lhs g in
  let dependees2dependers := make_transpose (get_symbol_graph g lhs2prods) in
  let F' := alter (λ firsts, {[s]} ∪ firsts) (Z.to_nat D) F in
  let q' := foldl (first_rescan g lhs2prods F') q (get_edges dependees2dependers D) in
  first_inv g F' q'
  ∧ first_total F' = S (first_total F)
  ∧ (length q' ≤ length q + longest dependees2dependers
                             * (longest lhs2prods * Z.to_nat (grammar.nterminals g + 1)))%nat.
Proof.
  intros [Hlen Hmem Hsound Hq Hterm Hclosed] Hs lhs2prods dependees2dependers F' q'.
  destruct (Hq s D) as (HD & Hsmem & Hsfirst); [by left|].
  pose proof (ok_terminals g Hok) as Hnt.
  destruct (get_productions_by_lhs_spec g Hok) as [_ Hprods]. fold lhs2prods in Hprods.
  assert (Hat : ∀ A, 0 ≤ A →
            first_set_at F' A
            = if decide (A = D) then {[s]} ∪ first_set_at F D else first_set_at F A).
  { intros A HA. apply first_set_at_alter; lia. }
  assert (Hmono : ∀ A x, 0 ≤ A → x ∈ first_set_at F A → x ∈ first_set_at F' A).
  { intros A x HA Hx. rewrite Hat by done. destruct (decide (A = D)) as [->|]; set_solver. }
  assert (Hmem' : ∀ firsts, firsts ∈ F' → firsts ⊆ first_members g).
  { intros firsts Hin. apply list_elem_of_lookup in Hin as [k Hk]. unfold F' in Hk.
    destruct (decide (k = Z.to_nat D)) as [->|Hne].
    - rewrite list_lookup_alter_eq in Hk.
      destruct (F !! Z.to_nat D) as [old|] eqn:E; [|done]. injection Hk as <-.
      assert (old ⊆ first_members g) by (by eapply Hmem, list_elem_of_lookup_2).
      set_solver.
    - rewrite list_lookup_alter_ne in Hk by done.
      by eapply Hmem, list_elem_of_lookup_2. }
  assert (Hsound' : ∀ A x, 0 ≤ A < grammar.nsymbols g →
            x ∈ first_set_at F' A → first_of g [A] x).
  { intros A x HA. rewrite Hat by lia. destruct (decide (A = D)) as [->|Hne].
    - rewrite elem_of_union, elem_of_singleton. intros [->|Hx]; [done|by apply Hsound].
    - by apply Hsound. }
  destruct (rescans_spec g lhs2prods F' q (get_edges dependees2dependers D)
              (Z.to_nat (grammar.nterminals g + 1))
              (λ prod_i, size_rhs_first_set F' prod_i Hmem')) as [Hlenq Hinq].
  fold q' in Hlenq, Hinq.
  split_and!.
  - split.
    + unfold F', isize in *. by rewrite length_alter.
    + done.
    + done.
    + intros x A Hin. apply Hinq in Hin as [Hin|(D' & k & y & HD' & Hk & Hy & _ & [= -> ->])].
      { apply Hq. by right. }
      pose proof (depender_range g Hok D' D ltac:(lia) HD') as HD'r.
      apply Hprods in Hk as (_ & Hk & Hlhs); [|lia].
      apply elem_of_get_first_set_of_string in Hy.
      split; [lia|split].
      * by eapply string_first_members.
      * pose proof (prod_at_elem g k Hk) as Hp.
        apply (string_first_sound g) in Hy.
        2:{ intros B b HB. apply Hsound'. by eapply (ok_rhs g Hok). }
        rewrite <-(production_eta (prod_at g k)), Hlhs in Hp.
        apply derives_production in Hp.
        destruct Hy as [[-> Hd]|[Ht [γ Hγ]]].
        -- left. split; [done|]. by eapply derives_trans.
        -- right. split; [done|]. exists γ. by eapply derives_trans.
    + intros t Ht. destruct (Hterm t Ht) as [Hin|Hin].
      * left. apply Hmono; [lia|done].
      * apply elem_of_cons in Hin as [[= <- <-]|Hin].
        -- left. rewrite Hat by lia. rewrite decide_True by done. set_solver.
        -- right. apply Hinq. by left.
    + intros p x Hp Hx.
      pose proof (ok_lhs g Hok p Hp) as Hlhs.
      destruct (decide (x ∈ first_set_at F' (grammar.lhs p))) as [Hin|Hni]; [by left|].
      right. apply Hinq.
      destruct (decide (D ∈ grammar.rhs p)) as [HDp|HDp].
      * right. destruct (elem_prod_at g p Hp) as (k & Hk & <-).
        exists (grammar.lhs (prod_at g k)), k, x. split_and!; [|  |  |done..].
        -- by apply depender_edge.
        -- apply Hprods; [lia|]. split_and!; [lia..|done].
        -- by apply elem_of_get_first_set_of_string.
      * left. apply (string_first_ext F F') in Hx.
        2:{ intros A HA. rewrite Hat by (by eapply (ok_rhs g Hok)).
            rewrite decide_False; [done|]. by intros ->. }
        destruct (Hclosed p x Hp Hx) as [Hin|Hin].
        -- destruct Hni. apply Hmono; [lia|done].
        -- apply elem_of_cons in Hin as [[= -> <-]|Hin]; [|done].
           destruct Hni. rewrite Hat by lia. rewrite decide_True by done. set_solver.
  - unfold F'.
    assert (HF : F !! Z.to_nat D = Some (first_set_at F D)).
    { unfold first_set_at, isize in *. rewrite at_default.
      destruct (F !! Z.to_nat D) eqn:E; [done|]. apply lookup_ge_None in E. lia. }
    pose proof (first_total_alter F _ _ (λ firsts, {[s]} ∪ firsts) HF) as Htot.
    simpl in Htot. rewrite size_union, size_singleton in Htot by set_solver. lia.
  - etrans; [exact Hlenq|].
    apply Nat.add_le_mono_l, Nat.mul_le_mono_r, length_get_edges.
Qed.

Lemma first_total_inv F q :
  first_inv g F q →
  (first_total F ≤ Z.to_nat (grammar.nsymbols g) * Z.to_nat (grammar.nterminals g + 1))%nat.
Proof.
  intros [Hlen Hmem _ _ _ _].
  replace (Z.to_nat (grammar.nsymbols g)) with (length F) by (unfold isize in Hlen; lia).
  apply first_total_bound. intros firsts Hin.
  etrans; [apply subseteq_size, (Hmem _ Hin)|].
  apply size_first_members, (ok_terminals g Hok).
Qed.

(** The event loop ends within its fuel, with the invariant and an empty
    queue. *)
Lemma first_loop_spec (fuel : nat) F q :
  let lhs2prods := get_productions_by_lhs g in
  let dependees2dependers := make_transpose (get_symbol_graph g lhs2prods) in
  let width := Z.to_nat (grammar.nterminals g + 1) in
  let pushes := (longest dependees2dependers * (longest lhs2prods * width))%nat in
  first_inv g F q →
  (length q + (pushes + 1) * (Z.to_nat (grammar.nsymbols g) * width - first_total F)
   < fuel)%nat →
  ∃ F', first_loop fuel g lhs2prods dependees2dependers F q = Some F' ∧ first_inv g F' [].
Proof.
  intros lhs2prods dependees2dependers width pushes.
  revert F q. induction fuel as [|fuel IH]; intros F q Hinv Hfuel;
    [by apply Nat.nlt_0_r in Hfuel|].
  destruct q as [|[s D] q]; [by exists F|].
  cbn [first_loop].
  destruct (decide (s ∈ first_set_at F D)) as [Hs|Hs].
  - apply IH; [by eapply first_inv_skip|]. simpl in Hfuel. lia.
  - destruct (first_inv_insert F s D q Hinv Hs) as (Hinv' & Htot & Hlen).
    fold lhs2prods dependees2dependers width pushes in Hinv', Hlen.
    apply IH; [done|].
    pose proof (first_total_inv _ _ Hinv') as Hcap. fold width in Hcap.
    rewrite Htot in Hcap |- *. simpl in Hfuel.
    set (cap := (Z.to_nat (grammar.nsymbols g) * width)%nat) in *.
    replace (cap - first_total F)%nat with (S (cap - S (first_total F))) in Hfuel by lia.
    lia.
Qed.

Lemma elem_of_concat {A} (x : A) (ls : list (list A)) :
  x ∈ concat ls ↔ ∃ l, x ∈ l ∧ l ∈ ls.
Proof.
  induction ls as [|k ls IH]; simpl.
  - split; [by intros ?%elem_of_nil|]. by intros (? & _ & ?%elem_of_nil).
  - rewrite elem_of_app, IH. split.
    + intros [?|(l & ? & ?)]; [exists k; by split; [|left]|exists l; by split; [|right]].
    + intros (l & Hx & Hl). apply elem_of_cons in Hl as [->|Hl]; [by left|right; eauto].
Qed.

Lemma seeds_spec (e : Z * Z) :
  e ∈ foldl (λ event_q symbol, event_q ++ first_seed g (get_productions_by_lhs g) symbol)
            [] (seqZ 0 (grammar.nsymbols g))
  ↔ ∃ symbol, 0 ≤ symbol < grammar.nsymbols g
              ∧ e ∈ first_seed g (get_productions_by_lhs g) symbol.
Proof.
  rewrite foldl_app_concat, app_nil_l. rewrite elem_of_concat. split.
  - intros (l & He & Hl). apply list_elem_of_fmap in Hl as (symbol & -> & Hs).
    apply elem_of_seqZ in Hs. exists symbol. split; [lia|done].
  - intros (symbol & Hs & He). eexists. split; [done|].
    apply list_elem_of_fmap. exists symbol. split; [done|]. apply elem_of_seqZ. lia.
Qed.

Lemma first_seed_spec symbol (e : Z * Z) :
  0 ≤ symbol < grammar.nsymbols g →
  e ∈ first_seed g (get_productions_by_lhs g) symbol ↔
  (symbol < grammar.nterminals g ∧ e = (symbol, symbol))
  ∨ (grammar.nterminals g ≤ symbol ∧ e = (FIRST_NULL, symbol)
     ∧ grammar.mkProduction symbol [] ∈ grammar.productions g).
Proof.
  intros Hs. unfold first_seed, is_terminal.
  destruct (get_productions_by_lhs_spec g Hok) as [_ Hprods].
  destruct (decide (symbol < grammar.nterminals g)) as [Hlt|Hge].
  - rewrite bool_decide_eq_true_2 by lia. rewrite list_elem_of_singleton.
    split; [by left|]. intros [[_ ->]|[? _]]; [done|lia].
  - rewrite bool_decide_eq_false_2 by lia.
    destruct (existsb _ _) eqn:Hex.
    + apply existsb_exists in Hex as (k & Hk & Hempty).
      apply bool_decide_eq_true in Hempty.
      apply list_elem_of_In, Hprods in Hk as (_ & Hk & Hlhs); [|lia].
      pose proof (prod_at_elem g k Hk) as Hp.
      rewrite <-(production_eta (prod_at g k)), Hlhs, Hempty in Hp.
      rewrite list_elem_of_singleton. split.
      * intros ->. right. split_and!; [lia|done..].
      * intros [[? _]|(_ & -> & _)]; [lia|done].
    + split; [by intros ?%elem_of_nil|]. intros [[? _]|(_ & _ & Hp)]; [lia|].
      destruct (elem_prod_at g _ Hp) as (k & Hk & Hpk).
      assert (existsb (λ prod_i, bool_decide (grammar.rhs (prod_at g prod_i) = []))
                (get_edges (get_productions_by_lhs g) symbol) = true) as Htrue; [|congruence].
      apply existsb_exists. exists k. split.
      * apply list_elem_of_In, Hprods; [lia|]. rewrite Hpk. simpl. split_and!; [lia..|done].
      * rewrite Hpk. by apply bool_decide_eq_true.
Qed.

Lemma first_set_at_empty n A : first_set_at (replicate n ∅) A = ∅.
Proof. apply at_replicate. Qed.

(** The invariant holds when the loop is entered. *)
Lemma first_inv_init :
  first_inv g (replicate (Z.to_nat (grammar.nsymbols g)) ∅)
    (foldl (λ event_q symbol, event_q ++ first_seed g (get_productions_by_lhs g) symbol)
           [] (seqZ 0 (grammar.nsymbols g))).
Proof.
  pose proof (ok_terminals g Hok) as Hnt. split.
  - unfold isize. rewrite length_replicate. lia.
  - intros firsts Hin. apply elem_of_replicate in Hin as [-> _]. set_solver.
  - intros A s _. rewrite first_set_at_empty. set_solver.
  - intros s A Hin. apply seeds_spec in Hin as (symbol & Hs & Hin).
    apply first_seed_spec in Hin; [|done].
    destruct Hin as [[Hlt [= -> ->]]|(Hge & [= -> ->] & Hp)].
    + split; [done|split].
      * unfold first_members. rewrite elem_of_union, elem_of_list_to_set, elem_of_seqZ.
        right. lia.
      * right. split; [lia|]. exists []. apply derives_refl.
    + split; [done|split].
      * unfold first_members. set_solver.
      * left. split; [done|]. by apply derives_production.
  - intros t Ht. right. apply seeds_spec. exists t. split; [lia|].
    apply first_seed_spec; [lia|]. left. split; [lia|done].
  - intros p x Hp Hx. right.
    pose proof (ok_lhs g Hok p Hp) as Hlhs.
    destruct (grammar.rhs p) as [|symbol rest] eqn:Hrhs; simpl in Hx.
    + subst x. apply seeds_spec. exists (grammar.lhs p). split; [lia|].
      apply first_seed_spec; [lia|]. right. split_and!; [lia|done|].
      by rewrite <-Hrhs, production_eta.
    + rewrite first_set_at_empty in Hx. set_solver.
Qed.

End first_loop.

(** [compute_first_sets] returns, with the invariant and no event left. *)
Lemma compute_first_sets_spec g :
  grammar_ok g → ∃ first_sets, compute_first_sets g = Some first_sets ∧ first_inv g first_sets [].
Proof.
  intros Hok. unfold compute_first_sets.
  apply first_loop_spec; [done|apply first_inv_init; done|].
  unfold first_fuel. lia.
Qed.

(** C4: on a grammar that keeps its invariant [compute_first_sets] returns,
    and for every nonterminal [A] a terminal [t] is in FIRST(A) exactly when
    [A] derives a string that starts with [t], and [FIRST_NULL] is in
    FIRST(A) exactly when [A] derives the empty string. *)
Theorem compute_first_sets_correct (g : grammar.t) :
  grammar_ok g →
  ∃ first_sets,
    compute_first_sets g = Some first_sets
    ∧ ∀ A, grammar.nterminals g ≤ A < grammar.nsymbols g →
        (∀ t, 0 ≤ t < grammar.nterminals g →
           (t ∈ first_set_at first_sets A ↔ ∃ γ, derives g [A] (t :: γ)))
        ∧ (FIRST_NULL ∈ first_set_at first_sets A ↔ derives g [A] []).
Proof.
  intros Hok. destruct (compute_first_sets_spec g Hok) as (F & HF & Hinv).
  exists F. split; [done|]. intros A HA.
  destruct Hinv as [Hlen Hmem Hsound _ Hterm Hclosed].
  pose proof (ok_terminals g Hok) as Hnt.
  assert (Hterm' : ∀ t, 0 ≤ t < grammar.nterminals g → t ∈ first_set_at F t).
  { intros t Ht. destruct (Hterm t Ht) as [?|Hin]; [done|]. by apply elem_of_nil in Hin. }
  assert (Hclosed' : ∀ p x, p ∈ grammar.productions g →
            string_first F (grammar.rhs p) x → x ∈ first_set_at F (grammar.lhs p)).
  { intros p x Hp Hx. destruct (Hclosed p x Hp Hx) as [?|Hin]; [done|].
    by apply elem_of_nil in Hin. }
  split.
  - intros t Ht. split.
    + intros Hin. destruct (Hsound A t ltac:(lia) Hin) as [[-> _]|[_ Hd]]; [|done].
      unfold FIRST_NULL in Ht. lia.
    + intros [γ Hd].
      destruct (string_first_complete g F [A] (t :: γ) Hterm' Hclosed' Hd) as [_ Hfirst].
      apply string_first_single. by eapply Hfirst.
  - split.
    + intros Hin. destruct (Hsound A FIRST_NULL ltac:(lia) Hin) as [[_ Hd]|[Ht _]]; [done|].
      unfold FIRST_NULL in Ht. lia.
    + intros Hd.
      destruct (string_first_complete g F [A] [] Hterm' Hclosed' Hd) as [Hfirst _].
      apply string_first_single. by apply Hfirst.
Qed.

Lemma grammar_okb_sound g : grammar_okb g = true → grammar_ok g.
Proof.
  unfold grammar_okb. rewrite andb_true_iff, bool_decide_eq_true, forallb_forall.
  intros [Hnt Hall]. split; [done| |].
  - intros p Hp. apply list_elem_of_In, Hall in Hp.
    apply andb_true_iff in Hp as [Hp _]. by apply bool_decide_eq_true in Hp.
  - intros p x Hp Hx. apply list_elem_of_In, Hall in Hp.
    apply andb_true_iff in Hp as [_ Hp]. rewrite forallb_forall in Hp.
    apply list_elem_of_In, Hp in Hx. by apply bool_decide_eq_true in Hx.
Qed.

(** FIRST(S) = {a, b, null}, FIRST(A) = {a, null}, FIRST(B) = {b, null} and
    FIRST(accept) = {a, b, end}. *)
Lemma compute_first_sets_nullable_grammar :
  (λ first_sets : list (gset Z), elements <$> first_sets)
    <$> compute_first_sets nullable_grammar
  = Some [[0]; [1]; [2]; [FIRST_NULL; 1; 0]; [FIRST_NULL; 0]; [FIRST_NULL; 1]; [2; 1; 0]].
Proof. vm_compute. reflexivity. Qed.

Lemma compute_first_sets_correct_witness :
  ∃ first_sets,
    compute_first_sets nullable_grammar = Some first_sets
    ∧ ∀ A, grammar.nterminals nullable_grammar ≤ A < grammar.nsymbols nullable_grammar →
        (∀ t, 0 ≤ t < grammar.nterminals nullable_grammar →
           (t ∈ first_set_at first_sets A ↔ ∃ γ, derives nullable_grammar [A] (t :: γ)))
        ∧ (FIRST_NULL ∈ first_set_at first_sets A ↔ derives nullable_grammar [A] []).
Proof.
  apply (compute_first_sets_correct nullable_grammar).
  apply grammar_okb_sound. vm_compute. reflexivity.
Defined.

(** ** The grammars [build_grammar] makes *)

(** The terminals are numbered in the order of the tokens. *)
Lemma number_tokens_range (tokens : list language.token) :
  let '(symbol_map, nterminals) := number_tokens tokens in
  nterminals = isize tokens
  ∧ ∀ name symbol, symbol_map !! name = Some symbol → 0 ≤ symbol < nterminals.
Proof.
  unfold number_tokens.
  assert (H : ∀ (m : gmap string Z) n,
            0 ≤ n → (∀ name symbol, m !! name = Some symbol → 0 ≤ symbol < n) →
            let '(m', n') :=
              foldl (λ '(symbol_map, nterminals) token,
                       (<[language.name token := nterminals]> symbol_map, nterminals + 1))
                    (m, n) tokens in
            n' = n + isize tokens
            ∧ ∀ name symbol, m' !! name = Some symbol → 0 ≤ symbol < n').
  { induction tokens as [|t tokens IH]; intros m n Hn Hm; simpl.
    - split; [unfold isize; simpl; lia|done].
    - specialize (IH (<[language.name t := n]> m) (n + 1)).
      destruct (foldl _ _ tokens) as [m' n'].
      destruct IH as [Hn' Hm']; [lia| |].
      + intros name symbol. rewrite lookup_insert.
        destruct (decide (language.name t = name)); [intros [= <-]; lia|].
        intros Hl. specialize (Hm _ _ Hl). lia.
      + split; [|done]. unfold isize in *. simpl length. lia. }
  specialize (H ∅ 0 ltac:(lia) ltac:(intros ? ?; by rewrite lookup_empty)).
  destruct (foldl _ _ tokens) as [m' n']. destruct H as [-> H]. split; [lia|done].
Qed.

(** The nonterminals are numbered after the terminals; the numbers of the
    tokens are kept. *)
Lemma number_nonterminals_range productions index (m : gmap string Z) nterminals n m' n' :
  0 ≤ nterminals ≤ n →
  (∀ name symbol, m !! name = Some symbol → 0 ≤ symbol < n) →
  number_nonterminals productions index m n = Returned (m', n') →
  n ≤ n'
  ∧ (∀ name symbol, m' !! name = Some symbol → 0 ≤ symbol < n')
  ∧ (∀ name symbol, m' !! name = Some symbol → m !! name = None → nterminals ≤ symbol)
  ∧ (∀ name symbol, m !! name = Some symbol → m' !! name = Some symbol).
Proof.
  revert index m n. induction productions as [|p productions IH]; intros index m n Hn Hm; simpl.
  - intros [= <- <-]. split_and!; [lia|done| |done]. intros name symbol -> [=].
  - destruct (decide (language.lhs p = ""%string)); [done|].
    destruct (decide (is_Some (m !! language.lhs p))) as [Hin|Hni].
    + by apply IH.
    + intros Hr.
      assert (Hm' : ∀ name symbol,
                <[language.lhs p := n]> m !! name = Some symbol → 0 ≤ symbol < n + 1).
      { intros name symbol. rewrite lookup_insert.
        destruct (decide (language.lhs p = name)); [intros [= <-]; lia|].
        intros Hl. specialize (Hm _ _ Hl). lia. }
      destruct (IH (index + 1) (<[language.lhs p := n]> m) (n + 1) ltac:(lia) Hm' Hr)
        as (Hle & Hrange & Hnew & Hkeep).
      split_and!; [lia|done| |].
      * intros name symbol Hl Hnone.
        destruct (decide (language.lhs p = name)) as [<-|Hne].
        -- pose proof (Hkeep (language.lhs p) n) as Hk.
           rewrite lookup_insert_eq in Hk. specialize (Hk eq_refl).
           rewrite Hk in Hl. injection Hl as <-. lia.
        -- apply (Hnew name symbol Hl). by rewrite lookup_insert_ne.
      * intros name symbol Hl. apply Hkeep. rewrite lookup_insert_ne; [done|].
        intros <-. destruct Hni. by eexists.
Qed.

Lemma resolve_rhs_range (m : gmap string Z) n rhs out symbols :
  (∀ name symbol, m !! name = Some symbol → 0 ≤ symbol < n) →
  Forall (λ x, 0 ≤ x < n) out →
  resolve_rhs m rhs out = Returned symbols →
  Forall (λ x, 0 ≤ x < n) symbols.
Proof.
  intros Hm. revert out. induction rhs as [|x rhs IH]; intros out Hout; simpl.
  - by intros [= <-].
  - destruct (m !! x) as [symbol|] eqn:Hx; [|done].
    apply IH. apply Forall_app. split; [done|]. apply Forall_singleton. by eapply Hm.
Qed.

Lemma resolve_productions_range (m : gmap string Z) nterminals n productions out resolved :
  (∀ name symbol, m !! name = Some symbol → 0 ≤ symbol < n) →
  (∀ p, p ∈ productions →
        ∃ symbol, m !! language.lhs p = Some symbol ∧ nterminals ≤ symbol) →
  Forall (λ q, nterminals ≤ grammar.lhs q < n ∧ Forall (λ x, 0 ≤ x < n) (grammar.rhs q)) out →
  resolve_productions m productions out = Returned resolved →
  Forall (λ q, nterminals ≤ grammar.lhs q < n ∧ Forall (λ x, 0 ≤ x < n) (grammar.rhs q))
         resolved.
Proof.
  intros Hm. revert out. induction productions as [|p productions IH]; intros out Hlhs Hout;
    simpl.
  - by intros [= <-].
  - destruct (resolve_rhs m (language.rhs p) []) as [rhs| | |] eqn:Hrhs; simpl; try done.
    apply IH; [intros q Hq; apply Hlhs; by right|].
    apply Forall_app. split; [done|]. apply Forall_singleton. simpl.
    destruct (Hlhs p) as (symbol & Hs & Hge); [by left|]. rewrite Hs. simpl.
    split; [specialize (Hm _ _ Hs); lia|].
    by eapply resolve_rhs_range.
Qed.

Lemma shift_nonterminal_range g x :
  0 ≤ x < grammar.nsymbols g →
  0 ≤ shift_nonterminal g x < grammar.nsymbols g + 1
  ∧ (grammar.nterminals g ≤ x → grammar.nterminals g + 1 ≤ shift_nonterminal g x).
Proof.
  intros Hx. unfold shift_nonterminal, is_nonterminal.
  destruct (bool_decide _) eqn:E.
  - apply bool_decide_eq_true in E. lia.
  - apply bool_decide_eq_false in E. lia.
Qed.

Lemma add_end_terminal_ok g : grammar_ok g → grammar_ok (add_end_terminal g).
Proof.
  intros [Hnt Hlhs Hrhs]. split; simpl.
  - lia.
  - intros p Hp. apply list_elem_of_fmap in Hp as (q & -> & Hq). simpl.
    specialize (Hlhs q Hq).
    destruct (shift_nonterminal_range g (grammar.lhs q)) as [? Hge]; [lia|].
    specialize (Hge ltac:(lia)). lia.
  - intros p x Hp Hx. apply list_elem_of_fmap in Hp as (q & -> & Hq). simpl in Hx.
    apply list_elem_of_fmap in Hx as (y & -> & Hy).
    by apply shift_nonterminal_range, (Hrhs q).
Qed.

Lemma add_accept_production_ok g :
  grammar_ok g → 0 < grammar.nterminals g → grammar_ok (add_accept_production g).
Proof.
  intros [Hnt Hlhs Hrhs] Hpos. split; simpl.
  - lia.
  - intros p Hp. apply elem_of_app in Hp as [Hp|Hp%list_elem_of_singleton].
    + specialize (Hlhs p Hp). lia.
    + subst p. simpl. lia.
  - intros p x Hp Hx. apply elem_of_app in Hp as [Hp|Hp%list_elem_of_singleton].
    + specialize (Hrhs p x Hp Hx). lia.
    + subst p. simpl in Hx.
      apply elem_of_cons in Hx as [->|Hx].
      * unfold at_. destruct (grammar.productions g) as [|q qs] eqn:E; simpl; [lia|].
        specialize (Hlhs q ltac:(by left)). lia.
      * apply list_elem_of_singleton in Hx as ->. unfold get_end_terminal. lia.
Qed.

(** [build_grammar] makes grammars that keep their invariant, as long as no
    left-hand side is the name of a token. *)
Lemma build_grammar_ok (language : language.t) g :
  (∀ p, p ∈ language.productions language →
        language.lhs p ∉ (language.name <$> language.tokens language)) →
  build_grammar language = Returned g → grammar_ok g.
Proof.
  intros Hdisjoint. unfold build_grammar.
  pose proof (number_tokens_dom (language.tokens language)) as Hdom0.
  pose proof (number_tokens_range (language.tokens language)) as Hrange0.
  destruct (number_tokens (language.tokens language)) as [m0 n0]. simpl in Hdom0.
  destruct Hrange0 as [Hn0 Hrange0].
  pose proof (isize_nonneg (language.tokens language)) as Hpos.
  destruct (number_nonterminals_spec (language.productions language) 0 m0 n0)
    as [[_ [msg ->]]|[_ (m & n & Hnum & Hdom)]]; [done|].
  rewrite Hnum. simpl.
  assert (Hn00 : 0 ≤ n0 ≤ n0) by lia.
  destruct (number_nonterminals_range _ _ _ n0 _ _ _ Hn00 Hrange0 Hnum)
    as (Hle & Hrange & Hnew & Hkeep).
  destruct (resolve_productions m (language.productions language) [])
    as [resolved| | |] eqn:Hres; simpl; try done.
  destruct (resolve_ignored m (language.ignored_tokens language) [])
    as [ignored| | |]; simpl; try done.
  intros [= <-].
  assert (Hall : Forall (λ q, n0 ≤ grammar.lhs q < n
                              ∧ Forall (λ x, 0 ≤ x < n) (grammar.rhs q)) resolved).
  { eapply resolve_productions_range; [done| |apply Forall_nil_2|done].
    intros p Hp.
    assert (language.lhs p ∈ dom m) as Hin.
    { rewrite Hdom. apply elem_of_union_r, elem_of_list_to_set, list_elem_of_fmap. eauto. }
    apply elem_of_dom in Hin as [symbol Hs]. exists symbol. split; [done|].
    apply (Hnew _ _ Hs). apply not_elem_of_dom. rewrite Hdom0, elem_of_list_to_set.
    by apply Hdisjoint. }
  set (g0 := grammar.mk n n0 resolved (name_symbols m n) []).
  assert (Hok0 : grammar_ok g0).
  { rewrite Forall_forall in Hall. split; simpl.
    - lia.
    - intros p Hp. by apply Hall.
    - intros p x Hp Hx. destruct (Hall p Hp) as [_ Hr]. rewrite Forall_forall in Hr.
      by apply Hr. }
  pose proof (add_accept_production_ok _ (add_end_terminal_ok g0 Hok0)) as Hok.
  specialize (Hok ltac:(simpl; lia)).
  destruct Hok as [H1 H2 H3]. by split.
Qed.

(** C4 on the grammars of the builder. *)
Lemma compute_first_sets_of_language (language : language.t) g :
  (∀ p, p ∈ language.productions language →
        language.lhs p ∉ (language.name <$> language.tokens language)) →
  build_grammar language = Returned g →
  ∃ first_sets, compute_first_sets g = Some first_sets ∧ first_inv g first_sets [].
Proof. intros Hd Hg. by eapply compute_first_sets_spec, build_grammar_ok. Qed.

(** ** The one-symbol automata *)

(** An automaton with a start state 0 and an accepting state 1, all of whose
    transitions lead from 0 to 1. *)
Lemma two_state_run (out : finite_automaton) (A : Z → Prop) `{!∀ c, Decision (A c)} token s :
  (∀ st c, 0 ≤ st → 0 ≤ c → step out st c = if decide (st = 0 ∧ A c) then 1 else -1) →
  accepts out 0 = -1 → accepts out 1 = token →
  Forall (λ c, 0 ≤ c) s →
  run_dfa out s = match s with
                  | [c] => if decide (A c) then token else -1
                  | _ => -1
                  end.
Proof.
  intros Hstep H0 H1 Hs. unfold run_dfa.
  destruct s as [|x s]; simpl; [done|].
  apply Forall_cons in Hs as [Hx Hs].
  rewrite Hstep by lia.
  destruct (decide (0 = 0 ∧ A x)) as [[_ HA]|HA].
  - rewrite (decide_True (P := A x)) by done. rewrite (decide_False (P := 1 = -1)) by lia.
    destruct s as [|y s]; simpl; [done|].
    apply Forall_cons in Hs as [Hy Hs].
    rewrite Hstep by lia. rewrite (decide_False (P := 1 = 0 ∧ _)) by lia.
    by rewrite decide_True by done.
  - rewrite (decide_False (P := A x)) by tauto. rewrite decide_True by done.
    by destruct s.
Qed.

Lemma two_states nsymbols :
  0 ≤ nsymbols →
  let out := add_state (add_state (new_automaton nsymbols true)) in
  shaped out ∧ get_nstates out = 2 ∧ get_ncols (table out) = nsymbols
  ∧ (∀ st c, 0 ≤ st → 0 ≤ c → step out st c = -1)
  ∧ (∀ st, 0 ≤ st → accepts out st = -1).
Proof.
  intros Hn out.
  assert (H0 : shaped (new_automaton nsymbols true)) by by apply shaped_new.
  assert (H1 : shaped (add_state (new_automaton nsymbols true))) by by apply shaped_add_state.
  split_and!.
  - by apply shaped_add_state.
  - done.
  - unfold out, get_ncols. simpl. lia.
  - intros st c Hst Hc. unfold out. rewrite !step_add_state by done.
    repeat case_decide; try done.
    apply step_out_of_range; [done..|]. left. rewrite get_nstates_new. lia.
  - intros st Hst. unfold out. rewrite !accepts_add_state by done.
    repeat case_decide; try done.
    apply accepts_out_of_range; [done|]. rewrite get_nstates_new. lia.
Qed.

Lemma two_state_add_accept out nsymbols A token :
  two_state out nsymbols A (-1) → two_state (add_accept out 1 token) nsymbols A token.
Proof.
  intros [Hsh Hn Hc Hd Hstep H0 H1]. split; try done.
  - by apply shaped_add_accept.
  - by rewrite accepts_add_accept_ne.
  - apply accepts_add_accept_eq; [done|lia].
Qed.

Lemma two_state_add_transition out nsymbols (A : Z → Prop) i :
  0 ≤ i →
  two_state out nsymbols A (-1) →
  two_state (add_transition out 0 i 1) nsymbols (λ c, c = i ∨ A c) (-1).
Proof.
  intros Hi [Hsh Hn Hc Hd Hstep H0 H1]. split; try done.
  - by apply shaped_add_transition.
  - by rewrite get_nstates_add_transition.
  - intros st c Hst Hcc. rewrite step_add_transition by (done || lia).
    destruct (Hstep st c Hst Hcc) as [Hy Hno]. rewrite Hn, Hc.
    split.
    + intros (-> & HA & Hlt). case_decide as Hd'; [done|]. apply Hy.
      split; [done|]. split; [|done]. destruct HA as [->|HA]; [|done]. exfalso. lia.
    + intros Hnot. case_decide as Hd'.
      * destruct Hd' as (-> & -> & _ & Hlt). exfalso. apply Hnot. auto.
      * apply Hno. intros (-> & HA & Hlt). apply Hnot. auto.
Qed.

Lemma two_state_ext out nsymbols (A B : Z → Prop) token :
  (∀ c, 0 ≤ c → A c ↔ B c) → two_state out nsymbols A token → two_state out nsymbols B token.
Proof.
  intros HAB [Hsh Hn Hc Hd Hstep H0 H1]. split; try done.
  intros st c Hst Hcc. destruct (Hstep st c Hst Hcc) as [Hy Hno].
  rewrite <- (HAB c Hcc). by split.
Qed.

Lemma two_state_new nsymbols :
  0 ≤ nsymbols →
  two_state (add_state (add_state (new_automaton nsymbols true))) nsymbols (λ _, False) (-1).
Proof.
  intros Hn. destruct (two_states nsymbols Hn) as (Hsh & Hns & Hc & Hstep & Hacc).
  split; [done|done|done|done| |by apply Hacc|by apply Hacc].
  intros st c Hst Hcc. split; [tauto|]. intros _. by apply Hstep.
Qed.

Lemma make_range_nfa_two_state nsymbols range_start range_end token :
  0 ≤ nsymbols → 0 ≤ range_start →
  two_state (finite_automaton.make_range_nfa nsymbols range_start range_end token)
            nsymbols (λ c, range_start ≤ c ≤ range_end) token.
Proof.
  intros Hn Ha. unfold finite_automaton.make_range_nfa. cbn zeta.
  rewrite get_nstates_add_state, get_nstates_new. simpl (0 + 1).
  apply two_state_add_accept.
  destruct (decide (0 ≤ range_end - range_start + 1)) as [Hlen|Hlen].
  - eapply two_state_ext;
      [|apply (foldl_seqZ_inv (λ i x, two_state x nsymbols (λ c, range_start ≤ c < i) (-1)));
        [done| |]].
    + intros c Hc. simpl. lia.
    + eapply two_state_ext; [|by apply two_state_new]. intros c Hc. simpl. lia.
    + intros i x Hi Hx. eapply two_state_ext; [|apply two_state_add_transition; [lia|done]].
      intros c Hc. simpl. lia.
  - rewrite seqZ_nil by lia. simpl.
    eapply two_state_ext; [|by apply two_state_new]. intros c Hc. simpl. lia.
Qed.

Lemma make_set_nfa_two_state nsymbols (accepted : gset Z) token :
  0 ≤ nsymbols → (∀ c, c ∈ accepted → 0 ≤ c) →
  two_state (finite_automaton.make_set_nfa nsymbols accepted token)
            nsymbols (λ c, c ∈ accepted) token.
Proof.
  intros Hn Ha. unfold finite_automaton.make_set_nfa. cbn zeta.
  rewrite get_nstates_add_state, get_nstates_new. simpl (0 + 1).
  apply two_state_add_accept.
  apply (foldl_elements_inv (λ Y x, two_state x nsymbols (λ c, c ∈ Y) (-1))).
  - eapply two_state_ext; [|by apply two_state_new]. intros c Hc. simpl. set_solver.
  - intros Y x b Hx HxY HY Hb.
    eapply two_state_ext; [|apply two_state_add_transition; [by apply Ha|done]].
    intros c Hc. simpl. set_solver.
Qed.

Lemma two_state_well_formed out nsymbols (A : Z → Prop) `{!∀ c, Decision (A c)} token :
  -1 ≤ token → two_state out nsymbols A token → well_formed out.
Proof.
  intros Ht [Hsh Hn Hc Hd Hstep H0 H1]. split; [done|lia| |].
  - intros st c Hst Hcc. rewrite Hn.
    destruct (decide (st = 0 ∧ A c ∧ c < nsymbols)) as [Hy|Hno].
    + destruct (Hstep st c ltac:(lia) ltac:(lia)) as [Hy' _]. rewrite Hy' by done. lia.
    + destruct (Hstep st c ltac:(lia) ltac:(lia)) as [_ Hno']. rewrite Hno' by done. lia.
  - intros st Hst. rewrite Hn in Hst.
    assert (st = 0 ∨ st = 1) as [-> | ->] by lia; lia.
Qed.

Lemma two_state_run_dfa out nsymbols (A : Z → Prop) `{!∀ c, Decision (A c)} token s :
  two_state out nsymbols A token →
  Forall (λ c, 0 ≤ c < nsymbols) s →
  run_dfa out s = match s with
                  | [c] => if decide (A c) then token else -1
                  | _ => -1
                  end.
Proof.
  intros [Hsh Hn Hc Hd Hstep H0 H1] Hs.
  assert (Hlen : ∀ x, length s = 1%nat → s !! 0%nat = Some x → 0 ≤ x < nsymbols).
  { intros x _ Hx. by apply (Forall_lookup_1 _ _ _ _ Hs Hx). }
  rewrite (two_state_run out (λ c, A c ∧ c < nsymbols) token s); try done.
  - destruct s as [|x [|y s]]; try done.
    specialize (Hlen x eq_refl eq_refl).
    destruct (decide (A x)).
    + by rewrite decide_True by (split; [done|lia]).
    + by rewrite decide_False by tauto.
  - intros st c Hst Hcc. destruct (Hstep st c Hst Hcc) as [Hy Hno].
    case_decide as Hdec.
    + apply Hy. tauto.
    + apply Hno. tauto.
  - eapply Forall_impl; [done|]. simpl. lia.
Qed.



(** X2: [make_set_nfa nsymbols accepted token] builds a deterministic
    automaton that gives [token] on exactly the one-symbol inputs whose symbol
    is in [accepted], and -1 on every other input; for the empty set it
    rejects everything. *)
Theorem make_set_nfa_accepts_the_set (nsymbols : Z) (accepted : gset Z) (token : Z) :
  (∀ c, c ∈ accepted → 0 ≤ c < nsymbols) →
  0 ≤ nsymbols →
  let out := finite_automaton.make_set_nfa nsymbols accepted token in
  is_deterministic out = true
  ∧ get_nsymbols out = nsymbols
  ∧ ∀ s, Forall (λ c, 0 ≤ c < nsymbols) s →
      run_dfa out s = match s with
                      | [c] => if decide (c ∈ accepted) then token else -1
                      | _ => -1
                      end.
Proof.
  intros Hacc Hn out.
  assert (Hts : two_state out nsymbols (λ c, c ∈ accepted) token).
  { apply make_set_nfa_two_state; [done|]. intros c Hc. apply Hacc in Hc. lia. }
  split_and!.
  - apply Hts.
  - unfold get_nsymbols. rewrite (ts_det _ _ _ _ Hts), (ts_ncols _ _ _ _ Hts). lia.
  - intros s Hs. by apply (two_state_run_dfa out nsymbols _ token s Hts).
Qed.

Lemma make_set_nfa_accepts_the_set_witness :
  is_deterministic (finite_automaton.make_set_nfa 4 {[0; 2]} 5) = true
  ∧ get_nsymbols (finite_automaton.make_set_nfa 4 {[0; 2]} 5) = 4
  ∧ ∀ s, Forall (λ c, 0 ≤ c < 4) s →
      run_dfa (finite_automaton.make_set_nfa 4 {[0; 2]} 5) s
      = match s with
                      | [c] => if decide (c ∈ ({[0; 2]} : gset Z)) then 5 else -1
                      | _ => -1
                      end.
Proof.
  apply (make_set_nfa_accepts_the_set 4 {[0; 2]} 5); [|lia].
  intros c Hc. apply elem_of_union in Hc as [Hc|Hc]; apply elem_of_singleton in Hc; lia.
Defined.

(** ** Copying states, closures and the subset construction *)

(** X8: [append_states fa other] keeps the states of [fa] as they are and
    adds one state per state of [other], in order: the copy of state [i] sits
    at [get_nstates fa + i], accepts what [i] accepts, and moves on every
    column where [i] moves, to the copy of the target. *)
Theorem append_states_copies_other (fa other : finite_automaton) :
  shaped fa → well_formed other → get_ncols (table other) ≤ get_ncols (table fa) →
  let out := append_states fa other in
  let offset := get_nstates fa in
  get_nstates out = offset + get_nstates other
  ∧ get_ncols (table out) = get_ncols (table fa)
  ∧ (∀ s c, 0 ≤ s < offset → 0 ≤ c →
       step out s c = step fa s c ∧ accepts out s = accepts fa s)
  ∧ (∀ i c, 0 ≤ i < get_nstates other → 0 ≤ c < get_ncols (table other) →
       step out (offset + i) c
       = if decide (step other i c = -1) then -1 else step other i c + offset)
  ∧ (∀ i, 0 ≤ i < get_nstates other → accepts out (offset + i) = accepts other i).
Proof.
  intros Hsh Hwf Hcols out offset.
  destruct (append_states_spec fa other Hsh) as [H1 Hn1 Hc1 Hd1 Hs1 Ha1].
  fold out offset in H1, Hn1, Hc1, Hd1, Hs1, Ha1.
  pose proof (get_nstates_nonneg fa) as Hoff. fold offset in Hoff.
  split_and!; [done|done| | |].
  - intros s c Hs Hc. rewrite Hs1, Ha1 by lia. by rewrite !decide_True by lia.
  - intros i c Hi Hc. rewrite Hs1 by lia. rewrite decide_False by lia.
    rewrite decide_True by lia. replace (offset + i - offset) with i by lia.
    unfold copied_cell.
    pose proof (wf_cells _ Hwf i c Hi ltac:(unfold get_nsymbols_eps; lia)).
    repeat case_decide; destruct_and?; try done; lia.
  - intros i Hi. rewrite Ha1 by lia. rewrite decide_False by lia.
    rewrite decide_True by lia. replace (offset + i - offset) with i by lia.
    by apply copied_token_wf.
Qed.

Lemma append_states_copies_other_witness :
  get_nstates (append_states zero_nfa one_nfa) = get_nstates zero_nfa + get_nstates one_nfa
  ∧ get_ncols (table (append_states zero_nfa one_nfa)) = get_ncols (table zero_nfa)
  ∧ (∀ s c, 0 ≤ s < get_nstates zero_nfa → 0 ≤ c →
       step (append_states zero_nfa one_nfa) s c = step zero_nfa s c
       ∧ accepts (append_states zero_nfa one_nfa) s = accepts zero_nfa s)
  ∧ (∀ i c, 0 ≤ i < get_nstates one_nfa → 0 ≤ c < get_ncols (table one_nfa) →
       step (append_states zero_nfa one_nfa) (get_nstates zero_nfa + i) c
       = if decide (step one_nfa i c = -1) then -1
         else step one_nfa i c + get_nstates zero_nfa)
  ∧ (∀ i, 0 ≤ i < get_nstates one_nfa →
       accepts (append_states zero_nfa one_nfa) (get_nstates zero_nfa + i)
       = accepts one_nfa i).
Proof.
  apply (append_states_copies_other zero_nfa one_nfa).
  - apply shapedb_sound. vm_compute. reflexivity.
  - apply well_formedb_sound. vm_compute. reflexivity.
  - vm_compute. discriminate.
Defined.

(** X9: on a well-formed non-deterministic automaton, [get_epsilon_closure]
    returns (its worklist loop ends), and the set it returns holds exactly
    the states that can be reached from a state of the given set by epsilon
    transitions alone. *)
Theorem get_epsilon_closure_is_the_reachable_set (fa : finite_automaton) (ss : gset Z) :
  well_formed fa → is_deterministic fa = false → states_of fa ss →
  ∃ closure, get_epsilon_closure ss fa = Some closure
             ∧ ss ⊆ closure
             ∧ ∀ x, x ∈ closure ↔ ∃ p, p ∈ ss ∧ epsilon_reach fa p x.
Proof.
  intros Hwf Hnfa Hss.
  destruct (get_epsilon_closure_spec fa Hwf Hnfa ss Hss) as (closure & Hc & _ & Hiff).
  exists closure. split_and!; [done| |done].
  intros x Hx. apply Hiff. exists x. split; [done|apply rtc_refl].
Qed.

Lemma get_epsilon_closure_is_the_reachable_set_witness :
  ∃ closure, get_epsilon_closure {[0]} zero_or_one_nfa = Some closure
             ∧ {[0]} ⊆ closure
             ∧ ∀ x, x ∈ closure ↔ ∃ p, p ∈ ({[0]} : gset Z) ∧ epsilon_reach zero_or_one_nfa p x.
Proof.
  apply (get_epsilon_closure_is_the_reachable_set zero_or_one_nfa {[0]}).
  - apply well_formedb_sound. vm_compute. reflexivity.
  - vm_compute. reflexivity.
  - intros x Hx. apply elem_of_singleton in Hx. subst x. vm_compute. split; [discriminate|reflexivity].
Defined.

(** X10: on a well-formed automaton [make_deterministic] returns a
    well-formed deterministic automaton over the same symbols that gives, on
    every input, the verdict of the given automaton; for a non-deterministic
    automaton of [n] states the result has at most [2 ^ n] states. *)
Theorem make_deterministic_same_verdict (nfa : finite_automaton) :
  well_formed nfa →
  ∃ dfa, finite_automaton.make_deterministic nfa = Some dfa
         ∧ well_formed dfa
         ∧ is_deterministic dfa = true
         ∧ get_nsymbols dfa = get_nsymbols nfa
         ∧ (is_deterministic nfa = false → get_nstates dfa ≤ 2 ^ get_nstates nfa)
         ∧ ∀ s, is_input nfa s → nfa_accepts nfa s (run_dfa dfa s).
Proof.
  intros Hwf. destruct (is_deterministic nfa) eqn:Hdet.
  - exists nfa. split_and!; [|done|done|done|done|].
    + unfold finite_automaton.make_deterministic, get_determinism. by rewrite Hdet.
    + intros s _. by apply deterministic_run.
  - destruct (make_deterministic_spec nfa Hwf Hdet) as (st & Hst & Hmd & Hinv).
    exists (out_fa st). split_and!; [done| | | | |].
    + by apply (determinized_well_formed nfa Hwf st).
    + apply Hinv.
    + unfold get_nsymbols at 1. rewrite (di_det _ _ _ _ Hinv), (di_ncols _ _ _ _ Hinv). lia.
    + intros _. rewrite (di_nstates _ _ _ _ Hinv).
      pose proof (interned_bound nfa st _ _ Hinv) as Hb.
      pose proof (get_nstates_nonneg nfa) as Hn.
      unfold isize. rewrite <- (Z2Nat.id (get_nstates nfa)) at 1 by done.
      rewrite <- (Nat2Z.inj_pow 2). lia.
    + intros s Hs. by apply (determinized_accepts nfa Hwf Hdet st).
Qed.

Lemma make_deterministic_same_verdict_witness :
  ∃ dfa, finite_automaton.make_deterministic zero_or_one_nfa = Some dfa
         ∧ well_formed dfa
         ∧ is_deterministic dfa = true
         ∧ get_nsymbols dfa = get_nsymbols zero_or_one_nfa
         ∧ (is_deterministic zero_or_one_nfa = false
            → get_nstates dfa ≤ 2 ^ get_nstates zero_or_one_nfa)
         ∧ ∀ s, is_input zero_or_one_nfa s → nfa_accepts zero_or_one_nfa s (run_dfa dfa s).
Proof.
  apply (make_deterministic_same_verdict zero_or_one_nfa).
  apply well_formedb_sound. vm_compute. reflexivity.
Defined.

(** ** What [simplify] merges *)

(** One pass maps the states onto the states of its result, two states to
    the same one exactly when they have the same row and token. *)
Lemma simplify_once_classes fa :
  well_formed fa →
  ∃ h, simplified fa (finite_automaton.simplify_once fa) h
       ∧ (∀ k, 0 ≤ k < get_nstates (finite_automaton.simplify_once fa) →
            ∃ r, 0 ≤ r < get_nstates fa ∧ h r = k)
       ∧ (∀ q1 q2, 0 ≤ q1 < get_nstates fa → 0 ≤ q2 < get_nstates fa →
            h q1 = h q2 ↔ same_row fa q1 q2).
Proof.
  intros Hwf. unfold finite_automaton.simplify_once.
  pose proof (get_nstates_nonneg fa) as Hn.
  pose proof (keys_inv_loop fa (get_nstates fa) Hn) as Hkeys. simpl in Hkeys.
  destruct (foldl (simplify_insert fa) ([], 0) (seqZ 0 (get_nstates fa))) as [sr2ss nsimple].
  simpl in Hkeys.
  pose proof (ki_count _ _ _ _ Hkeys) as Hcount.
  assert (Hns : 0 ≤ nsimple) by (rewrite Hcount; apply isize_nonneg).
  set (out0 := new_automaton (get_nsymbols fa) (get_determinism fa)).
  assert (Hsh0 : shaped out0) by (apply shaped_new, Hwf).
  destruct (add_states_blank out0 nsimple Hsh0 eq_refl Hns)
    as (Hsh1 & Hn1 & Hc1 & Hd1 & Ha1 & Hs1).
  set (out1 := foldl (λ out (_ : Z), add_state out) out0 (seqZ 0 nsimple)) in *.
  assert (Hc0 : get_ncols (table out0) = get_ncols (table fa)).
  { unfold out0, get_determinism. simpl. unfold get_nsymbols.
    destruct (is_deterministic fa); lia. }
  pose proof (foldl_seqZ_inv
    (λ i (acc : finite_automaton * list bool), emit_inv fa sr2ss i acc.1 acc.2)
    (simplify_emit fa sr2ss) (out1, replicate (Z.to_nat nsimple) false)
    0 (get_nstates fa) Hn) as Hemit.
  simpl in Hemit.
  destruct (foldl (simplify_emit fa sr2ss) (out1, replicate (Z.to_nat nsimple) false)
              (seqZ 0 (get_nstates fa))) as [out did] eqn:Hfold.
  simpl in *.
  assert (Hinv : emit_inv fa sr2ss (get_nstates fa) out did).
  { apply Hemit.
    - split; simpl; try done.
      + congruence.
      + congruence.
      + unfold isize. rewrite length_replicate. unfold isize in Hcount. lia.
      + intros idx r v Hidx. rewrite at_replicate. split; [apply Ha1; lia|].
        intros c Hc. apply Hs1; lia.
      + intros q Hq. lia.
    - intros i [o d] Hi He. simpl in *. apply (emit_inv_step fa Hwf sr2ss nsimple Hkeys); [done|lia]. }
  clear Hemit Hfold.
  destruct Hinv as [Hsh Hnso Hnc Hdet Hdid Hrows Hdone].
  assert (Hrow : ∀ q, 0 ≤ q < get_nstates fa →
            0 ≤ simple_of fa sr2ss q < isize sr2ss
            ∧ accepts out (simple_of fa sr2ss q) = accepts fa q
            ∧ ∀ c, 0 ≤ c → step out (simple_of fa sr2ss q) c
                           = simple_cell fa sr2ss (step fa q c)).
  { intros q Hq.
    destruct (simple_of_spec fa sr2ss nsimple Hkeys q Hq) as (r & Hidx & Hsame & Hk).
    pose proof (Hrows _ _ _ Hidx) as Hr. rewrite Z2Nat.id in Hr by lia.
    rewrite (Hdone q Hq) in Hr. destruct Hr as [Hacc Hcells].
    split_and!; [lia|lia| |].
    - rewrite Hacc. apply Hsame.
    - intros c Hc. rewrite Hcells by done. f_equal.
      destruct (decide (c < get_nsymbols_eps fa)).
      + apply Hsame. lia.
      + destruct (ki_entries _ _ _ _ Hkeys _ _ _ Hidx) as [_ Hr].
        rewrite !step_out_of_range; [done|apply Hwf|lia|done| |apply Hwf|lia|done|];
          right; unfold get_nsymbols_eps in *; lia. }
  exists (simple_of fa sr2ss). split_and!.
  2:{ intros k Hk. rewrite Hnso in Hk.
      destruct (lookup_lt_is_Some_2 sr2ss (Z.to_nat k)) as [[r v] Hidx].
      { unfold isize in Hk. lia. }
      pose proof (simple_of_key fa sr2ss nsimple Hkeys _ _ _ Hidx) as Hkey.
      rewrite Z2Nat.id in Hkey by lia.
      destruct (ki_entries _ _ _ _ Hkeys _ _ _ Hidx) as [_ Hr]. by exists r. }
  2:{ intros q1 q2 Hq1 Hq2. split.
      - intros Heq.
        destruct (simple_of_spec fa sr2ss nsimple Hkeys q1 Hq1) as (r1 & Hidx1 & Hsame1 & _).
        destruct (simple_of_spec fa sr2ss nsimple Hkeys q2 Hq2) as (r2 & Hidx2 & Hsame2 & _).
        rewrite Heq, Hidx2 in Hidx1. injection Hidx1 as <-.
        eapply same_row_trans; [by apply same_row_sym|done].
      - intros Hsame. apply (simple_of_same fa sr2ss nsimple Hkeys); [done|lia|done]. }
  split.
  - split.
    + done.
    + rewrite Hnso. destruct (Hrow 0) as [? _]; [pose proof (wf_start _ Hwf); lia|lia].
    + intros k c Hk Hc. rewrite Hnso in *.
      destruct (lookup_lt_is_Some_2 sr2ss (Z.to_nat k)) as [[r v] Hidx].
      { unfold isize in Hk. lia. }
      pose proof (simple_of_key fa sr2ss nsimple Hkeys _ _ _ Hidx) as Hkey.
      rewrite Z2Nat.id in Hkey by lia.
      destruct (ki_entries _ _ _ _ Hkeys _ _ _ Hidx) as [_ Hr].
      destruct (Hrow r Hr) as (_ & _ & Hcells). rewrite Hkey in Hcells.
      rewrite Hcells by lia. unfold simple_cell. case_decide as Hm; [lia|].
      unfold get_nsymbols_eps in Hc. rewrite Hnc in Hc.
      pose proof (wf_cells _ Hwf r c Hr Hc) as Hcell.
      destruct (Hrow (step fa r c)) as [? _]; lia.
    + intros k Hk. rewrite Hnso in *.
      destruct (lookup_lt_is_Some_2 sr2ss (Z.to_nat k)) as [[r v] Hidx].
      { unfold isize in Hk. lia. }
      pose proof (simple_of_key fa sr2ss nsimple Hkeys _ _ _ Hidx) as Hkey.
      rewrite Z2Nat.id in Hkey by lia.
      destruct (ki_entries _ _ _ _ Hkeys _ _ _ Hidx) as [_ Hr].
      destruct (Hrow r Hr) as (_ & Hacc & _). rewrite Hkey in Hacc.
      rewrite Hacc. by apply (wf_tokens _ Hwf).
  - done.
  - done.
  - rewrite Hnso, <- Hcount. apply (ki_bound _ _ _ _ Hkeys).
  - apply (simple_of_start fa Hwf sr2ss nsimple Hkeys).
  - intros q Hq. rewrite Hnso. by apply Hrow.
  - intros q Hq. by apply Hrow.
  - intros q c Hq Hc. destruct (Hrow q Hq) as (_ & _ & Hcells). by apply Hcells.
Qed.

(** A map of [0 .. n-1] onto itself is one-to-one. *)
Lemma onto_injective (h : Z → Z) n :
  (∀ k, 0 ≤ k < n → ∃ r, 0 ≤ r < n ∧ h r = k) →
  ∀ q1 q2, 0 ≤ q1 < n → 0 ≤ q2 < n → h q1 = h q2 → q1 = q2.
Proof.
  intros Honto q1 q2 Hq1 Hq2 Heq.
  set (l := h <$> seqZ 0 n).
  assert (Hsub : seqZ 0 n ⊆+ l).
  { apply NoDup_submseteq; [apply NoDup_seqZ|].
    intros k Hk. apply elem_of_seqZ in Hk.
    destruct (Honto k ltac:(lia)) as (r & Hr & <-).
    apply list_elem_of_fmap. exists r. split; [done|]. apply elem_of_seqZ. lia. }
  assert (Hperm : seqZ 0 n ≡ₚ l).
  { apply submseteq_length_Permutation; [done|]. unfold l. by rewrite length_fmap. }
  assert (Hnd : NoDup l) by (rewrite <- Hperm; apply NoDup_seqZ).
  assert (Hl : ∀ q, 0 ≤ q < n → l !! Z.to_nat q = Some (h q)).
  { intros q Hq. unfold l. rewrite list_lookup_fmap.
    rewrite (proj2 (lookup_seqZ 0 n (Z.to_nat q) q)); [done|]. lia. }
  pose proof (Hl q1 Hq1) as H1. pose proof (Hl q2 Hq2) as H2. rewrite Heq in H1.
  pose proof (NoDup_lookup l _ _ _ Hnd H1 H2). lia.
Qed.

(** A pass that drops no state leaves pairwise different rows. *)
Lemma simplify_once_fixed fa :
  well_formed fa →
  get_nstates fa ≤ get_nstates (finite_automaton.simplify_once fa) →
  ∀ k1 k2, 0 ≤ k1 < get_nstates (finite_automaton.simplify_once fa) →
    0 ≤ k2 < get_nstates (finite_automaton.simplify_once fa) →
    same_row (finite_automaton.simplify_once fa) k1 k2 → k1 = k2.
Proof.
  intros Hwf Hle. destruct (simplify_once_classes fa Hwf) as (h & Hsim & Honto & Hsame).
  set (out := finite_automaton.simplify_once fa) in *.
  pose proof (si_nstates _ _ _ Hsim) as Hge.
  assert (Hn : get_nstates out = get_nstates fa) by lia. rewrite Hn in *.
  assert (Hinj := onto_injective h (get_nstates fa) Honto).
  intros k1 k2 Hk1 Hk2 [Hacc Hcells].
  destruct (Honto k1 Hk1) as (r1 & Hr1 & <-). destruct (Honto k2 Hk2) as (r2 & Hr2 & <-).
  apply Hsame; [done..|]. split.
  - by rewrite <- !(si_accepts _ _ _ Hsim).
  - intros c Hc.
    assert (Hco : 0 ≤ c < get_nsymbols_eps out)
      by (unfold get_nsymbols_eps in *; by rewrite (si_ncols _ _ _ Hsim)).
    specialize (Hcells c Hco). rewrite !(si_step _ _ _ Hsim) in Hcells by (done || lia).
    pose proof (wf_cells _ Hwf r1 c Hr1 Hc) as Hc1.
    pose proof (wf_cells _ Hwf r2 c Hr2 Hc) as Hc2.
    repeat case_decide; try congruence.
    + pose proof (si_range _ _ _ Hsim (step fa r2 c) ltac:(lia)). lia.
    + pose proof (si_range _ _ _ Hsim (step fa r1 c) ltac:(lia)). lia.
    + apply Hinj; [lia..|done].
Qed.

Lemma simplify_loop_distinct fuel fa :
  well_formed fa → (Z.to_nat (get_nstates fa) < fuel)%nat →
  ∃ out, finite_automaton.simplify_loop fuel fa (get_nstates fa) = Some out
         ∧ get_nstates out ≤ get_nstates fa
         ∧ ∀ k1 k2, 0 ≤ k1 < get_nstates out → 0 ≤ k2 < get_nstates out →
             same_row out k1 k2 → k1 = k2.
Proof.
  revert fa. induction fuel as [|fuel IH]; intros fa Hwf Hfuel; [lia|].
  simpl. destruct (simplify_once_spec fa Hwf) as [h Hsim].
  pose proof (si_nstates _ _ _ Hsim) as Hle.
  case_decide as Hlt.
  - destruct (IH (finite_automaton.simplify_once fa)) as (out & Hout & Hn & Hd).
    + apply Hsim.
    + pose proof (get_nstates_nonneg (finite_automaton.simplify_once fa)). lia.
    + exists out. split_and!; [done|lia|done].
  - eexists. split_and!; [done|done|]. apply simplify_once_fixed; [done|lia].
Qed.

(** X11: on a well-formed automaton [simplify] returns (its passes end) a
    well-formed automaton that has no more states than the given one, gives
    the same verdict on every input, and in which no two different states
    have both the same accept token and the same transition row. *)
Theorem simplify_leaves_distinct_rows (fa : finite_automaton) :
  well_formed fa →
  ∃ out, finite_automaton.simplify fa = Some out
         ∧ well_formed out
         ∧ get_nstates out ≤ get_nstates fa
         ∧ (∀ s, Forall (λ c, 0 ≤ c) s → run_dfa out s = run_dfa fa s)
         ∧ ∀ k1 k2, 0 ≤ k1 < get_nstates out → 0 ≤ k2 < get_nstates out →
             same_row out k1 k2 → k1 = k2.
Proof.
  intros Hwf. destruct (simplify_spec fa Hwf) as (out & Hout & Hwfo & _ & _ & Hrun).
  destruct (simplify_loop_distinct (Z.to_nat (get_nstates fa) + 1) fa Hwf ltac:(lia))
    as (out' & Hout' & Hn & Hd).
  unfold finite_automaton.simplify in Hout. rewrite Hout in Hout'. injection Hout' as <-.
  exists out. by split_and!.
Qed.

Lemma simplify_leaves_distinct_rows_witness :
  ∃ out, finite_automaton.simplify zero_or_one_nfa = Some out
         ∧ well_formed out
         ∧ get_nstates out ≤ get_nstates zero_or_one_nfa
         ∧ (∀ s, Forall (λ c, 0 ≤ c) s → run_dfa out s = run_dfa zero_or_one_nfa s)
         ∧ ∀ k1 k2, 0 ≤ k1 < get_nstates out → 0 ≤ k2 < get_nstates out →
             same_row out k1 k2 → k1 = k2.
Proof.
  apply (simplify_leaves_distinct_rows zero_or_one_nfa).
  apply well_formedb_sound. vm_compute. reflexivity.
Defined.

(** ** Paths and runs *)

Lemma path_reaches fa n p s r : path fa n p s r → reaches fa p s r.
Proof.
  induction 1 as [p|n p q s r Hm _ IH|n p c s r Hne _ IH].
  - apply reaches_nil, rtc_refl.
  - eapply reaches_prepend; [by apply rtc_once|done].
  - by eapply reaches_cons; [apply rtc_refl|done..].
Qed.

Lemma path_prepend fa p p' : epsilon_reach fa p p' →
  ∀ n s r, path fa n p' s r → ∃ m, path fa m p s r.
Proof.
  induction 1 as [p|p q p' Hm _ IH]; intros n s r Hp; [eauto|].
  destruct (IH n s r Hp) as [m Hpm]. exists (S m). by eapply path_epsilon.
Qed.

Lemma reaches_path fa p s r : reaches fa p s r → ∃ n, path fa n p s r.
Proof.
  induction 1 as [p r Hr|p p' c q s r Hr Hstep Hne _ [n IH]].
  - apply (path_prepend fa p r Hr 0%nat [] r). constructor.
  - apply (path_prepend fa p p' Hr (S n) (c :: s) r). subst q. by constructor.
Qed.

Lemma reaches_app fa p s1 q s2 r :
  reaches fa p s1 q → reaches fa q s2 r → reaches fa p (s1 ++ s2) r.
Proof.
  induction 1 as [p q Hr|p p' c q' s q Hr Hstep Hne _ IH]; intros H2; simpl.
  - by eapply reaches_prepend.
  - eapply reaches_cons; [done..|]. by apply IH.
Qed.

Lemma reaches_epsilon_after fa p s q r :
  reaches fa p s q → epsilon_reach fa q r → reaches fa p s r.
Proof.
  intros H1 H2. rewrite <- (app_nil_r s). eapply reaches_app; [done|]. by apply reaches_nil.
Qed.

(** A state without transitions is left by no path. *)
Lemma path_dead_state fa p n s r :
  Forall (λ c, 0 ≤ c) s →
  (∀ q, ¬ epsilon_move fa p q) → (∀ c, 0 ≤ c → In c s → step fa p c = -1) →
  path fa n p s r → s = [] ∧ r = p.
Proof.
  intros Hs Heps Hsym Hp. inversion Hp; subst.
  - done.
  - by edestruct Heps.
  - apply Forall_cons in Hs as [Hc _]. exfalso.
    match goal with H : step _ _ _ ≠ -1 |- _ => apply H end.
    apply Hsym; [done|]. by left.
Qed.

(** ** A hosted automaton *)

Section hosted.
Context (out x : finite_automaton) (o : Z) (exit : Z → Prop) `{!∀ i, Decision (exit i)}.
Context (Hwf : well_formed x) (Hh : hosts out x o exit).

Lemma ho_ncols : get_nsymbols_eps out = get_nsymbols x + 2.
Proof.
  pose proof (ho_nsymbols _ _ _ _ Hh) as Hns. unfold get_nsymbols at 1 in Hns.
  rewrite (ho_nfa _ _ _ _ Hh) in Hns. unfold get_nsymbols_eps. lia.
Qed.

Lemma ho_symbol i c :
  0 ≤ i < get_nstates x → 0 ≤ c < get_nsymbols x →
  step out (o + i) c = if decide (step x i c = -1) then -1 else step x i c + o.
Proof.
  intros Hi Hc. pose proof ho_ncols as Hn.
  rewrite (ho_cells _ _ _ _ Hh) by (lia || (left; lia)). unfold copied_cell.
  assert (Hcx : c < get_nsymbols_eps x).
  { unfold get_nsymbols, get_nsymbols_eps in *. destruct (is_deterministic x); lia. }
  pose proof (wf_cells _ Hwf i c Hi ltac:(lia)) as Hcell.
  unfold get_nsymbols_eps in *. repeat case_decide; try done; lia.
Qed.

Lemma ho_epsilon_move i q :
  0 ≤ i < get_nstates x → ¬ exit i →
  epsilon_move out (o + i) q ↔ ∃ j, q = o + j ∧ 0 ≤ j < get_nstates x ∧ epsilon_move x i j.
Proof.
  intros Hi Hne. pose proof ho_ncols as Hn. pose proof (ho_offset _ _ _ _ Hh) as Ho.
  pose proof (shaped_ncols _ (wf_shaped _ Hwf)) as HK.
  assert (He0 : get_epsilon0 out = get_nsymbols x) by (unfold get_epsilon0, get_nsymbols_eps in *; lia).
  assert (He1 : get_epsilon1 out = get_nsymbols x + 1) by (unfold get_epsilon1, get_nsymbols_eps in *; lia).
  assert (Hcell : ∀ e, get_nsymbols x ≤ e < get_nsymbols x + 2 →
            step out (o + i) e =
              if decide (is_deterministic x = false ∧ step x i e ≠ -1)
              then step x i e + o else -1).
  { intros e He. rewrite (ho_cells _ _ _ _ Hh) by (lia || by right). unfold copied_cell.
    destruct (is_deterministic x) eqn:Hdet.
    - rewrite decide_False; [by rewrite decide_False by (intros [? _]; done)|].
      unfold get_nsymbols in He. rewrite Hdet in He. lia.
    - assert (Hex : e < get_nsymbols_eps x).
      { unfold get_nsymbols, get_nsymbols_eps in *. rewrite Hdet in He. lia. }
      pose proof (wf_cells _ Hwf i e Hi ltac:(lia)) as Hc.
      unfold get_nsymbols_eps in *. repeat case_decide; try done; try lia. }
  assert (Hex : is_deterministic x = false →
            get_epsilon0 x = get_nsymbols x ∧ get_epsilon1 x = get_nsymbols x + 1).
  { intros Hdet. unfold get_epsilon0, get_epsilon1, get_nsymbols. rewrite Hdet. lia. }
  split.
  - intros (_ & Hq & Hor). rewrite He0, He1, !Hcell in Hor by lia.
    destruct Hor as [Hor|Hor]; case_decide as Hd; try done;
      destruct Hd as [Hdet Hne']; destruct (Hex Hdet) as [Hx0 Hx1].
    + exists (step x i (get_nsymbols x)). split_and!; [lia| | |].
      * pose proof (wf_cells _ Hwf i (get_nsymbols x) Hi). unfold get_nsymbols_eps, get_epsilon0 in *. lia.
      * pose proof (wf_cells _ Hwf i (get_nsymbols x) Hi). unfold get_nsymbols_eps, get_epsilon0 in *. lia.
      * split_and!; [(done || lia)..|]. left. by rewrite Hx0.
    + exists (step x i (get_nsymbols x + 1)). split_and!; [lia| | |].
      * pose proof (wf_cells _ Hwf i (get_nsymbols x + 1) Hi). unfold get_nsymbols_eps, get_epsilon1 in *. lia.
      * pose proof (wf_cells _ Hwf i (get_nsymbols x + 1) Hi). unfold get_nsymbols_eps, get_epsilon1 in *. lia.
      * split_and!; [(done || lia)..|]. right. by rewrite Hx1.
  - intros (j & -> & Hj & Hdet & Hne' & Hor). destruct (Hex Hdet) as [Hx0 Hx1].
    split_and!; [apply Hh|lia|]. rewrite He0, He1, !Hcell by lia.
    rewrite Hx0, Hx1 in Hor. destruct Hor as [Hor|Hor].
    + left. rewrite decide_True by (split; [done|congruence]). lia.
    + right. rewrite decide_True by (split; [done|congruence]). lia.
Qed.

(** An exit has no epsilon move of its own. *)
Lemma ho_exit_move i j : 0 ≤ i < get_nstates x → exit i → ¬ epsilon_move x i j.
Proof.
  intros Hi He (Hdet & Hne & Hor).
  assert (Hcols : get_epsilon0 x = get_nsymbols x ∧ get_epsilon1 x = get_nsymbols x + 1
                  ∧ get_nsymbols_eps x = get_nsymbols x + 2).
  { unfold get_epsilon0, get_epsilon1, get_nsymbols, get_nsymbols_eps. rewrite Hdet. lia. }
  destruct Hcols as (Hc0 & Hc1 & Hc2).
  destruct Hor as [Hor|Hor]; rewrite <- Hor in Hne; apply Hne;
    apply (ho_exit _ _ _ _ Hh); (done || lia).
Qed.

Lemma host_epsilon_reach i j :
  0 ≤ i < get_nstates x → epsilon_reach x i j →
  epsilon_reach out (o + i) (o + j) ∧ 0 ≤ j < get_nstates x.
Proof.
  intros Hi Hr. induction Hr as [i|i i' j Hm _ IH]; [split; [apply rtc_refl|done]|].
  pose proof Hm as (Hdet & _).
  assert (Hi' : 0 ≤ i' < get_nstates x) by apply (epsilon_move_range x Hwf Hdet i i' Hi Hm).
  destruct (IH Hi') as [Hr Hj]. split; [|done].
  eapply rtc_l; [|done]. apply ho_epsilon_move; [done| |by exists i'].
  intros He. by apply (ho_exit_move i i' Hi He).
Qed.

(** Every run of [x] is a run of [out]. *)
Lemma host_forward s i j :
  is_input x s → 0 ≤ i < get_nstates x → reaches x i s j →
  reaches out (o + i) s (o + j) ∧ 0 ≤ j < get_nstates x.
Proof.
  intros Hs. revert i. induction Hs as [|c s Hc Hs IH]; intros i Hi Hr.
  - apply reaches_nil_inv in Hr. destruct (host_epsilon_reach i j Hi Hr) as [Hr' Hj].
    split; [by apply reaches_nil|done].
  - apply reaches_cons_inv in Hr as (p' & Hp' & Hstep & Hr).
    destruct (host_epsilon_reach i p' Hi Hp') as [Hr' Hp'r].
    assert (Hcx : c < get_nsymbols_eps x).
    { unfold get_nsymbols, get_nsymbols_eps in *. destruct (is_deterministic x); lia. }
    pose proof (wf_cells _ Hwf p' c Hp'r ltac:(lia)) as Hcell.
    destruct (IH (step x p' c) ltac:(lia) Hr) as [Hr'' Hj]. split; [|done].
    pose proof (ho_offset _ _ _ _ Hh) as Ho.
    eapply (reaches_cons _ _ (o + p')); [done|done| |].
    + rewrite ho_symbol by done. rewrite decide_False by done. lia.
    + rewrite ho_symbol by done. rewrite decide_False by done.
      by replace (step x p' c + o) with (o + step x p' c) by lia.
Qed.

(** A path of [out] that starts in the copy of [x] either stays a run of
    [x], or follows a run of [x] to an exit and leaves it there by an epsilon
    move. *)
Lemma host_backward n : ∀ i s r,
  0 ≤ i < get_nstates x → is_input x s → path out n (o + i) s r →
  (∃ j, r = o + j ∧ 0 ≤ j < get_nstates x ∧ reaches x i s j)
  ∨ (∃ s1 s2 e q m, s = s1 ++ s2 ∧ reaches x i s1 e ∧ 0 ≤ e < get_nstates x ∧ exit e
       ∧ epsilon_move out (o + e) q ∧ path out m q s2 r ∧ (m < n)%nat).
Proof.
  induction n as [|n IH]; intros i s r Hi Hs Hp.
  - inversion Hp; subst. left. exists i. split_and!; [(done || lia)..|].
    apply reaches_nil, rtc_refl.
  - inversion Hp as [|n' p q s' r' Hm Hrest|n' p c s' r' Hne Hrest]; subst.
    + destruct (decide (exit i)) as [He|He].
      * right. exists [], s, i, q, n. split_and!; try done; try lia.
        apply reaches_nil, rtc_refl.
      * apply ho_epsilon_move in Hm as (j & -> & Hj & Hm); [|done..].
        destruct (IH j s r Hj Hs Hrest)
          as [(k & -> & Hk & Hr)|(s1 & s2 & e & q & m & -> & Hr & He' & Hex & Hq & Hpm & Hlt)].
        -- left. exists k. split_and!; [(done || lia)..|].
           eapply reaches_prepend; [by apply rtc_once|done].
        -- right. exists s1, s2, e, q, m. split_and!; try done; try lia.
           eapply reaches_prepend; [by apply rtc_once|done].
    + apply Forall_cons in Hs as [Hc Hs].
      rewrite ho_symbol in Hne, Hrest by done. case_decide as Hstep; [done|].
      assert (Hcx : c < get_nsymbols_eps x).
      { unfold get_nsymbols, get_nsymbols_eps in *. destruct (is_deterministic x); lia. }
      pose proof (wf_cells _ Hwf i c Hi ltac:(lia)) as Hcell.
      replace (step x i c + o) with (o + step x i c) in Hrest by lia.
      destruct (IH (step x i c) s' r ltac:(lia) Hs Hrest)
        as [(k & -> & Hk & Hr)|(s1 & s2 & e & q & m & -> & Hr & He' & Hex & Hq & Hpm & Hlt)].
      * left. exists k. split_and!; [(done || lia)..|].
        by eapply reaches_cons; [apply rtc_refl|done..].
      * right. exists (c :: s1), s2, e, q, m. split_and!; try done; try lia.
        by eapply reaches_cons; [apply rtc_refl|done..].
Qed.

End hosted.

(** ** What the combinators build *)

Lemma copied_cell_range y x o i c :
  well_formed x → 0 ≤ i < get_nstates x → 0 ≤ c →
  copied_cell y x o i c = -1 ∨ o ≤ copied_cell y x o i c < o + get_nstates x.
Proof.
  intros Hwf Hi Hc. unfold copied_cell. case_decide as Hd; [|by left].
  destruct Hd as (Hd1 & _ & Hd3). right.
  pose proof (wf_cells _ Hwf i c Hi ltac:(unfold get_nsymbols_eps; lia)). lia.
Qed.

Lemma copied_cell_ncols y y' x o i c :
  get_ncols (table y) = get_ncols (table y') → copied_cell y x o i c = copied_cell y' x o i c.
Proof. intros Hy. unfold copied_cell. by rewrite Hy. Qed.

(** An epsilon cell of an accepting state is empty in the copy too. *)
Lemma copied_cell_no_epsilon y x o i e :
  well_formed x → accepting_without_epsilon x →
  0 ≤ i < get_nstates x → accepts x i ≠ -1 → get_nsymbols x ≤ e →
  copied_cell y x o i e = -1.
Proof.
  intros Hwf HP Hi Hacc He. unfold copied_cell. case_decide as Hd; [|done].
  destruct Hd as (Hd1 & _ & Hd3). rewrite HP in Hd3; [lia|done|done|].
  unfold get_nsymbols_eps. lia.
Qed.

Lemma remove_accept_accepts fa st s :
  shaped fa → 0 ≤ st → 0 ≤ s →
  accepts (remove_accept fa st) s = if decide (s = st ∧ st < get_nstates fa) then -1 else accepts fa s.
Proof. intros. by apply (accepts_add_accept fa st (-1) s). Qed.

Section concat.
Context (a b : finite_automaton) (token : Z).
Context (Hwfa : well_formed a) (Hwfb : well_formed b)
        (Hsym : get_nsymbols b = get_nsymbols a)
        (HPa : accepting_without_epsilon a) (Htoken : 0 ≤ token).

Lemma concat_structure :
  let out := finite_automaton.concat a b token in
  well_formed out
  ∧ get_nstates out = get_nstates a + get_nstates b
  ∧ hosts out a 0 (accepting a)
  ∧ hosts out b (get_nstates a) (λ _, False)
  ∧ (∀ e q, 0 ≤ e < get_nstates a → accepting a e →
       epsilon_move out e q ↔ q = get_nstates a)
  ∧ (∀ i, 0 ≤ i < get_nstates a → accepts out i = -1)
  ∧ (∀ j, 0 ≤ j < get_nstates b →
       accepts out (get_nstates a + j) = if decide (accepts b j = -1) then -1 else token).
Proof.
  unfold finite_automaton.concat.
  pose proof (wf_shaped _ Hwfa) as Ha.
  pose proof (shaped_ncols _ Ha) as Hpos.
  pose proof (wf_start _ Hwfa) as Hna. pose proof (wf_start _ Hwfb) as Hnb.
  set (ns := get_nsymbols a) in *.
  set (out0 := new_automaton ns false).
  assert (H0 : shaped out0) by by apply shaped_new.
  set (x1 := append_states out0 a).
  destruct (append_states_spec out0 a H0) as [H1 Hn1 Hc1 Hd1 Hs1 Ha1].
  fold x1 in H1, Hn1, Hc1, Hd1, Hs1, Ha1.
  set (x2 := append_states x1 b).
  destruct (append_states_spec x1 b H1) as [H2 Hn2 Hc2 Hd2 Hs2 Ha2].
  fold x2 in H2, Hn2, Hc2, Hd2, Hs2, Ha2.
  change (get_nstates out0) with 0 in Hn1, Hs1, Ha1. rewrite Z.add_0_l in Hn1.
  change (get_ncols (table out0)) with (ns + 2) in Hc1.
  change (is_deterministic out0) with false in Hd1.
  rewrite Hn1 in *. rewrite Hc1 in Hc2. rewrite Hd1 in Hd2.
  set (nA := get_nstates a) in *. set (nB := get_nstates b) in *.
  assert (He0 : get_epsilon0 x2 = ns) by (unfold get_epsilon0; lia).
  rewrite He0.
  match goal with |- context [foldl ?g (foldl ?f _ _) _] =>
    set (body1 := f); set (body2 := g) end.
  (* the loop over the accepting states of [a] *)
  set (Inv1 := λ i x, shaped x ∧ get_nstates x = nA + nB
                  ∧ get_ncols (table x) = ns + 2 ∧ is_deterministic x = false
                  ∧ (∀ s c, 0 ≤ s → 0 ≤ c →
                       step x s c = if decide (s < i ∧ accepts a s ≠ -1 ∧ c = ns)
                                    then nA else step x2 s c)
                  ∧ (∀ s, 0 ≤ s →
                       accepts x s = if decide (s < i ∧ accepts a s ≠ -1)
                                     then -1 else accepts x2 s)).
  assert (L1 : Inv1 (0 + nA) (foldl body1 x2 (seqZ 0 nA))).
  { apply foldl_seqZ_inv; [lia| |].
    - unfold Inv1. split_and!; try done.
      + intros s c Hs Hc. by rewrite decide_False by lia.
      + intros s Hs. by rewrite decide_False by lia.
    - intros i x Hi (Hx & Hnx & Hcx & Hdx & Hsx & Hax). unfold body1, Inv1.
      case_decide as Hacc.
      + split_and!.
        * by apply shaped_remove_accept, shaped_add_transition.
        * by rewrite get_nstates_remove_accept, get_nstates_add_transition.
        * done.
        * done.
        * intros s c Hs Hc. rewrite step_remove_accept, step_add_transition by (done || lia).
          rewrite Hsx, Hnx, Hcx by done. repeat case_decide; destruct_and?; subst; try done; lia.
        * intros s Hs. rewrite remove_accept_accepts by (done || lia || by apply shaped_add_transition).
          rewrite get_nstates_add_transition, Hnx.
          rewrite accepts_add_transition.
          rewrite Hax by done. repeat case_decide; destruct_and?; subst; try done; lia.
      + split_and!; try done.
        * intros s c Hs Hc. rewrite Hsx by done.
          repeat case_decide; destruct_and?; subst; try done; try lia.
          exfalso. assert (s = i) by lia. by subst.
        * intros s Hs. rewrite Hax by done.
          repeat case_decide; destruct_and?; subst; try done; try lia.
          exfalso. assert (s = i) by lia. by subst. }
  simpl in L1.
  generalize dependent (foldl body1 x2 (seqZ 0 nA)).
  intros y1 (Hy1 & Hny1 & Hcy1 & Hdy1 & Hsy1 & Hay1).
  (* the loop over the accepting states of [b] *)
  set (Inv2 := λ i x, shaped x ∧ table x = table y1 ∧ is_deterministic x = false
                  ∧ (∀ s, 0 ≤ s →
                       accepts x s = if decide (nA ≤ s < nA + i ∧ accepts b (s - nA) ≠ -1)
                                     then token else accepts y1 s)).
  assert (L2 : Inv2 (0 + nB) (foldl body2 y1 (seqZ 0 nB))).
  { apply foldl_seqZ_inv; [lia| |].
    - unfold Inv2. split_and!; try done.
      intros s Hs. by rewrite decide_False by lia.
    - intros i x Hi (Hx & Htx & Hdx & Hax). unfold body2, Inv2.
      assert (Hnx : get_nstates x = nA + nB) by (unfold get_nstates; by rewrite Htx).
      case_decide as Hacc.
      + split_and!; [by apply shaped_add_accept|done|done|].
        intros s Hs. rewrite accepts_add_accept by (done || lia).
        rewrite Hax, Hnx by done.
        destruct (decide (s = i + nA)) as [->|Hne].
        * rewrite decide_True by lia.
          rewrite decide_True; [done|]. replace (i + nA - nA) with i by lia. split; [lia|done].
        * rewrite (decide_False (P := s = _ ∧ _)) by lia. apply decide_ext.
          split; (intros [? ?]; split; [lia|done]).
      + split_and!; try done.
        intros s Hs. rewrite Hax by done. apply decide_ext.
        split; (intros [? ?]; split; [|done]); [lia|].
        destruct (decide (s = nA + i)) as [->|?]; [|lia].
        exfalso. by replace (nA + i - nA) with i in * by lia. }
  simpl in L2.
  generalize dependent (foldl body2 y1 (seqZ 0 nB)).
  intros out (Hout & Htab & Hdout & Haout).
  assert (Hsout : ∀ s c, step out s c = step y1 s c) by (intros; unfold step; by rewrite Htab).
  assert (Hnout : get_nstates out = nA + nB) by (unfold get_nstates; by rewrite Htab).
  assert (Hcout : get_ncols (table out) = ns + 2) by (by rewrite Htab).
  assert (Hnsout : get_nsymbols out = ns) by (unfold get_nsymbols; rewrite Hcout, Hdout; lia).
  (* the cells of the two blocks *)
  assert (Hblock_a : ∀ i c, 0 ≤ i < nA → 0 ≤ c →
            step out i c = if decide (accepts a i ≠ -1 ∧ c = ns) then nA
                           else copied_cell out a 0 i c).
  { intros i c Hi Hc. rewrite Hsout, Hsy1 by lia.
    rewrite Hs2 by lia. rewrite (decide_True (P := i < nA)) by lia.
    rewrite Hs1 by lia. rewrite (decide_False (P := i < 0)) by lia.
    rewrite (decide_True (P := i < 0 + nA)) by lia.
    replace (i - 0) with i by lia.
    rewrite (copied_cell_ncols out0 out) by (by rewrite Hcout).
    repeat case_decide; destruct_and?; try done; try lia. }
  assert (Hblock_b : ∀ j c, 0 ≤ j < nB → 0 ≤ c →
            step out (nA + j) c = copied_cell out b nA j c).
  { intros j c Hj Hc. rewrite Hsout, Hsy1 by lia. rewrite decide_False by lia.
    rewrite Hs2 by lia. rewrite decide_False by lia. rewrite decide_True by lia.
    replace (nA + j - nA) with j by lia.
    apply copied_cell_ncols. by rewrite Hcout. }
  assert (Hacc_a : ∀ i, 0 ≤ i < nA → accepts out i = -1).
  { intros i Hi. rewrite Haout by lia. rewrite decide_False by lia.
    rewrite Hay1 by lia. case_decide as Hd; [done|].
    rewrite Ha2 by lia. rewrite decide_True by lia.
    rewrite Ha1 by lia. rewrite decide_False by lia. rewrite decide_True by lia.
    replace (i - 0) with i by lia. rewrite copied_token_wf by done.
    destruct (decide (accepts a i = -1)); [done|]. exfalso. apply Hd. split; [lia|done]. }
  assert (Hacc_b : ∀ j, 0 ≤ j < nB →
            accepts out (nA + j) = if decide (accepts b j = -1) then -1 else token).
  { intros j Hj. rewrite Haout by lia. replace (nA + j - nA) with j by lia.
    destruct (decide (accepts b j = -1)) as [Hb|Hb].
    - rewrite decide_False by (intros [_ ?]; done).
      rewrite Hay1 by lia. rewrite decide_False by lia.
      rewrite Ha2 by lia. rewrite decide_False by lia. rewrite decide_True by lia.
      replace (nA + j - nA) with j by lia. by rewrite copied_token_wf.
    - by rewrite decide_True by (split; [lia|done]). }
  split_and!.
  - split; [done|lia| |].
    + intros s c Hs Hc. unfold get_nsymbols_eps in Hc. rewrite Hnout in *.
      destruct (decide (s < nA)) as [Hlt|Hge].
      * rewrite Hblock_a by lia. case_decide; [lia|].
        pose proof (copied_cell_range out a 0 s c Hwfa ltac:(lia) ltac:(lia)) as Hr.
        unfold nA in *. lia.
      * replace s with (nA + (s - nA)) by lia. rewrite Hblock_b by lia.
        pose proof (copied_cell_range out b nA (s - nA) c Hwfb ltac:(lia) ltac:(lia)) as Hr.
        unfold nA, nB in *. lia.
    + intros s Hs. rewrite Hnout in Hs. destruct (decide (s < nA)) as [Hlt|Hge].
      * rewrite Hacc_a; lia.
      * replace s with (nA + (s - nA)) by lia. rewrite Hacc_b by lia. case_decide; lia.
  - done.
  - split; [done|done|done| |].
    + intros i c Hi Hc Hor. fold nA in Hi. rewrite Z.add_0_l. rewrite Hblock_a by lia.
      case_decide as Hd; [|done]. destruct Hd as [Hacc ->]. destruct Hor as [?|Hne]; [lia|].
      by destruct Hne.
    + intros i e Hi Hex He. by apply HPa.
  - split; [lia|done|by rewrite Hsym| |done].
    intros j c Hj Hc _. fold nB in Hj. apply Hblock_b; lia.
  - intros e q He Hacc.
    assert (He0' : get_epsilon0 out = ns) by (unfold get_epsilon0; lia).
    assert (He1' : get_epsilon1 out = ns + 1) by (unfold get_epsilon1; lia).
    assert (Hc0 : step out e ns = nA).
    { rewrite Hblock_a by lia. by rewrite decide_True. }
    assert (Hc1' : step out e (ns + 1) = -1).
    { rewrite Hblock_a by lia. rewrite decide_False by lia.
      apply copied_cell_no_epsilon; (done || lia). }
    split.
    + intros (_ & Hq & Hor). rewrite He0', He1', Hc0, Hc1' in Hor. destruct Hor; lia.
    + intros ->. split_and!; [done|lia|]. left. by rewrite He0'.
  - done.
  - done.
Qed.

Lemma concat_recognizes s :
  is_input a s →
  recognizes (finite_automaton.concat a b token) s
  ↔ ∃ s1 s2, s = s1 ++ s2 ∧ recognizes a s1 ∧ recognizes b s2.
Proof.
  intros Hs. destruct concat_structure as (Hwf & Hn & Hl & Hr & Hexit & Hal & Har).
  pose proof (wf_start _ Hwfa) as Hna. pose proof (wf_start _ Hwfb) as Hnb.
  split.
  - intros (r & Hreach & Hacc). apply reaches_path in Hreach as [n Hp].
    destruct (host_backward _ a 0 (accepting a) Hwfa Hl n 0 s r ltac:(lia) Hs Hp)
      as [(j & -> & Hj & _)|(s1 & s2 & e & q & m & -> & Hr1 & He & Hex & Hq & Hpm & _)].
    + rewrite Z.add_0_l, Hal in Hacc by done. done.
    + rewrite Z.add_0_l in Hq. apply Hexit in Hq; [|done..]. subst q.
      apply Forall_app in Hs as [Hs1 Hs2].
      assert (Hs2b : is_input b s2) by (unfold is_input; by rewrite Hsym).
      replace (get_nstates a) with (get_nstates a + 0) in Hpm by lia.
      destruct (host_backward _ b _ (λ _, False) Hwfb Hr m 0 s2 r ltac:(lia) Hs2b Hpm)
        as [(j & -> & Hj & Hr2)|(? & ? & ? & ? & ? & _ & _ & _ & [] & _)].
      exists s1, s2. split_and!; [done|by exists e|].
      exists j. split; [done|]. rewrite Har in Hacc by done. by case_decide.
  - intros (s1 & s2 & -> & (e & Hr1 & He) & (j & Hr2 & Hj)).
    apply Forall_app in Hs as [Hs1 Hs2].
    assert (Hs2b : is_input b s2) by (unfold is_input; by rewrite Hsym).
    destruct (host_forward _ a 0 (accepting a) Hwfa Hl s1 0 e Hs1 ltac:(lia) Hr1) as [Hf1 Her].
    destruct (host_forward _ b _ (λ _, False) Hwfb Hr s2 0 j Hs2b ltac:(lia) Hr2) as [Hf2 Hjr].
    exists (get_nstates a + j). split.
    + eapply reaches_app; [exact Hf1|]. rewrite Z.add_0_l.
      eapply reaches_prepend; [|by rewrite Z.add_0_r in Hf2].
      apply rtc_once. by apply Hexit.
    + rewrite Har by done. rewrite decide_False by done. lia.
Qed.

End concat.

(** When every accepting state carries the same token, that token is the
    verdict on exactly the recognized inputs. *)
Lemma single_token_accepts out token s :
  well_formed out → is_input out s → token ≠ -1 → accepts_only out token →
  nfa_accepts out s token ↔ recognizes out s.
Proof.
  intros Hwf Hs Htoken Honly. pose proof (wf_start _ Hwf) as Hn. split.
  - intros [[? _]|(_ & (r & Hr & Hacc) & _)]; [done|]. exists r. split; [done|]. congruence.
  - intros (r & Hr & Hacc).
    assert (Hall : ∀ r', reaches out 0 s r' → accepts out r' ≠ -1 → accepts out r' = token).
    { intros r' Hr' Hacc'.
      pose proof (reaches_range out 0 s r' Hwf Hs ltac:(lia) Hr') as Hrange.
      by destruct (Honly r' Hrange). }
    right. split_and!; [done| |].
    + exists r. split; [done|]. by apply Hall.
    + intros r' Hr' Hacc'. rewrite (Hall r' Hr' Hacc'). lia.
Qed.

Section plus.
Context (a : finite_automaton) (token : Z).
Context (Hwfa : well_formed a) (HPa : accepting_without_epsilon a) (Htoken : 0 ≤ token).

Lemma plus_structure :
  let out := finite_automaton.plus a token in
  let N := get_nstates a in
  well_formed out
  ∧ get_nstates out = N + 1
  ∧ hosts out a 0 (accepting a)
  ∧ (∀ e q, 0 ≤ e < N → accepting a e → epsilon_move out e q ↔ q = N ∨ q = 0)
  ∧ (∀ c, 0 ≤ c → step out N c = -1)
  ∧ (∀ i, 0 ≤ i < N → accepts out i = -1)
  ∧ accepts out N = token.
Proof.
  unfold finite_automaton.plus.
  pose proof (wf_shaped _ Hwfa) as Ha.
  pose proof (shaped_ncols _ Ha) as Hpos.
  pose proof (wf_start _ Hwfa) as Hna.
  set (ns := get_nsymbols a) in *.
  set (out0 := new_automaton ns false).
  assert (H0 : shaped out0) by by apply shaped_new.
  set (x1 := append_states out0 a).
  destruct (append_states_spec out0 a H0) as [H1 Hn1 Hc1 Hd1 Hs1 Ha1].
  fold x1 in H1, Hn1, Hc1, Hd1, Hs1, Ha1.
  change (get_nstates out0) with 0 in Hn1, Hs1, Ha1. rewrite Z.add_0_l in Hn1.
  change (get_ncols (table out0)) with (ns + 2) in Hc1.
  change (is_deterministic out0) with false in Hd1.
  rewrite Hn1 in *.
  set (N := get_nstates a) in *.
  set (x2 := add_state x1).
  assert (H2 : shaped x2) by by apply shaped_add_state.
  set (x3 := add_accept x2 N token).
  assert (H3 : shaped x3) by by apply shaped_add_accept.
  assert (Hn3 : get_nstates x3 = N + 1).
  { unfold x3, x2. by rewrite get_nstates_add_accept, get_nstates_add_state, Hn1. }
  assert (Hc3 : get_ncols (table x3) = ns + 2) by (by rewrite <- Hc1).
  assert (Hd3 : is_deterministic x3 = false) by (by rewrite <- Hd1).
  assert (Hs3 : ∀ s c, 0 ≤ s → 0 ≤ c →
            step x3 s c = if decide (s < N) then copied_cell out0 a 0 s c else -1).
  { intros s c Hs Hc. unfold x3. rewrite step_add_accept. unfold x2.
    rewrite step_add_state, Hn1 by done. case_decide; [|done].
    rewrite Hs1 by done. rewrite decide_False by lia. rewrite decide_True by lia.
    by replace (s - 0) with s by lia. }
  assert (Ha3 : ∀ s, 0 ≤ s →
            accepts x3 s = if decide (s = N) then token
                           else if decide (s < N) then accepts a s else -1).
  { intros s Hs. unfold x3. rewrite accepts_add_accept by (done || lia).
    assert (Hn2 : get_nstates x2 = N + 1) by (unfold x2; by rewrite get_nstates_add_state, Hn1).
    rewrite Hn2.
    destruct (decide (s = N)) as [->|Hne].
    - by rewrite decide_True by lia.
    - rewrite decide_False by lia. unfold x2. rewrite accepts_add_state, Hn1 by done.
      case_decide; [|done]. rewrite Ha1 by done.
      rewrite decide_False by lia. rewrite decide_True by lia.
      replace (s - 0) with s by lia. apply copied_token_wf; [done|lia]. }
  assert (He0 : get_epsilon0 x3 = ns) by (unfold get_epsilon0; lia).
  assert (He1 : get_epsilon1 x3 = ns + 1) by (unfold get_epsilon1; lia).
  rewrite He0, He1.
  match goal with |- context [foldl ?f _ _] => set (body := f) end.
  set (Inv := λ i x, shaped x ∧ get_nstates x = N + 1
                 ∧ get_ncols (table x) = ns + 2 ∧ is_deterministic x = false
                 ∧ (∀ s c, 0 ≤ s → 0 ≤ c →
                      step x s c = if decide (s < i ∧ accepts a s ≠ -1 ∧ c = ns) then N
                                   else if decide (s < i ∧ accepts a s ≠ -1 ∧ c = ns + 1)
                                        then 0 else step x3 s c)
                 ∧ (∀ s, 0 ≤ s →
                      accepts x s = if decide (s < i ∧ accepts a s ≠ -1)
                                    then -1 else accepts x3 s)).
  assert (L : Inv (0 + N) (foldl body x3 (seqZ 0 N))).
  { apply foldl_seqZ_inv; [lia| |].
    - unfold Inv. split_and!; try done.
      + intros s c Hs Hc. by rewrite !decide_False by lia.
      + intros s Hs. by rewrite decide_False by lia.
    - intros i x Hi (Hx & Hnx & Hcx & Hdx & Hsx & Hax). unfold body, Inv.
      case_decide as Hacc.
      + assert (Hx' : shaped (add_transition x i ns N)) by by apply shaped_add_transition.
        split_and!.
        * by apply shaped_remove_accept, shaped_add_transition.
        * by rewrite get_nstates_remove_accept, !get_nstates_add_transition.
        * done.
        * done.
        * intros s c Hs Hc. rewrite step_remove_accept, !step_add_transition by (done || lia).
          rewrite get_nstates_add_transition, Hsx, Hnx by done.
          change (get_ncols (table (add_transition x i ns N))) with (get_ncols (table x)).
          rewrite Hcx.
          repeat case_decide; destruct_and?; subst; try done; lia.
        * intros s Hs. rewrite remove_accept_accepts
            by (done || lia || by apply shaped_add_transition).
          rewrite !get_nstates_add_transition, Hnx, !accepts_add_transition.
          rewrite Hax by done. repeat case_decide; destruct_and?; subst; try done; lia.
      + split_and!; try done.
        * intros s c Hs Hc. rewrite Hsx by done.
          assert (Hiff : ∀ P : Prop, (s < i ∧ accepts a s ≠ -1 ∧ P)
                                     ↔ (s < i + 1 ∧ accepts a s ≠ -1 ∧ P)).
          { intros P. split; (intros (? & ? & ?); split_and!; [|done..]); [lia|].
            destruct (decide (s = i)) as [->|?]; [done|lia]. }
          rewrite (decide_ext _ _ _ _ (Hiff (c = ns))).
          by rewrite (decide_ext _ _ _ _ (Hiff (c = ns + 1))).
        * intros s Hs. rewrite Hax by done. apply decide_ext.
          split; (intros (? & ?); split_and!; [|done..]); [lia|].
          destruct (decide (s = i)) as [->|?]; [done|lia]. }
  simpl in L.
  generalize dependent (foldl body x3 (seqZ 0 N)).
  intros out (Hout & Hnout & Hcout & Hdout & Hsout & Haout).
  assert (Hnsout : get_nsymbols out = ns) by (unfold get_nsymbols; rewrite Hcout, Hdout; lia).
  assert (Hblock : ∀ i c, 0 ≤ i < N → 0 ≤ c →
            step out i c = if decide (accepts a i ≠ -1 ∧ c = ns) then N
                           else if decide (accepts a i ≠ -1 ∧ c = ns + 1) then 0
                           else copied_cell out a 0 i c).
  { intros i c Hi Hc. rewrite Hsout, Hs3 by lia.
    rewrite (decide_True (P := i < N)) by lia.
    rewrite (copied_cell_ncols out0 out) by (by rewrite Hcout).
    repeat case_decide; destruct_and?; try done; try lia. }
  assert (Hlast : ∀ c, 0 ≤ c → step out N c = -1).
  { intros c Hc. rewrite Hsout, Hs3 by lia. by rewrite !decide_False by lia. }
  assert (Hacc_a : ∀ i, 0 ≤ i < N → accepts out i = -1).
  { intros i Hi. rewrite Haout, Ha3 by lia.
    rewrite (decide_False (P := i = N)) by lia. rewrite (decide_True (P := i < N)) by lia.
    case_decide as Hd; [done|].
    destruct (decide (accepts a i = -1)); [done|]. exfalso. apply Hd. split; [lia|done]. }
  assert (Hacc_N : accepts out N = token).
  { rewrite Haout, Ha3 by lia. rewrite decide_False by lia. by rewrite decide_True. }
  split_and!.
  - split; [done|lia| |].
    + intros s c Hs Hc. unfold get_nsymbols_eps in Hc. rewrite Hnout in *.
      destruct (decide (s < N)) as [Hlt|Hge].
      * rewrite Hblock by lia. repeat case_decide; try lia.
        pose proof (copied_cell_range out a 0 s c Hwfa ltac:(lia) ltac:(lia)) as Hr.
        unfold N in *. lia.
      * replace s with N by lia. rewrite Hlast; lia.
    + intros s Hs. rewrite Hnout in Hs. destruct (decide (s < N)) as [Hlt|Hge].
      * rewrite Hacc_a; lia.
      * replace s with N by lia. lia.
  - done.
  - split; [done|done|done| |].
    + intros i c Hi Hc Hor. fold N in Hi. rewrite Z.add_0_l. rewrite Hblock by lia.
      destruct Hor as [?|Hne].
      * by rewrite !decide_False by lia.
      * by rewrite !decide_False by (intros [? _]; done).
    + intros i e Hi Hex He. by apply HPa.
  - intros e q He Hacc.
    assert (He0' : get_epsilon0 out = ns) by (unfold get_epsilon0; lia).
    assert (He1' : get_epsilon1 out = ns + 1) by (unfold get_epsilon1; lia).
    assert (Hc0 : step out e ns = N).
    { rewrite Hblock by lia. by rewrite decide_True. }
    assert (Hc1' : step out e (ns + 1) = 0).
    { rewrite Hblock by lia. rewrite decide_False by lia. by rewrite decide_True. }
    split.
    + intros (_ & Hq & Hor). rewrite He0', He1', Hc0, Hc1' in Hor. destruct Hor; auto.
    + intros [-> | ->].
      * split_and!; [done|lia|]. left. by rewrite He0'.
      * split_and!; [done|lia|]. right. by rewrite He1'.
  - done.
  - done.
  - done.
Qed.

Lemma plus_returns n : ∀ s,
  is_input a s → path (finite_automaton.plus a token) n 0 s (get_nstates a) →
  ∃ ss, ss ≠ [] ∧ Forall (recognizes a) ss ∧ s = concat ss.
Proof.
  destruct plus_structure as (Hwf & Hn & Hh & Hexit & Hlast & Hal & HaN).
  pose proof (wf_start _ Hwfa) as Hna.
  induction n as [n IH] using lt_wf_ind. intros s Hs Hp.
  destruct (host_backward _ a 0 (accepting a) Hwfa Hh n 0 s _ ltac:(lia) Hs Hp)
    as [(j & Hj & ? & _)|(s1 & s2 & e & q & m & -> & Hr1 & He & Hex & Hq & Hpm & Hlt)]; [lia|].
  rewrite Z.add_0_l in Hq. apply Hexit in Hq; [|done..].
  apply Forall_app in Hs as [Hs1 Hs2].
  destruct Hq as [-> | ->].
  - apply path_dead_state in Hpm as [-> _].
    + exists [s1]. split_and!; [done| |by simpl].
      apply Forall_singleton. by exists e.
    + eapply Forall_impl; [exact Hs2|]. simpl. lia.
    + intros q (_ & Hq & [Hor|Hor]); rewrite Hlast in Hor.
      * lia.
      * pose proof (ho_ncols _ _ _ _ Hh) as Hc.
        pose proof (shaped_ncols _ (wf_shaped _ Hwfa)).
        unfold get_epsilon0, get_nsymbols_eps in *. lia.
      * lia.
      * pose proof (ho_ncols _ _ _ _ Hh) as Hc.
        pose proof (shaped_ncols _ (wf_shaped _ Hwfa)).
        unfold get_epsilon1, get_nsymbols_eps in *. lia.
    + intros c Hc _. by apply Hlast.
  - destruct (IH m Hlt s2 Hs2 Hpm) as (ss & Hne & Hall & ->).
    exists (s1 :: ss). split_and!; [done| |done].
    apply Forall_cons. split; [by exists e|done].
Qed.

Lemma plus_repeats ss :
  ss ≠ [] → Forall (recognizes a) ss → is_input a (concat ss) →
  reaches (finite_automaton.plus a token) 0 (concat ss) (get_nstates a).
Proof.
  destruct plus_structure as (Hwf & Hn & Hh & Hexit & Hlast & Hal & HaN).
  pose proof (wf_start _ Hwfa) as Hna.
  induction ss as [|s1 ss IH]; [done|]. intros _ Hall Hs.
  apply Forall_cons in Hall as [(e & Hr1 & He) Hall]. simpl in Hs.
  apply Forall_app in Hs as [Hs1 Hs2].
  destruct (host_forward _ a 0 (accepting a) Hwfa Hh s1 0 e Hs1 ltac:(lia) Hr1) as [Hf1 Her].
  rewrite !Z.add_0_l in Hf1. simpl.
  destruct ss as [|s2 ss].
  - simpl. rewrite app_nil_r. eapply reaches_epsilon_after; [done|].
    apply rtc_once, Hexit; [done..|by left].
  - eapply reaches_app; [done|].
    eapply reaches_prepend; [|by apply IH].
    apply rtc_once, Hexit; [done..|by right].
Qed.

Lemma plus_recognizes s :
  is_input a s →
  recognizes (finite_automaton.plus a token) s
  ↔ ∃ ss, ss ≠ [] ∧ Forall (recognizes a) ss ∧ s = concat ss.
Proof.
  intros Hs. destruct plus_structure as (Hwf & Hn & Hh & Hexit & Hlast & Hal & HaN).
  pose proof (wf_start _ Hwfa) as Hna.
  split.
  - intros (r & Hreach & Hacc).
    assert (Hsout : is_input (finite_automaton.plus a token) s).
    { unfold is_input. by rewrite (ho_nsymbols _ _ _ _ Hh). }
    pose proof (reaches_range _ 0 s r Hwf Hsout ltac:(lia) Hreach) as Hr.
    assert (r = get_nstates a) as ->.
    { destruct (decide (r < get_nstates a)); [|lia]. rewrite Hal in Hacc by lia. done. }
    apply reaches_path in Hreach as [n Hp]. by apply (plus_returns n).
  - intros (ss & Hne & Hall & ->). exists (get_nstates a). split.
    + by apply plus_repeats.
    + rewrite HaN. lia.
Qed.

Lemma plus_dead_end : accepting_dead_end (finite_automaton.plus a token).
Proof.
  destruct plus_structure as (Hwf & Hn & Hh & Hexit & Hlast & Hal & HaN).
  intros state c Hstate Hacc Hc.
  destruct (decide (state < get_nstates a)) as [Hlt|Hge].
  - rewrite Hal in Hacc by lia. done.
  - replace state with (get_nstates a) by lia. apply Hlast. lia.
Qed.

Lemma plus_accepts_only : accepts_only (finite_automaton.plus a token) token.
Proof.
  destruct plus_structure as (Hwf & Hn & Hh & Hexit & Hlast & Hal & HaN).
  intros state Hstate.
  destruct (decide (state < get_nstates a)) as [Hlt|Hge].
  - left. apply Hal. lia.
  - right. replace state with (get_nstates a) by lia. done.
Qed.

End plus.

Section maybe.
Context (a : finite_automaton) (token : Z).
Context (Hwfa : well_formed a) (HPa : accepting_without_epsilon a) (Htoken : 0 ≤ token).

Lemma maybe_structure :
  let out := finite_automaton.maybe a token in
  let ns := get_nsymbols a in
  let N := 1 + get_nstates a in
  well_formed out
  ∧ get_nstates out = N + 1
  ∧ hosts out a 1 (accepting a)
  ∧ (∀ c, 0 ≤ c < ns → step out 0 c = -1)
  ∧ step out 0 (ns + 1) = 1
  ∧ (∀ e, 0 ≤ e < get_nstates a → accepting a e → step out (1 + e) (ns + 1) = -1)
  ∧ (∀ c, 0 ≤ c → step out N c = -1)
  ∧ (∀ p, chain_state a (get_nstates a) p →
       p < step out p ns ∧ (step out p ns = N ∨ chain_state a (get_nstates a) (step out p ns)))
  ∧ (∀ s, 0 ≤ s < N → accepts out s = -1)
  ∧ accepts out N = token.
Proof.
  unfold finite_automaton.maybe.
  pose proof (wf_shaped _ Hwfa) as Ha.
  pose proof (shaped_ncols _ Ha) as Hpos.
  pose proof (wf_start _ Hwfa) as Hna.
  set (ns := get_nsymbols a) in *.
  set (out0 := new_automaton ns false).
  assert (H0 : shaped out0) by by apply shaped_new.
  set (x1 := add_state out0).
  assert (H1 : shaped x1) by by apply shaped_add_state.
  assert (Hn1 : get_nstates x1 = 1) by done.
  assert (Hc1 : get_ncols (table x1) = ns + 2) by done.
  set (x2 := append_states x1 a).
  destruct (append_states_spec x1 a H1) as [H2 Hn2 Hc2 Hd2 Hs2 Ha2].
  fold x2 in H2, Hn2, Hc2, Hd2, Hs2, Ha2.
  change (is_deterministic x1) with false in Hd2.
  rewrite Hn1 in *. rewrite Hc1 in Hc2.
  set (nA := get_nstates a) in *.
  set (x3 := add_state x2).
  assert (H3 : shaped x3) by by apply shaped_add_state.
  assert (Hn3 : get_nstates x3 = 1 + nA + 1) by (unfold x3; by rewrite get_nstates_add_state, Hn2).
  assert (Hc3 : get_ncols (table x3) = ns + 2) by (by rewrite <- Hc2).
  assert (He0 : get_epsilon0 x3 = ns) by (unfold get_epsilon0; lia).
  assert (He1 : get_epsilon1 x3 = ns + 1) by (unfold get_epsilon1; lia).
  rewrite He0, He1. change (get_nstates out0) with 0. rewrite Hn2.
  set (x4 := add_transition x3 0 (ns + 1) 1).
  assert (H4 : shaped x4) by by apply shaped_add_transition.
  assert (Hn4 : get_nstates x4 = 1 + nA + 1) by (unfold x4; by rewrite get_nstates_add_transition).
  assert (Hs4 : ∀ s c, 0 ≤ s → 0 ≤ c →
            step x4 s c = if decide (s = 0 ∧ c = ns + 1) then 1
                          else if decide (1 ≤ s < 1 + nA) then copied_cell x1 a 1 (s - 1) c
                          else -1).
  { intros s c Hs Hc. unfold x4. rewrite step_add_transition by (done || lia).
    rewrite Hn3, Hc3. destruct (decide (s = 0 ∧ c = ns + 1)) as [[-> ->]|Hne].
    - by rewrite decide_True by lia.
    - rewrite decide_False by (intros (? & ? & _); tauto).
      unfold x3. rewrite step_add_state, Hn2 by done.
      destruct (decide (1 ≤ s < 1 + nA)) as [Hin|Hout].
      + rewrite decide_True by lia. rewrite Hs2 by done.
        rewrite decide_False by lia. by rewrite decide_True by lia.
      + destruct (decide (s < 1 + nA)); [|done].
        rewrite Hs2 by done. rewrite decide_True by lia.
        unfold x1. rewrite step_add_state by done. by rewrite decide_False by (change (get_nstates out0) with 0; lia). }
  assert (Ha4 : ∀ s, 0 ≤ s →
            accepts x4 s = if decide (1 ≤ s < 1 + nA) then accepts a (s - 1) else -1).
  { intros s Hs. change (accepts x4 s) with (accepts x3 s).
    unfold x3. rewrite accepts_add_state, Hn2 by done.
    destruct (decide (1 ≤ s < 1 + nA)) as [Hin|Hout].
    - rewrite decide_True by lia. rewrite Ha2 by done.
      rewrite decide_False by lia. rewrite decide_True by lia.
      apply copied_token_wf; [done|lia].
    - destruct (decide (s < 1 + nA)); [|done].
      assert (s = 0) as -> by lia.
      rewrite Ha2 by done. by rewrite decide_True by lia. }
  match goal with |- context [foldl ?f _ _] => set (body := f) end.
  set (Inv := λ i (p : finite_automaton * Z),
                 shaped p.1 ∧ get_nstates p.1 = 1 + nA + 1
                 ∧ get_ncols (table p.1) = ns + 2 ∧ is_deterministic p.1 = false
                 ∧ chain_state a i p.2
                 ∧ (∀ s c, 0 ≤ s → 0 ≤ c → ¬ (c = ns ∧ chain_state a i s ∧ s ≠ p.2) →
                      step p.1 s c = step x4 s c)
                 ∧ (∀ s, chain_state a i s → s ≠ p.2 →
                      s < step p.1 s ns ∧ chain_state a i (step p.1 s ns))
                 ∧ (∀ s, 0 ≤ s →
                      accepts p.1 s = if decide (1 ≤ s < 1 + i ∧ accepts a (s - 1) ≠ -1)
                                      then -1 else accepts x4 s)).
  assert (Hmono : ∀ i s, chain_state a i s → chain_state a (i + 1) s).
  { intros i s [->|[? ?]]; [by left|right; split; [lia|done]]. }
  assert (L : Inv (0 + nA) (foldl body (x4, 0) (seqZ 0 nA))).
  { apply foldl_seqZ_inv; [lia| |].
    - unfold Inv. simpl. split_and!; try done.
      + by left.
      + intros s [->|[? _]] Hne; [done|lia].
      + intros s Hs. by rewrite decide_False by lia.
    - intros i [x last] Hi (Hx & Hnx & Hcx & Hdx & Hlast & Hsx & Hlx & Hax). simpl in *.
      unfold body, Inv. case_decide as Hacc; simpl.
      + assert (Hlr : 0 ≤ last < 1 + i) by (destruct Hlast as [->|[? _]]; lia).
        assert (Hx' : shaped (add_transition x last ns (i + 1)))
          by by apply shaped_add_transition.
        split_and!.
        * by apply shaped_remove_accept.
        * by rewrite get_nstates_remove_accept, get_nstates_add_transition.
        * done.
        * done.
        * right. split; [lia|]. by replace (i + 1 - 1) with i by lia.
        * intros s c Hs Hc Hnot. rewrite step_remove_accept.
          rewrite step_add_transition by (done || lia). rewrite Hnx, Hcx.
          rewrite decide_False.
          -- apply Hsx; [done..|]. intros (-> & Hcs & Hne). apply Hnot.
             split_and!; [done|by apply Hmono|].
             destruct Hcs as [->|[? _]]; lia.
          -- intros (-> & -> & _). apply Hnot. split_and!; [done|by apply Hmono|lia].
        * intros s Hcs Hne. rewrite step_remove_accept.
          rewrite step_add_transition by (done || lia || (destruct Hcs as [->|[? _]]; lia)).
          rewrite Hnx, Hcx.
          destruct (decide (s = last)) as [->|Hsl].
          -- rewrite decide_True by lia. split; [lia|].
             right. split; [lia|]. by replace (i + 1 - 1) with i by lia.
          -- rewrite decide_False by (intros (? & _); done).
             assert (Hcs' : chain_state a i s).
             { destruct Hcs as [->|[? ?]]; [by left|]. right. split; [lia|done]. }
             destruct (Hlx s Hcs' Hsl) as [Hlt Hq]. split; [done|by apply Hmono].
        * intros s Hs. rewrite remove_accept_accepts by (done || lia).
          rewrite get_nstates_add_transition, Hnx, accepts_add_transition, Hax by done.
          destruct (decide (s = i + 1)) as [->|Hne].
          -- rewrite decide_True by lia. rewrite decide_True; [done|].
             split; [lia|]. by replace (i + 1 - 1) with i by lia.
          -- rewrite (decide_False (P := s = _ ∧ _)) by lia. apply decide_ext.
             split; (intros [? ?]; split; [lia|done]).
      + assert (Hsame : ∀ s, chain_state a (i + 1) s ↔ chain_state a i s).
        { intros s. split; [|apply Hmono]. intros [->|[? ?]]; [by left|]. right.
          split; [|done]. destruct (decide (s = i + 1)) as [->|?]; [|lia].
          exfalso. by replace (i + 1 - 1) with i in * by lia. }
        split_and!; try done.
        * by apply Hsame.
        * intros s c Hs Hc Hnot. apply Hsx; [done..|]. by rewrite <- Hsame.
        * intros s Hcs Hne. apply Hsame in Hcs. destruct (Hlx s Hcs Hne) as [? ?].
          split; [done|]. by apply Hsame.
        * intros s Hs. rewrite Hax by done. apply decide_ext.
          split; (intros [? ?]; split; [|done]); [lia|].
          destruct (decide (s = i + 1)) as [->|?]; [|lia].
          exfalso. by replace (i + 1 - 1) with i in * by lia. }
  simpl in L.
  destruct (foldl body (x4, 0) (seqZ 0 nA)) as [x last].
  destruct L as (Hx & Hnx & Hcx & Hdx & Hlast & Hsx & Hlx & Hax). simpl in *.
  set (N := 1 + nA) in *.
  assert (Hlr : 0 ≤ last < N) by (destruct Hlast as [->|[? _]]; lia).
  set (y := add_transition x last ns N).
  assert (Hy : shaped y) by by apply shaped_add_transition.
  set (out := add_accept y N token).
  assert (Hout : shaped out) by by apply shaped_add_accept.
  assert (Hnout : get_nstates out = N + 1).
  { unfold out, y. by rewrite get_nstates_add_accept, get_nstates_add_transition. }
  assert (Hcout : get_ncols (table out) = ns + 2) by done.
  assert (Hdout : is_deterministic out = false) by done.
  assert (Hnsout : get_nsymbols out = ns) by (unfold get_nsymbols; rewrite Hcout, Hdout; lia).
  assert (Hsout : ∀ s c, 0 ≤ s → 0 ≤ c →
            step out s c = if decide (s = last ∧ c = ns) then N else step x s c).
  { intros s c Hs Hc. unfold out. rewrite step_add_accept. unfold y.
    rewrite step_add_transition by (done || lia). rewrite Hnx, Hcx.
    apply decide_ext. split; [intros (? & ? & _); done|]. intros [-> ->]. lia. }
  assert (Hother : ∀ s c, 0 ≤ s → 0 ≤ c → ¬ (c = ns ∧ chain_state a nA s) →
            step out s c = step x4 s c).
  { intros s c Hs Hc Hnot. rewrite Hsout by done.
    rewrite decide_False by (intros [-> ->]; apply Hnot; done).
    apply Hsx; [done..|]. intros (? & ? & _). by apply Hnot. }
  assert (Haout : ∀ s, 0 ≤ s → accepts out s = if decide (s = N) then token else -1).
  { intros s Hs. unfold out. rewrite accepts_add_accept by (done || lia).
    assert (Hny : get_nstates y = N + 1) by (unfold y; by rewrite get_nstates_add_transition).
    rewrite Hny.
    destruct (decide (s = N)) as [->|Hne].
    - by rewrite decide_True by lia.
    - rewrite decide_False by (intros [? _]; done).
      unfold y. rewrite accepts_add_transition, Hax, Ha4 by done.
      repeat case_decide; try done.
      destruct (decide (accepts a (s - 1) = -1)); [done|].
      exfalso. match goal with H : ¬ (_ ∧ _) |- _ => apply H end. split; [lia|done]. }
  assert (Hblock : ∀ i c, 0 ≤ i < nA → 0 ≤ c → c < ns ∨ ¬ accepting a i →
            step out (1 + i) c = copied_cell out a 1 i c).
  { intros i c Hi Hc Hor. rewrite Hother; [|lia|lia|].
    - rewrite Hs4 by lia. rewrite decide_False by lia. rewrite decide_True by lia.
      replace (1 + i - 1) with i by lia. by apply copied_cell_ncols.
    - intros (-> & [?|[_ Hacc]]); [lia|]. replace (1 + i - 1) with i in Hacc by lia.
      destruct Hor as [?|Hne]; [lia|]. by apply Hne. }
  assert (Hchain : ∀ p, chain_state a nA p →
            p < step out p ns ∧ (step out p ns = N ∨ chain_state a nA (step out p ns))).
  { intros p Hp.
    assert (0 ≤ p) by (destruct Hp as [->|[? _]]; lia).
    rewrite Hsout by lia. destruct (decide (p = last)) as [->|Hne].
    - rewrite decide_True by done. split; [lia|by left].
    - rewrite decide_False by (intros [? _]; done).
      destruct (Hlx p Hp Hne) as [? ?]. split; [done|by right]. }
  assert (Hstart : ∀ c, 0 ≤ c < ns → step out 0 c = -1).
  { intros c Hc. rewrite Hother; [|lia|lia|].
    + rewrite Hs4 by lia. by rewrite !decide_False by lia.
    + intros [? _]. lia. }
  assert (Hlastrow : ∀ c, 0 ≤ c → step out N c = -1).
  { intros c Hc. rewrite Hother; [|lia|lia|].
    + rewrite Hs4 by lia. by rewrite !decide_False by lia.
    + intros (_ & [?|[? _]]); lia. }
  assert (Hexit1 : ∀ e, 0 ≤ e < nA → accepting a e → step out (1 + e) (ns + 1) = -1).
  { intros e He Hacc. rewrite Hother; [|lia|lia|].
    + rewrite Hs4 by lia. rewrite decide_False by lia. rewrite decide_True by lia.
      replace (1 + e - 1) with e by lia.
      apply copied_cell_no_epsilon; (done || lia).
    + intros [? _]. lia. }
  assert (Hstart1 : step out 0 (ns + 1) = 1).
  { rewrite Hother; [|lia|lia|].
    + rewrite Hs4 by lia. by rewrite decide_True.
    + intros [? _]. lia. }
  split_and!; try done.
  - split; [done|lia| |].
    + intros s c Hs Hc. unfold get_nsymbols_eps in Hc. rewrite Hnout in *.
      destruct (decide (c = ns ∧ chain_state a nA s)) as [[-> Hcs]|Hnot].
      * destruct (Hchain s Hcs) as [Hlt [HN|Hq]]; [lia|].
        destruct Hq as [Hq|[Hq _]]; lia.
      * rewrite Hother by (done || lia). rewrite Hs4 by lia. repeat case_decide; try lia.
        pose proof (copied_cell_range x1 a 1 (s - 1) c Hwfa ltac:(lia) ltac:(lia)) as Hr.
        unfold N, nA in *. lia.
    + intros s Hs. rewrite Haout by lia. case_decide; lia.
  - split; [lia|done|done| |].
    + intros i c Hi Hc Hor. by apply Hblock; [|lia|].
    + intros i e Hi Hex He. by apply HPa.
  - intros s Hs. rewrite Haout by lia. by rewrite decide_False by lia.
  - rewrite Haout by lia. by rewrite decide_True.
Qed.

Context (Hdead : accepting_dead_end a).

Lemma maybe_epsilon_moves p q :
  let out := finite_automaton.maybe a token in
  0 ≤ p → epsilon_move out p q ↔
    q ≠ -1 ∧ (step out p (get_nsymbols a) = q ∨ step out p (get_nsymbols a + 1) = q).
Proof.
  destruct maybe_structure as (Hwf & Hn & Hh & _).
  intros out Hp. pose proof (ho_ncols _ _ _ _ Hh) as Hc. fold out in Hc.
  unfold epsilon_move, get_epsilon0, get_epsilon1. unfold get_nsymbols_eps in Hc.
  rewrite Hc. replace (get_nsymbols a + 2 - 2) with (get_nsymbols a) by lia.
  replace (get_nsymbols a + 2 - 1) with (get_nsymbols a + 1) by lia.
  pose proof (ho_nfa _ _ _ _ Hh). tauto.
Qed.

(** From every state of the chain, epsilon moves lead on to the new
    accepting state. *)
Lemma maybe_chain_reach p :
  chain_state a (get_nstates a) p →
  epsilon_reach (finite_automaton.maybe a token) p (1 + get_nstates a).
Proof.
  destruct maybe_structure
    as (Hwf & Hn & Hh & Hstart & Hstart1 & Hexit1 & Hlast & Hchain & Hacc & HaccN).
  assert (Hk : ∀ k : nat, ∀ p, chain_state a (get_nstates a) p →
            1 + get_nstates a - p ≤ Z.of_nat k →
            epsilon_reach (finite_automaton.maybe a token) p (1 + get_nstates a)).
  { induction k as [|k IH]; intros p' Hp Hle.
    - destruct Hp as [->|[? _]]; pose proof (wf_start _ Hwfa); lia.
    - destruct (Hchain p' Hp) as [Hlt Hor].
      assert (0 ≤ p') by (destruct Hp as [->|[? _]]; lia).
      assert (Hm : epsilon_move (finite_automaton.maybe a token) p'
                     (step (finite_automaton.maybe a token) p' (get_nsymbols a))).
      { apply maybe_epsilon_moves; [done|]. split; [lia|by left]. }
      eapply rtc_l; [exact Hm|]. destruct Hor as [->|Hq]; [apply rtc_refl|].
      apply IH; [done|lia]. }
  intros Hp. apply (Hk (Z.to_nat (1 + get_nstates a - p)) p Hp). lia.
Qed.

(** No path from a state of the chain, the new start state apart, consumes a
    symbol. *)
Lemma maybe_chain_silent n : ∀ p s r,
  is_input a s →
  (chain_state a (get_nstates a) p ∧ p ≠ 0) ∨ p = 1 + get_nstates a →
  path (finite_automaton.maybe a token) n p s r → s = [].
Proof.
  destruct maybe_structure
    as (Hwf & Hn & Hh & Hstart & Hstart1 & Hexit1 & Hlast & Hchain & Hacc & HaccN).
  pose proof (shaped_ncols _ (wf_shaped _ Hwfa)) as Hpos.
  pose proof (get_nstates_nonneg a) as Hna.
  induction n as [|n IH]; intros p s r Hs Hp Hpath.
  - by inversion Hpath.
  - inversion Hpath as [|n' p' q s' r' Hm Hrest|n' p' c s' r' Hne Hrest]; subst.
    + destruct Hp as [[Hcs H0]| ->].
      * assert (Hp1 : 1 ≤ p < 1 + get_nstates a ∧ accepts a (p - 1) ≠ -1)
          by (destruct Hcs as [->|?]; done).
        apply maybe_epsilon_moves in Hm as [Hq Hor]; [|lia].
        specialize (Hexit1 (p - 1) ltac:(lia) (proj2 Hp1)).
        replace (1 + (p - 1)) with p in Hexit1 by lia.
        destruct Hor as [Hor|Hor]; [|lia].
        destruct (Hchain p Hcs) as [Hlt Hq']. rewrite Hor in *.
        apply (IH q s r Hs); [|done].
        destruct Hq' as [->|Hq']; [by right|left; split; [done|lia]].
      * apply maybe_epsilon_moves in Hm as [Hq Hor]; [|lia].
        rewrite !Hlast in Hor by lia. destruct Hor; lia.
    + exfalso. apply Forall_cons in Hs as [Hc Hs]. apply Hne.
      destruct Hp as [[Hcs H0]| ->]; [|apply Hlast; lia].
      assert (Hp1 : 1 ≤ p < 1 + get_nstates a ∧ accepts a (p - 1) ≠ -1)
        by (destruct Hcs as [->|?]; done).
      replace p with (1 + (p - 1)) by lia.
      rewrite (ho_symbol _ a 1 (accepting a) Hwfa Hh) by lia.
      rewrite decide_True; [done|].
      apply Hdead; [lia|apply Hp1|].
      unfold get_nsymbols, get_nsymbols_eps in *. destruct (is_deterministic a); lia.
Qed.

Lemma maybe_recognizes s :
  is_input a s →
  recognizes (finite_automaton.maybe a token) s ↔ s = [] ∨ recognizes a s.
Proof.
  intros Hs.
  destruct maybe_structure
    as (Hwf & Hn & Hh & Hstart & Hstart1 & Hexit1 & Hlast & Hchain & Hacc & HaccN).
  pose proof (wf_start _ Hwfa) as Hna.
  pose proof (shaped_ncols _ (wf_shaped _ Hwfa)) as Hpos.
  split.
  - intros (r & Hreach & Haccr).
    assert (Hsout : is_input (finite_automaton.maybe a token) s).
    { unfold is_input. by rewrite (ho_nsymbols _ _ _ _ Hh). }
    pose proof (reaches_range _ 0 s r Hwf Hsout ltac:(lia) Hreach) as Hr.
    assert (r = 1 + get_nstates a) as ->.
    { destruct (decide (r < 1 + get_nstates a)); [|lia]. rewrite Hacc in Haccr by lia. done. }
    apply reaches_path in Hreach as [n Hp].
    inversion Hp as [|n' p' q s' r' Hm Hrest|n' p' c s' r' Hne Hrest]; subst.
    + lia.
    + apply maybe_epsilon_moves in Hm as [Hq Hor]; [|lia].
      destruct Hor as [Hor|Hor].
      * left. destruct (Hchain 0 ltac:(by left)) as [Hlt Hq']. rewrite Hor in *.
        apply (maybe_chain_silent n' q s (1 + get_nstates a) Hs); [|done].
        destruct Hq' as [->|Hq']; [by right|left; split; [done|lia]].
      * rewrite Hstart1 in Hor. subst q.
        destruct (host_backward _ a 1 (accepting a) Hwfa Hh n' 0 s _ ltac:(lia) Hs Hrest)
          as [(j & Hj & ? & _)|(s1 & s2 & e & q & m & -> & Hr1 & He & Hex & Hq' & Hpm & Hlt)];
          [lia|].
        apply Forall_app in Hs as [Hs1 Hs2].
        apply maybe_epsilon_moves in Hq' as [Hq' Hor]; [|lia].
        rewrite (Hexit1 e He Hex) in Hor. destruct Hor as [Hor|Hor]; [|lia].
        assert (Hcs : chain_state a (get_nstates a) (1 + e)).
        { right. split; [lia|]. by replace (1 + e - 1) with e by lia. }
        destruct (Hchain _ Hcs) as [Hlt' Hq'']. rewrite Hor in *.
        assert (s2 = []) as ->.
        { apply (maybe_chain_silent m q s2 (1 + get_nstates a) Hs2); [|done].
          destruct Hq'' as [->|Hq'']; [by right|left; split; [done|lia]]. }
        right. rewrite app_nil_r. by exists e.
    + apply Forall_cons in Hs as [Hc Hs]. rewrite Hstart in Hne by done. done.
  - intros [->|(e & Hr1 & He)].
    + exists (1 + get_nstates a). split; [|rewrite HaccN; lia].
      apply reaches_nil, maybe_chain_reach. by left.
    + destruct (host_forward _ a 1 (accepting a) Hwfa Hh s 0 e Hs ltac:(lia) Hr1) as [Hf1 Her].
      exists (1 + get_nstates a). split; [|rewrite HaccN; lia].
      eapply reaches_prepend.
      * apply rtc_once. apply maybe_epsilon_moves; [done|].
        split; [|right; exact Hstart1]. lia.
      * eapply reaches_epsilon_after; [exact Hf1|]. apply maybe_chain_reach.
        right. split; [lia|]. by replace (1 + e - 1) with e by lia.
Qed.

Lemma maybe_accepts_only : accepts_only (finite_automaton.maybe a token) token.
Proof.
  destruct maybe_structure
    as (Hwf & Hn & Hh & Hstart & Hstart1 & Hexit1 & Hlast & Hchain & Hacc & HaccN).
  intros state Hstate.
  destruct (decide (state < 1 + get_nstates a)) as [Hlt|Hge].
  - left. apply Hacc. lia.
  - right. replace state with (1 + get_nstates a) by lia. done.
Qed.

End maybe.

Lemma dead_end_without_epsilon a :
  shaped a → accepting_dead_end a → accepting_without_epsilon a.
Proof.
  intros Hsh Hdead state e Hstate Hacc He. apply Hdead; [done..|].
  pose proof (shaped_ncols _ Hsh). lia.
Qed.

Lemma accepting_dead_endb_sound fa : accepting_dead_endb fa = true → accepting_dead_end fa.
Proof.
  unfold accepting_dead_endb. rewrite forallb_seqZ. intros H state c Hstate Hacc Hc.
  specialize (H state ltac:(lia)). apply orb_true_iff in H as [H|H].
  - by apply bool_decide_eq_true in H.
  - rewrite forallb_seqZ in H. specialize (H c ltac:(lia)).
    by apply bool_decide_eq_true in H.
Qed.

(** ** The languages of the combinators *)

(** X3: [unite a b] recognizes an input exactly when [a] or [b] does, and
    when both give a verdict, its verdict is the smaller of the two tokens
    (-1 counting as no token). *)
Theorem unite_recognizes_either (a b : finite_automaton) :
  well_formed a → well_formed b → get_nsymbols b = get_nsymbols a →
  well_formed (finite_automaton.unite a b)
  ∧ get_nsymbols (finite_automaton.unite a b) = get_nsymbols a
  ∧ ∀ s, is_input a s →
      (recognizes (finite_automaton.unite a b) s ↔ recognizes a s ∨ recognizes b s)
      ∧ ∀ ta tb, nfa_accepts a s ta → nfa_accepts b s tb →
          nfa_accepts (finite_automaton.unite a b) s (first_token ta tb).
Proof.
  intros Hwfa Hwfb Hsym.
  pose proof (unite_united a b Hwfa Hwfb Hsym) as Hu.
  pose proof (wf_start _ Hwfa) as Hna. pose proof (wf_start _ Hwfb) as Hnb.
  split_and!; [apply Hu|apply Hu|].
  intros s Hs. split.
  - unfold recognizes. setoid_rewrite (united_reaches a b _ Hwfa Hwfb Hsym Hu s _ Hs). split.
    + intros (r & [[-> ->]|[(j & -> & Hj & Hr)|(j & -> & Hj & Hr)]] & Hacc).
      * by rewrite (un_start_accepts _ _ _ Hu) in Hacc.
      * left. exists j. split; [done|].
        by rewrite (em_accepts _ _ _ (un_left _ _ _ Hu)) in Hacc.
      * right. exists j. split; [done|].
        by rewrite (em_accepts _ _ _ (un_right _ _ _ Hu)) in Hacc.
    + intros [(j & Hr & Hacc)|(j & Hr & Hacc)].
      * assert (Hj : 0 ≤ j < get_nstates a) by (by apply (reaches_range a 0 s j)).
        exists (1 + j). split; [right; left; by exists j|].
        by rewrite (em_accepts _ _ _ (un_left _ _ _ Hu)).
      * assert (Hsb : is_input b s) by (unfold is_input in *; by rewrite Hsym).
        assert (Hj : 0 ≤ j < get_nstates b) by (by apply (reaches_range b 0 s j)).
        exists (1 + get_nstates a + j). split; [right; right; by exists j|].
        by rewrite (em_accepts _ _ _ (un_right _ _ _ Hu)).
  - intros ta tb. by apply united_accepts.
Qed.

Lemma unite_recognizes_either_witness :
  well_formed (finite_automaton.unite zero_nfa one_nfa)
  ∧ get_nsymbols (finite_automaton.unite zero_nfa one_nfa) = get_nsymbols zero_nfa
  ∧ ∀ s, is_input zero_nfa s →
      (recognizes (finite_automaton.unite zero_nfa one_nfa) s
       ↔ recognizes zero_nfa s ∨ recognizes one_nfa s)
      ∧ ∀ ta tb, nfa_accepts zero_nfa s ta → nfa_accepts one_nfa s tb →
          nfa_accepts (finite_automaton.unite zero_nfa one_nfa) s (first_token ta tb).
Proof.
  apply (unite_recognizes_either zero_nfa one_nfa).
  - apply well_formedb_sound. vm_compute. reflexivity.
  - apply well_formedb_sound. vm_compute. reflexivity.
  - vm_compute. reflexivity.
Defined.

(** X4: when no accepting state of [a] has an outgoing epsilon transition,
    [concat a b token] is a well-formed automaton all of whose accepting
    states carry [token], and it accepts an input exactly when the input
    splits into a part recognized by [a] followed by a part recognized by
    [b]. *)
Theorem concat_recognizes_concatenations (a b : finite_automaton) (token : Z) :
  well_formed a → well_formed b → get_nsymbols b = get_nsymbols a →
  accepting_without_epsilon a → 0 ≤ token →
  well_formed (finite_automaton.concat a b token)
  ∧ get_nsymbols (finite_automaton.concat a b token) = get_nsymbols a
  ∧ accepts_only (finite_automaton.concat a b token) token
  ∧ ∀ s, is_input a s →
      (nfa_accepts (finite_automaton.concat a b token) s token
       ↔ ∃ s1 s2, s = s1 ++ s2 ∧ recognizes a s1 ∧ recognizes b s2).
Proof.
  intros Hwfa Hwfb Hsym HPa Htoken.
  destruct (concat_structure a b token Hwfa Hwfb Hsym HPa Htoken)
    as (Hwf & Hn & Hl & Hr & Hexit & Hal & Har).
  assert (Honly : accepts_only (finite_automaton.concat a b token) token).
  { intros state Hstate. rewrite Hn in Hstate.
    destruct (decide (state < get_nstates a)) as [Hlt|Hge].
    - left. apply Hal. lia.
    - replace state with (get_nstates a + (state - get_nstates a)) by lia.
      rewrite Har by lia. case_decide; auto. }
  split_and!; [done|apply Hl|done|].
  intros s Hs. rewrite single_token_accepts; [|done| |lia|done].
  - by apply concat_recognizes.
  - unfold is_input. by rewrite (ho_nsymbols _ _ _ _ Hl).
Qed.

Lemma concat_recognizes_concatenations_witness :
  well_formed (finite_automaton.concat zero_nfa one_nfa 3)
  ∧ get_nsymbols (finite_automaton.concat zero_nfa one_nfa 3) = get_nsymbols zero_nfa
  ∧ accepts_only (finite_automaton.concat zero_nfa one_nfa 3) 3
  ∧ ∀ s, is_input zero_nfa s →
      (nfa_accepts (finite_automaton.concat zero_nfa one_nfa 3) s 3
       ↔ ∃ s1 s2, s = s1 ++ s2 ∧ recognizes zero_nfa s1 ∧ recognizes one_nfa s2).
Proof.
  apply (concat_recognizes_concatenations zero_nfa one_nfa 3).
  - apply well_formedb_sound. vm_compute. reflexivity.
  - apply well_formedb_sound. vm_compute. reflexivity.
  - vm_compute. reflexivity.
  - apply accepting_without_epsilonb_sound. vm_compute. reflexivity.
  - lia.
Defined.

Lemma plus_recognizes_repetitions_aux (a : finite_automaton) (token : Z) :
  well_formed a → accepting_without_epsilon a → 0 ≤ token →
  well_formed (finite_automaton.plus a token)
  ∧ get_nsymbols (finite_automaton.plus a token) = get_nsymbols a
  ∧ accepts_only (finite_automaton.plus a token) token
  ∧ accepting_dead_end (finite_automaton.plus a token)
  ∧ ∀ s, is_input a s →
      (recognizes (finite_automaton.plus a token) s
       ↔ ∃ ss, ss ≠ [] ∧ Forall (recognizes a) ss ∧ s = concat ss).
Proof.
  intros Hwfa HPa Htoken.
  destruct (plus_structure a token Hwfa HPa Htoken) as (Hwf & Hn & Hh & _).
  split_and!; [done|apply Hh|by apply plus_accepts_only|by apply plus_dead_end|].
  intros s Hs. by apply plus_recognizes.
Qed.



(** X6: when the accepting states of [a] have no outgoing transition at all,
    [maybe a token] is a well-formed automaton all of whose accepting states
    carry [token], and it accepts exactly the empty input and the inputs that
    [a] recognizes. *)
Theorem maybe_recognizes_empty_or_operand (a : finite_automaton) (token : Z) :
  well_formed a → accepting_dead_end a → 0 ≤ token →
  well_formed (finite_automaton.maybe a token)
  ∧ get_nsymbols (finite_automaton.maybe a token) = get_nsymbols a
  ∧ accepts_only (finite_automaton.maybe a token) token
  ∧ ∀ s, is_input a s →
      (nfa_accepts (finite_automaton.maybe a token) s token ↔ s = [] ∨ recognizes a s).
Proof.
  intros Hwfa Hdead Htoken.
  assert (HPa : accepting_without_epsilon a)
    by (apply dead_end_without_epsilon; [apply Hwfa|done]).
  destruct (maybe_structure a token Hwfa HPa Htoken) as (Hwf & Hn & Hh & _).
  split_and!; [done|apply Hh|by apply maybe_accepts_only|].
  intros s Hs. rewrite single_token_accepts; [|done| |lia|by apply maybe_accepts_only].
  - by apply maybe_recognizes.
  - unfold is_input. by rewrite (ho_nsymbols _ _ _ _ Hh).
Qed.

Lemma maybe_recognizes_empty_or_operand_witness :
  well_formed (finite_automaton.maybe zero_nfa 3)
  ∧ get_nsymbols (finite_automaton.maybe zero_nfa 3) = get_nsymbols zero_nfa
  ∧ accepts_only (finite_automaton.maybe zero_nfa 3) 3
  ∧ ∀ s, is_input zero_nfa s →
      (nfa_accepts (finite_automaton.maybe zero_nfa 3) s 3 ↔ s = [] ∨ recognizes zero_nfa s).
Proof.
  apply (maybe_recognizes_empty_or_operand zero_nfa 3).
  - apply well_formedb_sound. vm_compute. reflexivity.
  - apply accepting_dead_endb_sound. vm_compute. reflexivity.
  - lia.
Defined.

(** X7: when no accepting state of [a] has an outgoing epsilon transition,
    [star a token] accepts an input exactly when the input is a concatenation
    of zero or more parts that [a] recognizes. *)
Theorem star_recognizes_all_repetitions (a : finite_automaton) (token : Z) :
  well_formed a → accepting_without_epsilon a → 0 ≤ token →
  well_formed (finite_automaton.star a token)
  ∧ get_nsymbols (finite_automaton.star a token) = get_nsymbols a
  ∧ accepts_only (finite_automaton.star a token) token
  ∧ ∀ s, is_input a s →
      (nfa_accepts (finite_automaton.star a token) s token
       ↔ ∃ ss, Forall (recognizes a) ss ∧ s = concat ss).
Proof.
  intros Hwfa HPa Htoken. unfold finite_automaton.star.
  destruct (plus_recognizes_repetitions_aux a token Hwfa HPa Htoken)
    as (Hwfp & Hnsp & Honlyp & Hdeadp & Hp).
  assert (HPp : accepting_without_epsilon (finite_automaton.plus a token))
    by (apply dead_end_without_epsilon; [apply Hwfp|done]).
  destruct (maybe_structure _ token Hwfp HPp Htoken) as (Hwf & Hn & Hh & _).
  split_and!; [done| |by apply maybe_accepts_only|].
  - by rewrite (ho_nsymbols _ _ _ _ Hh).
  - intros s Hs.
    assert (Hsp : is_input (finite_automaton.plus a token) s)
      by (unfold is_input; by rewrite Hnsp).
    rewrite single_token_accepts; [|done| |lia|by apply maybe_accepts_only].
    + rewrite maybe_recognizes by done. rewrite (Hp s Hs). split.
      * intros [->|(ss & _ & Hall & ->)]; [by exists []|by exists ss].
      * intros (ss & Hall & ->). destruct ss as [|s1 ss]; [by left|].
        right. by exists (s1 :: ss).
    + unfold is_input. by rewrite (ho_nsymbols _ _ _ _ Hh).
Qed.

Lemma star_recognizes_all_repetitions_witness :
  well_formed (finite_automaton.star zero_nfa 3)
  ∧ get_nsymbols (finite_automaton.star zero_nfa 3) = get_nsymbols zero_nfa
  ∧ accepts_only (finite_automaton.star zero_nfa 3) 3
  ∧ ∀ s, is_input zero_nfa s →
      (nfa_accepts (finite_automaton.star zero_nfa 3) s 3
       ↔ ∃ ss, Forall (recognizes zero_nfa) ss ∧ s = concat ss).
Proof.
  apply (star_recognizes_all_repetitions zero_nfa 3).
  - apply well_formedb_sound. vm_compute. reflexivity.
  - apply accepting_without_epsilonb_sound. vm_compute. reflexivity.
  - lia.
Defined.

(** ** FIRST of a string *)

(** X12: with the FIRST sets that [compute_first_sets] returns,
    [get_first_set_of_string] gives the FIRST set of any string of grammar
    symbols: a terminal is in it exactly when the string derives a string
    that starts with that terminal, [FIRST_NULL] exactly when the string
    derives the empty string, and it has no other member.  For the empty
    string it is [{FIRST_NULL}]. *)
Theorem get_first_set_of_string_correct (g : grammar.t) :
  grammar_ok g →
  ∃ first_sets,
    compute_first_sets g = Some first_sets
    ∧ get_first_set_of_string [] first_sets = {[FIRST_NULL]}
    ∧ ∀ string, Forall (λ symbol, 0 ≤ symbol < grammar.nsymbols g) string →
        (∀ t, 0 ≤ t < grammar.nterminals g →
           (t ∈ get_first_set_of_string string first_sets
            ↔ ∃ γ, derives g string (t :: γ)))
        ∧ (FIRST_NULL ∈ get_first_set_of_string string first_sets ↔ derives g string [])
        ∧ (∀ x, x ∈ get_first_set_of_string string first_sets →
             x = FIRST_NULL ∨ 0 ≤ x < grammar.nterminals g).
Proof.
  intros Hok. destruct (compute_first_sets_spec g Hok) as (F & HF & Hinv).
  exists F. split; [done|]. split; [set_solver|]. intros string Hstring.
  destruct Hinv as [Hlen Hmem Hsound _ Hterm Hclosed].
  assert (Hterm' : ∀ t, 0 ≤ t < grammar.nterminals g → t ∈ first_set_at F t).
  { intros t Ht. destruct (Hterm t Ht) as [?|Hin]; [done|]. by apply elem_of_nil in Hin. }
  assert (Hclosed' : ∀ p x, p ∈ grammar.productions g →
            string_first F (grammar.rhs p) x → x ∈ first_set_at F (grammar.lhs p)).
  { intros p x Hp Hx. destruct (Hclosed p x Hp Hx) as [?|Hin]; [done|].
    by apply elem_of_nil in Hin. }
  assert (Hs : ∀ x, x ∈ get_first_set_of_string string F → first_of g string x).
  { intros x Hx. apply elem_of_get_first_set_of_string in Hx.
    apply (string_first_sound g F); [|done].
    intros A s HA Hin. apply Hsound; [|done].
    by apply (proj1 (Forall_forall _ _) Hstring). }
  split_and!.
  - intros t Ht. split.
    + intros Hin. destruct (Hs t Hin) as [[-> _]|[_ Hd]]; [|done].
      unfold FIRST_NULL in Ht. lia.
    + intros [γ Hd]. apply elem_of_get_first_set_of_string.
      by apply (string_first_complete g F string (t :: γ) Hterm' Hclosed' Hd) with γ.
  - split.
    + intros Hin. destruct (Hs _ Hin) as [[_ Hd]|[Ht _]]; [done|].
      unfold FIRST_NULL in Ht. lia.
    + intros Hd. apply elem_of_get_first_set_of_string.
      by apply (string_first_complete g F string [] Hterm' Hclosed' Hd).
  - intros x Hx. destruct (Hs x Hx) as [[-> _]|[Ht _]]; [by left|by right].
Qed.

Lemma get_first_set_of_string_correct_witness :
  ∃ first_sets,
    compute_first_sets nullable_grammar = Some first_sets
    ∧ get_first_set_of_string [] first_sets = {[FIRST_NULL]}
    ∧ ∀ string, Forall (λ symbol, 0 ≤ symbol < grammar.nsymbols nullable_grammar) string →
        (∀ t, 0 ≤ t < grammar.nterminals nullable_grammar →
           (t ∈ get_first_set_of_string string first_sets
            ↔ ∃ γ, derives nullable_grammar string (t :: γ)))
        ∧ (FIRST_NULL ∈ get_first_set_of_string string first_sets
           ↔ derives nullable_grammar string [])
        ∧ (∀ x, x ∈ get_first_set_of_string string first_sets →
             x = FIRST_NULL ∨ 0 ≤ x < grammar.nterminals nullable_grammar).
Proof.
  apply (get_first_set_of_string_correct nullable_grammar).
  apply grammar_okb_sound. vm_compute. reflexivity.
Defined.

(** ** Configurations *)

Lemma foldl_snoc_fmap {A B} (f : B → A) (l : list B) (acc : list A) :
  foldl (λ out j, out ++ [f j]) acc l = acc ++ (f <$> l).
Proof.
  revert acc. induction l as [|x l IH]; intros acc; simpl.
  - by rewrite app_nil_r.
  - by rewrite IH, <-app_assoc.
Qed.

(** [make_configs] lists, production by production, the configurations of
    every position of the dot. *)
Lemma make_configs_blocks g :
  make_configs g
  = concat ((λ i, mkConfig i <$> seqZ 0 (isize (grammar.rhs (prod_at g i)) + 1))
              <$> seqZ 0 (isize (grammar.productions g))).
Proof.
  unfold make_configs. rewrite <- (app_nil_l (concat _)).
  rewrite <- (foldl_app_concat (λ i, mkConfig i <$> _)).
  apply foldl_pointwise. intros out i. apply foldl_snoc_fmap.
Qed.

(** In a concatenation of blocks, the element after one that is not the last
    of its block is the next of the block. *)
Lemma lookup_concat_block {A} (ls : list (list A)) (k : nat) (x : A) :
  concat ls !! k = Some x →
  ∃ (b : nat) blk (j : nat),
    ls !! b = Some blk ∧ blk !! j = Some x
    ∧ ∀ y, blk !! S j = Some y → concat ls !! S k = Some y.
Proof.
  revert k. induction ls as [|l ls IH]; intros k Hk; [by destruct k|].
  rewrite concat_cons in *. apply lookup_app_Some in Hk as [Hk|[Hlen Hk]].
  - exists 0%nat, l, k. split_and!; [done..|]. intros y Hy. by apply lookup_app_l_Some.
  - destruct (IH _ Hk) as (b & blk & j & Hb & Hj & Hnext).
    exists (S b), blk, j. split_and!; [done..|]. intros y Hy.
    apply lookup_app_Some. right. split; [lia|].
    replace (S k - length l)%nat with (S (k - length l)) by lia. by apply Hnext.
Qed.

Lemma elem_of_make_configs g c :
  c ∈ make_configs g ↔
  0 ≤ production c < isize (grammar.productions g)
  ∧ 0 ≤ dot c ≤ isize (grammar.rhs (prod_at g (production c))).
Proof.
  rewrite make_configs_blocks. rewrite elem_of_concat. split.
  - intros (blk & Hc & Hblk). apply list_elem_of_fmap in Hblk as (i & -> & Hi).
    apply list_elem_of_fmap in Hc as (j & -> & Hj).
    apply elem_of_seqZ in Hi, Hj. simpl. lia.
  - intros [Hp Hd]. exists (mkConfig (production c) <$> seqZ 0 (isize (grammar.rhs (prod_at g (production c))) + 1)).
    split.
    + apply list_elem_of_fmap. exists (dot c). split; [by destruct c|]. apply elem_of_seqZ. lia.
    + apply list_elem_of_fmap. exists (production c). split; [done|]. apply elem_of_seqZ. lia.
Qed.

(** X13: [make_configs] lists exactly the configurations (production, dot)
    with the dot at a position of the right-hand side or at its end, and
    stores them so that the configuration with the dot moved one symbol to
    the right sits at the next index, as [build_lr0_parser] assumes when it
    takes [config_i + 1] for the successor. *)
Theorem make_configs_successor_is_next_index (g : grammar.t) :
  (∀ c, c ∈ make_configs g ↔
        0 ≤ production c < isize (grammar.productions g)
        ∧ 0 ≤ dot c ≤ isize (grammar.rhs (prod_at g (production c))))
  ∧ ∀ config_i,
      0 ≤ config_i < isize (make_configs g) →
      dot (config_at (make_configs g) config_i)
        < isize (grammar.rhs (prod_at g (production (config_at (make_configs g) config_i)))) →
      config_i + 1 < isize (make_configs g)
      ∧ config_at (make_configs g) (config_i + 1)
        = mkConfig (production (config_at (make_configs g) config_i))
                   (dot (config_at (make_configs g) config_i) + 1).
Proof.
  split; [apply elem_of_make_configs|].
  intros config_i Hi Hdot.
  destruct (lookup_lt_is_Some_2 (make_configs g) (Z.to_nat config_i)) as [c Hc].
  { unfold isize in Hi. lia. }
  assert (Hat : config_at (make_configs g) config_i = c).
  { unfold config_at. by rewrite at_default, Hc. }
  rewrite Hat in *.
  pose proof Hc as Hc'. rewrite make_configs_blocks in Hc'.
  apply lookup_concat_block in Hc' as (b & blk & j & Hb & Hj & Hnext).
  rewrite <- make_configs_blocks in Hnext.
  rewrite list_lookup_fmap in Hb.
  destruct (seqZ 0 (isize (grammar.productions g)) !! b) as [i|] eqn:Hi'; [|done].
  injection Hb as <-.
  rewrite list_lookup_fmap in Hj.
  destruct (seqZ 0 (isize (grammar.rhs (prod_at g i)) + 1) !! j) as [d|] eqn:Hd; [|done].
  injection Hj as <-. simpl in Hdot.
  apply lookup_seqZ in Hd as [-> Hjlt].
  assert (Hn : make_configs g !! S (Z.to_nat config_i) = Some (mkConfig i (0 + Z.of_nat j + 1))).
  { apply Hnext. rewrite list_lookup_fmap.
    rewrite (proj2 (lookup_seqZ 0 _ (S j) (0 + Z.of_nat j + 1))); [done|]. lia. }
  replace (S (Z.to_nat config_i)) with (Z.to_nat (config_i + 1)) in Hn by lia.
  split.
  - apply lookup_lt_Some in Hn. unfold isize. lia.
  - unfold config_at. by rewrite at_default, Hn.
Qed.

(** ** [close] *)

Section close.
Context (cs : list config) (g : grammar.t) (lhs2sc : list (list Z)).
Context (Hedges : ∀ symbol sc, sc ∈ get_edges lhs2sc symbol → 0 ≤ sc < isize cs).

(** The inner loop pushes the listed configurations that are new. *)
Lemma close_push_spec (edges : list Z) : ∀ (config_set : gset Z) (config_q : list Z),
  ∃ l, foldl (λ '(config_set, config_q) sc,
                if decide (sc ∈ config_set) then (config_set, config_q)
                else ({[sc]} ∪ config_set, config_q ++ [sc]))
             (config_set, config_q) edges
       = (list_to_set l ∪ config_set, config_q ++ l)
       ∧ (size (list_to_set l ∪ config_set) = length l + size config_set)%nat
       ∧ (∀ x, x ∈ l → x ∈ edges)
       ∧ (∀ x, x ∈ edges → x ∈ (list_to_set l ∪ config_set : gset Z)).
Proof.
  induction edges as [|e edges IH]; intros config_set config_q.
  - exists []. simpl. rewrite app_nil_r, union_empty_l_L. split_and!; [done..| |].
    + intros x Hx. by apply elem_of_nil in Hx.
    + intros x Hx. by apply elem_of_nil in Hx.
  - cbn [foldl]. destruct (decide (e ∈ config_set)) as [Hin|Hni].
    + destruct (IH config_set config_q) as (l & -> & Hsize & Hl & Hall).
      exists l. split_and!; [done..| |].
      * intros x Hx. right. by apply Hl.
      * intros x Hx. apply elem_of_cons in Hx as [->|Hx]; [set_solver|by apply Hall].
    + destruct (IH ({[e]} ∪ config_set) (config_q ++ [e])) as (l & -> & Hsize & Hl & Hall).
      exists (e :: l).
      assert (Heq : list_to_set (e :: l) ∪ config_set
                    = list_to_set l ∪ ({[e]} ∪ config_set) :> gset Z).
      { simpl. apply set_eq. intros x. rewrite !elem_of_union. tauto. }
      rewrite Heq, <- app_assoc. split_and!; [done| | |].
      * rewrite Hsize, size_union, size_singleton by set_solver. simpl. lia.
      * intros x Hx. apply elem_of_cons in Hx as [->|Hx]; [by left|right; by apply Hl].
      * intros x Hx. apply elem_of_cons in Hx as [->|Hx]; [set_solver|by apply Hall].
Qed.

Lemma range_size (s : gset Z) :
  (∀ x, x ∈ s → 0 ≤ x < isize cs) → (size s ≤ length cs)%nat.
Proof.
  intros H.
  assert (Hsub : s ⊆ list_to_set (seqZ 0 (isize cs))).
  { intros x Hx. apply elem_of_list_to_set, elem_of_seqZ. specialize (H x Hx). lia. }
  apply subseteq_size in Hsub.
  rewrite size_list_to_set in Hsub by apply NoDup_seqZ.
  rewrite length_seqZ in Hsub. unfold isize in Hsub. lia.
Qed.

Lemma close_loop_spec (init : list Z) fuel : ∀ (config_set : gset Z) (config_q : list Z),
  list_to_set init ⊆ config_set →
  (∀ x, x ∈ config_set → 0 ≤ x < isize cs) →
  (∀ x, x ∈ config_set → ∃ c0, c0 ∈ init ∧ rtc (expands cs g lhs2sc) c0 x) →
  (∀ x, x ∈ config_q → x ∈ config_set) →
  (∀ p r, p ∈ config_set → p ∉ config_q → expands cs g lhs2sc p r → r ∈ config_set) →
  (length config_q + (length cs - size config_set) < fuel)%nat →
  ∃ closed, close_loop fuel cs g lhs2sc config_set config_q = Some closed
            ∧ ∀ x, x ∈ closed ↔ ∃ c0, c0 ∈ init ∧ rtc (expands cs g lhs2sc) c0 x.
Proof.
  induction fuel as [|fuel IH]; intros config_set config_q H1 H2 H3 H4 H5 Hfuel; [lia|].
  destruct config_q as [|config_i config_q].
  - simpl. exists config_set. split; [done|]. intros x. split; [apply H3|].
    intros (c0 & Hc0 & Hr).
    assert (Hin : c0 ∈ config_set) by (apply H1; by apply elem_of_list_to_set).
    clear Hc0. induction Hr as [|p p' x Hm _ IHr]; [done|].
    apply IHr. eapply H5; [done| |done]. apply not_elem_of_nil.
  - cbn [close_loop].
    assert (Hci : config_i ∈ config_set) by (apply H4; left).
    assert (Hskip : (∀ r, ¬ expands cs g lhs2sc config_i r) →
              ∃ closed, close_loop fuel cs g lhs2sc config_set config_q = Some closed
                        ∧ ∀ x, x ∈ closed ↔ ∃ c0, c0 ∈ init ∧ rtc (expands cs g lhs2sc) c0 x).
    { intros Hnone. apply IH; try done.
      - intros x Hx. apply H4. by right.
      - intros p r Hp Hq Hm. destruct (decide (p = config_i)) as [->|Hne].
        + by destruct (Hnone r).
        + eapply H5; [done| |done]. intros Hin. apply Hq.
          by apply elem_of_cons in Hin as [?|Hin].
      - simpl in Hfuel. lia. }
    destruct (symbol_after_dot cs g config_i) as [symbol|] eqn:Hsym.
    2:{ apply Hskip. intros r (symbol & Hs & _). congruence. }
    destruct (is_terminal g symbol) eqn:Hterm.
    { apply Hskip. intros r (symbol' & Hs & Ht & _). congruence. }
    destruct (close_push_spec (get_edges lhs2sc symbol) config_set config_q)
      as (l & -> & Hsize & Hl & Hall).
    assert (Hrange : ∀ x, x ∈ (list_to_set l ∪ config_set : gset Z) → 0 ≤ x < isize cs).
    { intros x Hx. apply elem_of_union in Hx as [Hx|Hx]; [|by apply H2].
      apply elem_of_list_to_set in Hx. by apply (Hedges symbol), Hl. }
    apply IH.
    + set_solver.
    + done.
    + intros x Hx. apply elem_of_union in Hx as [Hx|Hx]; [|by apply H3].
      apply elem_of_list_to_set in Hx.
      destruct (H3 config_i Hci) as (c0 & Hc0 & Hr). exists c0. split; [done|].
      eapply rtc_r; [done|]. exists symbol. split_and!; [done..|]. by apply Hl.
    + intros x Hx. apply elem_of_app in Hx as [Hx|Hx].
      * apply elem_of_union_r, H4. by right.
      * apply elem_of_union_l. by apply elem_of_list_to_set.
    + intros p r Hp Hpq Hm.
      destruct (decide (p = config_i)) as [->|Hne].
      * destruct Hm as (symbol' & Hs & _ & Hin). rewrite Hsym in Hs. injection Hs as <-.
        by apply Hall.
      * apply elem_of_union in Hp as [Hp|Hp].
        -- apply elem_of_list_to_set in Hp. exfalso. apply Hpq. set_solver.
        -- apply elem_of_union_r. eapply H5; [done| |done].
           intros Hin. apply Hpq. apply elem_of_cons in Hin as [?|Hin]; [done|]. set_solver.
    + pose proof (range_size _ Hrange). rewrite length_app. simpl in Hfuel. lia.
Qed.

Lemma close_spec (state : state_in_progress) :
  (∀ c, c ∈ configs state → 0 ≤ c < isize cs) →
  ∃ closed, close state cs g lhs2sc = Some closed
            ∧ actions closed = actions state
            ∧ NoDup (configs closed)
            ∧ ∀ x, x ∈ configs closed
                   ↔ ∃ c0, c0 ∈ configs state ∧ rtc (expands cs g lhs2sc) c0 x.
Proof.
  intros Hrange. unfold close.
  destruct (close_loop_spec (configs state) (length (configs state) + length cs + 1)
              (list_to_set (configs state)) (configs state)) as (C & -> & HC).
  - done.
  - intros x Hx. apply Hrange. by apply elem_of_list_to_set in Hx.
  - intros x Hx. exists x. split; [by apply elem_of_list_to_set in Hx|apply rtc_refl].
  - intros x Hx. by apply elem_of_list_to_set.
  - intros p r Hp Hq. by apply elem_of_list_to_set in Hp.
  - lia.
  - simpl. eexists. split_and!; [done|done|apply NoDup_ordered|].
    intros x. simpl. rewrite elem_of_ordered. apply HC.
Qed.

End close.

(** ** The start configurations of a left-hand side *)

Lemma foldl_unless {A B} (P : B → Prop) `{!∀ x, Decision (P x)} (f : A → B → A)
    (l : list B) (a : A) :
  foldl (λ a x, if decide (P x) then a else f a x) a l
  = foldl f a (filter (λ x, ¬ P x) l).
Proof.
  revert a. induction l as [|x l IH]; intros a; [done|]. cbn [foldl].
  destruct (decide (P x)) as [HP|HP].
  - rewrite filter_cons_False by tauto. apply IH.
  - rewrite filter_cons_True by done. cbn [foldl]. apply IH.
Qed.

Lemma get_edges_nat (G : list (list Z)) i :
  get_edges G i = get_edges G (Z.of_nat (Z.to_nat i)).
Proof. unfold get_edges, at_. by rewrite Nat2Z.id. Qed.

Section start_configs.
Context (g : grammar.t) (Hok : grammar_ok g).

Lemma prod_at_lhs_nonneg prod_i : 0 ≤ grammar.lhs (prod_at g prod_i).
Proof.
  unfold prod_at. rewrite at_default.
  destruct (grammar.productions g !! Z.to_nat prod_i) as [p|] eqn:E; simpl; [|done].
  pose proof (ok_terminals g Hok).
  pose proof (ok_lhs g Hok p ltac:(by eapply list_elem_of_lookup_2)). lia.
Qed.

Lemma get_left_hand_sides_to_start_configs_spec (cs : list config) symbol sc :
  0 ≤ symbol →
  sc ∈ get_edges (get_left_hand_sides_to_start_configs cs g) symbol ↔
  symbol < grammar.nsymbols g ∧ 0 ≤ sc < isize cs ∧ dot (config_at cs sc) ≤ 0
  ∧ grammar.lhs (prod_at g (production (config_at cs sc))) = symbol.
Proof.
  intros Hs. unfold get_left_hand_sides_to_start_configs.
  rewrite (foldl_unless (λ c_i, dot (config_at cs c_i) > 0)
             (λ lhs2sc c_i, add_edge lhs2sc
                (grammar.lhs (prod_at g (production (config_at cs c_i)))) c_i)).
  pose proof (add_edges_spec
                (λ c_i, grammar.lhs (prod_at g (production (config_at cs c_i)))) (λ c_i, c_i)
                (filter (λ c_i, ¬ dot (config_at cs c_i) > 0) (seqZ 0 (isize cs)))
                (make_graph_with_nnodes (grammar.nsymbols g))) as [_ Hedges].
  { intros k _. apply prod_at_lhs_nonneg. }
  pose proof (ok_terminals g Hok) as Hnt.
  rewrite Hedges by done. rewrite get_edges_make_graph, isize_make_graph by lia.
  split.
  - intros [Hin|(Hlt & k & Hk & Hsrc & ->)]; [by apply elem_of_nil in Hin|].
    apply list_elem_of_filter in Hk as [Hdot Hk]. apply elem_of_seqZ in Hk.
    split_and!; [done|lia|lia|lia|done].
  - intros (Hlt & Hsc & Hdot & Hlhs). right. split; [done|]. exists sc.
    split_and!; [|done..]. apply list_elem_of_filter. split; [lia|].
    apply elem_of_seqZ. lia.
Qed.

Lemma start_configs_in_range (cs : list config) symbol sc :
  sc ∈ get_edges (get_left_hand_sides_to_start_configs cs g) symbol → 0 ≤ sc < isize cs.
Proof.
  rewrite get_edges_nat. intros Hin.
  apply get_left_hand_sides_to_start_configs_spec in Hin; [tauto|lia].
Qed.

Lemma config_at_make_configs config_i :
  0 ≤ config_i < isize (make_configs g) → config_at (make_configs g) config_i ∈ make_configs g.
Proof.
  intros Hi. unfold config_at, at_, isize in *. apply list_elem_of_In, nth_In. lia.
Qed.

(** The symbol after the dot of a configuration is a symbol of the grammar. *)
Lemma symbol_after_dot_range config_i symbol :
  0 ≤ config_i < isize (make_configs g) →
  symbol_after_dot (make_configs g) g config_i = Some symbol →
  0 ≤ symbol < grammar.nsymbols g.
Proof.
  intros Hi. unfold symbol_after_dot. case_decide as Hd; [done|]. intros [= <-].
  pose proof (config_at_make_configs config_i Hi) as Hc.
  apply elem_of_make_configs in Hc as [Hp Hdot].
  apply (ok_rhs g Hok (prod_at g (production (config_at (make_configs g) config_i)))).
  - by apply prod_at_elem.
  - unfold at_, isize in *. apply list_elem_of_In, nth_In. lia.
Qed.

Lemma expands_lr0 config_i sc :
  0 ≤ config_i < isize (make_configs g) →
  expands (make_configs g) g (get_left_hand_sides_to_start_configs (make_configs g) g)
          config_i sc
  ↔ lr0_expands g config_i sc.
Proof.
  intros Hi. unfold expands, lr0_expands. cbn zeta. split.
  - intros (symbol & Hs & Ht & Hin).
    pose proof (symbol_after_dot_range config_i symbol Hi Hs) as Hr.
    apply get_left_hand_sides_to_start_configs_spec in Hin as (_ & Hsc & Hdot & Hlhs); [|lia].
    exists symbol. split_and!; try done; try lia.
    pose proof (config_at_make_configs sc Hsc) as Hc.
    apply elem_of_make_configs in Hc. lia.
  - intros (symbol & Hs & Ht & Hsc & Hdot & Hlhs).
    pose proof (symbol_after_dot_range config_i symbol Hi Hs) as Hr.
    exists symbol. split_and!; [done..|].
    apply get_left_hand_sides_to_start_configs_spec; [lia|]. split_and!; (done || lia).
Qed.

Lemma rtc_expands_lr0 c0 x :
  0 ≤ c0 < isize (make_configs g) →
  rtc (expands (make_configs g) g
         (get_left_hand_sides_to_start_configs (make_configs g) g)) c0 x
  ↔ rtc (lr0_expands g) c0 x.
Proof.
  intros Hc0. split.
  - intros Hr. induction Hr as [|p q x Hm _ IH]; [apply rtc_refl|].
    assert (Hq : 0 ≤ q < isize (make_configs g)).
    { destruct Hm as (symbol & _ & _ & Hin). by eapply start_configs_in_range. }
    eapply rtc_l; [by apply expands_lr0|by apply IH].
  - intros Hr. induction Hr as [|p q x Hm _ IH]; [apply rtc_refl|].
    assert (Hq : 0 ≤ q < isize (make_configs g)).
    { destruct Hm as (symbol & _ & _ & Hin & _). done. }
    eapply rtc_l; [by apply expands_lr0|by apply IH].
Qed.

End start_configs.

(** X14: [close] returns (its queue empties within the fuel that the model
    gives it), leaves the actions of the state alone, and replaces the
    configurations of the state by their LR(0) closure, without duplicates:
    the least set that holds them and, for every member whose dot stands in
    front of a nonterminal, the configuration with the dot in front of every
    production of that nonterminal. *)
Theorem close_is_the_lr0_closure (g : grammar.t) (state : state_in_progress) :
  grammar_ok g →
  NoDup (configs state) →
  (∀ c, c ∈ configs state → 0 ≤ c < isize (make_configs g)) →
  ∃ closed,
    close state (make_configs g) g
          (get_left_hand_sides_to_start_configs (make_configs g) g) = Some closed
    ∧ actions closed = actions state
    ∧ NoDup (configs closed)
    ∧ ∀ x, x ∈ configs closed ↔ ∃ c0, c0 ∈ configs state ∧ rtc (lr0_expands g) c0 x.
Proof.
  intros Hok _ Hrange.
  destruct (close_spec (make_configs g) g
              (get_left_hand_sides_to_start_configs (make_configs g) g)
              (start_configs_in_range g Hok (make_configs g)) state Hrange)
    as (closed & Hclose & Hact & Hnd & Hiff).
  exists closed. split_and!; [done..|].
  intros x. rewrite Hiff. split.
  - intros (c0 & Hc0 & Hr). exists c0. split; [done|].
    apply rtc_expands_lr0; [done|by apply Hrange|done].
  - intros (c0 & Hc0 & Hr). exists c0. split; [done|].
    apply rtc_expands_lr0 in Hr; [done|done|by apply Hrange].
Qed.

Lemma close_is_the_lr0_closure_witness :
  ∃ closed,
    close sum_start_kernel (make_configs sum_grammar) sum_grammar
          (get_left_hand_sides_to_start_configs (make_configs sum_grammar) sum_grammar)
    = Some closed
    ∧ actions closed = actions sum_start_kernel
    ∧ NoDup (configs closed)
    ∧ ∀ x, x ∈ configs closed
           ↔ ∃ c0, c0 ∈ configs sum_start_kernel ∧ rtc (lr0_expands sum_grammar) c0 x.
Proof.
  apply (close_is_the_lr0_closure sum_grammar sum_start_kernel).
  - apply grammar_okb_sound. vm_compute. reflexivity.
  - apply NoDup_singleton.
  - intros c Hc. apply list_elem_of_singleton in Hc. subst c. vm_compute.
    split; [discriminate|reflexivity].
Defined.

(** The start state of the sum grammar: [accept ::= . S end] brings in
    [S ::= . INT] and [S ::= . S + INT]. *)
Lemma close_sum_start_kernel :
  configs <$> close sum_start_kernel (make_configs sum_grammar) sum_grammar
                (get_left_hand_sides_to_start_configs (make_configs sum_grammar) sum_grammar)
  = Some [0; 2; 6].
Proof. vm_compute. reflexivity. Qed.

(** ** State configurations *)

(** A loop that adds one edge per item lists, under every node, the targets
    of its items in the order of the items. *)
Lemma add_edges_list {B} (src dst : B → Z) (items : list B) : ∀ (G : list (list Z)) i,
  (∀ k, k ∈ items → 0 ≤ src k) → 0 ≤ i < isize G →
  get_edges (foldl (λ G k, add_edge G (src k) (dst k)) G items) i
  = get_edges G i ++ (dst <$> filter (λ k, src k = i) items).
Proof.
  induction items as [|x items IH]; intros G i Hsrc Hi; simpl.
  - by rewrite app_nil_r.
  - rewrite IH; [|set_solver|by rewrite isize_add_edge].
    rewrite get_edges_add_edge by (lia || apply Hsrc; by left).
    destruct (decide (src x = i)) as [Hx|Hx].
    + rewrite decide_True by lia. rewrite filter_cons_True by done.
      by rewrite fmap_cons, <- app_assoc.
    + rewrite decide_False by (intros [? _]; done). by rewrite filter_cons_False by done.
Qed.

Lemma filter_all {A} (P : A → Prop) `{!∀ x, Decision (P x)} (l : list A) :
  (∀ x, x ∈ l → P x) → filter P l = l.
Proof.
  induction l as [|x l IH]; intros Hall; [done|].
  rewrite filter_cons_True by (apply Hall; by left). f_equal.
  apply IH. intros y Hy. apply Hall. by right.
Qed.

Lemma filter_none {A} (P : A → Prop) `{!∀ x, Decision (P x)} (l : list A) :
  (∀ x, x ∈ l → ¬ P x) → filter P l = [].
Proof.
  induction l as [|x l IH]; intros Hall; [done|].
  rewrite filter_cons_False by (apply Hall; by left).
  apply IH. intros y Hy. apply Hall. by right.
Qed.

Lemma form_state_configs_blocks states :
  form_state_configs states
  = concat ((λ i, mkStateConfig i <$> seqZ 0 (isize (configs (state_at states i))))
              <$> seqZ 0 (isize states)).
Proof.
  unfold form_state_configs. rewrite <- (app_nil_l (concat _)).
  rewrite <- (foldl_app_concat (λ i, mkStateConfig i <$> _)).
  apply foldl_pointwise. intros out i. apply foldl_snoc_fmap.
Qed.

(** The state configurations of state [s] form one block, after those of the
    states before it and before those of the states after it. *)
Lemma form_state_configs_split states s :
  0 ≤ s < isize states →
  ∃ l1 l2,
    form_state_configs states
    = l1 ++ (mkStateConfig s <$> seqZ 0 (isize (configs (state_at states s)))) ++ l2
    ∧ (∀ sc, sc ∈ l1 → state sc ≠ s) ∧ (∀ sc, sc ∈ l2 → state sc ≠ s).
Proof.
  intros Hs. rewrite form_state_configs_blocks.
  set (f := λ i, mkStateConfig i <$> seqZ 0 (isize (configs (state_at states i)))).
  assert (Hsplit : seqZ 0 (isize states)
                   = seqZ 0 s ++ [s] ++ seqZ (s + 1) (isize states - s - 1)).
  { replace (isize states) with (s + (1 + (isize states - s - 1))) at 1 by lia.
    rewrite seqZ_app by lia. f_equal. rewrite seqZ_cons by lia. simpl.
    repeat f_equal; lia. }
  rewrite Hsplit, !fmap_app, !concat_app. simpl. rewrite app_nil_r.
  exists (concat (f <$> seqZ 0 s)), (concat (f <$> seqZ (s + 1) (isize states - s - 1))).
  split_and!; [done| |].
  - intros sc Hsc. apply elem_of_concat in Hsc as (blk & Hsc & Hblk).
    apply list_elem_of_fmap in Hblk as (i & -> & Hi). apply elem_of_seqZ in Hi.
    apply list_elem_of_fmap in Hsc as (j & -> & _). simpl. lia.
  - intros sc Hsc. apply elem_of_concat in Hsc as (blk & Hsc & Hblk).
    apply list_elem_of_fmap in Hblk as (i & -> & Hi). apply elem_of_seqZ in Hi.
    apply list_elem_of_fmap in Hsc as (j & -> & _). simpl. lia.
Qed.

Lemma form_states_to_state_configs_edges scs states s :
  (∀ sc, sc ∈ scs → 0 ≤ state sc) → 0 ≤ s < isize states →
  get_edges (form_states_to_state_configs scs states) s
  = filter (λ i, state (at_ (mkStateConfig 0 0) scs i) = s) (seqZ 0 (isize scs)).
Proof.
  intros Hpos Hs. unfold form_states_to_state_configs.
  rewrite (add_edges_list (λ i, state (at_ (mkStateConfig 0 0) scs i)) (λ i, i)).
  - rewrite get_edges_make_graph. simpl. by rewrite list_fmap_id.
  - intros k Hk. apply elem_of_seqZ in Hk. apply Hpos.
    unfold at_, isize in *. apply list_elem_of_In, nth_In. lia.
  - rewrite isize_make_graph; [done|]. apply isize_nonneg.
Qed.

(** The indices of a block of a list. *)
Lemma filter_block {A} (d : A) (P : A → Prop) `{!∀ x, Decision (P x)} (l1 blk l2 : list A) :
  (∀ x, x ∈ l1 → ¬ P x) → (∀ x, x ∈ blk → P x) → (∀ x, x ∈ l2 → ¬ P x) →
  filter (λ i, P (at_ d (l1 ++ blk ++ l2) i)) (seqZ 0 (isize (l1 ++ blk ++ l2)))
  = seqZ (isize l1) (isize blk).
Proof.
  intros H1 Hb H2. rewrite !isize_app.
  pose proof (isize_nonneg l1) as Hn1. pose proof (isize_nonneg blk) as Hnb.
  pose proof (isize_nonneg l2) as Hn2.
  rewrite seqZ_app by lia. rewrite seqZ_app by lia. rewrite !filter_app.
  rewrite filter_none, filter_all, filter_none; [by rewrite app_nil_r| | |].
  - intros i Hi. apply elem_of_seqZ in Hi. apply H2.
    rewrite app_assoc, at_app_r by (rewrite isize_app; lia).
    unfold at_, isize in *. apply list_elem_of_In, nth_In. rewrite length_app. lia.
  - intros i Hi. apply elem_of_seqZ in Hi. apply Hb.
    rewrite at_app_r by lia. rewrite at_app_l by lia.
    unfold at_, isize in *. apply list_elem_of_In, nth_In. lia.
  - intros i Hi. apply elem_of_seqZ in Hi. apply H1.
    rewrite at_app_l by lia. unfold at_, isize in *. apply list_elem_of_In, nth_In. lia.
Qed.

(** X15: the two tables that [form_state_configs] and
    [form_states_to_state_configs] build are inverse to each other: the entry
    of state [s] and position [cis] in the second is the index at which the
    first holds the pair [(s, cis)], and every index of the first is found
    again under its pair. *)
Theorem state_configs_round_trip (states : list state_in_progress) :
  let scs := form_state_configs states in
  let states2scs := form_states_to_state_configs scs states in
  (∀ s cis,
     0 ≤ s < isize states → 0 ≤ cis < isize (configs (state_at states s)) →
     0 ≤ state_config_of states2scs s cis < isize scs
     ∧ at_ (mkStateConfig 0 0) scs (state_config_of states2scs s cis) = mkStateConfig s cis)
  ∧ (∀ sc_i,
       0 ≤ sc_i < isize scs →
       let sc := at_ (mkStateConfig 0 0) scs sc_i in
       0 ≤ state sc < isize states
       ∧ 0 ≤ config_in_state sc < isize (configs (state_at states (state sc)))
       ∧ state_config_of states2scs (state sc) (config_in_state sc) = sc_i).
Proof.
  intros scs states2scs.
  assert (Hmem : ∀ sc, sc ∈ scs →
            0 ≤ state sc < isize states
            ∧ 0 ≤ config_in_state sc < isize (configs (state_at states (state sc)))).
  { intros sc Hsc. unfold scs in Hsc. rewrite form_state_configs_blocks in Hsc.
    apply elem_of_concat in Hsc as (blk & Hsc & Hblk).
    apply list_elem_of_fmap in Hblk as (i & -> & Hi). apply elem_of_seqZ in Hi.
    apply list_elem_of_fmap in Hsc as (j & -> & Hj). apply elem_of_seqZ in Hj. simpl. lia. }
  assert (Hedges : ∀ s, 0 ≤ s < isize states →
            ∃ l1 l2,
              scs = l1 ++ (mkStateConfig s <$> seqZ 0 (isize (configs (state_at states s)))) ++ l2
              ∧ (∀ sc, sc ∈ l1 → state sc ≠ s) ∧ (∀ sc, sc ∈ l2 → state sc ≠ s)
              ∧ get_edges states2scs s
                = seqZ (isize l1) (isize (configs (state_at states s)))).
  { intros s Hs. destruct (form_state_configs_split states s Hs) as (l1 & l2 & Hscs & H1 & H2).
    fold scs in Hscs. exists l1, l2. split_and!; [done..|].
    unfold states2scs. rewrite form_states_to_state_configs_edges; [|intros sc Hsc; apply Hmem in Hsc; lia|done].
    rewrite Hscs.
    pose proof (filter_block (mkStateConfig 0 0) (λ sc, state sc = s) l1
                  (mkStateConfig s <$> seqZ 0 (isize (configs (state_at states s)))) l2 H1)
      as Hfb.
    cbv beta in Hfb. rewrite Hfb; [|intros sc Hsc; by apply list_elem_of_fmap in Hsc as (j & -> & _)|done].
    f_equal. unfold isize. rewrite length_fmap, length_seqZ.
    pose proof (isize_nonneg (configs (state_at states s))). unfold isize in *. lia. }
  assert (Hblk : ∀ s j, 0 ≤ j < isize (configs (state_at states s)) →
            at_ (mkStateConfig 0 0)
                (mkStateConfig s <$> seqZ 0 (isize (configs (state_at states s)))) j
            = mkStateConfig s j).
  { intros s j Hj. rewrite at_default, list_lookup_fmap.
    rewrite (proj2 (lookup_seqZ 0 _ (Z.to_nat j) j)); [done|]. lia. }
  assert (Hblen : ∀ s, isize (mkStateConfig s <$> seqZ 0 (isize (configs (state_at states s))))
                       = isize (configs (state_at states s))).
  { intros s. unfold isize. rewrite length_fmap, length_seqZ.
    pose proof (isize_nonneg (configs (state_at states s))). unfold isize in *. lia. }
  split.
  - intros s cis Hs Hcis. destruct (Hedges s Hs) as (l1 & l2 & Hscs & H1 & H2 & He).
    unfold state_config_of. rewrite He.
    assert (Hat : at_ 0 (seqZ (isize l1) (isize (configs (state_at states s)))) cis
                  = isize l1 + cis).
    { rewrite at_default. rewrite (proj2 (lookup_seqZ _ _ (Z.to_nat cis) (isize l1 + cis))); [done|]. lia. }
    rewrite Hat. pose proof (isize_nonneg l1). pose proof (isize_nonneg l2). split.
    + rewrite Hscs, !isize_app, Hblen. lia.
    + rewrite Hscs. rewrite at_app_r by lia. rewrite at_app_l by (rewrite Hblen; lia).
      replace (isize l1 + cis - isize l1) with cis by lia. by apply Hblk.
  - intros sc_i Hi sc.
    assert (Hsc : sc ∈ scs).
    { unfold sc, at_, isize in *. apply list_elem_of_In, nth_In. lia. }
    destruct (Hmem sc Hsc) as [Hs Hj]. split_and!; [lia..|].
    destruct (Hedges (state sc) Hs) as (l1 & l2 & Hscs & H1 & H2 & He).
    pose proof (isize_nonneg l1). pose proof (isize_nonneg l2).
    assert (Hpos : isize l1 ≤ sc_i < isize l1 + isize (configs (state_at states (state sc)))).
    { destruct (decide (sc_i < isize l1)) as [Hlt|Hge].
      - exfalso. apply (H1 sc); [|done]. unfold sc. rewrite Hscs, at_app_l by lia.
        unfold at_, isize in *. apply list_elem_of_In, nth_In. lia.
      - split; [lia|].
        destruct (decide (sc_i < isize l1 + isize (configs (state_at states (state sc)))))
          as [?|Hge']; [done|].
        exfalso. apply (H2 sc); [|done]. unfold sc at 1. rewrite Hscs.
        rewrite app_assoc, at_app_r by (rewrite isize_app, Hblen; lia).
        rewrite Hscs, !isize_app, Hblen in Hi. rewrite isize_app, Hblen.
        unfold at_, isize in *. apply list_elem_of_In, nth_In. lia. }
    assert (Hsceq : sc = mkStateConfig (state sc) (sc_i - isize l1)).
    { unfold sc at 1. rewrite Hscs. rewrite at_app_r by lia.
      rewrite at_app_l by (rewrite Hblen; lia). apply Hblk. lia. }
    assert (Hcis : config_in_state sc = sc_i - isize l1) by (by rewrite Hsceq).
    unfold state_config_of. rewrite He, Hcis.
    rewrite at_default.
    rewrite (proj2 (lookup_seqZ _ _ (Z.to_nat (sc_i - isize l1)) sc_i)); [done|]. lia.
Qed.

(** ** The tests and sets of the lane tracing *)

Lemma ordered_singleton (x : Z) : ordered {[x]} = [x].
Proof.
  pose proof (ordered_perm {[x]}) as Hp. rewrite elements_singleton in Hp.
  by apply Permutation_singleton_r in Hp.
Qed.

(** X16: [get_contexts] removes [FIRST_NULL] from a FIRST set and nothing
    else, and [has_non_null_terminal_descendant] answers true exactly when
    the FIRST set has a member other than [FIRST_NULL], that is, exactly when
    [get_contexts] of it is not empty. *)
Theorem get_contexts_drops_null_only (first_set : gset Z) :
  get_contexts first_set = first_set ∖ {[FIRST_NULL]}
  ∧ (has_non_null_terminal_descendant first_set = true
     ↔ ∃ x, x ∈ first_set ∧ x ≠ FIRST_NULL)
  ∧ (has_non_null_terminal_descendant first_set = true ↔ get_contexts first_set ≠ ∅).
Proof.
  assert (Hget : get_contexts first_set = first_set ∖ {[FIRST_NULL]}).
  { unfold get_contexts. case_decide; [done|]. apply set_eq. set_solver. }
  assert (Hhas : has_non_null_terminal_descendant first_set = true
                 ↔ ∃ x, x ∈ first_set ∧ x ≠ FIRST_NULL).
  { unfold has_non_null_terminal_descendant.
    destruct (decide (first_set = ∅)) as [->|Hne].
    { split; [done|]. intros (x & Hx & _). set_solver. }
    destruct (decide (1 < size first_set)%nat) as [Hbig|Hsmall].
    - split; [intros _|done].
      apply set_choose_L in Hne as [x Hx].
      destruct (decide (x = FIRST_NULL)) as [->|Hxn]; [|by exists x].
      assert (Hrest : first_set ∖ {[FIRST_NULL]} ≠ ∅).
      { intros Hempty.
        pose proof (size_union_alt {[FIRST_NULL]} first_set) as Hs.
        rewrite Hempty, size_empty, size_singleton in Hs.
        replace ({[FIRST_NULL]} ∪ first_set) with first_set in Hs
          by (apply set_eq; set_solver).
        lia. }
      apply set_choose_L in Hrest as [y Hy]. exists y. set_solver.
    - assert (Hone : size first_set = 1%nat).
      { assert (size first_set ≠ 0%nat).
        { apply size_non_empty_iff. intros He. apply Hne. by apply leibniz_equiv. }
        lia. }
      apply size_1_elem_of in Hone as [x Hx]. apply leibniz_equiv in Hx. subst first_set.
      unfold context_begin. rewrite ordered_singleton. simpl.
      rewrite bool_decide_eq_true. split.
      + intros Hxn. exists x. split; [set_solver|done].
      + intros (y & Hy & Hyn). apply elem_of_singleton in Hy. by subst y. }
  split_and!; [done|done|].
  rewrite Hhas, Hget. split.
  - intros (x & Hx & Hxn). set_solver.
  - intros Hne. apply set_choose_L in Hne as [x Hx]. exists x. set_solver.
Qed.

(** ** [context_adding_routine] *)

Lemma context_adding_step_spec lane gen contexts r :
  at_ 0 lane r < isize contexts →
  let acc' := context_adding_step lane (gen, contexts) r in
  isize acc'.2 = isize contexts
  ∧ acc'.1 ⊆ gen
  ∧ (∀ τ, 0 ≤ τ →
       at_ ∅ contexts τ ⊆ at_ ∅ acc'.2 τ ∧ at_ ∅ acc'.2 τ ⊆ at_ ∅ contexts τ ∪ gen)
  ∧ (∀ τ, 0 ≤ τ → at_ 0 lane r ≠ τ → at_ ∅ acc'.2 τ = at_ ∅ contexts τ)
  ∧ (0 ≤ at_ 0 lane r → gen ⊆ at_ ∅ acc'.2 (at_ 0 lane r)).
Proof.
  unfold context_adding_step, subtract_from, unite_with.
  generalize (at_ 0 lane r). intros v Hr.
  destruct (decide (gen = ∅)) as [->|Hne]; simpl.
  { split_and!; try done; set_solver. }
  destruct (decide (v < 0)) as [Hneg|Hpos]; simpl.
  { split_and!; try done; try lia; set_solver. }
  assert (Hat : ∀ τ, 0 ≤ τ →
            at_ ∅ (<[Z.to_nat v := at_ ∅ contexts v ∪ gen ∖ at_ ∅ contexts v]> contexts) τ
            = if decide (τ = v) then at_ ∅ contexts v ∪ gen ∖ at_ ∅ contexts v
              else at_ ∅ contexts τ).
  { intros τ Hτ. destruct (decide (τ = v)) as [Hd|Hd].
    - rewrite Hd. apply at_insert_eq. lia.
    - apply at_insert_ne; lia. }
  split_and!.
  - unfold isize. by rewrite length_insert.
  - set_solver.
  - intros τ Hτ. rewrite Hat by done. destruct (decide (τ = v)) as [Hd|Hd]; [rewrite Hd|]; set_solver.
  - intros τ Hτ Hne'. rewrite Hat by done. by rewrite decide_False.
  - intros _. rewrite Hat by lia. rewrite decide_True by done.
    intros x Hx. destruct (decide (x ∈ at_ ∅ contexts v)); set_solver.
Qed.

Lemma context_adding_fold lane (rs : list Z) : ∀ gen contexts,
  (∀ r, r ∈ rs → at_ 0 lane r < isize contexts) →
  let acc' := foldl (context_adding_step lane) (gen, contexts) rs in
  isize acc'.2 = isize contexts
  ∧ acc'.1 ⊆ gen
  ∧ (∀ τ, 0 ≤ τ →
       at_ ∅ contexts τ ⊆ at_ ∅ acc'.2 τ ∧ at_ ∅ acc'.2 τ ⊆ at_ ∅ contexts τ ∪ gen)
  ∧ (∀ τ, 0 ≤ τ → (∀ r, r ∈ rs → at_ 0 lane r ≠ τ) → at_ ∅ acc'.2 τ = at_ ∅ contexts τ).
Proof.
  induction rs as [|r rs IH]; intros gen contexts Hrange; cbn [foldl].
  { split_and!; try done; set_solver. }
  destruct (context_adding_step_spec lane gen contexts r) as (Hl & Hg & Hgrow & Hsame & _).
  { apply Hrange. by left. }
  destruct (context_adding_step lane (gen, contexts) r) as [gen1 contexts1] eqn:Hstep.
  cbn [fst snd] in Hl, Hg, Hgrow, Hsame.
  destruct (IH gen1 contexts1) as (Hl' & Hg' & Hgrow' & Hsame').
  { intros r' Hr'. rewrite Hl. apply Hrange. by right. }
  split_and!.
  - by rewrite Hl'.
  - set_solver.
  - intros τ Hτ. destruct (Hgrow τ Hτ) as [H1 H2]. destruct (Hgrow' τ Hτ) as [H3 H4].
    split; [set_solver|]. intros x Hx. apply H4 in Hx. set_solver.
  - intros τ Hτ Hnot. rewrite Hsame' by (done || intros r' Hr'; apply Hnot; by right).
    apply Hsame; [done|]. apply Hnot. by left.
Qed.

(** X17: [context_adding_routine] only adds to the context sets, only
    members of [contexts_generated], and only at the configurations that
    stand on the lane at or below [zeta_pointer]; [contexts_generated] itself
    only loses members; and the configuration at [zeta_pointer], the top of
    the walk, ends up with every member of [contexts_generated] in its
    context set. *)
Theorem context_adding_routine_adds_generated_contexts
    (lane : list Z) (zeta_pointer : Z) (contexts_generated : gset Z)
    (contexts : list (gset Z)) :
  zeta_pointer < isize lane →
  (∀ r, 0 ≤ r ≤ zeta_pointer → at_ 0 lane r < isize contexts) →
  let result := context_adding_routine lane zeta_pointer contexts_generated contexts in
  isize result.2 = isize contexts
  ∧ result.1 ⊆ contexts_generated
  ∧ (∀ τ, 0 ≤ τ →
       at_ ∅ contexts τ ⊆ at_ ∅ result.2 τ
       ∧ at_ ∅ result.2 τ ⊆ at_ ∅ contexts τ ∪ contexts_generated)
  ∧ (∀ τ, 0 ≤ τ → (∀ r, 0 ≤ r ≤ zeta_pointer → at_ 0 lane r ≠ τ) →
       at_ ∅ result.2 τ = at_ ∅ contexts τ)
  ∧ (0 ≤ zeta_pointer → 0 ≤ at_ 0 lane zeta_pointer →
       contexts_generated ⊆ at_ ∅ result.2 (at_ 0 lane zeta_pointer)).
Proof.
  intros _ Hrange result. unfold context_adding_routine in result.
  assert (Hin : ∀ r, r ∈ reverse (seqZ 0 (zeta_pointer + 1)) ↔ 0 ≤ r ≤ zeta_pointer).
  { intros r. rewrite elem_of_reverse, elem_of_seqZ. lia. }
  destruct (context_adding_fold lane (reverse (seqZ 0 (zeta_pointer + 1)))
              contexts_generated contexts) as (Hl & Hg & Hgrow & Hsame).
  { intros r Hr. apply Hrange. by apply Hin. }
  fold result in Hl, Hg, Hgrow, Hsame.
  split_and!; [done..| |].
  - intros τ Hτ Hnot. apply Hsame; [done|]. intros r Hr. apply Hnot. by apply Hin.
  - intros Hzp Htop. subst result.
    rewrite seqZ_app by lia. rewrite Z.add_0_l, (seqZ_cons zeta_pointer 1) by lia.
    rewrite (seqZ_nil (Z.succ zeta_pointer)) by lia.
    rewrite reverse_app. cbn [reverse rev_append app foldl].
    destruct (context_adding_step_spec lane contexts_generated contexts zeta_pointer)
      as (Hl1 & _ & _ & _ & Htop1).
    { apply Hrange. lia. }
    destruct (context_adding_step lane (contexts_generated, contexts) zeta_pointer)
      as [gen1 contexts1] eqn:Hstep.
    cbn [fst snd] in Hl1, Htop1.
    destruct (context_adding_fold lane (reverse (seqZ 0 zeta_pointer)) gen1 contexts1)
      as (_ & _ & Hgrow2 & _).
    { intros r Hr. rewrite Hl1. apply Hrange.
      apply elem_of_reverse, elem_of_seqZ in Hr. lia. }
    destruct (Hgrow2 (at_ 0 lane zeta_pointer) Htop) as [Hsub _].
    specialize (Htop1 Htop). set_solver.
Qed.

Lemma context_adding_routine_adds_generated_contexts_witness :
  isize (context_adding_routine [0; MARKER; 1] 2 {[3; 4]} [{[3]}; ∅]).2
  = isize ([{[3]}; ∅] : list (gset Z))
  ∧ (context_adding_routine [0; MARKER; 1] 2 {[3; 4]} [{[3]}; ∅]).1 ⊆ {[3; 4]}
  ∧ (∀ τ, 0 ≤ τ →
       at_ ∅ [{[3]}; ∅] τ
         ⊆ at_ ∅ (context_adding_routine [0; MARKER; 1] 2 {[3; 4]} [{[3]}; ∅]).2 τ
       ∧ at_ ∅ (context_adding_routine [0; MARKER; 1] 2 {[3; 4]} [{[3]}; ∅]).2 τ
           ⊆ at_ ∅ [{[3]}; ∅] τ ∪ {[3; 4]})
  ∧ (∀ τ, 0 ≤ τ → (∀ r, 0 ≤ r ≤ 2 → at_ 0 [0; MARKER; 1] r ≠ τ) →
       at_ ∅ (context_adding_routine [0; MARKER; 1] 2 {[3; 4]} [{[3]}; ∅]).2 τ
       = at_ ∅ [{[3]}; ∅] τ)
  ∧ (0 ≤ 2 → 0 ≤ at_ 0 [0; MARKER; 1] 2 →
       {[3; 4]}
         ⊆ at_ ∅ (context_adding_routine [0; MARKER; 1] 2 {[3; 4]} [{[3]}; ∅]).2
               (at_ 0 [0; MARKER; 1] 2)).
Proof.
  apply (context_adding_routine_adds_generated_contexts [0; MARKER; 1] 2 {[3; 4]}
           [{[3]}; ∅]); [done|].
  intros r Hr. assert (r = 0 ∨ r = 1 ∨ r = 2) as [->|[->| ->]] by lia; vm_compute; done.
Defined.

(** ** [move_markers] *)

Lemma count_markers_app l1 l2 :
  count_markers (l1 ++ l2) = (count_markers l1 + count_markers l2)%nat.
Proof. unfold count_markers. by rewrite filter_app, length_app. Qed.

Lemma lane_configs_app l1 l2 : lane_configs (l1 ++ l2) = lane_configs l1 ++ lane_configs l2.
Proof. apply filter_app. Qed.

(** Turning a marker into a zero. *)
Lemma zero_a_marker (lane : list Z) (n : nat) :
  lane !! n = Some MARKER →
  (count_markers (<[n := ZERO]> lane) + 1 = count_markers lane)%nat
  ∧ lane_configs (<[n := ZERO]> lane) = lane_configs lane.
Proof.
  revert n. induction lane as [|x lane IH]; intros n Hn; [by destruct n|].
  destruct n as [|n]; simpl in *.
  - injection Hn as ->. unfold count_markers, lane_configs.
    rewrite (filter_cons_False _ ZERO) by done.
    rewrite (filter_cons_True _ MARKER) by done.
    rewrite (filter_cons_False _ ZERO) by (unfold ZERO; lia).
    rewrite (filter_cons_False _ MARKER) by (unfold MARKER; lia). simpl. split; [lia|done].
  - destruct (IH n Hn) as [Hc Hl]. unfold count_markers, lane_configs in *.
    rewrite !(filter_cons _ x). split.
    + destruct (decide (x = MARKER)); simpl; lia.
    + destruct (decide (0 ≤ x)); [by f_equal|done].
Qed.

Lemma move_markers_loop (idx : list Z) : ∀ (lane : list Z) (r : Z),
  0 ≤ r →
  let acc := foldl (λ '(lane, r) i,
                      if decide (at_ 0 lane i = MARKER)
                      then (<[Z.to_nat i := ZERO]> lane, r + 1) else (lane, r))
                   (lane, r) idx in
  0 ≤ acc.2
  ∧ (count_markers acc.1 + Z.to_nat acc.2 = count_markers lane + Z.to_nat r)%nat
  ∧ lane_configs acc.1 = lane_configs lane
  ∧ length acc.1 = length lane.
Proof.
  induction idx as [|i idx IH]; intros lane r Hr; cbn [foldl]; [done|].
  destruct (decide (at_ 0 lane i = MARKER)) as [Hm|Hm].
  - assert (Hl : lane !! Z.to_nat i = Some MARKER).
    { rewrite at_default in Hm. by destruct (lane !! Z.to_nat i) as [x|]; simpl in *; subst. }
    destruct (zero_a_marker lane _ Hl) as [Hc Hcfg].
    destruct (IH (<[Z.to_nat i := ZERO]> lane) (r + 1) ltac:(lia)) as (H0 & H1 & H2 & H3).
    split_and!; [done| | |].
    + lia.
    + by rewrite H2.
    + by rewrite H3, length_insert.
  - by apply IH.
Qed.

Lemma push_markers (lane : list Z) (r : Z) :
  foldl (λ lane (_ : Z), lane ++ [MARKER]) lane (seqZ 0 r)
  = lane ++ replicate (Z.to_nat r) MARKER.
Proof.
  rewrite (foldl_snoc_fmap (λ _, MARKER)). f_equal.
  rewrite <- (length_seqZ 0 r). generalize (seqZ 0 r) as l. intros l.
  induction l as [|x l IH]; [done|]. simpl. by rewrite <- IH.
Qed.

Lemma count_markers_replicate n : count_markers (replicate n MARKER) = n.
Proof.
  unfold count_markers. induction n as [|n IH]; [done|]. cbn [replicate].
  rewrite filter_cons_True by done. cbn [length]. by rewrite IH.
Qed.

Lemma lane_configs_replicate n : lane_configs (replicate n MARKER) = [].
Proof.
  unfold lane_configs. induction n as [|n IH]; [done|]. cbn [replicate].
  by rewrite filter_cons_False by (unfold MARKER; lia).
Qed.

(** X18: on a lane that holds [zeta_prime_addr], [move_markers] keeps the
    number of markers and the configurations of the lane in their order: it
    only turns markers into zeros and pushes as many markers, so the lane
    never gets shorter. *)
Theorem move_markers_keeps_markers_and_configs
    (lane : list Z) (zeta_prime_addr zeta_pointer : Z) (tests_failed : bool) :
  zeta_prime_addr ∈ lane → zeta_pointer ≤ isize lane →
  count_markers (move_markers lane zeta_prime_addr zeta_pointer tests_failed)
  = count_markers lane
  ∧ lane_configs (move_markers lane zeta_prime_addr zeta_pointer tests_failed)
    = lane_configs lane
  ∧ (length lane ≤ length (move_markers lane zeta_prime_addr zeta_pointer tests_failed))%nat.
Proof.
  intros Hin _. unfold move_markers.
  set (idx := seqZ _ _).
  destruct (move_markers_loop idx lane 0 ltac:(lia)) as (H0 & H1 & H2 & H3).
  destruct (foldl _ (lane, 0) idx) as [lane1 r]. cbn [fst snd] in H0, H1, H2, H3.
  rewrite push_markers.
  assert (Hne : lane1 ≠ []).
  { intros ->. simpl in H3. destruct lane; [by apply elem_of_nil in Hin|done]. }
  destruct tests_failed.
  - pose proof (app_removelast_last (-1) Hne) as Hsplit.
    rewrite Hsplit in H1, H2, H3.
    rewrite count_markers_app in H1. rewrite lane_configs_app in H2.
    rewrite length_app in H3.
    rewrite !count_markers_app, !lane_configs_app, !length_app,
      count_markers_replicate, lane_configs_replicate, length_replicate.
    rewrite app_nil_r. simpl in *. split_and!; [lia|done|lia].
  - rewrite count_markers_app, lane_configs_app, length_app,
      count_markers_replicate, lane_configs_replicate, length_replicate.
    rewrite app_nil_r. split_and!; [lia|done|lia].
Qed.

Lemma move_markers_keeps_markers_and_configs_witness :
  count_markers (move_markers sample_lane 4 3 true)
  = count_markers sample_lane
  ∧ lane_configs (move_markers sample_lane 4 3 true)
    = lane_configs sample_lane
  ∧ (length sample_lane
     ≤ length (move_markers sample_lane 4 3 true))%nat.
Proof.
  apply (move_markers_keeps_markers_and_configs sample_lane 4 3 true); [by left|done].
Defined.

(** The marker between 4 and position 3 becomes a zero and moves under the
    top. *)
Lemma move_markers_example :
  move_markers sample_lane 4 3 true = [4; ZERO; 7; MARKER; MARKER; 9].
Proof. vm_compute. reflexivity. Qed.

(** ** The numbers that [build_grammar] gives to names *)

Lemma number_tokens_snoc tokens token :
  number_tokens (tokens ++ [token])
  = (<[language.name token := (number_tokens tokens).2]> (number_tokens tokens).1,
     (number_tokens tokens).2 + 1).
Proof.
  unfold number_tokens. rewrite foldl_app. simpl.
  by destruct (foldl _ _ tokens).
Qed.

(** A later declaration of a token name takes the name over. *)
Lemma number_tokens_last tokens :
  (number_tokens tokens).2 = isize tokens
  ∧ ∀ name symbol,
      (number_tokens tokens).1 !! name = Some symbol ↔ last_declared tokens name symbol.
Proof.
  induction tokens as [|t tokens [IHn IH]] using rev_ind.
  - split; [done|]. intros name symbol. cbn. rewrite lookup_empty. split; [done|].
    intros (_ & (token & Hl & _) & _). done.
  - rewrite number_tokens_snoc. cbn [fst snd]. split.
    { rewrite IHn. unfold isize. rewrite length_app. simpl. lia. }
    intros name symbol. rewrite lookup_insert, IHn.
    destruct (decide (language.name t = name)) as [Heq|Hne].
    + split.
      * intros [= <-]. unfold isize. split_and!; [lia| |].
        -- exists t. rewrite Nat2Z.id. split; [|done].
           rewrite lookup_app_r by lia. by rewrite Nat.sub_diag.
        -- intros j token Hj Hlt. rewrite Nat2Z.id in Hlt.
           apply lookup_lt_Some in Hj. rewrite length_app in Hj. simpl in Hj. lia.
      * intros (H0 & (token & Hl & Hname) & Hlast). f_equal.
        pose proof (lookup_lt_Some _ _ _ Hl) as Hlt. rewrite length_app in Hlt.
        simpl in Hlt. unfold isize.
        destruct (decide (Z.to_nat symbol < length tokens)%nat) as [Hlow|Hhigh]; [|lia].
        exfalso. apply (Hlast (length tokens) t); [|done..].
        rewrite lookup_app_r by lia. by rewrite Nat.sub_diag.
    + rewrite IH. split.
      * intros (H0 & (token & Hl & Hname) & Hlast). split_and!; [done| |].
        -- exists token. split; [|done]. by apply lookup_app_l_Some.
        -- intros j token' Hj Hlt.
           destruct (decide (j < length tokens)%nat) as [Hlow|Hhigh].
           ++ rewrite lookup_app_l in Hj by done. by eapply Hlast.
           ++ rewrite lookup_app_r in Hj by lia.
              destruct (j - length tokens)%nat; [|by destruct n].
              by injection Hj as <-.
      * intros (H0 & (token & Hl & Hname) & Hlast).
        assert (Hlow : (Z.to_nat symbol < length tokens)%nat).
        { pose proof (lookup_lt_Some _ _ _ Hl) as Hlt. rewrite length_app in Hlt.
          simpl in Hlt.
          destruct (decide (Z.to_nat symbol < length tokens)%nat) as [?|Hhigh]; [done|].
          rewrite lookup_app_r in Hl by lia.
          replace (Z.to_nat symbol - length tokens)%nat with 0%nat in Hl by lia.
          injection Hl as <-. done. }
        rewrite lookup_app_l in Hl by done. split_and!; [done|by exists token|].
        intros j token' Hj Hlt. apply (Hlast j token'); [|done].
        by apply lookup_app_l_Some.
Qed.

(** No two names share a number. *)
Lemma number_nonterminals_inj productions index (m : gmap string Z) n m' n' :
  (∀ name symbol, m !! name = Some symbol → symbol < n) →
  (∀ x y symbol, m !! x = Some symbol → m !! y = Some symbol → x = y) →
  number_nonterminals productions index m n = Returned (m', n') →
  ∀ x y symbol, m' !! x = Some symbol → m' !! y = Some symbol → x = y.
Proof.
  revert index m n. induction productions as [|p productions IH]; intros index m n Hm Hinj;
    simpl.
  - by intros [= <- <-].
  - destruct (decide (language.lhs p = EmptyString)); [done|].
    destruct (decide (is_Some (m !! language.lhs p))) as [Hin|Hni].
    + by apply IH.
    + apply IH.
      * intros name symbol. rewrite lookup_insert.
        destruct (decide (language.lhs p = name)); [intros [= <-]; lia|].
        intros Hl. specialize (Hm _ _ Hl). lia.
      * intros x y symbol. rewrite !lookup_insert.
        destruct (decide (language.lhs p = x)) as [Hx|Hx],
                 (decide (language.lhs p = y)) as [Hy|Hy].
        -- congruence.
        -- intros [= <-] Hl. specialize (Hm _ _ Hl). lia.
        -- intros Hl [= <-]. specialize (Hm _ _ Hl). lia.
        -- apply Hinj.
Qed.

Lemma resolve_rhs_fmap (m : gmap string Z) rhs out symbols :
  resolve_rhs m rhs out = Returned symbols →
  symbols = out ++ ((λ name, default 0 (m !! name)) <$> rhs)
  ∧ ∀ name, name ∈ rhs → is_Some (m !! name).
Proof.
  revert out. induction rhs as [|x rhs IH]; intros out; simpl.
  - intros [= <-]. rewrite app_nil_r. split; [done|]. intros name Hn. by apply elem_of_nil in Hn.
  - destruct (m !! x) as [symbol|] eqn:Hx; [|done].
    intros Hr. destruct (IH _ Hr) as [-> Hall]. rewrite <- app_assoc. split; [done|].
    intros name Hn. apply elem_of_cons in Hn as [->|Hn]; [by rewrite Hx|by apply Hall].
Qed.

Lemma resolve_productions_fmap (m : gmap string Z) productions out resolved :
  resolve_productions m productions out = Returned resolved →
  resolved
  = out ++ ((λ p, grammar.mkProduction (default 0 (m !! language.lhs p))
                    ((λ name, default 0 (m !! name)) <$> language.rhs p)) <$> productions).
Proof.
  revert out. induction productions as [|p productions IH]; intros out; simpl.
  - intros [= <-]. by rewrite app_nil_r.
  - destruct (resolve_rhs m (language.rhs p) []) as [rhs| | |] eqn:Hrhs; simpl; try done.
    intros Hr. rewrite (IH _ Hr), <- app_assoc.
    apply resolve_rhs_fmap in Hrhs as [-> _]. done.
Qed.

Lemma resolve_ignored_fmap (m : gmap string Z) names out ignored :
  resolve_ignored m names out = Returned ignored →
  ignored = out ++ ((λ name, default 0 (m !! name)) <$> names)
  ∧ ∀ name, name ∈ names → is_Some (m !! name).
Proof.
  revert out. induction names as [|x names IH]; intros out; simpl.
  - intros [= <-]. rewrite app_nil_r. split; [done|]. intros name Hn. by apply elem_of_nil in Hn.
  - destruct (m !! x) as [symbol|] eqn:Hx; [|done].
    intros Hr. destruct (IH _ Hr) as [-> Hall]. rewrite <- app_assoc. split; [done|].
    intros name Hn. apply elem_of_cons in Hn as [->|Hn]; [by rewrite Hx|by apply Hall].
Qed.

(** The parts of a grammar that [build_grammar] returns, in terms of the map
    from names to numbers that its first two loops fill. *)
Lemma build_grammar_parts (language : language.t) (g : grammar.t) :
  build_grammar language = Returned g →
  ∃ (m : gmap string Z) (n : Z) accept,
    let n0 := isize (language.tokens language) in
    let old name := default 0 (m !! name) in
    let new name := if decide (n0 ≤ old name) then old name + 1 else old name in
    (∀ name, is_Some (m !! name) ↔ known_symbol language name)
    ∧ (∀ name symbol, m !! name = Some symbol → 0 ≤ symbol < n)
    ∧ (∀ name symbol, name ∈ (language.name <$> language.tokens language) →
         m !! name = Some symbol ↔ last_declared (language.tokens language) name symbol)
    ∧ (∀ name symbol, name ∉ (language.name <$> language.tokens language) →
         m !! name = Some symbol → n0 ≤ symbol)
    ∧ (∀ x y symbol, m !! x = Some symbol → m !! y = Some symbol → x = y)
    ∧ grammar.nsymbols g = n + 2
    ∧ grammar.nterminals g = n0 + 1
    ∧ grammar.productions g
      = ((λ p, grammar.mkProduction (new (language.lhs p)) (new <$> language.rhs p))
           <$> language.productions language) ++ [accept]
    ∧ (∀ p name, p ∈ language.productions language → name ∈ language.rhs p →
         is_Some (m !! name))
    ∧ grammar.ignored_terminals g = old <$> language.ignored_tokens language
    ∧ (∀ name, name ∈ language.ignored_tokens language → is_Some (m !! name)).
Proof.
  unfold build_grammar.
  pose proof (number_tokens_dom (language.tokens language)) as Hdom0.
  pose proof (number_tokens_last (language.tokens language)) as [Hn0 Hlast].
  destruct (number_tokens (language.tokens language)) as [m0 n0]. cbn [fst snd] in *.
  subst n0.
  pose proof (isize_nonneg (language.tokens language)) as Hpos.
  assert (Hrange0 : ∀ name symbol, m0 !! name = Some symbol →
                      0 ≤ symbol < isize (language.tokens language)).
  { intros name symbol Hl. apply Hlast in Hl as (H0 & (token & Hl & _) & _).
    apply lookup_lt_Some in Hl. unfold isize. lia. }
  assert (Hinj0 : ∀ x y symbol, m0 !! x = Some symbol → m0 !! y = Some symbol → x = y).
  { intros x y symbol Hx Hy.
    apply Hlast in Hx as (_ & (tx & Hx & <-) & _).
    apply Hlast in Hy as (_ & (ty & Hy & <-) & _). congruence. }
  destruct (number_nonterminals_spec (language.productions language) 0 m0
              (isize (language.tokens language)))
    as [[_ [msg ->]]|[_ (m & n & Hnum & Hdom)]]; [done|].
  rewrite Hnum. simpl.
  assert (Hn00 : 0 ≤ isize (language.tokens language) ≤ isize (language.tokens language))
    by lia.
  destruct (number_nonterminals_range _ _ _ _ _ _ _ Hn00 Hrange0 Hnum)
    as (Hle & Hrange & Hnew & Hkeep).
  assert (Hinj : ∀ x y symbol, m !! x = Some symbol → m !! y = Some symbol → x = y).
  { eapply number_nonterminals_inj; [|exact Hinj0|exact Hnum].
    intros name symbol Hl. apply Hrange0 in Hl. lia. }
  destruct (resolve_productions_spec m (language.productions language) [])
    as [[Hall [resolved Hres]]|(p & x & _ & _ & _ & Hres)]; rewrite Hres; simpl; [|done].
  assert (Hshift : ∀ g0 name,
            grammar.nsymbols g0 = n →
            grammar.nterminals g0 = isize (language.tokens language) →
            is_Some (m !! name) →
            shift_nonterminal g0 (default 0 (m !! name))
            = if decide (isize (language.tokens language) ≤ default 0 (m !! name))
              then default 0 (m !! name) + 1 else default 0 (m !! name)).
  { intros g0 name Hg1 Hg2 [symbol Hs]. rewrite Hs. simpl.
    specialize (Hrange _ _ Hs). unfold shift_nonterminal, is_nonterminal.
    rewrite Hg1, Hg2.
    destruct (decide (isize (language.tokens language) ≤ symbol)).
    - by rewrite bool_decide_eq_true_2 by lia.
    - by rewrite bool_decide_eq_false_2 by lia. }
  destruct (resolve_ignored m (language.ignored_tokens language) [])
    as [ignored| | |] eqn:Hign; simpl; try done.
  intros [= <-]. cbn.
  exists m, n.
  eexists. split_and!.
  - intros name. rewrite <- elem_of_dom, Hdom, Hdom0. unfold known_symbol. set_solver.
  - done.
  - intros name symbol Hname. rewrite <- Hlast.
    assert (is_Some (m0 !! name)) as [s0 Hs0].
    { apply elem_of_dom. rewrite Hdom0. by apply elem_of_list_to_set. }
    pose proof (Hkeep _ _ Hs0) as Hs. rewrite Hs0, Hs. done.
  - intros name symbol Hname Hl. apply (Hnew _ _ Hl).
    apply not_elem_of_dom. rewrite Hdom0. by rewrite elem_of_list_to_set.
  - done.
  - lia.
  - done.
  - apply resolve_productions_fmap in Hres. simpl in Hres. subst resolved.
    rewrite <- list_fmap_compose. f_equal. apply list_fmap_ext.
    intros i p Hp. apply list_elem_of_lookup_2 in Hp. simpl. f_equal.
    + apply Hshift; [done..|]. apply elem_of_dom. rewrite Hdom.
      apply elem_of_union_r, elem_of_list_to_set, list_elem_of_fmap. eauto.
    + rewrite <- list_fmap_compose. apply list_fmap_ext.
      intros j name Hname. apply list_elem_of_lookup_2 in Hname. simpl.
      apply Hshift; [done..|]. apply elem_of_dom. by eapply Hall.
  - intros p name Hp Hname. apply elem_of_dom. by eapply Hall.
  - apply resolve_ignored_fmap in Hign as [-> _]. done.
  - apply resolve_ignored_fmap in Hign as [_ Hign]. done.
Qed.

(** X19: when [build_grammar] returns, it has numbered the names by one
    injective numbering: a token name has the index of its last declaration,
    a left-hand side that is no token name has a number above the end
    terminal, and every production of the language is in the grammar, in
    order, with each name replaced by its number, followed by one more
    production (the accept production). *)
Theorem build_grammar_numbers_names (language : language.t) (g : grammar.t) :
  build_grammar language = Returned g →
  ∃ number : string → Z,
    (∀ name i, last_declared (language.tokens language) name i → number name = i)
    ∧ (∀ name, name ∈ (language.lhs <$> language.productions language) →
         name ∉ (language.name <$> language.tokens language) →
         isize (language.tokens language) < number name < grammar.nsymbols g - 1)
    ∧ (∀ x y, known_symbol language x → known_symbol language y →
         number x = number y → x = y)
    ∧ grammar.nterminals g = isize (language.tokens language) + 1
    ∧ ∃ accept,
        grammar.productions g
        = ((λ p, grammar.mkProduction (number (language.lhs p))
                   (number <$> language.rhs p))
             <$> language.productions language) ++ [accept].
Proof.
  intros Hg.
  destruct (build_grammar_parts language g Hg)
    as (m & n & accept & Hknown & Hrange & Htok & Hnew & Hinj & Hns & Hnt & Hprods & _).
  cbv zeta in Hprods.
  set (n0 := isize (language.tokens language)) in *.
  exists (λ name, if decide (n0 ≤ default 0 (m !! name))
                  then default 0 (m !! name) + 1 else default 0 (m !! name)).
  split_and!.
  - intros name i Hlast.
    assert (Hname : name ∈ (language.name <$> language.tokens language)).
    { destruct Hlast as (_ & (token & Hl & <-) & _).
      apply list_elem_of_fmap. exists token. split; [done|].
      by eapply list_elem_of_lookup_2. }
    apply (Htok name i Hname) in Hlast as Hm. rewrite Hm. simpl.
    destruct Hlast as (_ & (token & Hl & _) & _). apply lookup_lt_Some in Hl.
    rewrite decide_False; [done|]. unfold n0, isize. lia.
  - intros name Hlhs Hname.
    assert (is_Some (m !! name)) as [symbol Hs] by (apply Hknown; by right).
    rewrite Hs. simpl. pose proof (Hnew _ _ Hname Hs). pose proof (Hrange _ _ Hs).
    rewrite decide_True by done. lia.
  - intros x y Hx Hy.
    apply Hknown in Hx as [sx Hx]. apply Hknown in Hy as [sy Hy].
    rewrite Hx, Hy. simpl. intros Heq. apply (Hinj x y sx); [done|].
    rewrite Hy. f_equal.
    destruct (decide (n0 ≤ sx)), (decide (n0 ≤ sy)); lia.
  - done.
  - by exists accept.
Qed.

Lemma build_grammar_numbers_names_witness :
  ∃ number : string → Z,
    (∀ name i, last_declared (language.tokens echo_language) name i → number name = i)
    ∧ (∀ name, name ∈ (language.lhs <$> language.productions echo_language) →
         name ∉ (language.name <$> language.tokens echo_language) →
         isize (language.tokens echo_language) < number name
         < grammar.nsymbols echo_grammar - 1)
    ∧ (∀ x y, known_symbol echo_language x → known_symbol echo_language y →
         number x = number y → x = y)
    ∧ grammar.nterminals echo_grammar = isize (language.tokens echo_language) + 1
    ∧ ∃ accept,
        grammar.productions echo_grammar
        = ((λ p, grammar.mkProduction (number (language.lhs p))
                   (number <$> language.rhs p))
             <$> language.productions echo_language) ++ [accept].
Proof.
  apply (build_grammar_numbers_names echo_language echo_grammar).
  vm_compute. reflexivity.
Defined.

(** X20: when [build_grammar] returns, the ignored terminals of the grammar
    are the numbers of the ignored names, in order.  For a token name that is
    the index of its last declaration.  A name that is no token but a
    left-hand side is taken as well, and its entry is the number that the
    nonterminal had before the end terminal was inserted: one less than the
    number of that nonterminal in the productions of the grammar, and no
    index of a token. *)
Theorem build_grammar_ignored_terminals (language : language.t) (g : grammar.t) :
  build_grammar language = Returned g →
  Forall2 (λ name symbol,
             last_declared (language.tokens language) name symbol
             ∨ ((name ∉ (language.name <$> language.tokens language))
                ∧ name ∈ (language.lhs <$> language.productions language)
                ∧ isize (language.tokens language) ≤ symbol
                ∧ ∀ (i : nat) p,
                    language.productions language !! i = Some p →
                    language.lhs p = name →
                    grammar.lhs (prod_at g (Z.of_nat i)) = symbol + 1))
          (language.ignored_tokens language) (grammar.ignored_terminals g).
Proof.
  intros Hg.
  destruct (build_grammar_parts language g Hg)
    as (m & n & accept & Hknown & Hrange & Htok & Hnew & Hinj & Hns & Hnt & Hprods & _
        & Hign & Hall).
  cbv zeta in Hprods, Hign.
  rewrite Hign. apply Forall2_fmap_r, Forall_Forall2_diag, Forall_forall.
  intros name Hname. destruct (Hall name Hname) as [symbol Hs]. unfold compose. rewrite Hs. simpl.
  destruct (decide (name ∈ (language.name <$> language.tokens language))) as [Ht|Hnt'].
  - left. by apply Htok.
  - right. pose proof (Hnew _ _ Hnt' Hs) as Hge.
    assert (Hlhs : name ∈ (language.lhs <$> language.productions language)).
    { destruct (proj1 (Hknown name) (ex_intro _ _ Hs)) as [?|?]; done. }
    split_and!; [done..|].
    intros i p Hp Hpn. unfold prod_at, at_. rewrite Nat2Z.id, nth_lookup, Hprods.
    erewrite lookup_app_l_Some; [|by rewrite list_lookup_fmap, Hp].
    simpl. rewrite Hpn, Hs. simpl. by rewrite decide_True.
Qed.

Lemma build_grammar_ignored_terminals_witness :
  Forall2 (λ name symbol,
             last_declared (language.tokens echo_language) name symbol
             ∨ ((name ∉ (language.name <$> language.tokens echo_language))
                ∧ name ∈ (language.lhs <$> language.productions echo_language)
                ∧ isize (language.tokens echo_language) ≤ symbol
                ∧ ∀ (i : nat) p,
                    language.productions echo_language !! i = Some p →
                    language.lhs p = name →
                    grammar.lhs (prod_at echo_grammar (Z.of_nat i)) = symbol + 1))
          (language.ignored_tokens echo_language) (grammar.ignored_terminals echo_grammar).
Proof.
  apply (build_grammar_ignored_terminals echo_language echo_grammar).
  vm_compute. reflexivity.
Defined.

(** ** NEWLINE without INDENT *)

(** X21: a language that declares NEWLINE (once) and no INDENT is rejected:
    the test that NEWLINE comes before the other indent tokens is made for
    every language, and the absent INDENT counts as index -1, which is before
    NEWLINE. *)
Theorem build_indent_info_newline_without_indent (language : language.t) :
  declared_once (language.tokens language) →
  index_of "INDENT" (language.tokens language) = -1 →
  index_of "NEWLINE" (language.tokens language) ≠ -1 →
  build_indent_info language
  = Thrown (invalid_argument
              ("NEWLINE needs to come before all other indent tokens" +:+ newline)).
Proof.
  intros Honce Hindent Hnewline.
  pose proof (build_indent_loop_all language) as Hloop.
  unfold build_indent_info.
  destruct (build_indent_loop _ 0 (language.tokens language)) as [out|e|msg|] eqn:E;
    [|done..].
  destruct Hloop as [(Hs & Hi & Hd & Hn) _].
  destruct out as [s i d n]. simpl in *. subst s i d n.
  rewrite Hindent. simpl.
  pose proof (index_of_range "NEWLINE" (language.tokens language) Hnewline) as Hr.
  rewrite (bool_decide_eq_true_2 (-1 < _)) by lia. done.
Qed.

Lemma build_indent_info_newline_without_indent_witness :
  build_indent_info (language.mk [language.mkToken "word" "a"; language.mkToken "NEWLINE" "n"]
                       [] [])
  = Thrown (invalid_argument
              ("NEWLINE needs to come before all other indent tokens" +:+ newline)).
Proof.
  apply (build_indent_info_newline_without_indent
           (language.mk [language.mkToken "word" "a"; language.mkToken "NEWLINE" "n"]
              [] [])).
  - unfold declared_once. vm_compute. lia.
  - reflexivity.
  - vm_compute. discriminate.
Defined.

(** ** Accepting states as dead ends *)

Lemma copied_cell_dead x out o i c :
  accepting_dead_end x → 0 ≤ i < get_nstates x → accepts x i ≠ -1 → 0 ≤ c →
  copied_cell out x o i c = -1.
Proof.
  intros Hdead Hi Hacc Hc. unfold copied_cell.
  destruct (decide _) as [(Hc1 & _ & Hstep)|]; [|done].
  rewrite (Hdead i c Hi Hacc) in Hstep by (unfold get_nsymbols_eps; lia). lia.
Qed.

Lemma two_state_dead_end out nsymbols (A : Z → Prop) token :
  two_state out nsymbols A token → accepting_dead_end out.
Proof.
  intros [Hsh Hn Hc Hd Hstep H0 H1] state c Hstate Hacc Hcc. rewrite Hn in Hstate.
  assert (state = 1) as -> by (destruct (decide (state = 0)) as [->|]; [done|lia]).
  destruct (Hstep 1 c ltac:(lia) ltac:(lia)) as [_ Hno]. apply Hno. lia.
Qed.

Lemma unite_nstates a b :
  well_formed a →
  get_nstates (finite_automaton.unite a b) = 1 + get_nstates a + get_nstates b.
Proof.
  intros Hwfa. unfold finite_automaton.unite.
  pose proof (shaped_ncols _ (wf_shaped _ Hwfa)) as Hpos.
  set (out0 := new_automaton (get_nsymbols a) false).
  assert (H0 : shaped out0) by by apply shaped_new.
  set (x1 := add_state out0).
  assert (H1 : shaped x1) by by apply shaped_add_state.
  assert (Hn1 : get_nstates x1 = 1) by done.
  destruct (append_states_spec x1 a H1) as [H2 Hn2 _ _ _ _].
  destruct (append_states_spec (append_states x1 a) b H2) as [H3 Hn3 _ _ _ _].
  rewrite !get_nstates_add_transition. lia.
Qed.

Lemma unite_dead_end a b :
  well_formed a → well_formed b → get_nsymbols b = get_nsymbols a →
  accepting_dead_end a → accepting_dead_end b →
  accepting_dead_end (finite_automaton.unite a b).
Proof.
  intros Hwfa Hwfb Hsym Hda Hdb.
  pose proof (unite_united a b Hwfa Hwfb Hsym) as Hu.
  pose proof (unite_nstates a b Hwfa) as Hn.
  intros state c Hstate Hacc Hc. rewrite Hn in Hstate.
  destruct (decide (state = 0)) as [->|H0].
  { by rewrite (un_start_accepts _ _ _ Hu) in Hacc. }
  destruct (decide (state < 1 + get_nstates a)) as [Hlt|Hge].
  - replace state with (1 + (state - 1)) in * by lia.
    rewrite (em_accepts _ _ _ (un_left _ _ _ Hu)) in Hacc by lia.
    rewrite (em_step _ _ _ (un_left _ _ _ Hu)) by lia.
    apply copied_cell_dead; [done|lia|done|lia].
  - replace state with (1 + get_nstates a + (state - (1 + get_nstates a))) in * by lia.
    rewrite (em_accepts _ _ _ (un_right _ _ _ Hu)) in Hacc by lia.
    rewrite (em_step _ _ _ (un_right _ _ _ Hu)) by lia.
    apply copied_cell_dead; [done|lia|done|lia].
Qed.

Lemma concat_dead_end a b token :
  well_formed a → well_formed b → get_nsymbols b = get_nsymbols a →
  accepting_without_epsilon a → accepting_dead_end b → 0 ≤ token →
  accepting_dead_end (finite_automaton.concat a b token).
Proof.
  intros Hwfa Hwfb Hsym HPa Hdb Htoken.
  destruct (concat_structure a b token Hwfa Hwfb Hsym HPa Htoken)
    as (Hwf & Hn & Hha & Hhb & _ & Hacca & Haccb).
  intros state c Hstate Hacc Hc. rewrite Hn in Hstate.
  pose proof (wf_start _ Hwfa).
  destruct (decide (state < get_nstates a)) as [Hlt|Hge].
  { rewrite Hacca in Hacc by lia. done. }
  replace state with (get_nstates a + (state - get_nstates a)) in * by lia.
  rewrite Haccb in Hacc by lia.
  destruct (decide (accepts b (state - get_nstates a) = -1)) as [|Hb]; [done|].
  rewrite (ho_cells _ _ _ _ Hhb) by (try lia; by right).
  apply copied_cell_dead; [done|lia|done|lia].
Qed.

Lemma maybe_dead_end a token :
  well_formed a → accepting_without_epsilon a → 0 ≤ token →
  accepting_dead_end (finite_automaton.maybe a token).
Proof.
  intros Hwfa HPa Htoken.
  destruct (maybe_structure a token Hwfa HPa Htoken)
    as (Hwf & Hn & _ & _ & _ & _ & Hlast & _ & Hal & _).
  intros state c Hstate Hacc Hc. rewrite Hn in Hstate.
  destruct (decide (state < 1 + get_nstates a)) as [Hlt|Hge].
  - rewrite Hal in Hacc by lia. done.
  - replace state with (1 + get_nstates a) by lia. apply Hlast. lia.
Qed.

(** X22: the accepting states of the one-symbol automata have no outgoing
    transition, and [unite], [concat], [plus], [maybe] and [star] keep it so:
    every automaton put together from these has only dead ends as accepting
    states, which is what [maybe] relies on. *)
Theorem combinators_keep_accepting_dead_end (a b : finite_automaton) (token : Z) :
  well_formed a → well_formed b → get_nsymbols b = get_nsymbols a →
  accepting_dead_end a → accepting_dead_end b → 0 ≤ token →
  (∀ nsymbols range_start range_end,
     0 ≤ nsymbols → 0 ≤ range_start →
     accepting_dead_end
       (finite_automaton.make_range_nfa nsymbols range_start range_end token))
  ∧ (∀ nsymbols (accepted : gset Z),
       0 ≤ nsymbols → (∀ c, c ∈ accepted → 0 ≤ c) →
       accepting_dead_end (finite_automaton.make_set_nfa nsymbols accepted token))
  ∧ accepting_dead_end (finite_automaton.unite a b)
  ∧ accepting_dead_end (finite_automaton.concat a b token)
  ∧ accepting_dead_end (finite_automaton.plus a token)
  ∧ accepting_dead_end (finite_automaton.maybe a token)
  ∧ accepting_dead_end (finite_automaton.star a token).
Proof.
  intros Hwfa Hwfb Hsym Hda Hdb Htoken.
  assert (HPa : accepting_without_epsilon a)
    by (apply dead_end_without_epsilon; [apply Hwfa|done]).
  split_and!.
  - intros nsymbols range_start range_end Hn Hr.
    eapply two_state_dead_end. by apply make_range_nfa_two_state.
  - intros nsymbols accepted Hn Hacc.
    eapply two_state_dead_end. by apply make_set_nfa_two_state.
  - by apply unite_dead_end.
  - by apply concat_dead_end.
  - by apply plus_dead_end.
  - by apply maybe_dead_end.
  - unfold finite_automaton.star.
    destruct (plus_structure a token Hwfa HPa Htoken) as (Hwfp & _).
    apply maybe_dead_end; [done| |done].
    apply dead_end_without_epsilon; [apply Hwfp|]. by apply plus_dead_end.
Qed.

Lemma combinators_keep_accepting_dead_end_witness :
  (∀ nsymbols range_start range_end,
     0 ≤ nsymbols → 0 ≤ range_start →
     accepting_dead_end (finite_automaton.make_range_nfa nsymbols range_start range_end 3))
  ∧ (∀ nsymbols (accepted : gset Z),
       0 ≤ nsymbols → (∀ c, c ∈ accepted → 0 ≤ c) →
       accepting_dead_end (finite_automaton.make_set_nfa nsymbols accepted 3))
  ∧ accepting_dead_end (finite_automaton.unite zero_nfa one_nfa)
  ∧ accepting_dead_end (finite_automaton.concat zero_nfa one_nfa 3)
  ∧ accepting_dead_end (finite_automaton.plus zero_nfa 3)
  ∧ accepting_dead_end (finite_automaton.maybe zero_nfa 3)
  ∧ accepting_dead_end (finite_automaton.star zero_nfa 3).
Proof.
  apply (combinators_keep_accepting_dead_end zero_nfa one_nfa 3).
  - apply well_formedb_sound. vm_compute. reflexivity.
  - apply well_formedb_sound. vm_compute. reflexivity.
  - reflexivity.
  - apply accepting_dead_endb_sound. vm_compute. reflexivity.
  - apply accepting_dead_endb_sound. vm_compute. reflexivity.
  - lia.
Defined.

(** ** The LR(0) automaton *)

Lemma state_at_alter states (done : Z) f i :
  0 ≤ done < isize states → 0 ≤ i →
  state_at (alter f (Z.to_nat done) states) i
  = if decide (i = done) then f (state_at states i) else state_at states i.
Proof.
  intros Hd Hi. unfold state_at. rewrite !at_default.
  destruct (decide (i = done)) as [->|Hne].
  - rewrite list_lookup_alter_eq.
    destruct (lookup_lt_is_Some_2 states (Z.to_nat done)) as [s Hs];
      [unfold isize in Hd; lia|].
    by rewrite Hs.
  - rewrite list_lookup_alter_ne by lia. done.
Qed.

Lemma isize_alter {A} (f : A → A) (i : nat) (l : list A) : isize (alter f i l) = isize l.
Proof. unfold isize. by rewrite length_alter. Qed.

Lemma state_at_snoc states state i :
  0 ≤ i →
  state_at (states ++ [state]) i
  = if decide (i < isize states) then state_at states i
    else if decide (i = isize states) then state else mkStateInProgress [] [].
Proof.
  intros Hi. unfold state_at. destruct (decide (i < isize states)) as [Hlt|Hge].
  - by rewrite at_app_l by lia.
  - rewrite at_app_r by lia. destruct (decide (i = isize states)) as [->|Hne].
    + by rewrite Z.sub_diag.
    + rewrite at_ge; [done|]. unfold isize in *. simpl. lia.
Qed.

(** The configuration after one that is not complete is the same production
    with the dot one symbol further. *)
Lemma make_configs_next (g : grammar.t) config_i :
  0 ≤ config_i < isize (make_configs g) →
  dot (config_at (make_configs g) config_i)
    < isize (grammar.rhs (prod_at g (production (config_at (make_configs g) config_i)))) →
  config_i + 1 < isize (make_configs g).
Proof.
  intros Hi Hdot.
  destruct (lookup_lt_is_Some_2 (make_configs g) (Z.to_nat config_i)) as [c Hc].
  { unfold isize in Hi. lia. }
  assert (Hat : config_at (make_configs g) config_i = c).
  { unfold config_at. by rewrite at_default, Hc. }
  rewrite Hat in *.
  pose proof Hc as Hc'. rewrite make_configs_blocks in Hc'.
  apply lookup_concat_block in Hc' as (b & blk & j & Hb & Hj & Hnext).
  rewrite <- make_configs_blocks in Hnext.
  rewrite list_lookup_fmap in Hb.
  destruct (seqZ 0 (isize (grammar.productions g)) !! b) as [i|] eqn:Hi'; [|done].
  injection Hb as <-.
  rewrite list_lookup_fmap in Hj.
  destruct (seqZ 0 (isize (grammar.rhs (prod_at g i)) + 1) !! j) as [d|] eqn:Hd; [|done].
  injection Hj as <-. simpl in Hdot.
  apply lookup_seqZ in Hd as [-> Hjlt].
  assert (Hn : make_configs g !! S (Z.to_nat config_i) = Some (mkConfig i (0 + Z.of_nat j + 1))).
  { apply Hnext. rewrite list_lookup_fmap.
    rewrite (proj2 (lookup_seqZ 0 _ (S j) (0 + Z.of_nat j + 1))); [done|]. lia. }
  apply lookup_lt_Some in Hn. unfold isize. lia.
Qed.

Lemma symbol_after_dot_Some cs g config_i symbol :
  symbol_after_dot cs g config_i = Some symbol →
  dot (config_at cs config_i)
  ≠ isize (grammar.rhs (prod_at g (production (config_at cs config_i)))).
Proof. unfold symbol_after_dot. by case_decide. Qed.

Lemma elem_of_successor_kernel cs g state symbol x :
  x ∈ successor_kernel cs g state symbol ↔
  ∃ config_i, config_i ∈ configs state ∧ symbol_after_dot cs g config_i = Some symbol
              ∧ x = config_i + 1.
Proof.
  unfold successor_kernel.
  assert (H : ∀ l acc,
            x ∈ foldl (λ next_configs config_i,
                         match symbol_after_dot cs g config_i with
                         | None => next_configs
                         | Some symbol' =>
                             if decide (symbol' ≠ symbol) then next_configs
                             else next_configs ++ [config_i + 1]
                         end) acc l
            ↔ x ∈ acc ∨ ∃ config_i, config_i ∈ l
                                     ∧ symbol_after_dot cs g config_i = Some symbol
                                     ∧ x = config_i + 1).
  { induction l as [|c l IH]; intros acc; simpl.
    - split; [by left|]. intros [?|(c & Hc & _)]; [done|]. by apply elem_of_nil in Hc.
    - rewrite IH. destruct (symbol_after_dot cs g c) as [symbol'|] eqn:Hc.
      + destruct (decide (symbol' ≠ symbol)) as [Hne|Heq].
        * split; (intros [?|(c' & Hc' & Hs & ->)]; [by left|right]).
          -- exists c'. split; [by right|done].
          -- apply elem_of_cons in Hc' as [->|Hc']; [congruence|]. by exists c'.
        * apply dec_stable in Heq. subst symbol'. rewrite elem_of_app, list_elem_of_singleton.
          split.
          -- intros [[?| ->]|(c' & Hc' & Hs & ->)]; [by left|right..].
             ++ exists c. split; [by left|done].
             ++ exists c'. split; [by right|done].
          -- intros [?|(c' & Hc' & Hs & ->)]; [by left; left|].
             apply elem_of_cons in Hc' as [->|Hc']; [by left; right|].
             right. by exists c'.
      + split; (intros [?|(c' & Hc' & Hs & ->)]; [by left|right]).
        * exists c'. split; [by right|done].
        * apply elem_of_cons in Hc' as [->|Hc']; [congruence|]. by exists c'. }
  rewrite H. split; [intros [Hx|?]; [by apply elem_of_nil in Hx|done]|by right].
Qed.

Lemma elem_of_transition_symbols cs g state symbol :
  symbol ∈ transition_symbols cs g state ↔
  ∃ config_i, config_i ∈ configs state ∧ symbol_after_dot cs g config_i = Some symbol.
Proof.
  unfold transition_symbols.
  assert (H : ∀ l (acc : gset Z),
            symbol ∈ foldl (λ symbols config_i,
                              match symbol_after_dot cs g config_i with
                              | None => symbols
                              | Some symbol' => {[symbol']} ∪ symbols
                              end) acc l
            ↔ symbol ∈ acc ∨ ∃ config_i, config_i ∈ l
                                          ∧ symbol_after_dot cs g config_i = Some symbol).
  { induction l as [|c l IH]; intros acc; simpl.
    - split; [by left|]. intros [?|(c & Hc & _)]; [done|]. by apply elem_of_nil in Hc.
    - rewrite IH. destruct (symbol_after_dot cs g c) as [symbol'|] eqn:Hc.
      + rewrite elem_of_union, elem_of_singleton. split.
        * intros [[->|?]|(c' & Hc' & Hs)]; [right|by left|right].
          -- exists c. split; [by left|done].
          -- exists c'. split; [by right|done].
        * intros [?|(c' & Hc' & Hs)]; [by left; right|].
          apply elem_of_cons in Hc' as [->|Hc']; [left; left; congruence|].
          right. by exists c'.
      + split; (intros [?|(c' & Hc' & Hs)]; [by left|right]).
        * exists c'. split; [by right|done].
        * apply elem_of_cons in Hc' as [->|Hc']; [congruence|]. by exists c'. }
  rewrite H. split; [|by right]. intros [Hx|Hx]; [|done]. by apply not_elem_of_empty in Hx.
Qed.

Lemma lr0_shift_mono g states states' kernel symbol a :
  isize states ≤ isize states' →
  (∀ i, 0 ≤ i < isize states → configs (state_at states' i) = configs (state_at states i)) →
  lr0_shift g states kernel symbol a → lr0_shift g states' kernel symbol a.
Proof.
  intros Hle Hsame (j & -> & Hj & Hx). exists j. split; [done|]. split; [lia|].
  intros x. by rewrite Hsame.
Qed.

Lemma close_ordered state cs g lhs2sc closed :
  close state cs g lhs2sc = Some closed → ∃ S : gset Z, configs closed = ordered S.
Proof.
  unfold close. destruct (close_loop _ _ _ _ _ _) as [S|]; [|done].
  simpl. intros [= <-]. by exists S.
Qed.

Lemma ordered_list_to_set (S : gset Z) : list_to_set (ordered S) = S.
Proof. apply set_eq. intros x. by rewrite elem_of_list_to_set, elem_of_ordered. Qed.

Section lr0.
Context (g : grammar.t) (Hok : grammar_ok g).
Local Notation cs := (make_configs g).
Local Notation lhs2sc := (get_left_hand_sides_to_start_configs (make_configs g) g).

Lemma lr0_closure_range kernel x :
  (∀ c, c ∈ kernel → 0 ≤ c < isize cs) → lr0_closure g kernel x → 0 ≤ x < isize cs.
Proof.
  intros Hk (c0 & Hc0 & Hr). apply rtc_inv_r in Hr as [<-|(y & _ & Hy)]; [by apply Hk|].
  destruct Hy as (symbol & _ & _ & Hx & _). done.
Qed.

(** [close] on a kernel of configurations. *)
Lemma close_kernel kernel :
  (∀ c, c ∈ kernel → 0 ≤ c < isize cs) →
  ∃ closed (S : gset Z),
    close (mkStateInProgress kernel []) cs g lhs2sc = Some closed
    ∧ actions closed = []
    ∧ configs closed = ordered S
    ∧ (∀ x, x ∈ S → 0 ≤ x < isize cs)
    ∧ ∀ x, x ∈ configs closed ↔ lr0_closure g kernel x.
Proof.
  intros Hk.
  destruct (close_spec cs g lhs2sc (start_configs_in_range g Hok cs)
              (mkStateInProgress kernel []) Hk) as (closed & Hc & Ha & _ & Hx).
  destruct (close_ordered _ _ _ _ _ Hc) as [S HS].
  assert (Hcl : ∀ x, x ∈ configs closed ↔ lr0_closure g kernel x).
  { intros x. rewrite Hx. simpl. unfold lr0_closure. split.
    - intros (c0 & Hc0 & Hr). exists c0. split; [done|].
      by apply (rtc_expands_lr0 g Hok c0 x (Hk c0 Hc0)).
    - intros (c0 & Hc0 & Hr). exists c0. split; [done|].
      by apply (rtc_expands_lr0 g Hok c0 x (Hk c0 Hc0)). }
  exists closed, S. split_and!; [done..| |done].
  intros x HxS. apply (lr0_closure_range kernel); [done|].
  apply Hcl. rewrite HS. by apply elem_of_ordered.
Qed.

Lemma successor_kernel_range (state : state_in_progress) symbol :
  (∀ c, c ∈ configs state → 0 ≤ c < isize cs) →
  ∀ c, c ∈ successor_kernel cs g state symbol → 0 ≤ c < isize cs.
Proof.
  intros Hstate c Hc. apply elem_of_successor_kernel in Hc as (config_i & Hi & Hs & ->).
  specialize (Hstate _ Hi). split; [lia|].
  apply make_configs_next; [done|].
  pose proof (symbol_after_dot_Some _ _ _ _ Hs) as Hne.
  pose proof (config_at_make_configs g config_i Hstate) as Hin.
  apply elem_of_make_configs in Hin. lia.
Qed.

Lemma lr0_inv_queue start st done shifted q :
  lr0_inv g start st done shifted →
  lr0_inv g start (mkLr0 (lr0_states st) (state_ptrs2idxs st) q) done shifted.
Proof. intros [H1 H2 H3 H4 H5 H6 H7 H8]. by split. Qed.

(** Recording an action of the state [done]. *)
Lemma lr0_inv_add_action start st done shifted symbol a :
  lr0_inv g start st done shifted → done < isize (lr0_states st) →
  lr0_shift g (lr0_states st)
    (successor_kernel cs g (state_at (lr0_states st) done) symbol) symbol a →
  lr0_inv g start
    (mkLr0 (alter (λ state, mkStateInProgress (configs state) (actions state ++ [a]))
                  (Z.to_nat done) (lr0_states st))
           (state_ptrs2idxs st) (state_q st))
    done (shifted ++ [symbol]).
Proof.
  intros [Hdone Hne Hstart Hmap Hcan Hsh Hcur Hfresh] Hlt Ha.
  set (f := λ state, mkStateInProgress (configs state) (actions state ++ [a])).
  set (states' := alter f (Z.to_nat done) (lr0_states st)).
  assert (Hn : isize states' = isize (lr0_states st)) by apply isize_alter.
  assert (Hat : ∀ i, 0 ≤ i →
            state_at states' i
            = if decide (i = done) then f (state_at (lr0_states st) i)
              else state_at (lr0_states st) i).
  { intros i Hi. apply state_at_alter; lia. }
  assert (Hcfg : ∀ i, 0 ≤ i → configs (state_at states' i) = configs (state_at (lr0_states st) i)).
  { intros i Hi. rewrite Hat by done. by case_decide. }
  assert (Hmono : ∀ kernel sym b,
            lr0_shift g (lr0_states st) kernel sym b → lr0_shift g states' kernel sym b).
  { intros kernel sym b. apply lr0_shift_mono; [lia|]. intros i Hi. apply Hcfg. lia. }
  split; simpl; fold f; fold states'.
  - lia.
  - lia.
  - by rewrite Hcfg.
  - intros k i. rewrite Hmap, Hn. split.
    + intros [Hi <-]. split; [done|]. apply Hcfg. lia.
    + intros [Hi <-]. split; [done|]. symmetry. apply Hcfg. lia.
  - intros i Hi. rewrite Hcfg by lia. apply Hcan. lia.
  - intros i Hi. rewrite Hat by lia. rewrite decide_False by lia.
    apply (Forall2_impl _ _ _ _ (Hsh i Hi)). intros sym b. apply Hmono.
  - rewrite Hat by lia. rewrite decide_True by done. unfold f at 2. simpl.
    apply Forall2_app.
    + apply (Forall2_impl _ _ _ _ Hcur). intros sym b. apply Hmono.
    + constructor; [|constructor]. by apply Hmono.
  - intros i Hi. rewrite Hat by lia. rewrite decide_False by lia. apply Hfresh. lia.
Qed.

(** Adding a state that is not known by its configurations. *)
Lemma lr0_inv_add_state start st done shifted next (S : gset Z) :
  lr0_inv g start st done shifted → done < isize (lr0_states st) →
  configs next = ordered S → (∀ x, x ∈ S → 0 ≤ x < isize cs) → actions next = [] →
  state_ptrs2idxs st !! configs next = None →
  lr0_inv g start
    (mkLr0 (lr0_states st ++ [next])
           (<[configs next := isize (lr0_states st)]> (state_ptrs2idxs st))
           (state_q st ++ [isize (lr0_states st)]))
    done shifted.
Proof.
  intros [Hdone Hne Hstart Hmap Hcan Hsh Hcur Hfresh] Hlt HS Hrange Hact Hnone.
  set (n := isize (lr0_states st)) in *.
  assert (Hn : isize (lr0_states st ++ [next]) = n + 1) by (by rewrite isize_app).
  assert (Hat : ∀ i, 0 ≤ i < n → state_at (lr0_states st ++ [next]) i = state_at (lr0_states st) i).
  { intros i Hi. rewrite state_at_snoc by lia. by rewrite decide_True by (fold n; lia). }
  assert (Hlast : state_at (lr0_states st ++ [next]) n = next).
  { rewrite state_at_snoc by lia. fold n. rewrite decide_False by lia.
    by rewrite decide_True. }
  assert (Hmono : ∀ kernel sym b,
            lr0_shift g (lr0_states st) kernel sym b →
            lr0_shift g (lr0_states st ++ [next]) kernel sym b).
  { intros kernel sym b. apply lr0_shift_mono; [fold n; lia|].
    intros i Hi. by rewrite Hat. }
  split; simpl.
  - lia.
  - lia.
  - by rewrite Hat by lia.
  - intros k i. rewrite lookup_insert, Hn. destruct (decide (configs next = k)) as [<-|Hk].
    + split.
      * intros [= <-]. split; [lia|]. by rewrite Hlast.
      * intros [Hi Hc]. f_equal. destruct (decide (i = n)) as [->|Hin]; [done|].
        rewrite Hat in Hc by lia.
        assert (state_ptrs2idxs st !! configs next = Some i) as Hs
          by (apply Hmap; split; [fold n; lia|done]).
        by rewrite Hnone in Hs.
    + rewrite Hmap. fold n. split.
      * intros [Hi <-]. split; [lia|]. by rewrite Hat.
      * intros [Hi <-]. destruct (decide (i = n)) as [->|Hin].
        { by rewrite Hlast in Hk. }
        split; [lia|]. by rewrite Hat by lia.
  - intros i Hi. rewrite Hn in Hi. destruct (decide (i = n)) as [->|Hin].
    + rewrite Hlast. by exists S.
    + rewrite Hat by lia. apply Hcan. fold n. lia.
  - intros i Hi. rewrite Hat by lia.
    apply (Forall2_impl _ _ _ _ (Hsh i Hi)). intros sym b. apply Hmono.
  - rewrite Hat by lia. apply (Forall2_impl _ _ _ _ Hcur). intros sym b. apply Hmono.
  - intros i Hi. rewrite Hn in Hi. destruct (decide (i = n)) as [->|Hin].
    + by rewrite Hlast.
    + rewrite Hat by lia. apply Hfresh. fold n. lia.
Qed.

(** One pass of the inner loop: the successor is found or added, and the
    shift is recorded. *)
Lemma lr0_transition_spec start st done shifted symbol :
  lr0_inv g start st done shifted → done < isize (lr0_states st) →
  state_q st = seqZ (done + 1) (isize (lr0_states st) - (done + 1)) →
  ∃ st', lr0_transition cs g lhs2sc done (Some st) symbol = Some st'
         ∧ lr0_inv g start st' done (shifted ++ [symbol])
         ∧ done < isize (lr0_states st')
         ∧ configs (state_at (lr0_states st') done) = configs (state_at (lr0_states st) done)
         ∧ state_q st' = seqZ (done + 1) (isize (lr0_states st') - (done + 1)).
Proof.
  intros Hinv Hlt Hq.
  pose proof (li_done _ _ _ _ _ Hinv) as Hdone.
  set (state := state_at (lr0_states st) done).
  assert (Hstate : ∀ c, c ∈ configs state → 0 ≤ c < isize cs).
  { intros c Hc. destruct (li_canonical _ _ _ _ _ Hinv done ltac:(lia)) as (S & HS & Hr).
    apply Hr. apply elem_of_ordered. fold state in HS. by rewrite <- HS. }
  destruct (close_kernel (successor_kernel cs g state symbol)
              (successor_kernel_range state symbol Hstate))
    as (next & S & Hclose & Hact & HS & Hrange & Hx).
  unfold lr0_transition. simpl. fold state. rewrite Hclose. simpl.
  destruct (state_ptrs2idxs st !! configs next) as [j|] eqn:Hlook.
  - apply (li_map _ _ _ _ _ Hinv) in Hlook as [Hj Hcj].
    eexists. split; [done|]. split_and!.
    + apply lr0_inv_add_action; [done..|].
      exists j. split; [done|]. split; [done|]. intros x. by rewrite Hcj.
    + simpl. by rewrite isize_alter.
    + simpl. rewrite state_at_alter by lia. by rewrite decide_True.
    + simpl. by rewrite isize_alter.
  - pose proof (lr0_inv_add_state start st done shifted next S Hinv Hlt HS Hrange Hact Hlook)
      as Hinv'.
    set (st1 := mkLr0 _ _ _) in Hinv'.
    assert (Hn1 : isize (lr0_states st1) = isize (lr0_states st) + 1)
      by (unfold st1; simpl; by rewrite isize_app).
    assert (Hd1 : state_at (lr0_states st1) done = state).
    { unfold st1. simpl. rewrite state_at_snoc by lia. by rewrite decide_True by lia. }
    eexists. split; [done|]. split_and!.
    + apply (lr0_inv_add_action start st1); [done|lia|].
      exists (isize (lr0_states st)). split; [done|]. split; [lia|].
      intros x. unfold st1 in Hd1 |- *. simpl in Hd1 |- *. rewrite Hd1.
      rewrite state_at_snoc by lia.
      rewrite decide_False by lia. rewrite decide_True by done. apply Hx.
    + simpl. rewrite isize_alter, isize_app. pose proof (isize_nonneg [next]). lia.
    + simpl. rewrite state_at_alter
        by (try rewrite isize_app; pose proof (isize_nonneg [next]); lia).
      rewrite decide_True by done.
      simpl. by rewrite state_at_snoc, decide_True by lia.
    + simpl. rewrite isize_alter, isize_app, Hq.
      replace (isize (lr0_states st) + isize [next] - (done + 1))
        with ((isize (lr0_states st) - (done + 1)) + 1) by (unfold isize; simpl; lia).
      rewrite seqZ_app by lia. f_equal.
      rewrite seqZ_cons by lia. rewrite seqZ_nil by lia. f_equal. lia.
Qed.

Lemma lr0_fold_spec start done : ∀ todo st shifted,
  lr0_inv g start st done shifted → done < isize (lr0_states st) →
  state_q st = seqZ (done + 1) (isize (lr0_states st) - (done + 1)) →
  ∃ st', foldl (lr0_transition cs g lhs2sc done) (Some st) todo = Some st'
         ∧ lr0_inv g start st' done (shifted ++ todo)
         ∧ done < isize (lr0_states st')
         ∧ configs (state_at (lr0_states st') done) = configs (state_at (lr0_states st) done)
         ∧ state_q st' = seqZ (done + 1) (isize (lr0_states st') - (done + 1)).
Proof.
  induction todo as [|symbol todo IH]; intros st shifted Hinv Hlt Hq; cbn [foldl].
  - exists st. rewrite app_nil_r. done.
  - destruct (lr0_transition_spec start st done shifted symbol Hinv Hlt Hq)
      as (st1 & -> & Hinv1 & Hlt1 & Hc1 & Hq1).
    destruct (IH st1 (shifted ++ [symbol]) Hinv1 Hlt1 Hq1)
      as (st2 & -> & Hinv2 & Hlt2 & Hc2 & Hq2).
    exists st2. rewrite <- app_assoc in Hinv2. split_and!; [done..| |done]. congruence.
Qed.

(** The states are different sets of configurations, so there are at most
    [2 ^ |cs|] of them. *)
Lemma lr0_inv_bound start st done shifted :
  lr0_inv g start st done shifted → (length (lr0_states st) ≤ 2 ^ length cs)%nat.
Proof.
  intros Hinv. rewrite <- length_subsets.
  rewrite <- (length_fmap (λ s, list_to_set (configs s) : gset Z)).
  apply submseteq_length, NoDup_submseteq.
  - apply NoDup_alt. intros i j X Hi Hj.
    rewrite list_lookup_fmap in Hi, Hj.
    destruct (lr0_states st !! i) as [si|] eqn:Hsi; [|done].
    destruct (lr0_states st !! j) as [sj|] eqn:Hsj; [|done].
    simpl in Hi, Hj. injection Hi as Hi. injection Hj as Hj.
    pose proof (lookup_lt_Some _ _ _ Hsi) as Hli. pose proof (lookup_lt_Some _ _ _ Hsj) as Hlj.
    assert (Hati : state_at (lr0_states st) (Z.of_nat i) = si).
    { unfold state_at. by rewrite at_default, Nat2Z.id, Hsi. }
    assert (Hatj : state_at (lr0_states st) (Z.of_nat j) = sj).
    { unfold state_at. by rewrite at_default, Nat2Z.id, Hsj. }
    destruct (li_canonical _ _ _ _ _ Hinv (Z.of_nat i)) as (Si & HSi & _);
      [unfold isize; lia|].
    destruct (li_canonical _ _ _ _ _ Hinv (Z.of_nat j)) as (Sj & HSj & _);
      [unfold isize; lia|].
    rewrite Hati in HSi. rewrite Hatj in HSj.
    assert (Heq : configs si = configs sj).
    { rewrite HSi, HSj. f_equal.
      rewrite <- (ordered_list_to_set Si), <- (ordered_list_to_set Sj), <- HSi, <- HSj.
      congruence. }
    assert (H1 : state_ptrs2idxs st !! configs si = Some (Z.of_nat i)).
    { apply (li_map _ _ _ _ _ Hinv). split; [unfold isize; lia|]. by rewrite Hati. }
    assert (H2 : state_ptrs2idxs st !! configs si = Some (Z.of_nat j)).
    { apply (li_map _ _ _ _ _ Hinv). split; [unfold isize; lia|]. by rewrite Hatj. }
    rewrite H1 in H2. injection H2. lia.
  - intros X HX. apply list_elem_of_fmap in HX as (s & -> & Hs).
    apply list_elem_of_lookup in Hs as [i Hs].
    pose proof (lookup_lt_Some _ _ _ Hs) as Hl.
    destruct (li_canonical _ _ _ _ _ Hinv (Z.of_nat i)) as (S & HS & Hr);
      [unfold isize; lia|].
    assert (Hat : state_at (lr0_states st) (Z.of_nat i) = s).
    { unfold state_at. by rewrite at_default, Nat2Z.id, Hs. }
    rewrite Hat in HS. rewrite HS, ordered_list_to_set.
    apply elem_of_subsets. intros x Hx. specialize (Hr x Hx). unfold isize in Hr. lia.
Qed.

(** The loop ends: every pass completes one state, and there are no more
    than [2 ^ |cs|] states. *)
Lemma lr0_loop_spec start : ∀ fuel st done,
  lr0_inv g start st done [] →
  state_q st = seqZ done (isize (lr0_states st) - done) →
  (2 ^ length cs ≤ fuel + Z.to_nat done)%nat →
  ∃ st', lr0_loop fuel cs g lhs2sc st = Some (lr0_states st')
         ∧ lr0_inv g start st' (isize (lr0_states st')) [].
Proof.
  induction fuel as [|fuel IH]; intros st done Hinv Hq Hfuel.
  - pose proof (lr0_inv_bound _ _ _ _ Hinv) as Hb.
    pose proof (li_done _ _ _ _ _ Hinv) as Hd.
    assert (done = isize (lr0_states st)) as Hdn by (unfold isize in *; lia).
    rewrite <- Hdn, Z.sub_diag in Hq. exists st. simpl. rewrite Hq.
    split; [done|]. by rewrite <- Hdn.
  - pose proof (li_done _ _ _ _ _ Hinv) as Hd.
    destruct (decide (done = isize (lr0_states st))) as [Hdn|Hlt].
    { rewrite <- Hdn, Z.sub_diag in Hq. exists st. simpl. rewrite Hq.
      split; [done|]. by rewrite <- Hdn. }
    rewrite seqZ_cons in Hq by lia. simpl. rewrite Hq.
    set (st1 := mkLr0 (lr0_states st) (state_ptrs2idxs st)
                      (seqZ (Z.succ done) (Z.pred (isize (lr0_states st) - done)))).
    assert (Hinv1 : lr0_inv g start st1 done []) by (by apply lr0_inv_queue).
    destruct (lr0_fold_spec start done
                (ordered (transition_symbols cs g (state_at (lr0_states st) done)))
                st1 [] Hinv1)
      as (st2 & Hfold & Hinv2 & Hlt2 & Hc2 & Hq2).
    { simpl. lia. }
    { simpl. f_equal; lia. }
    change (lr0_states st1) with (lr0_states st) in Hfold.
    rewrite Hfold. simpl.
    apply (IH st2 (done + 1)).
    + destruct Hinv2 as [H1 H2 H3 H4 H5 H6 H7 H8]. split; try done.
      * lia.
      * intros i Hi. destruct (decide (i = done)) as [->|Hne]; [|apply H6; lia].
        simpl in H7. unfold transition_symbols in *. by rewrite Hc2.
      * destruct (decide (done + 1 < isize (lr0_states st2))) as [Hin|Hout].
        -- rewrite H8 by lia. constructor.
        -- unfold state_at. rewrite at_ge by lia. constructor.
      * intros i Hi. apply H8. lia.
    + by rewrite Hq2.
    + lia.
Qed.

End lr0.

(** *** The reductions *)

Lemma add_reduction_fold cs g (l : list Z) : ∀ state,
  foldl (λ state config_i,
           match symbol_after_dot cs g config_i with
           | Some _ => state
           | None =>
               mkStateInProgress (configs state)
                 (actions state
                    ++ [mkActionInProgress
                          (action.reduce (production (config_at cs config_i))) ∅])
           end) state l
  = mkStateInProgress (configs state)
      (actions state
         ++ ((λ c, mkActionInProgress (action.reduce (production (config_at cs c))) ∅)
               <$> filter (λ c, symbol_after_dot cs g c = None) l)).
Proof.
  induction l as [|c l IH]; intros state; simpl.
  - rewrite app_nil_r. by destruct state.
  - rewrite IH, filter_cons. destruct (symbol_after_dot cs g c) as [symbol|] eqn:Hc.
    + by rewrite decide_False by done.
    + rewrite decide_True by done. simpl. by rewrite <- app_assoc.
Qed.

Lemma foldl_union_singletons (l : list Z) (acc : gset Z) :
  foldl (λ ctx terminal, {[terminal]} ∪ ctx) acc l = list_to_set l ∪ acc.
Proof.
  revert acc. induction l as [|x l IH]; intros acc; simpl.
  - by rewrite union_empty_l_L.
  - rewrite IH. set_solver.
Qed.

Lemma state_at_fmap (f : state_in_progress → state_in_progress) states i :
  0 ≤ i < isize states → state_at (f <$> states) i = f (state_at states i).
Proof.
  intros Hi. unfold state_at. rewrite !at_default, list_lookup_fmap.
  destruct (lookup_lt_is_Some_2 states (Z.to_nat i)) as [s Hs]; [unfold isize in Hi; lia|].
  by rewrite Hs.
Qed.

Lemma isize_fmap {A B} (f : A → B) (l : list A) : isize (f <$> l) = isize l.
Proof. unfold isize. by rewrite length_fmap. Qed.

(** What [add_reduction_actions] and [set_lr0_contexts] make of a state
    that holds shifts only. *)
Lemma lr0_finish g states i :
  0 ≤ i < isize states →
  Forall (λ a, ∃ j, action_of a = action.shift j) (actions (state_at states i)) →
  configs (state_at (set_lr0_contexts (add_reduction_actions states (make_configs g) g) g) i)
  = configs (state_at states i)
  ∧ actions (state_at (set_lr0_contexts (add_reduction_actions states (make_configs g) g) g)
               i)
    = actions (state_at states i)
      ++ (lr0_reduction g
            <$> filter (λ c, symbol_after_dot (make_configs g) g c = None)
                  (configs (state_at states i))).
Proof.
  intros Hi Hshifts. unfold set_lr0_contexts, add_reduction_actions.
  rewrite state_at_fmap by (by rewrite isize_fmap).
  rewrite state_at_fmap by done. rewrite add_reduction_fold. simpl. split; [done|].
  rewrite fmap_app. f_equal.
  - induction Hshifts as [|a acts [j Ha] _ IH]; [done|].
    rewrite fmap_cons, IH. f_equal. by rewrite Ha.
  - rewrite <- list_fmap_compose. apply list_fmap_ext. intros k c _. simpl.
    unfold lr0_reduction. simpl. case_decide.
    + by rewrite union_empty_r_L.
    + by rewrite foldl_union_singletons, union_empty_r_L.
Qed.

Lemma Forall2_shifts g states (kernel : Z → list Z) symbols acts :
  Forall2 (λ symbol a, lr0_shift g states (kernel symbol) symbol a) symbols acts →
  Forall (λ a, ∃ j, action_of a = action.shift j) acts.
Proof.
  induction 1 as [|symbol a symbols acts (j & -> & _) _ IH]; constructor; [|done].
  by exists j.
Qed.

(** X23: for a grammar with an accept production, [build_lr0_parser]
    returns (its queue of states empties within the fuel of the model) the
    LR(0) automaton: at most [2 ^ |configs|] states with pairwise different,
    sorted lists of configurations; state 0 is the closure of the start
    configuration of the accept nonterminal; and the actions of a state are
    one shift for every symbol that stands after a dot in the state, in the
    order of the symbols, to the state that holds the closure of the
    configurations with the dot moved over that symbol, followed by one
    reduction for every configuration with the dot at the end, whose context
    is the end terminal for the accept production and every terminal
    otherwise. *)
Theorem build_lr0_parser_is_the_lr0_automaton (g : grammar.t) :
  grammar_ok g →
  (∃ p, p ∈ grammar.productions g ∧ grammar.lhs p = get_accept_nonterminal g) →
  let cs := make_configs g in
  let lhs2sc := get_left_hand_sides_to_start_configs cs g in
  ∃ states,
    build_lr0_parser cs g lhs2sc = Some states
    ∧ 0 < isize states ≤ 2 ^ isize cs
    ∧ (∀ x, x ∈ configs (state_at states 0)
            ↔ lr0_closure g [hd 0 (get_edges lhs2sc (get_accept_nonterminal g))] x)
    ∧ (∀ i j, 0 ≤ i < isize states → 0 ≤ j < isize states →
              configs (state_at states i) = configs (state_at states j) → i = j)
    ∧ ∀ i, 0 ≤ i < isize states →
        let state := state_at states i in
        Sorted Z.le (configs state)
        ∧ NoDup (configs state)
        ∧ (∀ c, c ∈ configs state → 0 ≤ c < isize cs)
        ∧ ∃ shifts,
            actions state
            = shifts ++ (lr0_reduction g
                           <$> filter (λ c, symbol_after_dot cs g c = None) (configs state))
            ∧ Forall2 (λ symbol a,
                         lr0_shift g states (successor_kernel cs g state symbol) symbol a)
                      (ordered (transition_symbols cs g state)) shifts.
Proof.
  intros Hok (p & Hp & Hlhs) cs lhs2sc.
  set (accept_nt := get_accept_nonterminal g) in *.
  set (start := hd 0 (get_edges lhs2sc accept_nt)).
  assert (Hstart : 0 ≤ start < isize cs).
  { apply list_elem_of_lookup in Hp as [k Hk].
    pose proof (lookup_lt_Some _ _ _ Hk) as Hklt.
    assert (Hpk : prod_at g (Z.of_nat k) = p).
    { unfold prod_at. by rewrite at_default, Nat2Z.id, Hk. }
    assert (Hin : mkConfig (Z.of_nat k) 0 ∈ cs).
    { apply elem_of_make_configs. simpl. unfold isize.
      pose proof (isize_nonneg (grammar.rhs (prod_at g (Z.of_nat k)))). unfold isize in *.
      lia. }
    apply list_elem_of_lookup in Hin as [sc Hsc].
    pose proof (lookup_lt_Some _ _ _ Hsc) as Hsclt.
    assert (Hedge : Z.of_nat sc ∈ get_edges lhs2sc accept_nt).
    { pose proof (ok_lhs _ Hok p ltac:(by eapply list_elem_of_lookup_2)) as Hr.
      pose proof (ok_terminals _ Hok) as Hnt.
      apply (get_left_hand_sides_to_start_configs_spec g Hok); [lia|].
      assert (Hcfg : config_at cs (Z.of_nat sc) = mkConfig (Z.of_nat k) 0).
      { unfold config_at. by rewrite at_default, Nat2Z.id, Hsc. }
      rewrite Hcfg. simpl. rewrite Hpk. unfold isize. split_and!; [lia|lia|lia|lia|done]. }
    assert (Hhd : start ∈ get_edges lhs2sc accept_nt).
    { unfold start.
      destruct (get_edges lhs2sc accept_nt) as [|e es]; [by apply elem_of_nil in Hedge|].
      by left. }
    by apply (start_configs_in_range g Hok cs accept_nt). }
  destruct (close_kernel g Hok [start]) as (start_state & S0 & Hclose & Hact0 & HS0 & Hr0 & Hx0).
  { intros c Hc. by apply list_elem_of_singleton in Hc as ->. }
  set (st0 := mkLr0 [start_state] {[configs start_state := 0]} [0]).
  assert (Hinv0 : lr0_inv g (configs start_state) st0 0 []).
  { split; simpl.
    - unfold isize. simpl. lia.
    - unfold isize. simpl. lia.
    - done.
    - intros k i. rewrite lookup_singleton. unfold isize. simpl.
      destruct (decide (configs start_state = k)) as [<-|Hk].
      + split; [intros [= <-]; split; [lia|done]|]. intros [Hi _]. f_equal. lia.
      + split; [done|]. intros [Hi Hc]. replace i with 0 in Hc by lia. done.
    - intros i Hi. unfold isize in Hi. simpl in Hi. replace i with 0 by lia.
      by exists S0.
    - intros i Hi. lia.
    - change (state_at [start_state] 0) with start_state. rewrite Hact0. constructor.
    - intros i Hi. unfold isize in Hi. simpl in Hi. lia. }
  destruct (lr0_loop_spec g Hok (configs start_state) (2 ^ length cs + 1) st0 0 Hinv0)
    as (st' & Hloop & Hinv); [done|unfold cs; lia|].
  unfold build_lr0_parser. fold accept_nt. fold start. unfold lhs2sc, cs.
  rewrite Hclose. simpl. fold st0. unfold cs in Hloop. rewrite Hloop. simpl.
  fold cs. fold lhs2sc.
  eexists. split; [done|].
  set (states0 := lr0_states st') in *.
  set (states := set_lr0_contexts (add_reduction_actions states0 cs g) g).
  assert (Hn : isize states = isize states0).
  { unfold states, set_lr0_contexts, add_reduction_actions. by rewrite !isize_fmap. }
  assert (Hshifts : ∀ i, 0 ≤ i < isize states0 →
            Forall (λ a, ∃ j, action_of a = action.shift j) (actions (state_at states0 i))).
  { intros i Hi. eapply Forall2_shifts. apply (li_shifted _ _ _ _ _ Hinv). lia. }
  assert (Hcfg : ∀ i, 0 ≤ i < isize states0 →
            configs (state_at states i) = configs (state_at states0 i)).
  { intros i Hi. by apply lr0_finish; [|apply Hshifts]. }
  assert (Hne0 : 0 < isize states0) by apply (li_nonempty _ _ _ _ _ Hinv).
  split_and!.
  - by rewrite Hn.
  - rewrite Hn. pose proof (lr0_inv_bound g _ _ _ _ Hinv) as Hb.
    unfold isize. fold states0 in Hb. fold cs in Hb. rewrite <- (Nat2Z.inj_pow 2). lia.
  - intros x. rewrite Hcfg by lia.
    pose proof (li_start _ _ _ _ _ Hinv) as Hs0. fold states0 in Hs0.
    rewrite Hs0. apply Hx0.
  - intros i j Hi Hj. rewrite Hn in Hi, Hj. rewrite !Hcfg by lia. intros Heq.
    pose proof (li_map _ _ _ _ _ Hinv) as Hmap. fold states0 in Hmap.
    assert (H1 : state_ptrs2idxs st' !! configs (state_at states0 i) = Some i)
      by (apply Hmap; split; [lia|done]).
    assert (H2 : state_ptrs2idxs st' !! configs (state_at states0 i) = Some j)
      by (apply Hmap; split; [lia|done]).
    congruence.
  - intros i Hi. set (state := state_at states i). rewrite Hn in Hi.
    destruct (lr0_finish g states0 i Hi (Hshifts i Hi)) as [Hc Ha].
    change (configs state = configs (state_at states0 i)) in Hc.
    change (actions state
            = actions (state_at states0 i)
              ++ (lr0_reduction g
                    <$> filter (λ c, symbol_after_dot cs g c = None)
                          (configs (state_at states0 i)))) in Ha.
    destruct (li_canonical _ _ _ _ _ Hinv i Hi) as (S & HS & Hr).
    fold states0 in HS. rewrite Hc, HS.
    split_and!.
    + apply Sorted_merge_sort. apply _.
    + apply NoDup_ordered.
    + intros c Hc'. apply Hr. by apply elem_of_ordered.
    + exists (actions (state_at states0 i)). split.
      * rewrite Ha. by rewrite HS.
      * assert (Hk : ∀ symbol,
                  successor_kernel cs g state symbol
                  = successor_kernel cs g (state_at states0 i) symbol).
        { intros symbol. unfold successor_kernel. by rewrite Hc. }
        assert (Ht : transition_symbols cs g state
                     = transition_symbols cs g (state_at states0 i)).
        { unfold transition_symbols. by rewrite Hc. }
        rewrite Ht.
        apply (Forall2_impl _ _ _ _ (li_shifted _ _ _ _ _ Hinv i ltac:(fold states0; lia))).
        intros symbol a Hs. rewrite Hk. fold states0 in Hs.
        eapply lr0_shift_mono; [| |exact Hs]; [lia|]. intros k Hk'. by apply Hcfg.
Qed.

Lemma build_lr0_parser_is_the_lr0_automaton_witness :
  ∃ states,
    build_lr0_parser (make_configs sum_grammar) sum_grammar
      (get_left_hand_sides_to_start_configs (make_configs sum_grammar) sum_grammar)
    = Some states
    ∧ 0 < isize states ≤ 2 ^ isize (make_configs sum_grammar)
    ∧ (∀ x, x ∈ configs (state_at states 0)
            ↔ lr0_closure sum_grammar
                [hd 0 (get_edges
                         (get_left_hand_sides_to_start_configs (make_configs sum_grammar)
                            sum_grammar)
                         (get_accept_nonterminal sum_grammar))] x)
    ∧ (∀ i j, 0 ≤ i < isize states → 0 ≤ j < isize states →
              configs (state_at states i) = configs (state_at states j) → i = j)
    ∧ ∀ i, 0 ≤ i < isize states →
        Sorted Z.le (configs (state_at states i))
        ∧ NoDup (configs (state_at states i))
        ∧ (∀ c, c ∈ configs (state_at states i) → 0 ≤ c < isize (make_configs sum_grammar))
        ∧ ∃ shifts,
            actions (state_at states i)
            = shifts ++ (lr0_reduction sum_grammar
                           <$> filter (λ c, symbol_after_dot (make_configs sum_grammar)
                                              sum_grammar c = None)
                                 (configs (state_at states i)))
            ∧ Forall2 (λ symbol a,
                         lr0_shift sum_grammar states
                           (successor_kernel (make_configs sum_grammar) sum_grammar
                              (state_at states i) symbol) symbol a)
                      (ordered (transition_symbols (make_configs sum_grammar) sum_grammar
                                  (state_at states i))) shifts.
Proof.
  apply (build_lr0_parser_is_the_lr0_automaton sum_grammar).
  - apply grammar_okb_sound. vm_compute. reflexivity.
  - exists (grammar.mkProduction 5 [4; 3]). split; [|reflexivity].
    apply list_elem_of_In. simpl. auto.
Defined.

(** The automaton of the sum grammar has the six states of the worked
    example. *)
Lemma build_lr0_parser_sum_grammar :
  build_lr0_parser (make_configs sum_grammar) sum_grammar
    (get_left_hand_sides_to_start_configs (make_configs sum_grammar) sum_grammar)
  = Some sum_states.
Proof. vm_compute. reflexivity. Qed.

(** ** The originator graph *)

(** The two tables of state-configurations are inverse to each other. *)
Lemma state_config_tables (states : list state_in_progress) :
  let scs := form_state_configs states in
  let states2scs := form_states_to_state_configs scs states in
  (∀ s cis,
     0 ≤ s < isize states → 0 ≤ cis < isize (configs (state_at states s)) →
     0 ≤ state_config_of states2scs s cis < isize scs
     ∧ at_ (mkStateConfig 0 0) scs (state_config_of states2scs s cis) = mkStateConfig s cis)
  ∧ (∀ sc_i,
       0 ≤ sc_i < isize scs →
       let sc := at_ (mkStateConfig 0 0) scs sc_i in
       0 ≤ state sc < isize states
       ∧ 0 ≤ config_in_state sc < isize (configs (state_at states (state sc)))
       ∧ state_config_of states2scs (state sc) (config_in_state sc) = sc_i).
Proof.
  intros scs states2scs.
  assert (Hmem : ∀ sc, sc ∈ scs →
            0 ≤ state sc < isize states
            ∧ 0 ≤ config_in_state sc < isize (configs (state_at states (state sc)))).
  { intros sc Hsc. unfold scs in Hsc. rewrite form_state_configs_blocks in Hsc.
    apply elem_of_concat in Hsc as (blk & Hsc & Hblk).
    apply list_elem_of_fmap in Hblk as (i & -> & Hi). apply elem_of_seqZ in Hi.
    apply list_elem_of_fmap in Hsc as (j & -> & Hj). apply elem_of_seqZ in Hj. simpl. lia. }
  assert (Hedges : ∀ s, 0 ≤ s < isize states →
            ∃ l1 l2,
              scs = l1 ++ (mkStateConfig s <$> seqZ 0 (isize (configs (state_at states s)))) ++ l2
              ∧ (∀ sc, sc ∈ l1 → state sc ≠ s) ∧ (∀ sc, sc ∈ l2 → state sc ≠ s)
              ∧ get_edges states2scs s
                = seqZ (isize l1) (isize (configs (state_at states s)))).
  { intros s Hs. destruct (form_state_configs_split states s Hs) as (l1 & l2 & Hscs & H1 & H2).
    fold scs in Hscs. exists l1, l2. split_and!; [done..|].
    unfold states2scs. rewrite form_states_to_state_configs_edges; [|intros sc Hsc; apply Hmem in Hsc; lia|done].
    rewrite Hscs.
    pose proof (filter_block (mkStateConfig 0 0) (λ sc, state sc = s) l1
                  (mkStateConfig s <$> seqZ 0 (isize (configs (state_at states s)))) l2 H1)
      as Hfb.
    cbv beta in Hfb. rewrite Hfb; [|intros sc Hsc; by apply list_elem_of_fmap in Hsc as (j & -> & _)|done].
    f_equal. unfold isize. rewrite length_fmap, length_seqZ.
    pose proof (isize_nonneg (configs (state_at states s))). unfold isize in *. lia. }
  assert (Hblk : ∀ s j, 0 ≤ j < isize (configs (state_at states s)) →
            at_ (mkStateConfig 0 0)
                (mkStateConfig s <$> seqZ 0 (isize (configs (state_at states s)))) j
            = mkStateConfig s j).
  { intros s j Hj. rewrite at_default, list_lookup_fmap.
    rewrite (proj2 (lookup_seqZ 0 _ (Z.to_nat j) j)); [done|]. lia. }
  assert (Hblen : ∀ s, isize (mkStateConfig s <$> seqZ 0 (isize (configs (state_at states s))))
                       = isize (configs (state_at states s))).
  { intros s. unfold isize. rewrite length_fmap, length_seqZ.
    pose proof (isize_nonneg (configs (state_at states s))). unfold isize in *. lia. }
  split.
  - intros s cis Hs Hcis. destruct (Hedges s Hs) as (l1 & l2 & Hscs & H1 & H2 & He).
    unfold state_config_of. rewrite He.
    assert (Hat : at_ 0 (seqZ (isize l1) (isize (configs (state_at states s)))) cis
                  = isize l1 + cis).
    { rewrite at_default. rewrite (proj2 (lookup_seqZ _ _ (Z.to_nat cis) (isize l1 + cis))); [done|]. lia. }
    rewrite Hat. pose proof (isize_nonneg l1). pose proof (isize_nonneg l2). split.
    + rewrite Hscs, !isize_app, Hblen. lia.
    + rewrite Hscs. rewrite at_app_r by lia. rewrite at_app_l by (rewrite Hblen; lia).
      replace (isize l1 + cis - isize l1) with cis by lia. by apply Hblk.
  - intros sc_i Hi sc.
    assert (Hsc : sc ∈ scs).
    { unfold sc, at_, isize in *. apply list_elem_of_In, nth_In. lia. }
    destruct (Hmem sc Hsc) as [Hs Hj]. split_and!; [lia..|].
    destruct (Hedges (state sc) Hs) as (l1 & l2 & Hscs & H1 & H2 & He).
    pose proof (isize_nonneg l1). pose proof (isize_nonneg l2).
    assert (Hpos : isize l1 ≤ sc_i < isize l1 + isize (configs (state_at states (state sc)))).
    { destruct (decide (sc_i < isize l1)) as [Hlt|Hge].
      - exfalso. apply (H1 sc); [|done]. unfold sc. rewrite Hscs, at_app_l by lia.
        unfold at_, isize in *. apply list_elem_of_In, nth_In. lia.
      - split; [lia|].
        destruct (decide (sc_i < isize l1 + isize (configs (state_at states (state sc)))))
          as [?|Hge']; [done|].
        exfalso. apply (H2 sc); [|done]. unfold sc at 1. rewrite Hscs.
        rewrite app_assoc, at_app_r by (rewrite isize_app, Hblen; lia).
        rewrite Hscs, !isize_app, Hblen in Hi. rewrite isize_app, Hblen.
        unfold at_, isize in *. apply list_elem_of_In, nth_In. lia. }
    assert (Hsceq : sc = mkStateConfig (state sc) (sc_i - isize l1)).
    { unfold sc at 1. rewrite Hscs. rewrite at_app_r by lia.
      rewrite at_app_l by (rewrite Hblen; lia). apply Hblk. lia. }
    assert (Hcis : config_in_state sc = sc_i - isize l1) by (by rewrite Hsceq).
    unfold state_config_of. rewrite He, Hcis.
    rewrite at_default.
    rewrite (proj2 (lookup_seqZ _ _ (Z.to_nat (sc_i - isize l1)) sc_i)); [done|]. lia.
Qed.

(** *** Loops that add edges *)

Lemma add_edges_app items1 items2 G :
  add_edges (items1 ++ items2) G = add_edges items2 (add_edges items1 G).
Proof. unfold add_edges. by rewrite foldl_app. Qed.

Lemma foldl_add_edges {B} (F : B → list (Z * Z)) (l : list B) : ∀ G,
  foldl (λ out x, add_edges (F x) out) G l = add_edges (l ≫= F) G.
Proof.
  induction l as [|x l IH]; intros G; simpl; [done|].
  by rewrite IH, add_edges_app.
Qed.

Lemma add_edges_elem items G :
  (∀ p, p ∈ items → 0 ≤ p.1) →
  isize (add_edges items G) = isize G
  ∧ ∀ i j, 0 ≤ i →
      (j ∈ get_edges (add_edges items G) i ↔
       j ∈ get_edges G i ∨ (i < isize G ∧ (i, j) ∈ items)).
Proof.
  intros Hpos. destruct (add_edges_spec fst snd items G Hpos) as [Hn He].
  split; [done|]. intros i j Hi. unfold add_edges. rewrite (He i j Hi). split.
  - intros [?|[Hlt (k & Hk & <- & <-)]]; [by left|right]. split; [done|]. by destruct k.
  - intros [?|[Hlt Hin]]; [by left|right]. split; [done|]. by exists (i, j).
Qed.

Section tables.
Context (states : list state_in_progress) (cs : list config) (g : grammar.t).
Local Notation scs := (form_state_configs states).
Local Notation states2scs := (form_states_to_state_configs (form_state_configs states) states).

Lemma state_config_of_range s cis :
  0 ≤ s < isize states → 0 ≤ cis < isize (configs (state_at states s)) →
  0 ≤ state_config_of states2scs s cis < isize scs
  ∧ state_config_at scs (state_config_of states2scs s cis) = mkStateConfig s cis.
Proof. intros Hs Hcis. by apply (proj1 (state_config_tables states)). Qed.

Lemma state_config_at_range sc_i :
  0 ≤ sc_i < isize scs →
  0 ≤ state (state_config_at scs sc_i) < isize states
  ∧ 0 ≤ config_in_state (state_config_at scs sc_i)
      < isize (configs (state_at states (state (state_config_at scs sc_i))))
  ∧ state_config_of states2scs (state (state_config_at scs sc_i))
      (config_in_state (state_config_at scs sc_i)) = sc_i.
Proof. intros Hi. by apply (proj2 (state_config_tables states)). Qed.

Lemma make_immediate_predecessor_graph_items (nodes : list state_config) :
  make_immediate_predecessor_graph nodes states states2scs cs g
  = add_edges (ipg_items states states2scs cs g) (make_graph_with_nnodes (isize nodes)).
Proof.
  unfold make_immediate_predecessor_graph, ipg_items.
  rewrite <- foldl_add_edges. apply foldl_pointwise. intros out s_i.
  rewrite <- foldl_add_edges. apply foldl_pointwise. intros out1 cis_i.
  destruct (symbol_after_dot cs g _) as [s|]; [|done].
  destruct (is_terminal g s); [done|].
  rewrite <- foldl_add_edges. apply foldl_pointwise. intros out2 cis_j.
  by case_decide.
Qed.

Lemma find_transition_predecessors_items (nodes : list state_config) :
  find_transition_predecessors nodes states states2scs cs g
  = add_edges (tpg_items states states2scs cs g) (make_graph_with_nnodes (isize nodes)).
Proof.
  unfold find_transition_predecessors, tpg_items.
  rewrite <- foldl_add_edges. apply foldl_pointwise. intros out state_i.
  rewrite <- foldl_add_edges. apply foldl_pointwise. intros out1 action.
  destruct (action_of action) as [|state_j| |]; [done| |done..].
  rewrite <- foldl_add_edges. apply foldl_pointwise. intros out2 cis_i.
  rewrite <- foldl_add_edges. apply foldl_pointwise. intros out3 cis_j.
  cbv zeta. case_decide; [|done]. by case_decide.
Qed.

Lemma elem_of_ipg_items a b :
  (a, b) ∈ ipg_items states states2scs cs g ↔
  ∃ s_i cis_i cis_j s,
    0 ≤ s_i < isize states
    ∧ 0 ≤ cis_i < isize (configs (state_at states s_i))
    ∧ 0 ≤ cis_j < isize (configs (state_at states s_i))
    ∧ symbol_after_dot cs g (at_ 0 (configs (state_at states s_i)) cis_i) = Some s
    ∧ is_terminal g s = false
    ∧ grammar.lhs (prod_at g (production
                                (config_at cs (at_ 0 (configs (state_at states s_i)) cis_j))))
      = s
    ∧ a = state_config_of states2scs s_i cis_j
    ∧ b = state_config_of states2scs s_i cis_i.
Proof.
  unfold ipg_items. rewrite list_elem_of_bind. split.
  - intros (s_i & Hin & Hs). apply elem_of_seqZ in Hs.
    apply list_elem_of_bind in Hin as (cis_i & Hin & Hi). apply elem_of_seqZ in Hi.
    destruct (symbol_after_dot cs g _) as [s|] eqn:Hsym; [|by apply elem_of_nil in Hin].
    destruct (is_terminal g s) eqn:Ht; [by apply elem_of_nil in Hin|].
    apply list_elem_of_bind in Hin as (cis_j & Hin & Hj). apply elem_of_seqZ in Hj.
    case_decide as Hl; [|by apply elem_of_nil in Hin].
    apply list_elem_of_singleton in Hin. injection Hin as -> ->.
    exists s_i, cis_i, cis_j, s. split_and!; try done; try lia.
  - intros (s_i & cis_i & cis_j & s & Hs & Hi & Hj & Hsym & Ht & Hl & -> & ->).
    exists s_i. split; [|apply elem_of_seqZ; lia].
    apply list_elem_of_bind. exists cis_i. split; [|apply elem_of_seqZ; lia].
    rewrite Hsym, Ht.
    apply list_elem_of_bind. exists cis_j. split; [|apply elem_of_seqZ; lia].
    rewrite decide_True by done. by apply list_elem_of_singleton.
Qed.

Lemma elem_of_tpg_items a b :
  (a, b) ∈ tpg_items states states2scs cs g ↔
  ∃ state_i action state_j cis_i cis_j,
    0 ≤ state_i < isize states
    ∧ action ∈ actions (state_at states state_i)
    ∧ action_of action = action.shift state_j
    ∧ 0 ≤ cis_i < isize (configs (state_at states state_i))
    ∧ 0 ≤ cis_j < isize (configs (state_at states state_j))
    ∧ production (config_at cs (at_ 0 (configs (state_at states state_i)) cis_i))
      = production (config_at cs (at_ 0 (configs (state_at states state_j)) cis_j))
    ∧ dot (config_at cs (at_ 0 (configs (state_at states state_i)) cis_i)) + 1
      = dot (config_at cs (at_ 0 (configs (state_at states state_j)) cis_j))
    ∧ at_ 0 (grammar.rhs
               (prod_at g (production
                             (config_at cs (at_ 0 (configs (state_at states state_i)) cis_i)))))
            (dot (config_at cs (at_ 0 (configs (state_at states state_i)) cis_i)))
      = context_begin (context action)
    ∧ a = state_config_of states2scs state_j cis_j
    ∧ b = state_config_of states2scs state_i cis_i.
Proof.
  unfold tpg_items. rewrite list_elem_of_bind. split.
  - intros (state_i & Hin & Hs). apply elem_of_seqZ in Hs.
    apply list_elem_of_bind in Hin as (action & Hin & Ha).
    destruct (action_of action) as [|state_j| |] eqn:Hact;
      [by apply elem_of_nil in Hin| |by apply elem_of_nil in Hin..].
    apply list_elem_of_bind in Hin as (cis_i & Hin & Hi). apply elem_of_seqZ in Hi.
    apply list_elem_of_bind in Hin as (cis_j & Hin & Hj). apply elem_of_seqZ in Hj.
    cbv zeta in Hin.
    case_decide as Hc; [|by apply elem_of_nil in Hin].
    case_decide as Hr; [|by apply elem_of_nil in Hin].
    apply list_elem_of_singleton in Hin. injection Hin as -> ->.
    destruct Hc as [Hp Hd].
    exists state_i, action, state_j, cis_i, cis_j. split_and!; try done; try lia.
  - intros (state_i & action & state_j & cis_i & cis_j
            & Hs & Ha & Hact & Hi & Hj & Hp & Hd & Hr & -> & ->).
    exists state_i. split; [|apply elem_of_seqZ; lia].
    apply list_elem_of_bind. exists action. split; [|done]. rewrite Hact.
    apply list_elem_of_bind. exists cis_i. split; [|apply elem_of_seqZ; lia].
    apply list_elem_of_bind. exists cis_j. split; [|apply elem_of_seqZ; lia].
    cbv zeta. rewrite decide_True by done. rewrite decide_True by done.
    by apply list_elem_of_singleton.
Qed.

Lemma ipg_items_nonneg p : p ∈ ipg_items states states2scs cs g → 0 ≤ p.1.
Proof.
  destruct p as [a b]. intros Hp.
  apply elem_of_ipg_items in Hp
    as (s_i & cis_i & cis_j & s & Hs & Hi & Hj & _ & _ & _ & -> & _).
  simpl. by apply state_config_of_range.
Qed.

Lemma tpg_items_range p :
  shifts_ok states → p ∈ tpg_items states states2scs cs g →
  0 ≤ p.1 < isize scs ∧ 0 ≤ p.2 < isize scs.
Proof.
  destruct p as [a b]. intros Hok Hp.
  apply elem_of_tpg_items in Hp
    as (state_i & action & state_j & cis_i & cis_j
        & Hs & Ha & Hact & Hi & Hj & _ & _ & _ & -> & ->).
  destruct (Hok state_i action state_j Hs Ha Hact) as [Hsj _].
  simpl. split; by apply state_config_of_range.
Qed.

End tables.

Lemma config_of_pair states s cis :
  config_of states (mkStateConfig s cis) = at_ 0 (configs (state_at states s)) cis.
Proof. done. Qed.

Lemma shifts_okb_sound states : shifts_okb states = true → shifts_ok states.
Proof.
  unfold shifts_okb. rewrite forallb_forall. intros H s a state_j Hs Ha Hact.
  assert (Hin : In (state_at states s) states).
  { unfold state_at, at_, isize in *. apply nth_In. lia. }
  specialize (H _ Hin). rewrite forallb_forall in H.
  specialize (H a ltac:(by apply list_elem_of_In)). rewrite Hact in H.
  apply andb_true_iff in H as [H1 H2].
  apply bool_decide_eq_true in H1, H2. done.
Qed.

(** X24: in the graph of [make_immediate_predecessor_graph], built on the
    tables of [form_state_configs] and [form_states_to_state_configs], the
    state-configuration [sc_j] has an edge to [sc_i] exactly when both are
    in the same state, the dot of [sc_i] stands in front of a nonterminal,
    and the production of [sc_j] has that nonterminal as its left-hand side,
    wherever the dot of [sc_j] stands. *)
Theorem immediate_predecessor_graph_edges (states : list state_in_progress)
    (cs : list config) (g : grammar.t) :
  let scs := form_state_configs states in
  let states2scs := form_states_to_state_configs scs states in
  let ipg := make_immediate_predecessor_graph scs states states2scs cs g in
  isize ipg = isize scs
  ∧ ∀ sc_i sc_j, 0 ≤ sc_j →
      (sc_i ∈ get_edges ipg sc_j ↔
       0 ≤ sc_i < isize scs ∧ sc_j < isize scs
       ∧ state (state_config_at scs sc_i) = state (state_config_at scs sc_j)
       ∧ ∃ s, symbol_after_dot cs g (config_of states (state_config_at scs sc_i)) = Some s
              ∧ is_terminal g s = false
              ∧ grammar.lhs
                  (prod_at g (production
                                (config_at cs (config_of states (state_config_at scs sc_j)))))
                = s).
Proof.
  intros scs states2scs ipg. subst ipg states2scs scs.
  rewrite make_immediate_predecessor_graph_items.
  destruct (add_edges_elem _ (make_graph_with_nnodes (isize (form_state_configs states)))
              (ipg_items_nonneg states cs g))
    as [Hn He].
  set (scs := form_state_configs states) in *.
  set (states2scs := form_states_to_state_configs scs states) in *.
  rewrite isize_make_graph in Hn, He by apply isize_nonneg.
  split; [done|]. intros sc_i sc_j Hj. rewrite (He sc_j sc_i Hj), get_edges_make_graph.
  split.
  - intros [Hnil|[Hlt Hin]]; [by apply elem_of_nil in Hnil|].
    apply elem_of_ipg_items in Hin
      as (s_i & cis_i & cis_j & s & Hs & Hi & Hcj & Hsym & Ht & Hl & Hej & Hei).
    destruct (state_config_of_range states s_i cis_i Hs Hi) as [Hri Hati].
    destruct (state_config_of_range states s_i cis_j Hs Hcj) as [Hrj Hatj].
    fold scs states2scs in Hri, Hati, Hrj, Hatj, Hej, Hei.
    rewrite Hei, Hej, Hati, Hatj. split_and!; [lia..|done|].
    exists s. by rewrite !config_of_pair.
  - intros (Hi & Hjlt & Hst & s & Hsym & Ht & Hl). right. split; [done|].
    destruct (state_config_at_range states sc_i Hi) as (Hsi & Hci & Hbi).
    destruct (state_config_at_range states sc_j ltac:(fold scs; lia)) as (Hsj & Hcj & Hbj).
    fold scs states2scs in Hsi, Hci, Hbi, Hsj, Hcj, Hbj.
    apply elem_of_ipg_items.
    exists (state (state_config_at scs sc_i)), (config_in_state (state_config_at scs sc_i)),
           (config_in_state (state_config_at scs sc_j)), s.
    unfold config_of in Hsym, Hl. rewrite Hst in *.
    split_and!; try done; try lia; by symmetry.
Qed.

(** X25: when every shift leads to a state, in the graph of
    [find_transition_predecessors] the state-configuration [sc_j] has an
    edge to [sc_i] exactly when the configuration of [sc_j] is that of
    [sc_i] with the dot moved over one symbol, and the state of [sc_i] has a
    shift on that symbol to the state of [sc_j]. *)
Theorem transition_predecessor_graph_edges (states : list state_in_progress)
    (cs : list config) (g : grammar.t) :
  shifts_ok states →
  let scs := form_state_configs states in
  let states2scs := form_states_to_state_configs scs states in
  let tpg := find_transition_predecessors scs states states2scs cs g in
  isize tpg = isize scs
  ∧ ∀ sc_i sc_j, 0 ≤ sc_j →
      (sc_i ∈ get_edges tpg sc_j ↔
       0 ≤ sc_i < isize scs ∧ sc_j < isize scs
       ∧ production (config_at cs (config_of states (state_config_at scs sc_i)))
         = production (config_at cs (config_of states (state_config_at scs sc_j)))
       ∧ dot (config_at cs (config_of states (state_config_at scs sc_i))) + 1
         = dot (config_at cs (config_of states (state_config_at scs sc_j)))
       ∧ ∃ action,
           action ∈ actions (state_at states (state (state_config_at scs sc_i)))
           ∧ action_of action = action.shift (state (state_config_at scs sc_j))
           ∧ at_ 0 (grammar.rhs
                      (prod_at g
                         (production
                            (config_at cs (config_of states (state_config_at scs sc_i))))))
                   (dot (config_at cs (config_of states (state_config_at scs sc_i))))
             = context_begin (context action)).
Proof.
  intros Hok scs states2scs tpg. subst tpg states2scs scs.
  rewrite find_transition_predecessors_items.
  destruct (add_edges_elem
              (tpg_items states
                 (form_states_to_state_configs (form_state_configs states) states) cs g)
              (make_graph_with_nnodes (isize (form_state_configs states))))
    as [Hn He].
  { intros p Hp. by apply (tpg_items_range states cs g p Hok). }
  set (scs := form_state_configs states) in *.
  set (states2scs := form_states_to_state_configs scs states) in *.
  rewrite isize_make_graph in Hn, He by apply isize_nonneg.
  split; [done|]. intros sc_i sc_j Hj. rewrite (He sc_j sc_i Hj), get_edges_make_graph.
  split.
  - intros [Hnil|[Hlt Hin]]; [by apply elem_of_nil in Hnil|].
    apply elem_of_tpg_items in Hin
      as (state_i & action & state_j & cis_i & cis_j
          & Hs & Ha & Hact & Hi & Hcj & Hp & Hd & Hr & Hej & Hei).
    destruct (Hok state_i action state_j Hs Ha Hact) as [Hsj _].
    destruct (state_config_of_range states state_i cis_i Hs Hi) as [Hri Hati].
    destruct (state_config_of_range states state_j cis_j Hsj Hcj) as [Hrj Hatj].
    fold scs states2scs in Hri, Hati, Hrj, Hatj, Hej, Hei.
    rewrite Hei, Hej, Hati, Hatj, !config_of_pair. split_and!; [lia..|done|done|].
    exists action. by split_and!.
  - intros (Hi & Hjlt & Hp & Hd & action & Ha & Hact & Hr). right. split; [done|].
    destruct (state_config_at_range states sc_i Hi) as (Hsi & Hci & Hbi).
    destruct (state_config_at_range states sc_j ltac:(fold scs; lia)) as (Hsj & Hcj & Hbj).
    fold scs states2scs in Hsi, Hci, Hbi, Hsj, Hcj, Hbj.
    apply elem_of_tpg_items.
    exists (state (state_config_at scs sc_i)), action, (state (state_config_at scs sc_j)),
           (config_in_state (state_config_at scs sc_i)),
           (config_in_state (state_config_at scs sc_j)).
    unfold config_of in Hp, Hd, Hr.
    split_and!; try done; try lia; by symmetry.
Qed.

(** *** The search of [make_originator_graph] *)

(** The inner loop pushes the listed nodes that are new. *)
Lemma search_push_spec (edges : list Z) : ∀ (tps : gset Z) (tpq : list Z),
  ∃ l, foldl (λ '(tps, tpq) tpc,
                if decide (tpc ∈ tps) then (tps, tpq)
                else ({[tpc]} ∪ tps, tpq ++ [tpc]))
             (tps, tpq) edges
       = (list_to_set l ∪ tps, tpq ++ l)
       ∧ (size (list_to_set l ∪ tps) = length l + size tps)%nat
       ∧ (∀ x, x ∈ l → x ∈ edges)
       ∧ (∀ x, x ∈ edges → x ∈ (list_to_set l ∪ tps : gset Z)).
Proof.
  induction edges as [|e edges IH]; intros tps tpq.
  - exists []. simpl. rewrite app_nil_r, union_empty_l_L. split_and!; [done..| |].
    + intros x Hx. by apply elem_of_nil in Hx.
    + intros x Hx. by apply elem_of_nil in Hx.
  - cbn [foldl]. destruct (decide (e ∈ tps)) as [Hin|Hni].
    + destruct (IH tps tpq) as (l & -> & Hsize & Hl & Hall).
      exists l. split_and!; [done..| |].
      * intros x Hx. right. by apply Hl.
      * intros x Hx. apply elem_of_cons in Hx as [->|Hx]; [set_solver|by apply Hall].
    + destruct (IH ({[e]} ∪ tps) (tpq ++ [e])) as (l & -> & Hsize & Hl & Hall).
      exists (e :: l).
      assert (Heq : list_to_set (e :: l) ∪ tps = list_to_set l ∪ ({[e]} ∪ tps) :> gset Z).
      { simpl. apply set_eq. intros x. rewrite !elem_of_union. tauto. }
      rewrite Heq, <- app_assoc. split_and!; [done| | |].
      * rewrite Hsize, size_union, size_singleton by set_solver. simpl. lia.
      * intros x Hx. apply elem_of_cons in Hx as [->|Hx]; [by left|right; by apply Hl].
      * intros x Hx. apply elem_of_cons in Hx as [->|Hx]; [set_solver|by apply Hall].
Qed.

Lemma size_in_range (n : Z) (s : gset Z) :
  (∀ x, x ∈ s → 0 ≤ x < n) → (size s ≤ Z.to_nat n)%nat.
Proof.
  intros H.
  assert (Hsub : s ⊆ list_to_set (seqZ 0 n)).
  { intros x Hx. apply elem_of_list_to_set, elem_of_seqZ. specialize (H x Hx). lia. }
  apply subseteq_size in Hsub.
  rewrite size_list_to_set in Hsub by apply NoDup_seqZ.
  by rewrite length_seqZ in Hsub.
Qed.

Section search.
Context (ipg tpg : list (list Z)) (n : Z).
Context (Hrange : ∀ i j, edge tpg i j → 0 ≤ j < n).

Lemma originator_loop_spec sc0 fuel : ∀ (tpq : list Z) (tps originators : gset Z),
  sc0 ∈ tps →
  (∀ x, x ∈ tps → 0 ≤ x < n) →
  (∀ x, x ∈ tps → rtc (edge tpg) sc0 x) →
  (∀ x, x ∈ tpq → x ∈ tps) →
  (∀ p r, p ∈ tps → p ∉ tpq → edge tpg p r → r ∈ tps) →
  (∀ o, o ∈ originators → ∃ p, p ∈ tps ∧ edge ipg p o) →
  (∀ p o, p ∈ tps → p ∉ tpq → edge ipg p o → o ∈ originators) →
  (length tpq + (Z.to_nat n - size tps) < fuel)%nat →
  ∃ result, originator_loop fuel ipg tpg tpq tps originators = Some result
            ∧ ∀ o, o ∈ result ↔ ∃ tpp, rtc (edge tpg) sc0 tpp ∧ edge ipg tpp o.
Proof.
  induction fuel as [|fuel IH]; intros tpq tps originators H0 H1 H2 H3 H4 H5 H6 Hfuel; [lia|].
  destruct tpq as [|tpp tpq].
  - simpl. exists originators. split; [done|]. intros o. split.
    + intros Ho. destruct (H5 o Ho) as (p & Hp & He). exists p. split; [by apply H2|done].
    + intros (tpp & Hr & He).
      assert (Hclosed : ∀ a b, rtc (edge tpg) a b → a ∈ tps → b ∈ tps).
      { intros a b Hab. induction Hab as [|a a' b Hm _ IHr]; [done|].
        intros Ha. apply IHr. eapply H4; [done| |done]. apply not_elem_of_nil. }
      assert (Hin : tpp ∈ tps) by (by eapply Hclosed).
      eapply H6; [done| |done]. apply not_elem_of_nil.
  - cbn [originator_loop].
    assert (Htpp : tpp ∈ tps) by (apply H3; left).
    destruct (search_push_spec (get_edges tpg tpp) tps tpq) as (l & -> & Hsize & Hl & Hall).
    rewrite foldl_union_singletons.
    assert (Hr' : ∀ x, x ∈ (list_to_set l ∪ tps : gset Z) → 0 ≤ x < n).
    { intros x Hx. apply elem_of_union in Hx as [Hx|Hx]; [|by apply H1].
      apply elem_of_list_to_set in Hx. by apply (Hrange tpp), Hl. }
    apply IH.
    + set_solver.
    + done.
    + intros x Hx. apply elem_of_union in Hx as [Hx|Hx]; [|by apply H2].
      apply elem_of_list_to_set in Hx. eapply rtc_r; [by apply H2|]. by apply Hl.
    + intros x Hx. apply elem_of_app in Hx as [Hx|Hx].
      * apply elem_of_union_r, H3. by right.
      * apply elem_of_union_l. by apply elem_of_list_to_set.
    + intros p r Hp Hpq Hm.
      destruct (decide (p = tpp)) as [->|Hne]; [by apply Hall|].
      apply elem_of_union in Hp as [Hp|Hp].
      * apply elem_of_list_to_set in Hp. exfalso. apply Hpq. set_solver.
      * apply elem_of_union_r. eapply H4; [done| |done].
        intros Hin. apply Hpq. apply elem_of_cons in Hin as [?|Hin]; [done|]. set_solver.
    + intros o Ho. apply elem_of_union in Ho as [Ho|Ho].
      * apply elem_of_list_to_set in Ho. exists tpp. split; [set_solver|done].
      * destruct (H5 o Ho) as (p & Hp & He). exists p. split; [set_solver|done].
    + intros p o Hp Hpq He.
      destruct (decide (p = tpp)) as [->|Hne].
      { apply elem_of_union_l. by apply elem_of_list_to_set. }
      apply elem_of_union in Hp as [Hp|Hp].
      * apply elem_of_list_to_set in Hp. exfalso. apply Hpq. set_solver.
      * apply elem_of_union_r. eapply H6; [done| |done].
        intros Hin. apply Hpq. apply elem_of_cons in Hin as [?|Hin]; [done|]. set_solver.
    + pose proof (size_in_range n _ Hr'). rewrite length_app. simpl in Hfuel. lia.
Qed.

(** The search from one node finds what is one [ipg] edge after any number
    of [tpg] edges. *)
Lemma originators_of sc0 :
  0 ≤ sc0 < n →
  ∃ result,
    originator_loop (Z.to_nat n + 1) ipg tpg [sc0] {[sc0]} ∅ = Some result
    ∧ ∀ o, o ∈ result ↔ ∃ tpp, rtc (edge tpg) sc0 tpp ∧ edge ipg tpp o.
Proof.
  intros Hsc. apply originator_loop_spec.
  - set_solver.
  - intros x Hx. apply elem_of_singleton in Hx as ->. done.
  - intros x Hx. apply elem_of_singleton in Hx as ->. apply rtc_refl.
  - intros x Hx. apply list_elem_of_singleton in Hx as ->. set_solver.
  - intros p r Hp Hq. apply elem_of_singleton in Hp as ->. destruct Hq. by left.
  - intros o Ho. by apply not_elem_of_empty in Ho.
  - intros p o Hp Hq. apply elem_of_singleton in Hp as ->. destruct Hq. by left.
  - rewrite size_singleton. simpl. lia.
Qed.

End search.

Lemma tpg_edges_range (states : list state_in_progress) (cs : list config) (g : grammar.t)
    i j :
  shifts_ok states →
  edge (find_transition_predecessors (form_state_configs states) states
          (form_states_to_state_configs (form_state_configs states) states) cs g) i j →
  0 ≤ j < isize (form_state_configs states).
Proof.
  intros Hok. unfold edge. rewrite find_transition_predecessors_items.
  destruct (add_edges_elem
              (tpg_items states
                 (form_states_to_state_configs (form_state_configs states) states) cs g)
              (make_graph_with_nnodes (isize (form_state_configs states))))
    as [Hn He].
  { intros p Hp. by apply (tpg_items_range states cs g p Hok). }
  rewrite get_edges_nat. rewrite (He _ j (Nat2Z.is_nonneg _)), get_edges_make_graph.
  intros [Hnil|[_ Hin]]; [by apply elem_of_nil in Hnil|].
  by apply (tpg_items_range states cs g _ Hok) in Hin as [_ ?].
Qed.

(** X26: when every shift leads to a state, [make_originator_graph] returns
    (each of its searches ends), and the originators that it lists for a
    state-configuration, in ascending order and without duplicates, are
    exactly the state-configurations reached by any number of edges of the
    transition predecessor graph followed by one edge of the immediate
    predecessor graph. *)
Theorem make_originator_graph_is_the_search (states : list state_in_progress)
    (cs : list config) (g : grammar.t) :
  shifts_ok states →
  let scs := form_state_configs states in
  let states2scs := form_states_to_state_configs scs states in
  let ipg := make_immediate_predecessor_graph scs states states2scs cs g in
  let tpg := find_transition_predecessors scs states states2scs cs g in
  ∃ out,
    make_originator_graph scs states states2scs cs g = Some out
    ∧ isize out = isize scs
    ∧ ∀ sc_i, 0 ≤ sc_i < isize scs →
        Sorted Z.le (get_edges out sc_i)
        ∧ NoDup (get_edges out sc_i)
        ∧ ∀ o, o ∈ get_edges out sc_i ↔ ∃ tpp, rtc (edge tpg) sc_i tpp ∧ edge ipg tpp o.
Proof.
  intros Hok scs states2scs ipg tpg. unfold make_originator_graph.
  fold ipg. fold tpg.
  pose proof (isize_nonneg scs) as Hn.
  destruct (foldl_opt_seqZ_inv
              (λ i out,
                 isize out = isize scs
                 ∧ ∀ k, 0 ≤ k < i →
                     Sorted Z.le (get_edges out k)
                     ∧ NoDup (get_edges out k)
                     ∧ ∀ o, o ∈ get_edges out k
                            ↔ ∃ tpp, rtc (edge tpg) k tpp ∧ edge ipg tpp o)
              (λ out sc_i,
                 originators ← originator_loop (length scs + 1) ipg tpg [sc_i] {[sc_i]} ∅;
                 Some (<[Z.to_nat sc_i := ordered originators]> out))
              (make_graph_with_nnodes (isize scs)) 0 (isize scs) Hn)
    as (out & Hout & Hsize & Hall).
  - split; [by apply isize_make_graph|]. intros k Hk. lia.
  - intros i out Hi [Hsize Hall].
    destruct (originators_of ipg tpg (isize scs)
                (λ a b, tpg_edges_range states cs g a b Hok) i ltac:(lia))
      as (result & Hloop & Hres).
    unfold isize in Hloop at 1. rewrite Nat2Z.id in Hloop. rewrite Hloop. simpl.
    eexists. split; [done|]. split.
    + unfold isize. rewrite length_insert. apply Hsize.
    + intros k Hk. unfold get_edges. destruct (decide (k = i)) as [->|Hne].
      * rewrite at_insert_eq by lia. split_and!.
        -- apply Sorted_merge_sort. apply _.
        -- apply NoDup_ordered.
        -- intros o. rewrite elem_of_ordered. apply Hres.
      * rewrite at_insert_ne by lia. apply Hall. lia.
  - exists out. split; [done|]. split; [done|]. intros sc_i Hi. apply Hall. lia.
Qed.

Lemma transition_predecessor_graph_edges_witness :
  isize (find_transition_predecessors sum_state_configs sum_states sum_states2scs
           (make_configs sum_grammar) sum_grammar)
  = isize sum_state_configs
  ∧ ∀ sc_i sc_j, 0 ≤ sc_j →
      (sc_i ∈ get_edges
                (find_transition_predecessors sum_state_configs sum_states sum_states2scs
                   (make_configs sum_grammar) sum_grammar) sc_j ↔
       0 ≤ sc_i < isize sum_state_configs ∧ sc_j < isize sum_state_configs
       ∧ production (config_at (make_configs sum_grammar)
                       (config_of sum_states (state_config_at sum_state_configs sc_i)))
         = production (config_at (make_configs sum_grammar)
                         (config_of sum_states (state_config_at sum_state_configs sc_j)))
       ∧ dot (config_at (make_configs sum_grammar)
                (config_of sum_states (state_config_at sum_state_configs sc_i))) + 1
         = dot (config_at (make_configs sum_grammar)
                  (config_of sum_states (state_config_at sum_state_configs sc_j)))
       ∧ ∃ action,
           action ∈ actions (state_at sum_states
                               (state (state_config_at sum_state_configs sc_i)))
           ∧ action_of action
             = action.shift (state (state_config_at sum_state_configs sc_j))
           ∧ at_ 0 (grammar.rhs
                      (prod_at sum_grammar
                         (production
                            (config_at (make_configs sum_grammar)
                               (config_of sum_states
                                  (state_config_at sum_state_configs sc_i))))))
                   (dot (config_at (make_configs sum_grammar)
                           (config_of sum_states (state_config_at sum_state_configs sc_i))))
             = context_begin (context action)).
Proof.
  apply (transition_predecessor_graph_edges sum_states (make_configs sum_grammar) sum_grammar).
  apply shifts_okb_sound. vm_compute. reflexivity.
Defined.

Lemma make_originator_graph_is_the_search_witness :
  ∃ out,
    make_originator_graph sum_state_configs sum_states sum_states2scs
      (make_configs sum_grammar) sum_grammar = Some out
    ∧ isize out = isize sum_state_configs
    ∧ ∀ sc_i, 0 ≤ sc_i < isize sum_state_configs →
        Sorted Z.le (get_edges out sc_i)
        ∧ NoDup (get_edges out sc_i)
        ∧ ∀ o, o ∈ get_edges out sc_i
               ↔ ∃ tpp,
                   rtc (edge (find_transition_predecessors sum_state_configs sum_states
                                sum_states2scs (make_configs sum_grammar) sum_grammar))
                       sc_i tpp
                   ∧ edge (make_immediate_predecessor_graph sum_state_configs sum_states
                             sum_states2scs (make_configs sum_grammar) sum_grammar) tpp o.
Proof.
  apply (make_originator_graph_is_the_search sum_states (make_configs sum_grammar)
           sum_grammar).
  apply shifts_okb_sound. vm_compute. reflexivity.
Defined.

(** The originators in the worked example: the two configurations of state 0
    with the dot in front of [S] are the originators of every configuration
    of a production of [S]. *)
Lemma make_originator_graph_sum_grammar :
  make_originator_graph sum_state_configs sum_states sum_states2scs
    (make_configs sum_grammar) sum_grammar
  = Some [[1; 2]; [1; 2]; []; [1; 2]; [1; 2]; []; [1; 2]; []; [1; 2]].
Proof. vm_compute. reflexivity. Qed.

(** ** The contexts of the reductions *)

Section update.
Context (out : parser_in_progress.t) (contexts : list (gset Z)) (complete : list bool).

(** What the passes over the configurations of a state make of one
    action. *)
Lemma update_action_fold (cfgs : list Z) (s : Z) (l : list Z) (a : action_in_progress) :
  action_of (foldl (update_action out contexts complete cfgs s) a l) = action_of a
  ∧ context (foldl (update_action out contexts complete cfgs s) a l)
    = match action_of a with
      | action.reduce prod_i =>
          match last (filter
                        (λ cis_i,
                           at_ false complete
                             (state_config_of (parser_in_progress.states2state_configs out)
                                s cis_i) = true
                           ∧ symbol_after_dot (parser_in_progress.configs out)
                               (parser_in_progress.grammar out) (at_ 0 cfgs cis_i) = None
                           ∧ production (config_at (parser_in_progress.configs out)
                                           (at_ 0 cfgs cis_i)) = prod_i) l) with
          | Some cis_i =>
              at_ ∅ contexts
                (state_config_of (parser_in_progress.states2state_configs out) s cis_i)
          | None => context a
          end
      | _ => context a
      end.
Proof.
  induction l as [|x l [IH1 IH2]] using rev_ind.
  - simpl. split; [done|]. by destruct (action_of a).
  - rewrite foldl_app. cbn [foldl].
    set (a' := foldl (update_action out contexts complete cfgs s) a l) in *.
    assert (Hkind : action_of (update_action out contexts complete cfgs s a' x)
                    = action_of a').
    { unfold update_action. destruct (at_ false complete _); simpl; [|done].
      destruct (symbol_after_dot _ _ _); [done|]. by case_decide. }
    split; [congruence|].
    destruct (action_of a) as [| |prod_i|] eqn:Ha.
    1,2,4: rewrite <- IH2; unfold update_action;
      (destruct (at_ false complete _); simpl; [|done]);
      (destruct (symbol_after_dot _ _ _); [done|]);
      (case_decide; [congruence|done]).
    rewrite filter_app. unfold update_action.
    destruct (at_ false complete _) eqn:Hc; simpl.
    2:{ rewrite IH2. rewrite filter_cons_False by (intros (? & _); congruence).
        by rewrite filter_nil, app_nil_r. }
    destruct (symbol_after_dot _ _ (at_ 0 cfgs x)) as [symbol|] eqn:Hs.
    { rewrite IH2. rewrite filter_cons_False by (intros (_ & ? & _); congruence).
      by rewrite filter_nil, app_nil_r. }
    case_decide as Hd; simpl.
    + rewrite IH1 in Hd. injection Hd as Hd.
      rewrite filter_cons_True by done. by rewrite filter_nil, last_snoc.
    + rewrite IH2. rewrite IH1 in Hd.
      rewrite filter_cons_False by (intros (_ & _ & ?); congruence).
      by rewrite filter_nil, app_nil_r.
Qed.

(** The passes over the configurations of state [s] change the actions of
    that state only, one by one. *)
Lemma update_state_fold (states : list state_in_progress) (s : Z) (l : list Z) :
  0 ≤ s < isize states →
  let states' :=
    foldl (λ states cis_i,
             let sc_i :=
               state_config_of (parser_in_progress.states2state_configs out) s cis_i in
             if negb (at_ false complete sc_i) then states
             else
               let config_i := at_ 0 (configs (state_at states s)) cis_i in
               match symbol_after_dot (parser_in_progress.configs out)
                       (parser_in_progress.grammar out) config_i with
               | Some _ => states
               | None =>
                   alter (λ state,
                            mkStateInProgress (configs state)
                              ((λ a,
                                  if decide (action_of a
                                             = action.reduce
                                                 (production
                                                    (config_at
                                                       (parser_in_progress.configs out)
                                                       config_i)))
                                  then mkActionInProgress (action_of a)
                                         (at_ ∅ contexts sc_i)
                                  else a) <$> actions state))
                         (Z.to_nat s) states
               end)
          states l in
  isize states' = isize states
  ∧ (∀ s', 0 ≤ s' → s' ≠ s → state_at states' s' = state_at states s')
  ∧ configs (state_at states' s) = configs (state_at states s)
  ∧ actions (state_at states' s)
    = (λ a, foldl (update_action out contexts complete (configs (state_at states s)) s) a l)
        <$> actions (state_at states s).
Proof.
  intros Hs. cbv zeta.
  apply (foldl_list_inv
           (λ done acc,
              isize acc = isize states
              ∧ (∀ s', 0 ≤ s' → s' ≠ s → state_at acc s' = state_at states s')
              ∧ configs (state_at acc s) = configs (state_at states s)
              ∧ actions (state_at acc s)
                = (λ a, foldl (update_action out contexts complete
                                 (configs (state_at states s)) s) a done)
                    <$> actions (state_at states s))).
  - split_and!; [done..|]. simpl. by rewrite list_fmap_id.
  - intros done x acc _ (Hn & Hother & Hcfg & Hact).
    assert (Hstep : ∀ a, foldl (update_action out contexts complete
                                  (configs (state_at states s)) s) a (done ++ [x])
                         = update_action out contexts complete (configs (state_at states s))
                             s (foldl (update_action out contexts complete
                                         (configs (state_at states s)) s) a done) x).
    { intros a. by rewrite foldl_app. }
    rewrite Hcfg.
    destruct (at_ false complete _) eqn:Hc; simpl.
    2:{ split_and!; [done..|]. rewrite Hact. apply list_fmap_ext. intros k a _.
        rewrite Hstep.
        set (b := foldl (update_action out contexts complete (configs (state_at states s)) s)
                        a done).
        unfold update_action. by rewrite Hc. }
    destruct (symbol_after_dot _ _ _) as [symbol|] eqn:Hsym.
    { split_and!; [done..|]. rewrite Hact. apply list_fmap_ext. intros k a _.
      rewrite Hstep.
      set (b := foldl (update_action out contexts complete (configs (state_at states s)) s)
                      a done).
      unfold update_action. by rewrite Hc, Hsym. }
    split_and!.
    + by rewrite isize_alter.
    + intros s' Hs' Hne. rewrite state_at_alter by lia. rewrite decide_False by done.
      by apply Hother.
    + rewrite state_at_alter by lia. by rewrite decide_True.
    + rewrite state_at_alter by lia. rewrite decide_True by done. simpl.
      rewrite Hact, <- list_fmap_compose. apply list_fmap_ext. intros k a _. simpl.
      rewrite Hstep.
      set (b := foldl (update_action out contexts complete (configs (state_at states s)) s)
                      a done).
      unfold update_action. by rewrite Hc, Hsym.
Qed.

End update.

(** X27: [update_contexts] keeps the states, their configurations and the
    kinds, targets and order of their actions; it changes contexts only, and
    only those of reductions: a reduction takes the context of the last
    configuration of its state that is complete for its production and whose
    state-configuration is marked complete, and keeps its own context when
    there is none. *)
Theorem update_contexts_changes_reduction_contexts_only (out : parser_in_progress.t)
    (contexts : list (gset Z)) (complete : list bool) :
  isize (update_contexts out contexts complete) = isize (parser_in_progress.states out)
  ∧ ∀ s, 0 ≤ s < isize (parser_in_progress.states out) →
      configs (state_at (update_contexts out contexts complete) s)
      = configs (state_at (parser_in_progress.states out) s)
      ∧ Forall2 (λ a a',
                   action_of a' = action_of a
                   ∧ context a'
                     = match action_of a with
                       | action.reduce prod_i =>
                           match last (reduction_hits out complete s prod_i) with
                           | Some cis_i =>
                               at_ ∅ contexts
                                 (state_config_of
                                    (parser_in_progress.states2state_configs out) s cis_i)
                           | None => context a
                           end
                       | _ => context a
                       end)
                (actions (state_at (parser_in_progress.states out) s))
                (actions (state_at (update_contexts out contexts complete) s)).
Proof.
  set (states := parser_in_progress.states out).
  pose proof (isize_nonneg states) as Hn.
  set (P := λ (i : Z) (acc : list state_in_progress),
       isize acc = isize states
       ∧ ∀ s, 0 ≤ s →
           configs (state_at acc s) = configs (state_at states s)
           ∧ actions (state_at acc s)
             = if decide (s < i) then
                 (λ a, foldl (update_action out contexts complete
                                (configs (state_at states s)) s) a
                             (seqZ 0 (isize (configs (state_at states s)))))
                   <$> actions (state_at states s)
               else actions (state_at states s)).
  assert (Hfinal : P (0 + isize states) (update_contexts out contexts complete)).
  { unfold update_contexts. fold states. apply (foldl_seqZ_inv P); [done| |].
    - split; [done|]. intros s Hs. split; [done|]. by rewrite decide_False by lia.
    - intros i acc Hi [Hsize Hall].
      destruct (Hall i ltac:(lia)) as [Hci Hai]. rewrite decide_False in Hai by lia.
      pose proof (update_state_fold out contexts complete acc i (seqZ 0 (isize (configs (state_at acc i))))
                    ltac:(lia)) as Hfold.
      cbv zeta in Hfold. destruct Hfold as (Hn' & Hother & Hcfg & Hact).
      split; [congruence|]. intros s Hs.
      destruct (decide (s = i)) as [->|Hne].
      + rewrite decide_True by lia. split; [congruence|].
        rewrite Hact, Hai, Hci. done.
      + rewrite Hother by done. destruct (Hall s Hs) as [Hc Ha]. split; [done|].
        rewrite Ha. destruct (decide (s < i)), (decide (s < i + 1)); try done; lia. }
  destruct Hfinal as [Hsize Hall].
  split; [exact Hsize|]. intros s Hs.
  destruct (Hall s ltac:(lia)) as [Hc Ha]. rewrite Z.add_0_l in Ha.
  rewrite decide_True in Ha by lia.
  split; [exact Hc|]. rewrite Ha.
  apply Forall2_fmap_r, Forall_Forall2_diag, Forall_forall. intros a _.
  apply update_action_fold.
Qed.

(** ** The heuristic propagation of context sets *)

(** X28: on the tables of [form_state_configs] and
    [form_states_to_state_configs], [heuristic_propagation_of_context_sets]
    gives the context of [tau_addr] to its siblings and marks them complete:
    the state-configurations of the same state with another configuration,
    the dot in front as for [tau_addr], and the same left-hand side.  Every
    other entry of [contexts] and [complete] stays as it is, that of
    [tau_addr] included; when the dot of [tau_addr] is not in front, there
    are no siblings and nothing changes. *)
Theorem heuristic_propagation_copies_to_siblings (states : list state_in_progress)
    (cs : list config) (g : grammar.t) (tau_addr : Z) (contexts : list (gset Z))
    (complete : list bool) :
  let scs := form_state_configs states in
  let states2scs := form_states_to_state_configs scs states in
  0 ≤ tau_addr < isize scs → isize contexts = isize scs → isize complete = isize scs →
  let result :=
    heuristic_propagation_of_context_sets tau_addr contexts complete scs states states2scs
      cs g in
  isize result.1 = isize scs
  ∧ isize result.2 = isize scs
  ∧ ∀ sc_i, 0 ≤ sc_i < isize scs →
      (sibling scs states cs g tau_addr sc_i →
         at_ ∅ result.1 sc_i = at_ ∅ contexts tau_addr ∧ at_ false result.2 sc_i = true)
      ∧ (¬ sibling scs states cs g tau_addr sc_i →
           at_ ∅ result.1 sc_i = at_ ∅ contexts sc_i
           ∧ at_ false result.2 sc_i = at_ false complete sc_i).
Proof.
  intros scs states2scs Htau Hlc Hlb result. subst result.
  unfold heuristic_propagation_of_context_sets, sibling.
  change (at_ (mkStateConfig 0 0) scs tau_addr) with (state_config_at scs tau_addr).
  set (tau := state_config_at scs tau_addr).
  destruct (state_config_at_range states tau_addr Htau) as (Hs & Hc & Hback).
  fold scs states2scs in Hs, Hc, Hback. fold tau in Hs, Hc, Hback.
  set (s := state tau) in *. set (cfgs := configs (state_at states s)) in *.
  change (config_of states tau) with (at_ 0 cfgs (config_in_state tau)).
  set (config_i := at_ 0 cfgs (config_in_state tau)).
  destruct (decide (dot (config_at cs config_i) ≠ 0)) as [Hdot|Hdot].
  { simpl. split_and!; [done..|]. intros sc_i Hi. split; [|done].
    intros (H0 & _). done. }
  apply dec_stable in Hdot.
  set (hit := λ cis_j,
         at_ 0 cfgs cis_j ≠ config_i
         ∧ dot (config_at cs (at_ 0 cfgs cis_j)) = 0
         ∧ grammar.lhs (prod_at g (production (config_at cs config_i)))
           = grammar.lhs (prod_at g (production (config_at cs (at_ 0 cfgs cis_j))))).
  set (P := λ (i : Z) (acc : list (gset Z) * list bool),
         isize acc.1 = isize scs
         ∧ isize acc.2 = isize scs
         ∧ ∀ sc_i, 0 ≤ sc_i < isize scs →
             let sc := state_config_at scs sc_i in
             (state sc = s ∧ config_in_state sc < i ∧ hit (config_in_state sc) →
                at_ ∅ acc.1 sc_i = at_ ∅ contexts tau_addr ∧ at_ false acc.2 sc_i = true)
             ∧ (¬ (state sc = s ∧ config_in_state sc < i ∧ hit (config_in_state sc)) →
                  at_ ∅ acc.1 sc_i = at_ ∅ contexts sc_i
                  ∧ at_ false acc.2 sc_i = at_ false complete sc_i)).
  match goal with
  | |- context [foldl ?f ?a (seqZ 0 ?n)] =>
      assert (Hfinal : P (0 + n) (foldl f a (seqZ 0 n)))
  end.
  { apply (foldl_seqZ_inv P); [apply isize_nonneg| |].
    - split_and!; [done..|]. intros sc_i Hi sc. split; [|done].
      intros (_ & Hlt & _).
      destruct (state_config_at_range states sc_i Hi) as (_ & Hge & _).
      fold scs in Hge. fold sc in Hge. lia.
    - intros i [ctxs compl] Hi (H1 & H2 & H3). cbn [fst snd] in H1, H2, H3.
      assert (Hskip : ¬ hit i → P (i + 1) (ctxs, compl)).
      { intros Hno. split_and!; [done..|]. intros sc_i Hsc sc.
        destruct (H3 sc_i Hsc) as [Hy Hn]. fold sc in Hy, Hn. split.
        - intros (Hst & Hlt & Hh). apply Hy. split_and!; [done| |done].
          destruct (decide (config_in_state sc = i)) as [Heq|?]; [|lia].
          rewrite Heq in Hh. done.
        - intros Hno'. apply Hn. intros (Hst & Hlt & Hh). apply Hno'.
          split_and!; [done|lia|done]. }
      destruct (decide (at_ 0 cfgs i = config_i)) as [He|He].
      { apply Hskip. intros (? & _). done. }
      destruct (decide (dot (config_at cs (at_ 0 cfgs i)) ≠ 0)) as [Hd|Hd].
      { apply Hskip. intros (_ & ? & _). done. }
      destruct (decide (grammar.lhs (prod_at g (production (config_at cs config_i)))
                        ≠ grammar.lhs (prod_at g (production
                                                    (config_at cs (at_ 0 cfgs i))))))
        as [Hl|Hl].
      { apply Hskip. intros (_ & _ & ?). done. }
      apply dec_stable in Hd. apply dec_stable in Hl.
      destruct (state_config_of_range states s i Hs ltac:(fold cfgs; lia)) as [Hr Hat].
      fold scs states2scs in Hr, Hat.
      set (tau' := state_config_of states2scs s i) in *.
      assert (Htau_same : at_ ∅ ctxs tau_addr = at_ ∅ contexts tau_addr).
      { destruct (H3 tau_addr Htau) as [_ Hn]. apply Hn.
        fold tau. intros (_ & _ & Hne & _). done. }
      split_and!; cbn [fst snd].
      + unfold isize. rewrite length_insert. apply H1.
      + unfold isize. rewrite length_insert. apply H2.
      + intros sc_i Hsc. set (sc := state_config_at scs sc_i).
        destruct (decide (sc_i = tau')) as [->|Hne].
        * rewrite !at_insert_eq by lia. split; [done|].
          intros Hno. destruct Hno. unfold sc. rewrite Hat. simpl.
          split_and!; [done|lia|done].
        * rewrite !at_insert_ne by lia.
          destruct (H3 sc_i Hsc) as [Hy Hn]. fold sc in Hy, Hn.
          assert (Hother : ¬ (state sc = s ∧ config_in_state sc = i)).
          { intros [Hst Hci]. apply Hne.
            destruct (state_config_at_range states sc_i Hsc) as (_ & _ & Hb).
            fold scs states2scs in Hb. fold sc in Hb. rewrite Hst, Hci in Hb. done. }
          split.
          -- intros (Hst & Hlt & Hh). apply Hy. split_and!; [done| |done].
             destruct (decide (config_in_state sc = i)); [|lia]. by destruct Hother.
          -- intros Hno. apply Hn. intros (Hst & Hlt & Hh). apply Hno.
             split_and!; [done|lia|done]. }
  destruct Hfinal as (H1 & H2 & H3). split_and!; [done..|].
  intros sc_i Hsc. destruct (H3 sc_i Hsc) as [Hy Hn].
  destruct (state_config_at_range states sc_i Hsc) as (_ & Hci & _).
  fold scs in Hci.
  set (sc := state_config_at scs sc_i) in *.
  assert (Hiff : (state sc = s ∧ config_in_state sc < 0 + isize cfgs ∧ hit (config_in_state sc))
                 ↔ (dot (config_at cs config_i) = 0 ∧ state sc = s
                    ∧ config_of states sc ≠ config_i
                    ∧ dot (config_at cs (config_of states sc)) = 0
                    ∧ grammar.lhs (prod_at g (production (config_at cs (config_of states sc))))
                      = grammar.lhs (prod_at g (production (config_at cs config_i))))).
  { unfold hit, config_of. split.
    - intros (Hst & _ & Hne & Hd & Hl). rewrite Hst. fold cfgs. by split_and!.
    - intros (_ & Hst & Hne & Hd & Hl). rewrite Hst in *. fold cfgs in Hne, Hd, Hl, Hci.
      split_and!; [done|lia|done..]. }
  split.
  - intros Hsib. apply Hy, Hiff, Hsib.
  - intros Hno. apply Hn. intros Hc'. apply Hno, Hiff, Hc'.
Qed.

Lemma heuristic_propagation_copies_to_siblings_witness :
  isize (heuristic_propagation_of_context_sets 0 (replicate 9 {[3]}) (replicate 9 false)
           sum_state_configs sum_states sum_states2scs (make_configs sum_grammar)
           sum_grammar).1
  = isize sum_state_configs
  ∧ isize (heuristic_propagation_of_context_sets 0 (replicate 9 {[3]}) (replicate 9 false)
             sum_state_configs sum_states sum_states2scs (make_configs sum_grammar)
             sum_grammar).2
    = isize sum_state_configs
  ∧ ∀ sc_i, 0 ≤ sc_i < isize sum_state_configs →
      (sibling sum_state_configs sum_states (make_configs sum_grammar) sum_grammar 0 sc_i →
         at_ ∅ (heuristic_propagation_of_context_sets 0 (replicate 9 {[3]})
                  (replicate 9 false) sum_state_configs sum_states sum_states2scs
                  (make_configs sum_grammar) sum_grammar).1 sc_i
         = at_ ∅ (replicate 9 {[3]}) 0
         ∧ at_ false (heuristic_propagation_of_context_sets 0 (replicate 9 {[3]})
                        (replicate 9 false) sum_state_configs sum_states sum_states2scs
                        (make_configs sum_grammar) sum_grammar).2 sc_i
           = true)
      ∧ (¬ sibling sum_state_configs sum_states (make_configs sum_grammar) sum_grammar 0 sc_i →
           at_ ∅ (heuristic_propagation_of_context_sets 0 (replicate 9 {[3]})
                    (replicate 9 false) sum_state_configs sum_states sum_states2scs
                    (make_configs sum_grammar) sum_grammar).1 sc_i
           = at_ ∅ (replicate 9 {[3]}) sc_i
           ∧ at_ false (heuristic_propagation_of_context_sets 0 (replicate 9 {[3]})
                          (replicate 9 false) sum_state_configs sum_states sum_states2scs
                          (make_configs sum_grammar) sum_grammar).2 sc_i
             = at_ false (replicate 9 false) sc_i).
Proof.
  apply (heuristic_propagation_copies_to_siblings sum_states (make_configs sum_grammar)
           sum_grammar 0 (replicate 9 {[3]}) (replicate 9 false)).
  - vm_compute. split; [discriminate|reflexivity].
  - reflexivity.
  - reflexivity.
Defined.

(** In the worked example the configuration [S ::= . INT] of state 0 has one
    sibling, [S ::= . S + INT]; the configuration [accept ::= . S end] has
    another left-hand side. *)
Lemma heuristic_propagation_sum_grammar :
  (heuristic_propagation_of_context_sets 0 (replicate 9 {[3]}) (replicate 9 false)
     sum_state_configs sum_states sum_states2scs (make_configs sum_grammar) sum_grammar).2
  = [false; true; false; false; false; false; false; false; false].
Proof. vm_compute. reflexivity. Qed.

(** ** The start of the lane tracing *)

Lemma at_alter {A} (d : A) (f : A → A) (l : list A) (i j : Z) :
  0 ≤ i < isize l → 0 ≤ j →
  at_ d (alter f (Z.to_nat i) l) j = if decide (j = i) then f (at_ d l j) else at_ d l j.
Proof.
  intros Hi Hj. rewrite !at_default. destruct (decide (j = i)) as [->|Hne].
  - rewrite list_lookup_alter_eq.
    destruct (lookup_lt_is_Some_2 l (Z.to_nat i)) as [x Hx]; [unfold isize in Hi; lia|].
    by rewrite Hx.
  - by rewrite list_lookup_alter_ne by lia.
Qed.

(** X29: [init_contexts], the start of the lane tracing, gives every
    state-configuration one context set and one completion mark; the
    state-configurations of the accept production start complete with the end
    terminal as their only context, all others start incomplete with an empty
    context. *)
Theorem init_contexts_marks_accept_configurations (out : parser_in_progress.t) :
  let scs := parser_in_progress.state_configs out in
  let g := parser_in_progress.grammar out in
  isize (init_contexts out).1 = isize scs
  ∧ isize (init_contexts out).2 = isize scs
  ∧ ∀ sc_i, 0 ≤ sc_i < isize scs →
      if decide (production
                   (config_at (parser_in_progress.configs out)
                      (config_of (parser_in_progress.states out) (state_config_at scs sc_i)))
                 = get_accept_production g)
      then at_ ∅ (init_contexts out).1 sc_i = {[get_end_terminal g]}
           ∧ at_ false (init_contexts out).2 sc_i = true
      else at_ ∅ (init_contexts out).1 sc_i = ∅
           ∧ at_ false (init_contexts out).2 sc_i = false.
Proof.
  intros scs g.
  set (accept sc_i :=
         production
           (config_at (parser_in_progress.configs out)
              (config_of (parser_in_progress.states out) (state_config_at scs sc_i)))
         = get_accept_production g).
  set (P := λ (i : Z) (acc : list (gset Z) * list bool),
         isize acc.1 = isize scs
         ∧ isize acc.2 = isize scs
         ∧ ∀ sc_i, 0 ≤ sc_i < isize scs →
             if decide (sc_i < i ∧ accept sc_i)
             then at_ ∅ acc.1 sc_i = {[get_end_terminal g]} ∧ at_ false acc.2 sc_i = true
             else at_ ∅ acc.1 sc_i = ∅ ∧ at_ false acc.2 sc_i = false).
  pose proof (isize_nonneg scs) as Hn.
  assert (Hfinal : P (0 + isize scs) (init_contexts out)).
  { unfold init_contexts. fold scs. fold g. apply (foldl_seqZ_inv P); [done| |].
    - split_and!; cbn [fst snd].
      + unfold isize. rewrite length_replicate. lia.
      + unfold isize. rewrite length_replicate. lia.
      + intros sc_i Hi. rewrite decide_False by lia. by rewrite !at_replicate.
    - intros i [ctxs compl] Hi (H1 & H2 & H3). cbn [fst snd] in H1, H2, H3.
      change (at_ (mkStateConfig 0 0) scs i) with (state_config_at scs i).
      change (at_ 0 (configs (state_at (parser_in_progress.states out)
                                (state (state_config_at scs i))))
                  (config_in_state (state_config_at scs i)))
        with (config_of (parser_in_progress.states out) (state_config_at scs i)).
      fold (accept i). destruct (decide (accept i)) as [Ha|Ha].
      + split_and!; cbn [fst snd].
        * by rewrite isize_alter.
        * unfold isize. rewrite length_insert. apply H2.
        * intros sc_i Hsc. specialize (H3 sc_i Hsc).
          rewrite at_alter by lia.
          destruct (decide (sc_i = i)) as [->|Hne].
          -- rewrite at_insert_eq by lia. rewrite decide_True by (split; [lia|done]).
             rewrite decide_False in H3 by lia. destruct H3 as [-> _].
             by rewrite union_empty_r_L.
          -- rewrite at_insert_ne by lia.
             destruct (decide (sc_i < i ∧ accept sc_i)) as [[? ?]|Hno].
             ++ by rewrite decide_True by (split; [lia|done]).
             ++ rewrite decide_False; [done|]. intros [? ?]. apply Hno. split; [lia|done].
      + split_and!; [done..|]. intros sc_i Hsc. specialize (H3 sc_i Hsc).
        cbn [fst snd].
        destruct (decide (sc_i < i ∧ accept sc_i)) as [[? ?]|Hno].
        * by rewrite decide_True by (split; [lia|done]).
        * rewrite decide_False; [done|]. intros [? ?].
          destruct (decide (sc_i = i)) as [->|?]; [done|]. apply Hno. split; [lia|done]. }
  destruct Hfinal as (H1 & H2 & H3). split_and!; [done..|].
  intros sc_i Hsc. specialize (H3 sc_i Hsc). fold (accept sc_i).
  destruct (decide (accept sc_i)) as [Ha|Ha].
  - by rewrite decide_True in H3 by (split; [lia|done]).
  - rewrite decide_False in H3; [done|]. intros [_ ?]. done.
Qed.

(** ** The follow string *)

Lemma fmap_at_seqZ (l : list Z) (m : Z) :
  0 ≤ m ≤ isize l →
  (λ i, at_ 0 l i) <$> seqZ m (isize l - m) = drop (Z.to_nat m) l.
Proof.
  intros Hm. apply list_eq. intros k. rewrite list_lookup_fmap, lookup_drop.
  destruct (decide (Z.of_nat k < isize l - m)) as [Hlt|Hge].
  - rewrite (proj2 (lookup_seqZ m _ k (m + Z.of_nat k))) by lia. simpl.
    rewrite at_default.
    replace (Z.to_nat (m + Z.of_nat k)) with (Z.to_nat m + k)%nat by lia.
    destruct (lookup_lt_is_Some_2 l (Z.to_nat m + k)) as [x Hx]; [unfold isize in *; lia|].
    by rewrite Hx.
  - rewrite lookup_ge_None_2 by (rewrite length_seqZ; lia). simpl.
    symmetry. apply lookup_ge_None_2. unfold isize in *. lia.
Qed.

(** X30: for a state-configuration whose dot is at a position of its
    production, [get_follow_string] returns the symbols of the right-hand
    side after the symbol that follows the dot; it is empty when the dot
    stands in front of the last symbol or at the end. *)
Theorem get_follow_string_skips_the_symbol_after_the_dot (sc_addr : Z)
    (scs : list state_config) (states : list state_in_progress) (cs : list config)
    (g : grammar.t) :
  0 ≤ dot (config_at cs (config_of states (state_config_at scs sc_addr))) →
  get_follow_string sc_addr scs states cs g
  = drop (Z.to_nat (dot (config_at cs (config_of states (state_config_at scs sc_addr))) + 1))
         (grammar.rhs
            (prod_at g
               (production (config_at cs (config_of states (state_config_at scs sc_addr)))))).
Proof.
  intros Hdot. unfold get_follow_string.
  change (at_ (mkStateConfig 0 0) scs sc_addr) with (state_config_at scs sc_addr).
  change (at_ 0 (configs (state_at states (state (state_config_at scs sc_addr))))
              (config_in_state (state_config_at scs sc_addr)))
    with (config_of states (state_config_at scs sc_addr)).
  set (config := config_at cs (config_of states (state_config_at scs sc_addr))) in *.
  set (rhs := grammar.rhs (prod_at g (production config))).
  cbv zeta. destruct (decide (isize rhs - (dot config + 1) < 1)) as [Hsmall|Hbig].
  - symmetry. apply drop_ge. unfold isize in Hsmall. lia.
  - rewrite foldl_snoc_fmap. simpl. apply fmap_at_seqZ. lia.
Qed.

Lemma get_follow_string_skips_the_symbol_after_the_dot_witness :
  get_follow_string 1 sum_state_configs sum_states (make_configs sum_grammar) sum_grammar
  = drop (Z.to_nat (dot (config_at (make_configs sum_grammar)
                           (config_of sum_states (state_config_at sum_state_configs 1)))
                    + 1))
         (grammar.rhs
            (prod_at sum_grammar
               (production (config_at (make_configs sum_grammar)
                              (config_of sum_states
                                 (state_config_at sum_state_configs 1)))))).
Proof.
  apply (get_follow_string_skips_the_symbol_after_the_dot 1 sum_state_configs sum_states
           (make_configs sum_grammar) sum_grammar).
  vm_compute. discriminate.
Defined.

(** The follow string of [S ::= . S + INT] is [+ INT]. *)
Lemma get_follow_string_sum_grammar :
  get_follow_string 1 sum_state_configs sum_states (make_configs sum_grammar) sum_grammar
  = [2; 0].
Proof. vm_compute. reflexivity. Qed.
